(** * LP management of SCIP, release of 2002-2003: columns, rows, the LP
      and the linear constraint handler's bound tightening.

    Shallow embedding of [src/scip/lp.c] and of the activity and tightening
    routines of [src/scip/cons_linear.c].

    - [Real] is C's [double]: the kernel's binary64 floats, with the
      C operators [+ - * /], unary minus and [<].
    - [int] is [Z]; no routine below relies on wrap-around.
    - A pointer to a column, a row or a variable is a natural number, and
      the memory is a store of total maps from pointers to structs, so
      that two references to one struct see each other's writes.
    - An array is a list together with the struct's [len] field. A read
      outside the list yields a default, a store at the end of the list
      extends it (the memory reserved by the [ensure...Size] routines),
      a store at a negative index does nothing. The source only reads and
      writes inside the reserved size (its assertions say so).
    - A routine that returns [RETCODE] is a function from the store to a
      result and the store it leaves: an error keeps the writes done
      before it, as in C. Memory allocation always succeeds. *)

From Stdlib Require Import ZArith List Bool Lia PrimFloat Sorted.
Import ListNotations.
Local Open Scope Z_scope.

Set Implicit Arguments.

(** ** Base types *)

Abbreviation Real := float (only parsing).
Definition ptr : Type := nat.
(** the null pointer; structs live at the other pointers *)
Definition NULL : ptr := 0%nat.

(** [val > 0.0] *)
Definition Rpos (x : Real) : bool := (0 <? x)%float.

(** MIN, MAX, ABS and SQR of def.h, on [int] and on [Real]. *)
Definition MINz (a b : Z) : Z := if a <? b then a else b.
Definition MAXz (a b : Z) : Z := if b <? a then a else b.
Definition MAXr (a b : Real) : Real := if (b <? a)%float then a else b.
Definition ABSr (x : Real) : Real := if (x <? 0)%float then (- x)%float else x.
Definition SQR (x : Real) : Real := (x * x)%float.

Definition INT_MAX : Z := 2147483647.
Definition INT_MIN : Z := -2147483648.

(** return codes used by the LP routines *)
Inductive RETCODE : Type :=
| SCIP_OKAY
| SCIP_ERROR
| SCIP_NOMEMORY
| SCIP_INVALIDDATA
| SCIP_LPERROR.

Definition RETCODE_eqb (a b : RETCODE) : bool :=
  match a, b with
  | SCIP_OKAY, SCIP_OKAY | SCIP_ERROR, SCIP_ERROR | SCIP_NOMEMORY, SCIP_NOMEMORY
  | SCIP_INVALIDDATA, SCIP_INVALIDDATA | SCIP_LPERROR, SCIP_LPERROR => true
  | _, _ => false
  end.

Inductive BOUNDTYPE : Type := SCIP_BOUNDTYPE_LOWER | SCIP_BOUNDTYPE_UPPER.
Inductive SIDETYPE : Type := SCIP_SIDETYPE_LEFT | SCIP_SIDETYPE_RIGHT.

Definition BOUNDTYPE_eqb (a b : BOUNDTYPE) : bool :=
  match a, b with
  | SCIP_BOUNDTYPE_LOWER, SCIP_BOUNDTYPE_LOWER
  | SCIP_BOUNDTYPE_UPPER, SCIP_BOUNDTYPE_UPPER => true
  | _, _ => false
  end.

(** solution status after solving the LP *)
Inductive LPSOLSTAT : Type :=
| SCIP_LPSOLSTAT_NOTSOLVED
| SCIP_LPSOLSTAT_OPTIMAL
| SCIP_LPSOLSTAT_INFEASIBLE
| SCIP_LPSOLSTAT_UNBOUNDED
| SCIP_LPSOLSTAT_OBJLIMIT
| SCIP_LPSOLSTAT_ITERLIMIT
| SCIP_LPSOLSTAT_TIMELIMIT
| SCIP_LPSOLSTAT_ERROR.

(** ** Arrays *)

Section Arrays.
Variable A : Type.
Variable d : A.

(** [a[i]] *)
Definition aget (a : list A) (i : Z) : A :=
  if i <? 0 then d else nth (Z.to_nat i) a d.

Fixpoint store_at (a : list A) (n : nat) (v : A) : list A :=
  match n, a with
  | O, [] => [v]
  | O, _ :: t => v :: t
  | S k, [] => d :: store_at [] k v
  | S k, x :: t => x :: store_at t k v
  end.

(** [a[i] = v] *)
Definition aset (a : list A) (i : Z) (v : A) : list A :=
  if i <? 0 then a else store_at a (Z.to_nat i) v.

(** the entries [a[0..n-1]] of an array of [n] used entries *)
Definition prefix (a : list A) (n : Z) : list A := firstn (Z.to_nat n) a.

End Arrays.

(** total maps from pointers to structs *)
Definition upd (T : Type) (m : ptr -> T) (p : ptr) (v : T) : ptr -> T :=
  fun q => if Nat.eqb q p then v else m q.

(** [for( i = lo; i < hi; ++i ) body]: the bounds are read once; no loop
    body of the source changes the bound of its own loop. *)
Fixpoint for_nat (S : Type) (n : nat) (i : Z) (body : Z -> S -> S) (s : S) : S :=
  match n with
  | O => s
  | Datatypes.S k => for_nat k (i + 1) body (body i s)
  end.

Definition for_range (S : Type) (lo hi : Z) (body : Z -> S -> S) (s : S) : S :=
  for_nat (Z.to_nat (hi - lo)) lo body s.

(** ** Settings *)

(** SET (set.h): the numerical comparisons of set.c are not part of the
    sources; a value of [SET] carries them, so that every statement below
    holds for whatever tolerances the settings use. *)
Record SET : Type := mkSET {
  set_infinity : Real;                      (* set->infinity *)
  set_feastol : Real;                       (* set->feastol *)
  SCIPsetIsInfinity : Real -> bool;         (* value is (positive) infinite *)
  SCIPsetIsZero : Real -> bool;             (* value is in range epsilon of 0.0 *)
  SCIPsetIsEQ : Real -> Real -> bool;       (* values are in range of epsilon *)
  SCIPsetIsGT : Real -> Real -> bool;       (* val1 is greater than val2 + epsilon *)
  SCIPsetIsGE : Real -> Real -> bool        (* val1 is not less than val2 - epsilon *)
}.

(** ** The LP solver interface *)

(** The calls lp.c sends to the solver, with the data it passes (the
    names of columns and rows apart). *)
Inductive LPICALL : Type :=
| LpiDelCols (firstcol lastcol : Z)
| LpiDelRows (firstrow lastrow : Z)
| LpiChgBounds (n : Z) (ind : list Z) (lb ub : list Real)
| LpiChgSides (n : Z) (ind : list Z) (lhs rhs : list Real)
| LpiAddCols (ncol : Z) (obj lb ub : list Real) (nnonz : Z) (beg ind : list Z)
    (val : list Real)
| LpiAddRows (nrow : Z) (lhs rhs : list Real) (nnonz : Z) (beg ind : list Z)
    (val : list Real)
| LpiSolvePrimal.

Inductive LPPARAM : Type := SCIP_LPPAR_LPIT1 | SCIP_LPPAR_LPIT2.

(** The solver handle [lp->lpi]. The solver itself is outside the sources:
    its state is the history of the calls it received, and what it answers
    to a call or a query is a function of that history carried by the
    handle. *)
Record LPI : Type := mkLPI {
  lpi_calls : list LPICALL;                              (* oldest call first *)
  lpi_answer : list LPICALL -> LPICALL -> RETCODE;       (* return code of a call *)
  lpi_infinity : Real;                                   (* SCIPlpiInfinity *)
  lpi_basisfeas : list LPICALL -> RETCODE * (bool * bool);
  lpi_optimal : list LPICALL -> bool;
  lpi_priminfeasible : list LPICALL -> bool;
  lpi_primunbounded : list LPICALL -> bool;
  lpi_iterlimexc : list LPICALL -> bool;
  lpi_timelimexc : list LPICALL -> bool;
  lpi_objlimexc : list LPICALL -> bool;
  lpi_objval : list LPICALL -> RETCODE * Real;
  lpi_intpar : list LPICALL -> LPPARAM -> RETCODE * Z
}.

Definition SCIPlpiInfinity (lpi : LPI) : Real := lpi_infinity lpi.
Definition SCIPlpiIsOptimal (lpi : LPI) : bool := lpi_optimal lpi (lpi_calls lpi).
Definition SCIPlpiIsPrimalInfeasible (lpi : LPI) : bool :=
  lpi_priminfeasible lpi (lpi_calls lpi).
Definition SCIPlpiIsPrimalUnbounded (lpi : LPI) : bool :=
  lpi_primunbounded lpi (lpi_calls lpi).
Definition SCIPlpiIsIterlimExc (lpi : LPI) : bool := lpi_iterlimexc lpi (lpi_calls lpi).
Definition SCIPlpiIsTimelimExc (lpi : LPI) : bool := lpi_timelimexc lpi (lpi_calls lpi).
Definition SCIPlpiIsObjlimExc (lpi : LPI) : bool := lpi_objlimexc lpi (lpi_calls lpi).
Definition SCIPlpiGetBasisFeasibility (lpi : LPI) : RETCODE * (bool * bool) :=
  lpi_basisfeas lpi (lpi_calls lpi).
Definition SCIPlpiGetObjval (lpi : LPI) : RETCODE * Real := lpi_objval lpi (lpi_calls lpi).
Definition SCIPlpiGetIntpar (lpi : LPI) (p : LPPARAM) : RETCODE * Z :=
  lpi_intpar lpi (lpi_calls lpi) p.

(** a call to the solver: it is appended to the history, and the solver
    answers with a return code *)
Definition lpiCall (c : LPICALL) (lpi : LPI) : RETCODE * LPI :=
  (lpi_answer lpi (lpi_calls lpi) c,
   mkLPI (lpi_calls lpi ++ [c]) (lpi_answer lpi) (lpi_infinity lpi) (lpi_basisfeas lpi)
     (lpi_optimal lpi) (lpi_priminfeasible lpi) (lpi_primunbounded lpi)
     (lpi_iterlimexc lpi) (lpi_timelimexc lpi) (lpi_objlimexc lpi) (lpi_objval lpi)
     (lpi_intpar lpi)).

(** ** Structs *)

(** variable: objective value and current domain (var.h) *)
Record VAR : Type := mkVAR {
  var_obj : Real;   (* var->obj *)
  var_lb : Real;    (* var->dom.lb *)
  var_ub : Real     (* var->dom.ub *)
}.

(** problem statistics (stat.h), the counters lp.c uses *)
Record STAT : Type := mkSTAT {
  stat_ncolidx : Z;
  stat_nrowidx : Z;
  stat_nlp : Z;
  stat_nprimallp : Z;
  stat_nlpiterations : Z;
  stat_nprimallpiterations : Z
}.

(** LP column (struct Col): capacity field [size] is left out, arrays grow on a store at their end. *)
Record COL : Type := mkCOL {
  col_var : ptr;  (* variable, this column represents *)
  col_rows : list ptr;  (* rows of column entries *)
  col_vals : list Real;  (* coefficients of column entries *)
  col_linkpos : list Z;  (* position of col in the rows' col arrays, or -1 *)
  col_index : Z;  (* consecutively numbered column identifier *)
  col_len : Z;  (* number of nonzeros in column *)
  col_nunlinked : Z;  (* number of entries the rows do not know about *)
  col_lppos : Z;  (* position in actual LP, or -1 *)
  col_lpipos : Z;  (* position in the LP solver, or -1 *)
  col_primsol : Real;  (* primal solution value in LP *)
  col_redcost : Real;  (* reduced cost value in LP *)
  col_farkas : Real;  (* value in dual farkas infeasibility proof *)
  col_strongdown : Real;  (* strong branching information, downwards *)
  col_strongup : Real;  (* strong branching information, upwards *)
  col_validredcostlp : Z;  (* lp number for which redcost is valid *)
  col_validfarkaslp : Z;  (* lp number for which farkas is valid *)
  col_strongitlim : Z;  (* iteration limit used for strong branching *)
  col_sorted : bool;  (* are the entries sorted by row index? *)
  col_lbchanged : bool;  (* lower bound changed, data not flushed *)
  col_ubchanged : bool;  (* upper bound changed, data not flushed *)
  col_coefchanged : bool  (* coefficient changed, data not flushed *)
}.

Definition set_col_var (v : ptr) (x : COL) : COL :=
  mkCOL v (col_rows x) (col_vals x) (col_linkpos x) (col_index x) (col_len x) (col_nunlinked x)
    (col_lppos x) (col_lpipos x) (col_primsol x) (col_redcost x) (col_farkas x)
    (col_strongdown x) (col_strongup x) (col_validredcostlp x) (col_validfarkaslp x)
    (col_strongitlim x) (col_sorted x) (col_lbchanged x) (col_ubchanged x) (col_coefchanged x).
Definition set_col_rows (v : list ptr) (x : COL) : COL :=
  mkCOL (col_var x) v (col_vals x) (col_linkpos x) (col_index x) (col_len x) (col_nunlinked x)
    (col_lppos x) (col_lpipos x) (col_primsol x) (col_redcost x) (col_farkas x)
    (col_strongdown x) (col_strongup x) (col_validredcostlp x) (col_validfarkaslp x)
    (col_strongitlim x) (col_sorted x) (col_lbchanged x) (col_ubchanged x) (col_coefchanged x).
Definition set_col_vals (v : list Real) (x : COL) : COL :=
  mkCOL (col_var x) (col_rows x) v (col_linkpos x) (col_index x) (col_len x) (col_nunlinked x)
    (col_lppos x) (col_lpipos x) (col_primsol x) (col_redcost x) (col_farkas x)
    (col_strongdown x) (col_strongup x) (col_validredcostlp x) (col_validfarkaslp x)
    (col_strongitlim x) (col_sorted x) (col_lbchanged x) (col_ubchanged x) (col_coefchanged x).
Definition set_col_linkpos (v : list Z) (x : COL) : COL :=
  mkCOL (col_var x) (col_rows x) (col_vals x) v (col_index x) (col_len x) (col_nunlinked x)
    (col_lppos x) (col_lpipos x) (col_primsol x) (col_redcost x) (col_farkas x)
    (col_strongdown x) (col_strongup x) (col_validredcostlp x) (col_validfarkaslp x)
    (col_strongitlim x) (col_sorted x) (col_lbchanged x) (col_ubchanged x) (col_coefchanged x).
Definition set_col_index (v : Z) (x : COL) : COL :=
  mkCOL (col_var x) (col_rows x) (col_vals x) (col_linkpos x) v (col_len x) (col_nunlinked x)
    (col_lppos x) (col_lpipos x) (col_primsol x) (col_redcost x) (col_farkas x)
    (col_strongdown x) (col_strongup x) (col_validredcostlp x) (col_validfarkaslp x)
    (col_strongitlim x) (col_sorted x) (col_lbchanged x) (col_ubchanged x) (col_coefchanged x).
Definition set_col_len (v : Z) (x : COL) : COL :=
  mkCOL (col_var x) (col_rows x) (col_vals x) (col_linkpos x) (col_index x) v (col_nunlinked x)
    (col_lppos x) (col_lpipos x) (col_primsol x) (col_redcost x) (col_farkas x)
    (col_strongdown x) (col_strongup x) (col_validredcostlp x) (col_validfarkaslp x)
    (col_strongitlim x) (col_sorted x) (col_lbchanged x) (col_ubchanged x) (col_coefchanged x).
Definition set_col_nunlinked (v : Z) (x : COL) : COL :=
  mkCOL (col_var x) (col_rows x) (col_vals x) (col_linkpos x) (col_index x) (col_len x) v
    (col_lppos x) (col_lpipos x) (col_primsol x) (col_redcost x) (col_farkas x)
    (col_strongdown x) (col_strongup x) (col_validredcostlp x) (col_validfarkaslp x)
    (col_strongitlim x) (col_sorted x) (col_lbchanged x) (col_ubchanged x) (col_coefchanged x).
Definition set_col_lppos (v : Z) (x : COL) : COL :=
  mkCOL (col_var x) (col_rows x) (col_vals x) (col_linkpos x) (col_index x) (col_len x)
    (col_nunlinked x) v (col_lpipos x) (col_primsol x) (col_redcost x) (col_farkas x)
    (col_strongdown x) (col_strongup x) (col_validredcostlp x) (col_validfarkaslp x)
    (col_strongitlim x) (col_sorted x) (col_lbchanged x) (col_ubchanged x) (col_coefchanged x).
Definition set_col_lpipos (v : Z) (x : COL) : COL :=
  mkCOL (col_var x) (col_rows x) (col_vals x) (col_linkpos x) (col_index x) (col_len x)
    (col_nunlinked x) (col_lppos x) v (col_primsol x) (col_redcost x) (col_farkas x)
    (col_strongdown x) (col_strongup x) (col_validredcostlp x) (col_validfarkaslp x)
    (col_strongitlim x) (col_sorted x) (col_lbchanged x) (col_ubchanged x) (col_coefchanged x).
Definition set_col_primsol (v : Real) (x : COL) : COL :=
  mkCOL (col_var x) (col_rows x) (col_vals x) (col_linkpos x) (col_index x) (col_len x)
    (col_nunlinked x) (col_lppos x) (col_lpipos x) v (col_redcost x) (col_farkas x)
    (col_strongdown x) (col_strongup x) (col_validredcostlp x) (col_validfarkaslp x)
    (col_strongitlim x) (col_sorted x) (col_lbchanged x) (col_ubchanged x) (col_coefchanged x).
Definition set_col_redcost (v : Real) (x : COL) : COL :=
  mkCOL (col_var x) (col_rows x) (col_vals x) (col_linkpos x) (col_index x) (col_len x)
    (col_nunlinked x) (col_lppos x) (col_lpipos x) (col_primsol x) v (col_farkas x)
    (col_strongdown x) (col_strongup x) (col_validredcostlp x) (col_validfarkaslp x)
    (col_strongitlim x) (col_sorted x) (col_lbchanged x) (col_ubchanged x) (col_coefchanged x).
Definition set_col_farkas (v : Real) (x : COL) : COL :=
  mkCOL (col_var x) (col_rows x) (col_vals x) (col_linkpos x) (col_index x) (col_len x)
    (col_nunlinked x) (col_lppos x) (col_lpipos x) (col_primsol x) (col_redcost x) v
    (col_strongdown x) (col_strongup x) (col_validredcostlp x) (col_validfarkaslp x)
    (col_strongitlim x) (col_sorted x) (col_lbchanged x) (col_ubchanged x) (col_coefchanged x).
Definition set_col_strongdown (v : Real) (x : COL) : COL :=
  mkCOL (col_var x) (col_rows x) (col_vals x) (col_linkpos x) (col_index x) (col_len x)
    (col_nunlinked x) (col_lppos x) (col_lpipos x) (col_primsol x) (col_redcost x) (col_farkas x)
    v (col_strongup x) (col_validredcostlp x) (col_validfarkaslp x) (col_strongitlim x)
    (col_sorted x) (col_lbchanged x) (col_ubchanged x) (col_coefchanged x).
Definition set_col_strongup (v : Real) (x : COL) : COL :=
  mkCOL (col_var x) (col_rows x) (col_vals x) (col_linkpos x) (col_index x) (col_len x)
    (col_nunlinked x) (col_lppos x) (col_lpipos x) (col_primsol x) (col_redcost x) (col_farkas x)
    (col_strongdown x) v (col_validredcostlp x) (col_validfarkaslp x) (col_strongitlim x)
    (col_sorted x) (col_lbchanged x) (col_ubchanged x) (col_coefchanged x).
Definition set_col_validredcostlp (v : Z) (x : COL) : COL :=
  mkCOL (col_var x) (col_rows x) (col_vals x) (col_linkpos x) (col_index x) (col_len x)
    (col_nunlinked x) (col_lppos x) (col_lpipos x) (col_primsol x) (col_redcost x) (col_farkas x)
    (col_strongdown x) (col_strongup x) v (col_validfarkaslp x) (col_strongitlim x)
    (col_sorted x) (col_lbchanged x) (col_ubchanged x) (col_coefchanged x).
Definition set_col_validfarkaslp (v : Z) (x : COL) : COL :=
  mkCOL (col_var x) (col_rows x) (col_vals x) (col_linkpos x) (col_index x) (col_len x)
    (col_nunlinked x) (col_lppos x) (col_lpipos x) (col_primsol x) (col_redcost x) (col_farkas x)
    (col_strongdown x) (col_strongup x) (col_validredcostlp x) v (col_strongitlim x)
    (col_sorted x) (col_lbchanged x) (col_ubchanged x) (col_coefchanged x).
Definition set_col_strongitlim (v : Z) (x : COL) : COL :=
  mkCOL (col_var x) (col_rows x) (col_vals x) (col_linkpos x) (col_index x) (col_len x)
    (col_nunlinked x) (col_lppos x) (col_lpipos x) (col_primsol x) (col_redcost x) (col_farkas x)
    (col_strongdown x) (col_strongup x) (col_validredcostlp x) (col_validfarkaslp x) v
    (col_sorted x) (col_lbchanged x) (col_ubchanged x) (col_coefchanged x).
Definition set_col_sorted (v : bool) (x : COL) : COL :=
  mkCOL (col_var x) (col_rows x) (col_vals x) (col_linkpos x) (col_index x) (col_len x)
    (col_nunlinked x) (col_lppos x) (col_lpipos x) (col_primsol x) (col_redcost x) (col_farkas x)
    (col_strongdown x) (col_strongup x) (col_validredcostlp x) (col_validfarkaslp x)
    (col_strongitlim x) v (col_lbchanged x) (col_ubchanged x) (col_coefchanged x).
Definition set_col_lbchanged (v : bool) (x : COL) : COL :=
  mkCOL (col_var x) (col_rows x) (col_vals x) (col_linkpos x) (col_index x) (col_len x)
    (col_nunlinked x) (col_lppos x) (col_lpipos x) (col_primsol x) (col_redcost x) (col_farkas x)
    (col_strongdown x) (col_strongup x) (col_validredcostlp x) (col_validfarkaslp x)
    (col_strongitlim x) (col_sorted x) v (col_ubchanged x) (col_coefchanged x).
Definition set_col_ubchanged (v : bool) (x : COL) : COL :=
  mkCOL (col_var x) (col_rows x) (col_vals x) (col_linkpos x) (col_index x) (col_len x)
    (col_nunlinked x) (col_lppos x) (col_lpipos x) (col_primsol x) (col_redcost x) (col_farkas x)
    (col_strongdown x) (col_strongup x) (col_validredcostlp x) (col_validfarkaslp x)
    (col_strongitlim x) (col_sorted x) (col_lbchanged x) v (col_coefchanged x).
Definition set_col_coefchanged (v : bool) (x : COL) : COL :=
  mkCOL (col_var x) (col_rows x) (col_vals x) (col_linkpos x) (col_index x) (col_len x)
    (col_nunlinked x) (col_lppos x) (col_lpipos x) (col_primsol x) (col_redcost x) (col_farkas x)
    (col_strongdown x) (col_strongup x) (col_validredcostlp x) (col_validfarkaslp x)
    (col_strongitlim x) (col_sorted x) (col_lbchanged x) (col_ubchanged x) v.

(** LP row (struct Row): [name] and the capacity field [size] are left out. *)
Record ROW : Type := mkROW {
  row_cols : list ptr;  (* columns of row entries *)
  row_vals : list Real;  (* coefficients of row entries *)
  row_linkpos : list Z;  (* position of row in the columns' row arrays, or -1 *)
  row_constant : Real;  (* constant shift c in lhs <= ax + c <= rhs *)
  row_lhs : Real;  (* left hand side *)
  row_rhs : Real;  (* right hand side *)
  row_sqrnorm : Real;  (* squared euclidean norm of the row vector *)
  row_maxval : Real;  (* maximal absolute value of the row vector *)
  row_dualsol : Real;  (* dual solution value in LP *)
  row_activity : Real;  (* row activity value in LP *)
  row_dualfarkas : Real;  (* multiplier in dual farkas infeasibility proof *)
  row_pseudoactivity : Real;  (* row activity in the pseudo solution *)
  row_minactivity : Real;  (* minimal activity w.r.t. the columns' bounds *)
  row_maxactivity : Real;  (* maximal activity w.r.t. the columns' bounds *)
  row_index : Z;  (* consecutively numbered row identifier *)
  row_len : Z;  (* number of nonzeros in row *)
  row_nunlinked : Z;  (* number of entries the columns do not know about *)
  row_nuses : Z;  (* number of times this row is referenced *)
  row_lppos : Z;  (* position in actual LP, or -1 *)
  row_lpipos : Z;  (* position in the LP solver, or -1 *)
  row_minidx : Z;  (* minimal column index of row entries *)
  row_maxidx : Z;  (* maximal column index of row entries *)
  row_nummaxval : Z;  (* number of coefficients with absolute value maxval *)
  row_validactivitylp : Z;  (* lp number for which activity is valid *)
  row_minactivityinf : Z;  (* entries contributing infinitely to minactivity *)
  row_maxactivityinf : Z;  (* entries contributing infinitely to maxactivity *)
  row_sorted : bool;  (* are the entries sorted by column index? *)
  row_validpsactivity : bool;  (* is the pseudo activity valid? *)
  row_validactivitybds : bool;  (* are the activity bounds valid? *)
  row_validminmaxidx : bool;  (* are minidx and maxidx valid? *)
  row_lhschanged : bool;  (* left hand side changed, data not flushed *)
  row_rhschanged : bool;  (* right hand side changed, data not flushed *)
  row_coefchanged : bool;  (* coefficient changed, data not flushed *)
  row_local : bool;  (* is the row only valid locally? *)
  row_modifiable : bool;  (* is the row modifiable during node processing? *)
  row_nlocks : Z  (* number of sealed locks of an unmodifiable row *)
}.

Definition set_row_cols (v : list ptr) (x : ROW) : ROW :=
  mkROW v (row_vals x) (row_linkpos x) (row_constant x) (row_lhs x) (row_rhs x) (row_sqrnorm x)
    (row_maxval x) (row_dualsol x) (row_activity x) (row_dualfarkas x) (row_pseudoactivity x)
    (row_minactivity x) (row_maxactivity x) (row_index x) (row_len x) (row_nunlinked x)
    (row_nuses x) (row_lppos x) (row_lpipos x) (row_minidx x) (row_maxidx x) (row_nummaxval x)
    (row_validactivitylp x) (row_minactivityinf x) (row_maxactivityinf x) (row_sorted x)
    (row_validpsactivity x) (row_validactivitybds x) (row_validminmaxidx x) (row_lhschanged x)
    (row_rhschanged x) (row_coefchanged x) (row_local x) (row_modifiable x) (row_nlocks x).
Definition set_row_vals (v : list Real) (x : ROW) : ROW :=
  mkROW (row_cols x) v (row_linkpos x) (row_constant x) (row_lhs x) (row_rhs x) (row_sqrnorm x)
    (row_maxval x) (row_dualsol x) (row_activity x) (row_dualfarkas x) (row_pseudoactivity x)
    (row_minactivity x) (row_maxactivity x) (row_index x) (row_len x) (row_nunlinked x)
    (row_nuses x) (row_lppos x) (row_lpipos x) (row_minidx x) (row_maxidx x) (row_nummaxval x)
    (row_validactivitylp x) (row_minactivityinf x) (row_maxactivityinf x) (row_sorted x)
    (row_validpsactivity x) (row_validactivitybds x) (row_validminmaxidx x) (row_lhschanged x)
    (row_rhschanged x) (row_coefchanged x) (row_local x) (row_modifiable x) (row_nlocks x).
Definition set_row_linkpos (v : list Z) (x : ROW) : ROW :=
  mkROW (row_cols x) (row_vals x) v (row_constant x) (row_lhs x) (row_rhs x) (row_sqrnorm x)
    (row_maxval x) (row_dualsol x) (row_activity x) (row_dualfarkas x) (row_pseudoactivity x)
    (row_minactivity x) (row_maxactivity x) (row_index x) (row_len x) (row_nunlinked x)
    (row_nuses x) (row_lppos x) (row_lpipos x) (row_minidx x) (row_maxidx x) (row_nummaxval x)
    (row_validactivitylp x) (row_minactivityinf x) (row_maxactivityinf x) (row_sorted x)
    (row_validpsactivity x) (row_validactivitybds x) (row_validminmaxidx x) (row_lhschanged x)
    (row_rhschanged x) (row_coefchanged x) (row_local x) (row_modifiable x) (row_nlocks x).
Definition set_row_constant (v : Real) (x : ROW) : ROW :=
  mkROW (row_cols x) (row_vals x) (row_linkpos x) v (row_lhs x) (row_rhs x) (row_sqrnorm x)
    (row_maxval x) (row_dualsol x) (row_activity x) (row_dualfarkas x) (row_pseudoactivity x)
    (row_minactivity x) (row_maxactivity x) (row_index x) (row_len x) (row_nunlinked x)
    (row_nuses x) (row_lppos x) (row_lpipos x) (row_minidx x) (row_maxidx x) (row_nummaxval x)
    (row_validactivitylp x) (row_minactivityinf x) (row_maxactivityinf x) (row_sorted x)
    (row_validpsactivity x) (row_validactivitybds x) (row_validminmaxidx x) (row_lhschanged x)
    (row_rhschanged x) (row_coefchanged x) (row_local x) (row_modifiable x) (row_nlocks x).
Definition set_row_lhs (v : Real) (x : ROW) : ROW :=
  mkROW (row_cols x) (row_vals x) (row_linkpos x) (row_constant x) v (row_rhs x) (row_sqrnorm x)
    (row_maxval x) (row_dualsol x) (row_activity x) (row_dualfarkas x) (row_pseudoactivity x)
    (row_minactivity x) (row_maxactivity x) (row_index x) (row_len x) (row_nunlinked x)
    (row_nuses x) (row_lppos x) (row_lpipos x) (row_minidx x) (row_maxidx x) (row_nummaxval x)
    (row_validactivitylp x) (row_minactivityinf x) (row_maxactivityinf x) (row_sorted x)
    (row_validpsactivity x) (row_validactivitybds x) (row_validminmaxidx x) (row_lhschanged x)
    (row_rhschanged x) (row_coefchanged x) (row_local x) (row_modifiable x) (row_nlocks x).
Definition set_row_rhs (v : Real) (x : ROW) : ROW :=
  mkROW (row_cols x) (row_vals x) (row_linkpos x) (row_constant x) (row_lhs x) v (row_sqrnorm x)
    (row_maxval x) (row_dualsol x) (row_activity x) (row_dualfarkas x) (row_pseudoactivity x)
    (row_minactivity x) (row_maxactivity x) (row_index x) (row_len x) (row_nunlinked x)
    (row_nuses x) (row_lppos x) (row_lpipos x) (row_minidx x) (row_maxidx x) (row_nummaxval x)
    (row_validactivitylp x) (row_minactivityinf x) (row_maxactivityinf x) (row_sorted x)
    (row_validpsactivity x) (row_validactivitybds x) (row_validminmaxidx x) (row_lhschanged x)
    (row_rhschanged x) (row_coefchanged x) (row_local x) (row_modifiable x) (row_nlocks x).
Definition set_row_sqrnorm (v : Real) (x : ROW) : ROW :=
  mkROW (row_cols x) (row_vals x) (row_linkpos x) (row_constant x) (row_lhs x) (row_rhs x) v
    (row_maxval x) (row_dualsol x) (row_activity x) (row_dualfarkas x) (row_pseudoactivity x)
    (row_minactivity x) (row_maxactivity x) (row_index x) (row_len x) (row_nunlinked x)
    (row_nuses x) (row_lppos x) (row_lpipos x) (row_minidx x) (row_maxidx x) (row_nummaxval x)
    (row_validactivitylp x) (row_minactivityinf x) (row_maxactivityinf x) (row_sorted x)
    (row_validpsactivity x) (row_validactivitybds x) (row_validminmaxidx x) (row_lhschanged x)
    (row_rhschanged x) (row_coefchanged x) (row_local x) (row_modifiable x) (row_nlocks x).
Definition set_row_maxval (v : Real) (x : ROW) : ROW :=
  mkROW (row_cols x) (row_vals x) (row_linkpos x) (row_constant x) (row_lhs x) (row_rhs x)
    (row_sqrnorm x) v (row_dualsol x) (row_activity x) (row_dualfarkas x) (row_pseudoactivity x)
    (row_minactivity x) (row_maxactivity x) (row_index x) (row_len x) (row_nunlinked x)
    (row_nuses x) (row_lppos x) (row_lpipos x) (row_minidx x) (row_maxidx x) (row_nummaxval x)
    (row_validactivitylp x) (row_minactivityinf x) (row_maxactivityinf x) (row_sorted x)
    (row_validpsactivity x) (row_validactivitybds x) (row_validminmaxidx x) (row_lhschanged x)
    (row_rhschanged x) (row_coefchanged x) (row_local x) (row_modifiable x) (row_nlocks x).
Definition set_row_dualsol (v : Real) (x : ROW) : ROW :=
  mkROW (row_cols x) (row_vals x) (row_linkpos x) (row_constant x) (row_lhs x) (row_rhs x)
    (row_sqrnorm x) (row_maxval x) v (row_activity x) (row_dualfarkas x) (row_pseudoactivity x)
    (row_minactivity x) (row_maxactivity x) (row_index x) (row_len x) (row_nunlinked x)
    (row_nuses x) (row_lppos x) (row_lpipos x) (row_minidx x) (row_maxidx x) (row_nummaxval x)
    (row_validactivitylp x) (row_minactivityinf x) (row_maxactivityinf x) (row_sorted x)
    (row_validpsactivity x) (row_validactivitybds x) (row_validminmaxidx x) (row_lhschanged x)
    (row_rhschanged x) (row_coefchanged x) (row_local x) (row_modifiable x) (row_nlocks x).
Definition set_row_activity (v : Real) (x : ROW) : ROW :=
  mkROW (row_cols x) (row_vals x) (row_linkpos x) (row_constant x) (row_lhs x) (row_rhs x)
    (row_sqrnorm x) (row_maxval x) (row_dualsol x) v (row_dualfarkas x) (row_pseudoactivity x)
    (row_minactivity x) (row_maxactivity x) (row_index x) (row_len x) (row_nunlinked x)
    (row_nuses x) (row_lppos x) (row_lpipos x) (row_minidx x) (row_maxidx x) (row_nummaxval x)
    (row_validactivitylp x) (row_minactivityinf x) (row_maxactivityinf x) (row_sorted x)
    (row_validpsactivity x) (row_validactivitybds x) (row_validminmaxidx x) (row_lhschanged x)
    (row_rhschanged x) (row_coefchanged x) (row_local x) (row_modifiable x) (row_nlocks x).
Definition set_row_dualfarkas (v : Real) (x : ROW) : ROW :=
  mkROW (row_cols x) (row_vals x) (row_linkpos x) (row_constant x) (row_lhs x) (row_rhs x)
    (row_sqrnorm x) (row_maxval x) (row_dualsol x) (row_activity x) v (row_pseudoactivity x)
    (row_minactivity x) (row_maxactivity x) (row_index x) (row_len x) (row_nunlinked x)
    (row_nuses x) (row_lppos x) (row_lpipos x) (row_minidx x) (row_maxidx x) (row_nummaxval x)
    (row_validactivitylp x) (row_minactivityinf x) (row_maxactivityinf x) (row_sorted x)
    (row_validpsactivity x) (row_validactivitybds x) (row_validminmaxidx x) (row_lhschanged x)
    (row_rhschanged x) (row_coefchanged x) (row_local x) (row_modifiable x) (row_nlocks x).
Definition set_row_pseudoactivity (v : Real) (x : ROW) : ROW :=
  mkROW (row_cols x) (row_vals x) (row_linkpos x) (row_constant x) (row_lhs x) (row_rhs x)
    (row_sqrnorm x) (row_maxval x) (row_dualsol x) (row_activity x) (row_dualfarkas x) v
    (row_minactivity x) (row_maxactivity x) (row_index x) (row_len x) (row_nunlinked x)
    (row_nuses x) (row_lppos x) (row_lpipos x) (row_minidx x) (row_maxidx x) (row_nummaxval x)
    (row_validactivitylp x) (row_minactivityinf x) (row_maxactivityinf x) (row_sorted x)
    (row_validpsactivity x) (row_validactivitybds x) (row_validminmaxidx x) (row_lhschanged x)
    (row_rhschanged x) (row_coefchanged x) (row_local x) (row_modifiable x) (row_nlocks x).
Definition set_row_minactivity (v : Real) (x : ROW) : ROW :=
  mkROW (row_cols x) (row_vals x) (row_linkpos x) (row_constant x) (row_lhs x) (row_rhs x)
    (row_sqrnorm x) (row_maxval x) (row_dualsol x) (row_activity x) (row_dualfarkas x)
    (row_pseudoactivity x) v (row_maxactivity x) (row_index x) (row_len x) (row_nunlinked x)
    (row_nuses x) (row_lppos x) (row_lpipos x) (row_minidx x) (row_maxidx x) (row_nummaxval x)
    (row_validactivitylp x) (row_minactivityinf x) (row_maxactivityinf x) (row_sorted x)
    (row_validpsactivity x) (row_validactivitybds x) (row_validminmaxidx x) (row_lhschanged x)
    (row_rhschanged x) (row_coefchanged x) (row_local x) (row_modifiable x) (row_nlocks x).
Definition set_row_maxactivity (v : Real) (x : ROW) : ROW :=
  mkROW (row_cols x) (row_vals x) (row_linkpos x) (row_constant x) (row_lhs x) (row_rhs x)
    (row_sqrnorm x) (row_maxval x) (row_dualsol x) (row_activity x) (row_dualfarkas x)
    (row_pseudoactivity x) (row_minactivity x) v (row_index x) (row_len x) (row_nunlinked x)
    (row_nuses x) (row_lppos x) (row_lpipos x) (row_minidx x) (row_maxidx x) (row_nummaxval x)
    (row_validactivitylp x) (row_minactivityinf x) (row_maxactivityinf x) (row_sorted x)
    (row_validpsactivity x) (row_validactivitybds x) (row_validminmaxidx x) (row_lhschanged x)
    (row_rhschanged x) (row_coefchanged x) (row_local x) (row_modifiable x) (row_nlocks x).
Definition set_row_index (v : Z) (x : ROW) : ROW :=
  mkROW (row_cols x) (row_vals x) (row_linkpos x) (row_constant x) (row_lhs x) (row_rhs x)
    (row_sqrnorm x) (row_maxval x) (row_dualsol x) (row_activity x) (row_dualfarkas x)
    (row_pseudoactivity x) (row_minactivity x) (row_maxactivity x) v (row_len x)
    (row_nunlinked x) (row_nuses x) (row_lppos x) (row_lpipos x) (row_minidx x) (row_maxidx x)
    (row_nummaxval x) (row_validactivitylp x) (row_minactivityinf x) (row_maxactivityinf x)
    (row_sorted x) (row_validpsactivity x) (row_validactivitybds x) (row_validminmaxidx x)
    (row_lhschanged x) (row_rhschanged x) (row_coefchanged x) (row_local x) (row_modifiable x)
    (row_nlocks x).
Definition set_row_len (v : Z) (x : ROW) : ROW :=
  mkROW (row_cols x) (row_vals x) (row_linkpos x) (row_constant x) (row_lhs x) (row_rhs x)
    (row_sqrnorm x) (row_maxval x) (row_dualsol x) (row_activity x) (row_dualfarkas x)
    (row_pseudoactivity x) (row_minactivity x) (row_maxactivity x) (row_index x) v
    (row_nunlinked x) (row_nuses x) (row_lppos x) (row_lpipos x) (row_minidx x) (row_maxidx x)
    (row_nummaxval x) (row_validactivitylp x) (row_minactivityinf x) (row_maxactivityinf x)
    (row_sorted x) (row_validpsactivity x) (row_validactivitybds x) (row_validminmaxidx x)
    (row_lhschanged x) (row_rhschanged x) (row_coefchanged x) (row_local x) (row_modifiable x)
    (row_nlocks x).
Definition set_row_nunlinked (v : Z) (x : ROW) : ROW :=
  mkROW (row_cols x) (row_vals x) (row_linkpos x) (row_constant x) (row_lhs x) (row_rhs x)
    (row_sqrnorm x) (row_maxval x) (row_dualsol x) (row_activity x) (row_dualfarkas x)
    (row_pseudoactivity x) (row_minactivity x) (row_maxactivity x) (row_index x) (row_len x) v
    (row_nuses x) (row_lppos x) (row_lpipos x) (row_minidx x) (row_maxidx x) (row_nummaxval x)
    (row_validactivitylp x) (row_minactivityinf x) (row_maxactivityinf x) (row_sorted x)
    (row_validpsactivity x) (row_validactivitybds x) (row_validminmaxidx x) (row_lhschanged x)
    (row_rhschanged x) (row_coefchanged x) (row_local x) (row_modifiable x) (row_nlocks x).
Definition set_row_nuses (v : Z) (x : ROW) : ROW :=
  mkROW (row_cols x) (row_vals x) (row_linkpos x) (row_constant x) (row_lhs x) (row_rhs x)
    (row_sqrnorm x) (row_maxval x) (row_dualsol x) (row_activity x) (row_dualfarkas x)
    (row_pseudoactivity x) (row_minactivity x) (row_maxactivity x) (row_index x) (row_len x)
    (row_nunlinked x) v (row_lppos x) (row_lpipos x) (row_minidx x) (row_maxidx x)
    (row_nummaxval x) (row_validactivitylp x) (row_minactivityinf x) (row_maxactivityinf x)
    (row_sorted x) (row_validpsactivity x) (row_validactivitybds x) (row_validminmaxidx x)
    (row_lhschanged x) (row_rhschanged x) (row_coefchanged x) (row_local x) (row_modifiable x)
    (row_nlocks x).
Definition set_row_lppos (v : Z) (x : ROW) : ROW :=
  mkROW (row_cols x) (row_vals x) (row_linkpos x) (row_constant x) (row_lhs x) (row_rhs x)
    (row_sqrnorm x) (row_maxval x) (row_dualsol x) (row_activity x) (row_dualfarkas x)
    (row_pseudoactivity x) (row_minactivity x) (row_maxactivity x) (row_index x) (row_len x)
    (row_nunlinked x) (row_nuses x) v (row_lpipos x) (row_minidx x) (row_maxidx x)
    (row_nummaxval x) (row_validactivitylp x) (row_minactivityinf x) (row_maxactivityinf x)
    (row_sorted x) (row_validpsactivity x) (row_validactivitybds x) (row_validminmaxidx x)
    (row_lhschanged x) (row_rhschanged x) (row_coefchanged x) (row_local x) (row_modifiable x)
    (row_nlocks x).
Definition set_row_lpipos (v : Z) (x : ROW) : ROW :=
  mkROW (row_cols x) (row_vals x) (row_linkpos x) (row_constant x) (row_lhs x) (row_rhs x)
    (row_sqrnorm x) (row_maxval x) (row_dualsol x) (row_activity x) (row_dualfarkas x)
    (row_pseudoactivity x) (row_minactivity x) (row_maxactivity x) (row_index x) (row_len x)
    (row_nunlinked x) (row_nuses x) (row_lppos x) v (row_minidx x) (row_maxidx x)
    (row_nummaxval x) (row_validactivitylp x) (row_minactivityinf x) (row_maxactivityinf x)
    (row_sorted x) (row_validpsactivity x) (row_validactivitybds x) (row_validminmaxidx x)
    (row_lhschanged x) (row_rhschanged x) (row_coefchanged x) (row_local x) (row_modifiable x)
    (row_nlocks x).
Definition set_row_minidx (v : Z) (x : ROW) : ROW :=
  mkROW (row_cols x) (row_vals x) (row_linkpos x) (row_constant x) (row_lhs x) (row_rhs x)
    (row_sqrnorm x) (row_maxval x) (row_dualsol x) (row_activity x) (row_dualfarkas x)
    (row_pseudoactivity x) (row_minactivity x) (row_maxactivity x) (row_index x) (row_len x)
    (row_nunlinked x) (row_nuses x) (row_lppos x) (row_lpipos x) v (row_maxidx x)
    (row_nummaxval x) (row_validactivitylp x) (row_minactivityinf x) (row_maxactivityinf x)
    (row_sorted x) (row_validpsactivity x) (row_validactivitybds x) (row_validminmaxidx x)
    (row_lhschanged x) (row_rhschanged x) (row_coefchanged x) (row_local x) (row_modifiable x)
    (row_nlocks x).
Definition set_row_maxidx (v : Z) (x : ROW) : ROW :=
  mkROW (row_cols x) (row_vals x) (row_linkpos x) (row_constant x) (row_lhs x) (row_rhs x)
    (row_sqrnorm x) (row_maxval x) (row_dualsol x) (row_activity x) (row_dualfarkas x)
    (row_pseudoactivity x) (row_minactivity x) (row_maxactivity x) (row_index x) (row_len x)
    (row_nunlinked x) (row_nuses x) (row_lppos x) (row_lpipos x) (row_minidx x) v
    (row_nummaxval x) (row_validactivitylp x) (row_minactivityinf x) (row_maxactivityinf x)
    (row_sorted x) (row_validpsactivity x) (row_validactivitybds x) (row_validminmaxidx x)
    (row_lhschanged x) (row_rhschanged x) (row_coefchanged x) (row_local x) (row_modifiable x)
    (row_nlocks x).
Definition set_row_nummaxval (v : Z) (x : ROW) : ROW :=
  mkROW (row_cols x) (row_vals x) (row_linkpos x) (row_constant x) (row_lhs x) (row_rhs x)
    (row_sqrnorm x) (row_maxval x) (row_dualsol x) (row_activity x) (row_dualfarkas x)
    (row_pseudoactivity x) (row_minactivity x) (row_maxactivity x) (row_index x) (row_len x)
    (row_nunlinked x) (row_nuses x) (row_lppos x) (row_lpipos x) (row_minidx x) (row_maxidx x) v
    (row_validactivitylp x) (row_minactivityinf x) (row_maxactivityinf x) (row_sorted x)
    (row_validpsactivity x) (row_validactivitybds x) (row_validminmaxidx x) (row_lhschanged x)
    (row_rhschanged x) (row_coefchanged x) (row_local x) (row_modifiable x) (row_nlocks x).
Definition set_row_validactivitylp (v : Z) (x : ROW) : ROW :=
  mkROW (row_cols x) (row_vals x) (row_linkpos x) (row_constant x) (row_lhs x) (row_rhs x)
    (row_sqrnorm x) (row_maxval x) (row_dualsol x) (row_activity x) (row_dualfarkas x)
    (row_pseudoactivity x) (row_minactivity x) (row_maxactivity x) (row_index x) (row_len x)
    (row_nunlinked x) (row_nuses x) (row_lppos x) (row_lpipos x) (row_minidx x) (row_maxidx x)
    (row_nummaxval x) v (row_minactivityinf x) (row_maxactivityinf x) (row_sorted x)
    (row_validpsactivity x) (row_validactivitybds x) (row_validminmaxidx x) (row_lhschanged x)
    (row_rhschanged x) (row_coefchanged x) (row_local x) (row_modifiable x) (row_nlocks x).
Definition set_row_minactivityinf (v : Z) (x : ROW) : ROW :=
  mkROW (row_cols x) (row_vals x) (row_linkpos x) (row_constant x) (row_lhs x) (row_rhs x)
    (row_sqrnorm x) (row_maxval x) (row_dualsol x) (row_activity x) (row_dualfarkas x)
    (row_pseudoactivity x) (row_minactivity x) (row_maxactivity x) (row_index x) (row_len x)
    (row_nunlinked x) (row_nuses x) (row_lppos x) (row_lpipos x) (row_minidx x) (row_maxidx x)
    (row_nummaxval x) (row_validactivitylp x) v (row_maxactivityinf x) (row_sorted x)
    (row_validpsactivity x) (row_validactivitybds x) (row_validminmaxidx x) (row_lhschanged x)
    (row_rhschanged x) (row_coefchanged x) (row_local x) (row_modifiable x) (row_nlocks x).
Definition set_row_maxactivityinf (v : Z) (x : ROW) : ROW :=
  mkROW (row_cols x) (row_vals x) (row_linkpos x) (row_constant x) (row_lhs x) (row_rhs x)
    (row_sqrnorm x) (row_maxval x) (row_dualsol x) (row_activity x) (row_dualfarkas x)
    (row_pseudoactivity x) (row_minactivity x) (row_maxactivity x) (row_index x) (row_len x)
    (row_nunlinked x) (row_nuses x) (row_lppos x) (row_lpipos x) (row_minidx x) (row_maxidx x)
    (row_nummaxval x) (row_validactivitylp x) (row_minactivityinf x) v (row_sorted x)
    (row_validpsactivity x) (row_validactivitybds x) (row_validminmaxidx x) (row_lhschanged x)
    (row_rhschanged x) (row_coefchanged x) (row_local x) (row_modifiable x) (row_nlocks x).
Definition set_row_sorted (v : bool) (x : ROW) : ROW :=
  mkROW (row_cols x) (row_vals x) (row_linkpos x) (row_constant x) (row_lhs x) (row_rhs x)
    (row_sqrnorm x) (row_maxval x) (row_dualsol x) (row_activity x) (row_dualfarkas x)
    (row_pseudoactivity x) (row_minactivity x) (row_maxactivity x) (row_index x) (row_len x)
    (row_nunlinked x) (row_nuses x) (row_lppos x) (row_lpipos x) (row_minidx x) (row_maxidx x)
    (row_nummaxval x) (row_validactivitylp x) (row_minactivityinf x) (row_maxactivityinf x) v
    (row_validpsactivity x) (row_validactivitybds x) (row_validminmaxidx x) (row_lhschanged x)
    (row_rhschanged x) (row_coefchanged x) (row_local x) (row_modifiable x) (row_nlocks x).
Definition set_row_validpsactivity (v : bool) (x : ROW) : ROW :=
  mkROW (row_cols x) (row_vals x) (row_linkpos x) (row_constant x) (row_lhs x) (row_rhs x)
    (row_sqrnorm x) (row_maxval x) (row_dualsol x) (row_activity x) (row_dualfarkas x)
    (row_pseudoactivity x) (row_minactivity x) (row_maxactivity x) (row_index x) (row_len x)
    (row_nunlinked x) (row_nuses x) (row_lppos x) (row_lpipos x) (row_minidx x) (row_maxidx x)
    (row_nummaxval x) (row_validactivitylp x) (row_minactivityinf x) (row_maxactivityinf x)
    (row_sorted x) v (row_validactivitybds x) (row_validminmaxidx x) (row_lhschanged x)
    (row_rhschanged x) (row_coefchanged x) (row_local x) (row_modifiable x) (row_nlocks x).
Definition set_row_validactivitybds (v : bool) (x : ROW) : ROW :=
  mkROW (row_cols x) (row_vals x) (row_linkpos x) (row_constant x) (row_lhs x) (row_rhs x)
    (row_sqrnorm x) (row_maxval x) (row_dualsol x) (row_activity x) (row_dualfarkas x)
    (row_pseudoactivity x) (row_minactivity x) (row_maxactivity x) (row_index x) (row_len x)
    (row_nunlinked x) (row_nuses x) (row_lppos x) (row_lpipos x) (row_minidx x) (row_maxidx x)
    (row_nummaxval x) (row_validactivitylp x) (row_minactivityinf x) (row_maxactivityinf x)
    (row_sorted x) (row_validpsactivity x) v (row_validminmaxidx x) (row_lhschanged x)
    (row_rhschanged x) (row_coefchanged x) (row_local x) (row_modifiable x) (row_nlocks x).
Definition set_row_validminmaxidx (v : bool) (x : ROW) : ROW :=
  mkROW (row_cols x) (row_vals x) (row_linkpos x) (row_constant x) (row_lhs x) (row_rhs x)
    (row_sqrnorm x) (row_maxval x) (row_dualsol x) (row_activity x) (row_dualfarkas x)
    (row_pseudoactivity x) (row_minactivity x) (row_maxactivity x) (row_index x) (row_len x)
    (row_nunlinked x) (row_nuses x) (row_lppos x) (row_lpipos x) (row_minidx x) (row_maxidx x)
    (row_nummaxval x) (row_validactivitylp x) (row_minactivityinf x) (row_maxactivityinf x)
    (row_sorted x) (row_validpsactivity x) (row_validactivitybds x) v (row_lhschanged x)
    (row_rhschanged x) (row_coefchanged x) (row_local x) (row_modifiable x) (row_nlocks x).
Definition set_row_lhschanged (v : bool) (x : ROW) : ROW :=
  mkROW (row_cols x) (row_vals x) (row_linkpos x) (row_constant x) (row_lhs x) (row_rhs x)
    (row_sqrnorm x) (row_maxval x) (row_dualsol x) (row_activity x) (row_dualfarkas x)
    (row_pseudoactivity x) (row_minactivity x) (row_maxactivity x) (row_index x) (row_len x)
    (row_nunlinked x) (row_nuses x) (row_lppos x) (row_lpipos x) (row_minidx x) (row_maxidx x)
    (row_nummaxval x) (row_validactivitylp x) (row_minactivityinf x) (row_maxactivityinf x)
    (row_sorted x) (row_validpsactivity x) (row_validactivitybds x) (row_validminmaxidx x) v
    (row_rhschanged x) (row_coefchanged x) (row_local x) (row_modifiable x) (row_nlocks x).
Definition set_row_rhschanged (v : bool) (x : ROW) : ROW :=
  mkROW (row_cols x) (row_vals x) (row_linkpos x) (row_constant x) (row_lhs x) (row_rhs x)
    (row_sqrnorm x) (row_maxval x) (row_dualsol x) (row_activity x) (row_dualfarkas x)
    (row_pseudoactivity x) (row_minactivity x) (row_maxactivity x) (row_index x) (row_len x)
    (row_nunlinked x) (row_nuses x) (row_lppos x) (row_lpipos x) (row_minidx x) (row_maxidx x)
    (row_nummaxval x) (row_validactivitylp x) (row_minactivityinf x) (row_maxactivityinf x)
    (row_sorted x) (row_validpsactivity x) (row_validactivitybds x) (row_validminmaxidx x)
    (row_lhschanged x) v (row_coefchanged x) (row_local x) (row_modifiable x) (row_nlocks x).
Definition set_row_coefchanged (v : bool) (x : ROW) : ROW :=
  mkROW (row_cols x) (row_vals x) (row_linkpos x) (row_constant x) (row_lhs x) (row_rhs x)
    (row_sqrnorm x) (row_maxval x) (row_dualsol x) (row_activity x) (row_dualfarkas x)
    (row_pseudoactivity x) (row_minactivity x) (row_maxactivity x) (row_index x) (row_len x)
    (row_nunlinked x) (row_nuses x) (row_lppos x) (row_lpipos x) (row_minidx x) (row_maxidx x)
    (row_nummaxval x) (row_validactivitylp x) (row_minactivityinf x) (row_maxactivityinf x)
    (row_sorted x) (row_validpsactivity x) (row_validactivitybds x) (row_validminmaxidx x)
    (row_lhschanged x) (row_rhschanged x) v (row_local x) (row_modifiable x) (row_nlocks x).
Definition set_row_local (v : bool) (x : ROW) : ROW :=
  mkROW (row_cols x) (row_vals x) (row_linkpos x) (row_constant x) (row_lhs x) (row_rhs x)
    (row_sqrnorm x) (row_maxval x) (row_dualsol x) (row_activity x) (row_dualfarkas x)
    (row_pseudoactivity x) (row_minactivity x) (row_maxactivity x) (row_index x) (row_len x)
    (row_nunlinked x) (row_nuses x) (row_lppos x) (row_lpipos x) (row_minidx x) (row_maxidx x)
    (row_nummaxval x) (row_validactivitylp x) (row_minactivityinf x) (row_maxactivityinf x)
    (row_sorted x) (row_validpsactivity x) (row_validactivitybds x) (row_validminmaxidx x)
    (row_lhschanged x) (row_rhschanged x) (row_coefchanged x) v (row_modifiable x)
    (row_nlocks x).
Definition set_row_modifiable (v : bool) (x : ROW) : ROW :=
  mkROW (row_cols x) (row_vals x) (row_linkpos x) (row_constant x) (row_lhs x) (row_rhs x)
    (row_sqrnorm x) (row_maxval x) (row_dualsol x) (row_activity x) (row_dualfarkas x)
    (row_pseudoactivity x) (row_minactivity x) (row_maxactivity x) (row_index x) (row_len x)
    (row_nunlinked x) (row_nuses x) (row_lppos x) (row_lpipos x) (row_minidx x) (row_maxidx x)
    (row_nummaxval x) (row_validactivitylp x) (row_minactivityinf x) (row_maxactivityinf x)
    (row_sorted x) (row_validpsactivity x) (row_validactivitybds x) (row_validminmaxidx x)
    (row_lhschanged x) (row_rhschanged x) (row_coefchanged x) (row_local x) v (row_nlocks x).
Definition set_row_nlocks (v : Z) (x : ROW) : ROW :=
  mkROW (row_cols x) (row_vals x) (row_linkpos x) (row_constant x) (row_lhs x) (row_rhs x)
    (row_sqrnorm x) (row_maxval x) (row_dualsol x) (row_activity x) (row_dualfarkas x)
    (row_pseudoactivity x) (row_minactivity x) (row_maxactivity x) (row_index x) (row_len x)
    (row_nunlinked x) (row_nuses x) (row_lppos x) (row_lpipos x) (row_minidx x) (row_maxidx x)
    (row_nummaxval x) (row_validactivitylp x) (row_minactivityinf x) (row_maxactivityinf x)
    (row_sorted x) (row_validpsactivity x) (row_validactivitybds x) (row_validminmaxidx x)
    (row_lhschanged x) (row_rhschanged x) (row_coefchanged x) (row_local x) (row_modifiable x) v.

(** actual LP data (struct Lp): the capacity fields are left out. *)
Record LP : Type := mkLP {
  lp_lpi : LPI;  (* LP solver interface *)
  lp_lpicols : list ptr;  (* columns stored in the LP solver *)
  lp_lpirows : list ptr;  (* rows stored in the LP solver *)
  lp_chgcols : list ptr;  (* changed columns not yet applied to the solver *)
  lp_chgrows : list ptr;  (* changed rows not yet applied to the solver *)
  lp_cols : list ptr;  (* actual columns in the right order *)
  lp_rows : list ptr;  (* actual rows in the right order *)
  lp_lpsolstat : LPSOLSTAT;  (* solution status of last LP solution *)
  lp_objval : Real;  (* objective value of LP, or SCIP_INVALID *)
  lp_nlpicols : Z;  (* number of columns in the LP solver *)
  lp_nlpirows : Z;  (* number of rows in the LP solver *)
  lp_lpifirstchgcol : Z;  (* first column of the solver differing from the actual LP *)
  lp_lpifirstchgrow : Z;  (* first row of the solver differing from the actual LP *)
  lp_ncols : Z;  (* actual number of LP columns *)
  lp_nrows : Z;  (* actual number of LP rows *)
  lp_nchgcols : Z;  (* actual number of changed columns *)
  lp_nchgrows : Z;  (* actual number of changed rows *)
  lp_firstnewcol : Z;  (* first column added at the active node *)
  lp_firstnewrow : Z;  (* first row added at the active node *)
  lp_flushed : bool;  (* are all cached changes applied to the solver? *)
  lp_solved : bool;  (* is the actual LP solved? *)
  lp_primalfeasible : bool;  (* is the actual LP basis primal feasible? *)
  lp_dualfeasible : bool  (* is the actual LP basis dual feasible? *)
}.

Definition set_lp_lpi (v : LPI) (x : LP) : LP :=
  mkLP v (lp_lpicols x) (lp_lpirows x) (lp_chgcols x) (lp_chgrows x) (lp_cols x) (lp_rows x)
    (lp_lpsolstat x) (lp_objval x) (lp_nlpicols x) (lp_nlpirows x) (lp_lpifirstchgcol x)
    (lp_lpifirstchgrow x) (lp_ncols x) (lp_nrows x) (lp_nchgcols x) (lp_nchgrows x)
    (lp_firstnewcol x) (lp_firstnewrow x) (lp_flushed x) (lp_solved x) (lp_primalfeasible x)
    (lp_dualfeasible x).
Definition set_lp_lpicols (v : list ptr) (x : LP) : LP :=
  mkLP (lp_lpi x) v (lp_lpirows x) (lp_chgcols x) (lp_chgrows x) (lp_cols x) (lp_rows x)
    (lp_lpsolstat x) (lp_objval x) (lp_nlpicols x) (lp_nlpirows x) (lp_lpifirstchgcol x)
    (lp_lpifirstchgrow x) (lp_ncols x) (lp_nrows x) (lp_nchgcols x) (lp_nchgrows x)
    (lp_firstnewcol x) (lp_firstnewrow x) (lp_flushed x) (lp_solved x) (lp_primalfeasible x)
    (lp_dualfeasible x).
Definition set_lp_lpirows (v : list ptr) (x : LP) : LP :=
  mkLP (lp_lpi x) (lp_lpicols x) v (lp_chgcols x) (lp_chgrows x) (lp_cols x) (lp_rows x)
    (lp_lpsolstat x) (lp_objval x) (lp_nlpicols x) (lp_nlpirows x) (lp_lpifirstchgcol x)
    (lp_lpifirstchgrow x) (lp_ncols x) (lp_nrows x) (lp_nchgcols x) (lp_nchgrows x)
    (lp_firstnewcol x) (lp_firstnewrow x) (lp_flushed x) (lp_solved x) (lp_primalfeasible x)
    (lp_dualfeasible x).
Definition set_lp_chgcols (v : list ptr) (x : LP) : LP :=
  mkLP (lp_lpi x) (lp_lpicols x) (lp_lpirows x) v (lp_chgrows x) (lp_cols x) (lp_rows x)
    (lp_lpsolstat x) (lp_objval x) (lp_nlpicols x) (lp_nlpirows x) (lp_lpifirstchgcol x)
    (lp_lpifirstchgrow x) (lp_ncols x) (lp_nrows x) (lp_nchgcols x) (lp_nchgrows x)
    (lp_firstnewcol x) (lp_firstnewrow x) (lp_flushed x) (lp_solved x) (lp_primalfeasible x)
    (lp_dualfeasible x).
Definition set_lp_chgrows (v : list ptr) (x : LP) : LP :=
  mkLP (lp_lpi x) (lp_lpicols x) (lp_lpirows x) (lp_chgcols x) v (lp_cols x) (lp_rows x)
    (lp_lpsolstat x) (lp_objval x) (lp_nlpicols x) (lp_nlpirows x) (lp_lpifirstchgcol x)
    (lp_lpifirstchgrow x) (lp_ncols x) (lp_nrows x) (lp_nchgcols x) (lp_nchgrows x)
    (lp_firstnewcol x) (lp_firstnewrow x) (lp_flushed x) (lp_solved x) (lp_primalfeasible x)
    (lp_dualfeasible x).
Definition set_lp_cols (v : list ptr) (x : LP) : LP :=
  mkLP (lp_lpi x) (lp_lpicols x) (lp_lpirows x) (lp_chgcols x) (lp_chgrows x) v (lp_rows x)
    (lp_lpsolstat x) (lp_objval x) (lp_nlpicols x) (lp_nlpirows x) (lp_lpifirstchgcol x)
    (lp_lpifirstchgrow x) (lp_ncols x) (lp_nrows x) (lp_nchgcols x) (lp_nchgrows x)
    (lp_firstnewcol x) (lp_firstnewrow x) (lp_flushed x) (lp_solved x) (lp_primalfeasible x)
    (lp_dualfeasible x).
Definition set_lp_rows (v : list ptr) (x : LP) : LP :=
  mkLP (lp_lpi x) (lp_lpicols x) (lp_lpirows x) (lp_chgcols x) (lp_chgrows x) (lp_cols x) v
    (lp_lpsolstat x) (lp_objval x) (lp_nlpicols x) (lp_nlpirows x) (lp_lpifirstchgcol x)
    (lp_lpifirstchgrow x) (lp_ncols x) (lp_nrows x) (lp_nchgcols x) (lp_nchgrows x)
    (lp_firstnewcol x) (lp_firstnewrow x) (lp_flushed x) (lp_solved x) (lp_primalfeasible x)
    (lp_dualfeasible x).
Definition set_lp_lpsolstat (v : LPSOLSTAT) (x : LP) : LP :=
  mkLP (lp_lpi x) (lp_lpicols x) (lp_lpirows x) (lp_chgcols x) (lp_chgrows x) (lp_cols x)
    (lp_rows x) v (lp_objval x) (lp_nlpicols x) (lp_nlpirows x) (lp_lpifirstchgcol x)
    (lp_lpifirstchgrow x) (lp_ncols x) (lp_nrows x) (lp_nchgcols x) (lp_nchgrows x)
    (lp_firstnewcol x) (lp_firstnewrow x) (lp_flushed x) (lp_solved x) (lp_primalfeasible x)
    (lp_dualfeasible x).
Definition set_lp_objval (v : Real) (x : LP) : LP :=
  mkLP (lp_lpi x) (lp_lpicols x) (lp_lpirows x) (lp_chgcols x) (lp_chgrows x) (lp_cols x)
    (lp_rows x) (lp_lpsolstat x) v (lp_nlpicols x) (lp_nlpirows x) (lp_lpifirstchgcol x)
    (lp_lpifirstchgrow x) (lp_ncols x) (lp_nrows x) (lp_nchgcols x) (lp_nchgrows x)
    (lp_firstnewcol x) (lp_firstnewrow x) (lp_flushed x) (lp_solved x) (lp_primalfeasible x)
    (lp_dualfeasible x).
Definition set_lp_nlpicols (v : Z) (x : LP) : LP :=
  mkLP (lp_lpi x) (lp_lpicols x) (lp_lpirows x) (lp_chgcols x) (lp_chgrows x) (lp_cols x)
    (lp_rows x) (lp_lpsolstat x) (lp_objval x) v (lp_nlpirows x) (lp_lpifirstchgcol x)
    (lp_lpifirstchgrow x) (lp_ncols x) (lp_nrows x) (lp_nchgcols x) (lp_nchgrows x)
    (lp_firstnewcol x) (lp_firstnewrow x) (lp_flushed x) (lp_solved x) (lp_primalfeasible x)
    (lp_dualfeasible x).
Definition set_lp_nlpirows (v : Z) (x : LP) : LP :=
  mkLP (lp_lpi x) (lp_lpicols x) (lp_lpirows x) (lp_chgcols x) (lp_chgrows x) (lp_cols x)
    (lp_rows x) (lp_lpsolstat x) (lp_objval x) (lp_nlpicols x) v (lp_lpifirstchgcol x)
    (lp_lpifirstchgrow x) (lp_ncols x) (lp_nrows x) (lp_nchgcols x) (lp_nchgrows x)
    (lp_firstnewcol x) (lp_firstnewrow x) (lp_flushed x) (lp_solved x) (lp_primalfeasible x)
    (lp_dualfeasible x).
Definition set_lp_lpifirstchgcol (v : Z) (x : LP) : LP :=
  mkLP (lp_lpi x) (lp_lpicols x) (lp_lpirows x) (lp_chgcols x) (lp_chgrows x) (lp_cols x)
    (lp_rows x) (lp_lpsolstat x) (lp_objval x) (lp_nlpicols x) (lp_nlpirows x) v
    (lp_lpifirstchgrow x) (lp_ncols x) (lp_nrows x) (lp_nchgcols x) (lp_nchgrows x)
    (lp_firstnewcol x) (lp_firstnewrow x) (lp_flushed x) (lp_solved x) (lp_primalfeasible x)
    (lp_dualfeasible x).
Definition set_lp_lpifirstchgrow (v : Z) (x : LP) : LP :=
  mkLP (lp_lpi x) (lp_lpicols x) (lp_lpirows x) (lp_chgcols x) (lp_chgrows x) (lp_cols x)
    (lp_rows x) (lp_lpsolstat x) (lp_objval x) (lp_nlpicols x) (lp_nlpirows x)
    (lp_lpifirstchgcol x) v (lp_ncols x) (lp_nrows x) (lp_nchgcols x) (lp_nchgrows x)
    (lp_firstnewcol x) (lp_firstnewrow x) (lp_flushed x) (lp_solved x) (lp_primalfeasible x)
    (lp_dualfeasible x).
Definition set_lp_ncols (v : Z) (x : LP) : LP :=
  mkLP (lp_lpi x) (lp_lpicols x) (lp_lpirows x) (lp_chgcols x) (lp_chgrows x) (lp_cols x)
    (lp_rows x) (lp_lpsolstat x) (lp_objval x) (lp_nlpicols x) (lp_nlpirows x)
    (lp_lpifirstchgcol x) (lp_lpifirstchgrow x) v (lp_nrows x) (lp_nchgcols x) (lp_nchgrows x)
    (lp_firstnewcol x) (lp_firstnewrow x) (lp_flushed x) (lp_solved x) (lp_primalfeasible x)
    (lp_dualfeasible x).
Definition set_lp_nrows (v : Z) (x : LP) : LP :=
  mkLP (lp_lpi x) (lp_lpicols x) (lp_lpirows x) (lp_chgcols x) (lp_chgrows x) (lp_cols x)
    (lp_rows x) (lp_lpsolstat x) (lp_objval x) (lp_nlpicols x) (lp_nlpirows x)
    (lp_lpifirstchgcol x) (lp_lpifirstchgrow x) (lp_ncols x) v (lp_nchgcols x) (lp_nchgrows x)
    (lp_firstnewcol x) (lp_firstnewrow x) (lp_flushed x) (lp_solved x) (lp_primalfeasible x)
    (lp_dualfeasible x).
Definition set_lp_nchgcols (v : Z) (x : LP) : LP :=
  mkLP (lp_lpi x) (lp_lpicols x) (lp_lpirows x) (lp_chgcols x) (lp_chgrows x) (lp_cols x)
    (lp_rows x) (lp_lpsolstat x) (lp_objval x) (lp_nlpicols x) (lp_nlpirows x)
    (lp_lpifirstchgcol x) (lp_lpifirstchgrow x) (lp_ncols x) (lp_nrows x) v (lp_nchgrows x)
    (lp_firstnewcol x) (lp_firstnewrow x) (lp_flushed x) (lp_solved x) (lp_primalfeasible x)
    (lp_dualfeasible x).
Definition set_lp_nchgrows (v : Z) (x : LP) : LP :=
  mkLP (lp_lpi x) (lp_lpicols x) (lp_lpirows x) (lp_chgcols x) (lp_chgrows x) (lp_cols x)
    (lp_rows x) (lp_lpsolstat x) (lp_objval x) (lp_nlpicols x) (lp_nlpirows x)
    (lp_lpifirstchgcol x) (lp_lpifirstchgrow x) (lp_ncols x) (lp_nrows x) (lp_nchgcols x) v
    (lp_firstnewcol x) (lp_firstnewrow x) (lp_flushed x) (lp_solved x) (lp_primalfeasible x)
    (lp_dualfeasible x).
Definition set_lp_firstnewcol (v : Z) (x : LP) : LP :=
  mkLP (lp_lpi x) (lp_lpicols x) (lp_lpirows x) (lp_chgcols x) (lp_chgrows x) (lp_cols x)
    (lp_rows x) (lp_lpsolstat x) (lp_objval x) (lp_nlpicols x) (lp_nlpirows x)
    (lp_lpifirstchgcol x) (lp_lpifirstchgrow x) (lp_ncols x) (lp_nrows x) (lp_nchgcols x)
    (lp_nchgrows x) v (lp_firstnewrow x) (lp_flushed x) (lp_solved x) (lp_primalfeasible x)
    (lp_dualfeasible x).
Definition set_lp_firstnewrow (v : Z) (x : LP) : LP :=
  mkLP (lp_lpi x) (lp_lpicols x) (lp_lpirows x) (lp_chgcols x) (lp_chgrows x) (lp_cols x)
    (lp_rows x) (lp_lpsolstat x) (lp_objval x) (lp_nlpicols x) (lp_nlpirows x)
    (lp_lpifirstchgcol x) (lp_lpifirstchgrow x) (lp_ncols x) (lp_nrows x) (lp_nchgcols x)
    (lp_nchgrows x) (lp_firstnewcol x) v (lp_flushed x) (lp_solved x) (lp_primalfeasible x)
    (lp_dualfeasible x).
Definition set_lp_flushed (v : bool) (x : LP) : LP :=
  mkLP (lp_lpi x) (lp_lpicols x) (lp_lpirows x) (lp_chgcols x) (lp_chgrows x) (lp_cols x)
    (lp_rows x) (lp_lpsolstat x) (lp_objval x) (lp_nlpicols x) (lp_nlpirows x)
    (lp_lpifirstchgcol x) (lp_lpifirstchgrow x) (lp_ncols x) (lp_nrows x) (lp_nchgcols x)
    (lp_nchgrows x) (lp_firstnewcol x) (lp_firstnewrow x) v (lp_solved x) (lp_primalfeasible x)
    (lp_dualfeasible x).
Definition set_lp_solved (v : bool) (x : LP) : LP :=
  mkLP (lp_lpi x) (lp_lpicols x) (lp_lpirows x) (lp_chgcols x) (lp_chgrows x) (lp_cols x)
    (lp_rows x) (lp_lpsolstat x) (lp_objval x) (lp_nlpicols x) (lp_nlpirows x)
    (lp_lpifirstchgcol x) (lp_lpifirstchgrow x) (lp_ncols x) (lp_nrows x) (lp_nchgcols x)
    (lp_nchgrows x) (lp_firstnewcol x) (lp_firstnewrow x) (lp_flushed x) v (lp_primalfeasible x)
    (lp_dualfeasible x).
Definition set_lp_primalfeasible (v : bool) (x : LP) : LP :=
  mkLP (lp_lpi x) (lp_lpicols x) (lp_lpirows x) (lp_chgcols x) (lp_chgrows x) (lp_cols x)
    (lp_rows x) (lp_lpsolstat x) (lp_objval x) (lp_nlpicols x) (lp_nlpirows x)
    (lp_lpifirstchgcol x) (lp_lpifirstchgrow x) (lp_ncols x) (lp_nrows x) (lp_nchgcols x)
    (lp_nchgrows x) (lp_firstnewcol x) (lp_firstnewrow x) (lp_flushed x) (lp_solved x) v
    (lp_dualfeasible x).
Definition set_lp_dualfeasible (v : bool) (x : LP) : LP :=
  mkLP (lp_lpi x) (lp_lpicols x) (lp_lpirows x) (lp_chgcols x) (lp_chgrows x) (lp_cols x)
    (lp_rows x) (lp_lpsolstat x) (lp_objval x) (lp_nlpicols x) (lp_nlpirows x)
    (lp_lpifirstchgcol x) (lp_lpifirstchgrow x) (lp_ncols x) (lp_nrows x) (lp_nchgcols x)
    (lp_nchgrows x) (lp_firstnewcol x) (lp_firstnewrow x) (lp_flushed x) (lp_solved x)
    (lp_primalfeasible x) v.

(** the memory: the structs behind the pointers, the LP and the statistics *)
Record MEM : Type := mkMEM {
  m_cols : ptr -> COL;
  m_rows : ptr -> ROW;
  m_vars : ptr -> VAR;
  m_lp : LP;
  m_stat : STAT
}.

Definition putCol (c : ptr) (v : COL) (m : MEM) : MEM :=
  mkMEM (upd (m_cols m) c v) (m_rows m) (m_vars m) (m_lp m) (m_stat m).
Definition putRow (r : ptr) (v : ROW) (m : MEM) : MEM :=
  mkMEM (m_cols m) (upd (m_rows m) r v) (m_vars m) (m_lp m) (m_stat m).
Definition putVar (x : ptr) (v : VAR) (m : MEM) : MEM :=
  mkMEM (m_cols m) (m_rows m) (upd (m_vars m) x v) (m_lp m) (m_stat m).
Definition putLp (v : LP) (m : MEM) : MEM :=
  mkMEM (m_cols m) (m_rows m) (m_vars m) v (m_stat m).
Definition putStat (v : STAT) (m : MEM) : MEM :=
  mkMEM (m_cols m) (m_rows m) (m_vars m) (m_lp m) v.

(** writes through a pointer: [col->f = ...], [row->f = ...], [lp->f = ...] *)
Definition modCol (c : ptr) (f : COL -> COL) (m : MEM) : MEM := putCol c (f (m_cols m c)) m.
Definition modRow (r : ptr) (f : ROW -> ROW) (m : MEM) : MEM := putRow r (f (m_rows m r)) m.
Definition modLp (f : LP -> LP) (m : MEM) : MEM := putLp (f (m_lp m)) m.

(** successive assignments to one struct *)
Notation "x |> f" := (f x) (at level 68, left associativity, only parsing).

(** ** Routines that return a RETCODE *)

Inductive res (A : Type) : Type :=
| Ok (a : A)
| Err (rc : RETCODE).
Arguments Err {A} rc.

Definition retcode (A : Type) (r : res A) : RETCODE :=
  match r with
  | Ok _ => SCIP_OKAY
  | Err rc => rc
  end.

Section Routines.
Variable S : Type.

Definition M (A : Type) : Type := S -> res A * S.

Definition ret (A : Type) (a : A) : M A := fun s => (Ok a, s).

(** CHECK_OKAY: an error is passed on to the caller at once *)
Definition bind (A B : Type) (c : M A) (k : A -> M B) : M B :=
  fun s =>
    match c s with
    | (Ok a, s') => k a s'
    | (Err rc, s') => (Err rc, s')
    end.

(** a statement that cannot fail *)
Definition exec (f : S -> S) : M unit := fun s => (Ok tt, f s).

(** the return code of a call of an interface that is not part of the sources *)
Definition check (rc : RETCODE) : M unit :=
  fun s => if RETCODE_eqb rc SCIP_OKAY then (Ok tt, s) else (Err rc, s).

(** a for loop whose body may fail *)
Fixpoint forM_nat (n : nat) (i : Z) (body : Z -> M unit) : M unit :=
  match n with
  | O => ret tt
  | Datatypes.S k => bind (body i) (fun _ => forM_nat k (i + 1) body)
  end.

Definition forM (lo hi : Z) (body : Z -> M unit) : M unit :=
  forM_nat (Z.to_nat (hi - lo)) lo body.

End Routines.

Arguments ret {S A} a.
Arguments bind {S A B} c k.
Arguments exec {S} f.
Arguments check {S} rc.
Arguments forM {S} lo hi body.

Notation "x <- c1 ;; c2" := (bind c1 (fun x => c2))
  (at level 61, c1 at next level, right associativity).
Notation "c1 ;; c2" := (bind c1 (fun _ => c2))
  (at level 61, right associativity).

(** ** lp.c *)

Section LPManagement.

(** SCIP_INVALID of def.h, the marker of a value that is not valid; def.h
    is not part of the sources, nothing below depends on the number. *)
Variable SCIP_INVALID : Real.

(** *** Changing announcements *)

(** announces, that the given coefficient in the constraint matrix changed *)
Definition coefChanged (row col : ptr) (m : MEM) : MEM :=
  let r := m_rows m row in
  let c := m_cols m col in
  let lp := m_lp m in
  if (0 <=? row_lpipos r) && (0 <=? col_lpipos c) then
    let m :=
      if lp_lpifirstchgrow lp <=? row_lpipos r then
        modRow row (set_row_coefchanged true) m
      else if lp_lpifirstchgcol lp <=? col_lpipos c then
        modCol col (set_col_coefchanged true) m
      else if lp_lpifirstchgrow lp - row_lpipos r <=? lp_lpifirstchgcol lp - col_lpipos c then
        m |> modRow row (set_row_coefchanged true)
          |> modLp (set_lp_lpifirstchgrow (row_lpipos r))
      else
        m |> modCol col (set_col_coefchanged true)
          |> modLp (set_lp_lpifirstchgcol (col_lpipos c)) in
    modLp (fun lp => lp |> set_lp_flushed false
                        |> set_lp_solved false
                        |> set_lp_dualfeasible false
                        |> set_lp_primalfeasible false
                        |> set_lp_objval SCIP_INVALID
                        |> set_lp_lpsolstat SCIP_LPSOLSTAT_NOTSOLVED) m
  else m.

(** *** local column changing methods *)

(** adds a previously non existing coefficient to an LP column; [rowpos]
    is the address [&row->linkpos[i]] of an entry of a row's link array,
    or NULL *)
Definition colAddCoeff (set : SET) (col row : ptr) (val : Real) (linkpos : Z)
    (rowpos : option (ptr * Z)) : M MEM unit :=
  fun m =>
    let m :=
      if 0 <? col_len (m_cols m col) then
        modCol col (fun c =>
          set_col_sorted
            (col_sorted c &&
             (row_index (m_rows m (aget NULL (col_rows c) (col_len c - 1)))
              <? row_index (m_rows m row))) c) m
      else m in
    let m :=
      match rowpos with
      | Some (r, i) =>
          modRow r (fun x =>
            set_row_linkpos (aset 0 (row_linkpos x) i (col_len (m_cols m col))) x) m
      | None => m
      end in
    let m :=
      modCol col (fun c =>
        c |> set_col_rows (aset NULL (col_rows c) (col_len c) row)
          |> set_col_vals (aset 0%float (col_vals c) (col_len c) val)
          |> set_col_linkpos (aset 0 (col_linkpos c) (col_len c) linkpos)
          |> (fun c' => if linkpos =? -1
                        then set_col_nunlinked (col_nunlinked c' + 1) c' else c')
          |> set_col_len (col_len c + 1)) m in
    (Ok tt, coefChanged row col m).

(** deletes coefficient at given position from column *)
Definition colDelCoeffPos (set : SET) (col : ptr) (pos : Z) : M MEM unit :=
  fun m =>
    let row := aget NULL (col_rows (m_cols m col)) pos in
    let m :=
      if aget 0 (col_linkpos (m_cols m col)) pos =? -1 then
        modCol col (fun c => set_col_nunlinked (col_nunlinked c - 1) c) m
      else m in
    let m :=
      if pos <? col_len (m_cols m col) - 1 then
        (* move last coefficient to position of deleted coefficient *)
        let m :=
          modCol col (fun c =>
            c |> set_col_rows (aset NULL (col_rows c) pos
                                 (aget NULL (col_rows c) (col_len c - 1)))
              |> set_col_vals (aset 0%float (col_vals c) pos
                                 (aget 0%float (col_vals c) (col_len c - 1)))
              |> set_col_linkpos (aset 0 (col_linkpos c) pos
                                    (aget 0 (col_linkpos c) (col_len c - 1)))) m in
        (* if the moved coefficient is linked, update the link *)
        let c := m_cols m col in
        let m :=
          if negb (aget 0 (col_linkpos c) pos =? -1) then
            modRow (aget NULL (col_rows c) pos) (fun r =>
              set_row_linkpos (aset 0 (row_linkpos r) (aget 0 (col_linkpos c) pos) pos) r) m
          else m in
        modCol col (set_col_sorted false) m
      else m in
    let m := modCol col (fun c => set_col_len (col_len c - 1) c) m in
    (Ok tt, coefChanged row col m).

(** changes a coefficient at given position of an LP column *)
Definition colChgCoeffPos (set : SET) (col : ptr) (pos : Z) (val : Real) : M MEM unit :=
  fun m =>
    let c := m_cols m col in
    if SCIPsetIsZero set val then
      (* delete existing coefficient *)
      colDelCoeffPos set col pos m
    else if negb (SCIPsetIsEQ set (aget 0%float (col_vals c) pos) val) then
      (* change existing coefficient *)
      let m := modCol col (fun c => set_col_vals (aset 0%float (col_vals c) pos val) c) m in
      (Ok tt, coefChanged (aget NULL (col_rows c) pos) col m)
    else (Ok tt, m).

(** *** local row changing methods *)

(** update row norms after addition of new coefficient *)
Definition rowAddNorms (set : SET) (colidx : Z) (val : Real) (row : ROW) : ROW :=
  let absval := ABSr val in
  (* update min/maxidx *)
  let row :=
    if negb (colidx =? -1) then
      row |> set_row_minidx (MINz (row_minidx row) colidx)
          |> set_row_maxidx (MAXz (row_maxidx row) colidx)
    else row in
  (* update squared euclidean norm *)
  let row := set_row_sqrnorm (row_sqrnorm row + SQR absval)%float row in
  (* update maximum norm *)
  if 0 <? row_nummaxval row then
    if SCIPsetIsGT set absval (row_maxval row) then
      row |> set_row_maxval absval |> set_row_nummaxval 1
    else if SCIPsetIsGE set absval (row_maxval row) then
      set_row_nummaxval (row_nummaxval row + 1) row
    else row
  else row.

(** update row norms after deletion of coefficient *)
Definition rowDelNorms (set : SET) (colidx : Z) (val : Real) (row : ROW) : ROW :=
  let absval := ABSr val in
  (* update min/maxidx validity *)
  let row :=
    if negb (colidx =? -1) then
      if (colidx =? row_minidx row) || (colidx =? row_maxidx row) then
        set_row_validminmaxidx false row
      else row
    else row in
  (* update squared euclidean norm *)
  let row := set_row_sqrnorm (row_sqrnorm row - SQR absval)%float row in
  let row := set_row_sqrnorm (MAXr (row_sqrnorm row) 0%float) row in
  (* update maximum norm *)
  if 0 <? row_nummaxval row then
    if SCIPsetIsGE set absval (row_maxval row) then
      set_row_nummaxval (row_nummaxval row - 1) row
    else row
  else row.

(** invalidates activity bounds, such that they are recalculated in next get
    (it always returns SCIP_OKAY) *)
Definition SCIProwInvalidActivityBounds (row : ROW) : ROW :=
  row |> set_row_validactivitybds false
      |> set_row_minactivity SCIP_INVALID
      |> set_row_maxactivity SCIP_INVALID
      |> set_row_minactivityinf (-1)
      |> set_row_maxactivityinf (-1).

(** [row->pseudoactivity = SCIP_INVALID; row->validpsactivity = FALSE;
     SCIProwInvalidActivityBounds(row)] *)
Definition rowInvalidateActivities (row : ROW) : ROW :=
  row |> set_row_pseudoactivity SCIP_INVALID
      |> set_row_validpsactivity false
      |> SCIProwInvalidActivityBounds.

(** adds a previously non existing coefficient to an LP row; [colpos] is
    the address [&col->linkpos[i]] of an entry of a column's link array,
    or NULL *)
Definition rowAddCoeff (set : SET) (row col : ptr) (val : Real) (linkpos : Z)
    (colpos : option (ptr * Z)) : M MEM unit :=
  fun m =>
    if 0 <? row_nlocks (m_rows m row) then
      (* cannot add a coefficient to the locked unmodifiable row *)
      (Err SCIP_INVALIDDATA, m)
    else
      let m :=
        if 0 <? row_len (m_rows m row) then
          modRow row (fun r =>
            set_row_sorted
              (row_sorted r &&
               (col_index (m_cols m (aget NULL (row_cols r) (row_len r - 1)))
                <? col_index (m_cols m col))) r) m
        else m in
      let m :=
        match colpos with
        | Some (c, i) =>
            modCol c (fun x =>
              set_col_linkpos (aset 0 (col_linkpos x) i (row_len (m_rows m row))) x) m
        | None => m
        end in
      let m :=
        modRow row (fun r =>
          r |> set_row_cols (aset NULL (row_cols r) (row_len r) col)
            |> set_row_vals (aset 0%float (row_vals r) (row_len r) val)
            |> set_row_linkpos (aset 0 (row_linkpos r) (row_len r) linkpos)
            |> (fun r' => if linkpos =? -1
                          then set_row_nunlinked (row_nunlinked r' + 1) r' else r')
            |> set_row_len (row_len r + 1)) m in
      let m := modRow row rowInvalidateActivities m in
      let m := modRow row (rowAddNorms set (col_index (m_cols m col)) val) m in
      (Ok tt, coefChanged row col m).

(** deletes coefficient at given position from row *)
Definition rowDelCoeffPos (set : SET) (row : ptr) (pos : Z) : M MEM unit :=
  fun m =>
    let col := aget NULL (row_cols (m_rows m row)) pos in
    let val := aget 0%float (row_vals (m_rows m row)) pos in
    if 0 <? row_nlocks (m_rows m row) then
      (* cannot delete a coefficient from the locked unmodifiable row *)
      (Err SCIP_INVALIDDATA, m)
    else
      let m :=
        if aget 0 (row_linkpos (m_rows m row)) pos =? -1 then
          modRow row (fun r => set_row_nunlinked (row_nunlinked r - 1) r) m
        else m in
      let m :=
        if pos <? row_len (m_rows m row) - 1 then
          (* move last coefficient to position of deleted coefficient *)
          let m :=
            modRow row (fun r =>
              r |> set_row_cols (aset NULL (row_cols r) pos
                                   (aget NULL (row_cols r) (row_len r - 1)))
                |> set_row_vals (aset 0%float (row_vals r) pos
                                   (aget 0%float (row_vals r) (row_len r - 1)))
                |> set_row_linkpos (aset 0 (row_linkpos r) pos
                                      (aget 0 (row_linkpos r) (row_len r - 1)))) m in
          (* if the moved coefficient is linked, update the link *)
          let r := m_rows m row in
          let m :=
            if negb (aget 0 (row_linkpos r) pos =? -1) then
              modCol (aget NULL (row_cols r) pos) (fun c =>
                set_col_linkpos (aset 0 (col_linkpos c) (aget 0 (row_linkpos r) pos) pos) c) m
            else m in
          modRow row (set_row_sorted false) m
        else m in
      let m := modRow row (fun r => set_row_len (row_len r - 1) r) m in
      let m := modRow row rowInvalidateActivities m in
      let m := modRow row (rowDelNorms set (col_index (m_cols m col)) val) m in
      (Ok tt, coefChanged row col m).

(** changes a coefficient at given position of an LP row *)
Definition rowChgCoeffPos (set : SET) (row : ptr) (pos : Z) (val : Real) : M MEM unit :=
  fun m =>
    if 0 <? row_nlocks (m_rows m row) then
      (* cannot change a coefficient of the locked unmodifiable row *)
      (Err SCIP_INVALIDDATA, m)
    else if SCIPsetIsZero set val then
      (* delete existing coefficient *)
      rowDelCoeffPos set row pos m
    else if negb (SCIPsetIsEQ set (aget 0%float (row_vals (m_rows m row)) pos) val) then
      (* change existing coefficient *)
      let m :=
        modRow row (fun r => rowDelNorms set (-1) (aget 0%float (row_vals r) pos) r) m in
      let m := modRow row (fun r => set_row_vals (aset 0%float (row_vals r) pos val) r) m in
      let m :=
        modRow row (fun r => rowAddNorms set (-1) (aget 0%float (row_vals r) pos) r) m in
      let m := coefChanged row (aget NULL (row_cols (m_rows m row)) pos) m in
      (Ok tt, modRow row rowInvalidateActivities m)
    else (Ok tt, m).

(** notifies LP row, that its sides were changed *)
Definition rowSideChanged (set : SET) (row : ptr) (sidetype : SIDETYPE) : M MEM unit :=
  fun m =>
    if 0 <=? row_lpipos (m_rows m row) then
      (* insert row in the chgrows list (if not already there) *)
      let m :=
        if negb (row_lhschanged (m_rows m row)) && negb (row_rhschanged (m_rows m row)) then
          modLp (fun lp =>
            lp |> set_lp_chgrows (aset NULL (lp_chgrows lp) (lp_nchgrows lp) row)
               |> set_lp_nchgrows (lp_nchgrows lp + 1)) m
        else m in
      (* mark side change in the row *)
      let m :=
        match sidetype with
        | SCIP_SIDETYPE_LEFT => modRow row (set_row_lhschanged true) m
        | SCIP_SIDETYPE_RIGHT => modRow row (set_row_rhschanged true) m
        end in
      (Ok tt,
       modLp (fun lp => lp |> set_lp_flushed false
                           |> set_lp_solved false
                           |> set_lp_primalfeasible false
                           |> set_lp_objval SCIP_INVALID
                           |> set_lp_lpsolstat SCIP_LPSOLSTAT_NOTSOLVED) m)
    else (Ok tt, m).

(** updates rows pseudo activity after the best bound of column changed *)
Definition rowUpdatePseudoActivity (pos : Z) (oldbestbound newbestbound : Real)
    (row : ROW) : ROW :=
  if row_validpsactivity row then
    set_row_pseudoactivity
      (row_pseudoactivity row
       + (newbestbound - oldbestbound) * aget 0%float (row_vals row) pos)%float row
  else row.

(** updates rows activity bounds after the lower bound of column changed *)
Definition rowUpdateActivityBoundsLb (set : SET) (pos : Z) (oldlb newlb : Real)
    (row : ROW) : ROW :=
  if row_validactivitybds row then
    let val := aget 0%float (row_vals row) pos in
    if Rpos val then
      let row :=
        if SCIPsetIsInfinity set (- oldlb)%float then
          set_row_minactivityinf (row_minactivityinf row - 1) row
        else set_row_minactivity (row_minactivity row - val * oldlb)%float row in
      if SCIPsetIsInfinity set (- newlb)%float then
        set_row_minactivityinf (row_minactivityinf row + 1) row
      else set_row_minactivity (row_minactivity row + val * newlb)%float row
    else
      let row :=
        if SCIPsetIsInfinity set (- oldlb)%float then
          set_row_maxactivityinf (row_maxactivityinf row - 1) row
        else set_row_maxactivity (row_maxactivity row - val * oldlb)%float row in
      if SCIPsetIsInfinity set (- newlb)%float then
        set_row_maxactivityinf (row_maxactivityinf row + 1) row
      else set_row_maxactivity (row_maxactivity row + val * newlb)%float row
  else row.

(** updates rows activity bounds after the upper bound of column changed *)
Definition rowUpdateActivityBoundsUb (set : SET) (pos : Z) (oldub newub : Real)
    (row : ROW) : ROW :=
  if row_validactivitybds row then
    let val := aget 0%float (row_vals row) pos in
    if Rpos val then
      let row :=
        if SCIPsetIsInfinity set oldub then
          set_row_maxactivityinf (row_maxactivityinf row - 1) row
        else set_row_maxactivity (row_maxactivity row - val * oldub)%float row in
      if SCIPsetIsInfinity set newub then
        set_row_maxactivityinf (row_maxactivityinf row + 1) row
      else set_row_maxactivity (row_maxactivity row + val * newub)%float row
    else
      let row :=
        if SCIPsetIsInfinity set oldub then
          set_row_minactivityinf (row_minactivityinf row - 1) row
        else set_row_minactivity (row_minactivity row - val * oldub)%float row in
      if SCIPsetIsInfinity set newub then
        set_row_minactivityinf (row_minactivityinf row + 1) row
      else set_row_minactivity (row_minactivity row + val * newub)%float row
  else row.

(** *** double linked coefficient matrix methods *)

(** insert column coefficients in corresponding rows *)
Definition colLink (set : SET) (col : ptr) : M MEM unit :=
  fun m =>
    if 0 <? col_nunlinked (m_cols m col) then
      forM 0 (col_len (m_cols m col)) (fun i m =>
        let c := m_cols m col in
        if aget 0 (col_linkpos c) i =? -1 then
          (rowAddCoeff set (aget NULL (col_rows c) i) col (aget 0%float (col_vals c) i) i
             (Some (col, i)) ;;
           exec (modCol col (fun c => set_col_nunlinked (col_nunlinked c - 1) c))) m
        else (Ok tt, m)) m
    else (Ok tt, m).

(** removes column coefficients from corresponding rows *)
Definition colUnlink (set : SET) (col : ptr) : M MEM unit :=
  fun m =>
    if col_nunlinked (m_cols m col) <? col_len (m_cols m col) then
      forM 0 (col_len (m_cols m col)) (fun i m =>
        let c := m_cols m col in
        if negb (aget 0 (col_linkpos c) i =? -1) then
          (rowDelCoeffPos set (aget NULL (col_rows c) i) (aget 0 (col_linkpos c) i) ;;
           exec (modCol col (fun c =>
                   c |> set_col_linkpos (aset 0 (col_linkpos c) i (-1))
                     |> set_col_nunlinked (col_nunlinked c + 1)))) m
        else (Ok tt, m)) m
    else (Ok tt, m).

(** insert row coefficients in corresponding columns *)
Definition rowLink (set : SET) (row : ptr) : M MEM unit :=
  fun m =>
    if 0 <? row_nunlinked (m_rows m row) then
      forM 0 (row_len (m_rows m row)) (fun i m =>
        let r := m_rows m row in
        if aget 0 (row_linkpos r) i =? -1 then
          (colAddCoeff set (aget NULL (row_cols r) i) row (aget 0%float (row_vals r) i) i
             (Some (row, i)) ;;
           exec (modRow row (fun r => set_row_nunlinked (row_nunlinked r - 1) r))) m
        else (Ok tt, m)) m
    else (Ok tt, m).

(** removes row coefficients from corresponding columns *)
Definition rowUnlink (set : SET) (row : ptr) : M MEM unit :=
  fun m =>
    if row_nunlinked (m_rows m row) <? row_len (m_rows m row) then
      forM 0 (row_len (m_rows m row)) (fun i m =>
        let r := m_rows m row in
        if negb (aget 0 (row_linkpos r) i =? -1) then
          (colDelCoeffPos set (aget NULL (row_cols r) i) (aget 0 (row_linkpos r) i) ;;
           exec (modRow row (fun r => set_row_nunlinked (row_nunlinked r + 1) r))) m
        else (Ok tt, m)) m
    else (Ok tt, m).

(** *** Column methods *)

(** creates an LP column. [col] is the struct that allocBlockMemory
    returns and [fresh] what the newly allocated link array holds: C does
    not initialise allocated memory, so both are arbitrary. [row] and
    [val] are the arrays of the caller. *)
Definition SCIPcolCreate (col : ptr) (fresh : list Z) (set : SET) (var : ptr) (len : Z)
    (row : list ptr) (val : list Real) : M MEM unit :=
  fun m =>
    let m :=
      if 0 <? len then
        let m :=
          modCol col (fun c =>
            c |> set_col_rows (prefix row len)
              |> set_col_vals (prefix val len)
              |> set_col_linkpos fresh) m in
        for_range 0 len (fun i m =>
          (* the source writes -1 to entry i of the link array of [*row],
             the first row of the caller's array *)
          modRow (aget NULL row 0) (fun r =>
            set_row_linkpos (aset 0 (row_linkpos r) i (-1)) r) m) m
      else
        modCol col (fun c =>
          c |> set_col_rows [] |> set_col_vals [] |> set_col_linkpos []) m in
    let m :=
      modCol col (fun c =>
        c |> set_col_var var
          |> set_col_index (stat_ncolidx (m_stat m))) m in
    let m :=
      putStat (let st := m_stat m in
               mkSTAT (stat_ncolidx st + 1) (stat_nrowidx st) (stat_nlp st)
                 (stat_nprimallp st) (stat_nlpiterations st)
                 (stat_nprimallpiterations st)) m in
    let m :=
      modCol col (fun c =>
        c |> set_col_len len
          |> set_col_nunlinked len
          |> set_col_lppos (-1)
          |> set_col_lpipos (-1)
          |> set_col_primsol 0%float
          |> set_col_redcost SCIP_INVALID
          |> set_col_farkas SCIP_INVALID
          |> set_col_strongdown SCIP_INVALID
          |> set_col_strongup SCIP_INVALID
          |> set_col_validredcostlp (-1)
          |> set_col_validfarkaslp (-1)
          |> set_col_strongitlim (-1)
          |> set_col_sorted true
          |> set_col_lbchanged false
          |> set_col_ubchanged false
          |> set_col_coefchanged false) m in
    (* check, if column is sorted *)
    let m :=
      for_range 0 len (fun i m =>
        modCol col (fun c =>
          set_col_sorted
            (col_sorted c &&
             ((i =? 0) ||
              (row_index (m_rows m (aget NULL (col_rows c) (i - 1)))
               <? row_index (m_rows m (aget NULL (col_rows c) i))))) c) m) m in
    (Ok tt, m).

(** notifies LP, that the bounds of a column were changed *)
Definition SCIPcolBoundChanged (set : SET) (col : ptr) (boundtype : BOUNDTYPE)
    (oldbound newbound : Real) : M MEM unit :=
  fun m =>
    let m :=
      if 0 <=? col_lpipos (m_cols m col) then
        (* insert column in the chgcols list (if not already there) *)
        let m :=
          if negb (col_lbchanged (m_cols m col)) && negb (col_ubchanged (m_cols m col)) then
            modLp (fun lp =>
              lp |> set_lp_chgcols (aset NULL (lp_chgcols lp) (lp_nchgcols lp) col)
                 |> set_lp_nchgcols (lp_nchgcols lp + 1)) m
          else m in
        (* mark bound change in the column *)
        let m :=
          match boundtype with
          | SCIP_BOUNDTYPE_LOWER => modCol col (set_col_lbchanged true) m
          | SCIP_BOUNDTYPE_UPPER => modCol col (set_col_ubchanged true) m
          end in
        modLp (fun lp => lp |> set_lp_flushed false
                            |> set_lp_solved false
                            |> set_lp_primalfeasible false
                            |> set_lp_objval SCIP_INVALID
                            |> set_lp_lpsolstat SCIP_LPSOLSTAT_NOTSOLVED) m
      else m in
    let row := col_rows (m_cols m col) in
    let linkpos := col_linkpos (m_cols m col) in
    let len := col_len (m_cols m col) in
    let obj := var_obj (m_vars m (col_var (m_cols m col))) in
    let onrows (f : Z -> ROW -> ROW) (m : MEM) : MEM :=
      for_range 0 len (fun r m =>
        if 0 <=? aget 0 linkpos r then modRow (aget NULL row r) (f (aget 0 linkpos r)) m
        else m) m in
    (* update pseudo activity of rows *)
    let m :=
      if (0 <=? obj)%float && BOUNDTYPE_eqb boundtype SCIP_BOUNDTYPE_LOWER then
        onrows (fun pos => rowUpdatePseudoActivity pos oldbound newbound) m
      else if (obj <? 0)%float && BOUNDTYPE_eqb boundtype SCIP_BOUNDTYPE_UPPER then
        onrows (fun pos => rowUpdatePseudoActivity pos oldbound newbound) m
      else m in
    (* update activity bounds of rows *)
    let m :=
      match boundtype with
      | SCIP_BOUNDTYPE_LOWER =>
          onrows (fun pos => rowUpdateActivityBoundsLb set pos oldbound newbound) m
      | SCIP_BOUNDTYPE_UPPER =>
          onrows (fun pos => rowUpdateActivityBoundsUb set pos oldbound newbound) m
      end in
    (Ok tt, m).

(** gets the primal LP solution of a column *)
Definition SCIPcolGetPrimsol (col : COL) : Real :=
  if 0 <=? col_lppos col then col_primsol col else 0%float.

(** *** Row methods *)

(** increases usage counter of LP row *)
Definition SCIProwCapture (row : ROW) : ROW := set_row_nuses (row_nuses row + 1) row.

(** frees an LP row: the coefficients are removed from the columns, then
    the memory is given back (the struct stays in the store, nothing
    refers to it any more) *)
Definition SCIProwFree (set : SET) (row : ptr) : M MEM unit := rowUnlink set row.

(** decreases usage counter of LP row, and frees memory if necessary; the
    caller's pointer, which the source sets to NULL, is cleared by the
    caller *)
Definition SCIProwRelease (set : SET) (row : ptr) : M MEM unit :=
  fun m =>
    let m := modRow row (fun r => set_row_nuses (row_nuses r - 1) r) m in
    if row_nuses (m_rows m row) =? 0 then SCIProwFree set row m else (Ok tt, m).

(** locks an unmodifiable row, which forbids further changes *)
Definition SCIProwLock (row : ptr) : M MEM unit :=
  fun m =>
    if row_modifiable (m_rows m row) then (Err SCIP_INVALIDDATA, m)
    else (Ok tt, modRow row (fun r => set_row_nlocks (row_nlocks r + 1) r) m).

(** adds a previously non existing coefficient to an LP row *)
Definition SCIProwAddCoeff (set : SET) (row col : ptr) (val : Real) : M MEM unit :=
  rowAddCoeff set row col val (-1) None.

(** current bounds of a variable: var.c is not part of the sources, the
    accessors read the domain that lp.c reads as [var->dom] *)
Definition SCIPvarGetLb (m : MEM) (var : ptr) : Real := var_lb (m_vars m var).
Definition SCIPvarGetUb (m : MEM) (var : ptr) : Real := var_ub (m_vars m var).

(** calculates minimal and maximal activity of row w.r.t. the column's bounds *)
Definition rowCalcActivityBounds (set : SET) (row : ptr) : M MEM unit :=
  (* link row to the columns, such that a column bound change affects the
     now valid activity bounds *)
  rowLink set row ;;
  exec (fun m =>
    let m :=
      modRow row (fun r =>
        r |> set_row_validactivitybds true
          |> set_row_minactivity (row_constant r)
          |> set_row_maxactivity (row_constant r)
          |> set_row_minactivityinf 0
          |> set_row_maxactivityinf 0) m in
    for_range 0 (row_len (m_rows m row)) (fun i m =>
      let var := m_vars m (col_var (m_cols m (aget NULL (row_cols (m_rows m row)) i))) in
      modRow row (fun r =>
        r |> rowUpdateActivityBoundsLb set i 0%float (var_lb var)
          |> rowUpdateActivityBoundsUb set i 0%float (var_ub var)) m) m).

(** what SCIProwGetActivityBounds stores through its two pointers *)
Definition reportedActivityBounds (set : SET) (row : ROW) : Real * Real :=
  ((if 0 <? row_minactivityinf row then (- set_infinity set)%float else row_minactivity row),
   (if 0 <? row_maxactivityinf row then set_infinity set else row_maxactivity row)).

(** returns the minimal and maximal activity of a row w.r.t. the column's bounds *)
Definition SCIProwGetActivityBounds (set : SET) (row : ptr) : M MEM (Real * Real) :=
  (fun m =>
     (* check, if activity bounds has to be calculated *)
     if negb (row_validactivitybds (m_rows m row)) then rowCalcActivityBounds set row m
     else (Ok tt, m)) ;;
  (fun m => (Ok (reportedActivityBounds set (m_rows m row)), m)).

(** gets activity bounds for row after setting variable to zero; the result
    of rowCalcActivityBounds is not checked by the source *)
Definition SCIProwGetActivityResiduals (set : SET) (row var : ptr) (val : Real)
    : M MEM (Real * Real) :=
  fun m =>
    let m :=
      if negb (row_validactivitybds (m_rows m row))
      then snd (rowCalcActivityBounds set row m) else m in
    let r := m_rows m row in
    let lb := SCIPvarGetLb m var in
    let ub := SCIPvarGetUb m var in
    let minresactivity :=
      if Rpos val then
        if SCIPsetIsInfinity set (- lb)%float then
          if 2 <=? row_minactivityinf r then (- set_infinity set)%float
          else row_minactivity r
        else
          if 1 <=? row_minactivityinf r then (- set_infinity set)%float
          else (row_minactivity r - val * lb)%float
      else
        if SCIPsetIsInfinity set ub then
          if 2 <=? row_minactivityinf r then (- set_infinity set)%float
          else row_minactivity r
        else
          if 1 <=? row_minactivityinf r then (- set_infinity set)%float
          else (row_minactivity r - val * ub)%float in
    let maxresactivity :=
      if Rpos val then
        if SCIPsetIsInfinity set ub then
          if 2 <=? row_maxactivityinf r then set_infinity set
          else row_maxactivity r
        else
          if 1 <=? row_maxactivityinf r then set_infinity set
          else (row_maxactivity r - val * ub)%float
      else
        if SCIPsetIsInfinity set (- lb)%float then
          if 2 <=? row_maxactivityinf r then set_infinity set
          else row_maxactivity r
        else
          if 1 <=? row_maxactivityinf r then set_infinity set
          else (row_maxactivity r - val * lb)%float in
    (Ok (minresactivity, maxresactivity), m).

(** changes left hand side of LP row *)
Definition SCIProwChgLhs (set : SET) (row : ptr) (lhs : Real) : M MEM unit :=
  fun m =>
    if negb (SCIPsetIsEQ set (row_lhs (m_rows m row)) lhs) then
      rowSideChanged set row SCIP_SIDETYPE_LEFT (modRow row (set_row_lhs lhs) m)
    else (Ok tt, m).

(** changes right hand side of LP row *)
Definition SCIProwChgRhs (set : SET) (row : ptr) (rhs : Real) : M MEM unit :=
  fun m =>
    if negb (SCIPsetIsEQ set (row_rhs (m_rows m row)) rhs) then
      rowSideChanged set row SCIP_SIDETYPE_RIGHT (modRow row (set_row_rhs rhs) m)
    else (Ok tt, m).

(** *** LP solver data update *)

(** a call of the LP interface on [lp->lpi], under CHECK_OKAY *)
Definition lpi (c : LPICALL) : M MEM unit :=
  fun m =>
    let (rc, l) := lpiCall c (lp_lpi (m_lp m)) in
    check rc (modLp (set_lp_lpi l) m).

(** a routine on the memory inside a loop that also fills local arrays *)
Definition onMem (B A : Type) (c : M MEM A) : M (MEM * B) A :=
  fun s =>
    let (r, m') := c (fst s) in (r, (m', snd s)).

(** the condition of the while loop of lpFlushDelCols *)
Definition lpFlushDelCols_cond (m : MEM) : bool :=
  let lp := m_lp m in
  (lp_lpifirstchgcol lp <? lp_nlpicols lp)
  && (lp_lpifirstchgcol lp <? lp_ncols lp)
  && (col_lpipos (m_cols m (aget NULL (lp_cols lp) (lp_lpifirstchgcol lp)))
      =? lp_lpifirstchgcol lp)
  && negb (col_coefchanged (m_cols m (aget NULL (lp_cols lp) (lp_lpifirstchgcol lp)))).

(** find the first column to change: at most [n] rounds of the while loop *)
Fixpoint lpFlushDelCols_scan (n : nat) (m : MEM) : MEM :=
  match n with
  | O => m
  | Datatypes.S k =>
      if lpFlushDelCols_cond m then
        lpFlushDelCols_scan k
          (modLp (fun lp => set_lp_lpifirstchgcol (lp_lpifirstchgcol lp + 1) lp) m)
      else m
  end.

(** applies all cached column removals to the LP solver *)
Definition lpFlushDelCols : M MEM unit :=
  fun m =>
    (* find the first column to change *)
    let m :=
      lpFlushDelCols_scan
        (Z.to_nat (lp_nlpicols (m_lp m) - lp_lpifirstchgcol (m_lp m))) m in
    (* shrink LP to the part which didn't change *)
    if lp_lpifirstchgcol (m_lp m) <? lp_nlpicols (m_lp m) then
      (lpi (LpiDelCols (lp_lpifirstchgcol (m_lp m)) (lp_nlpicols (m_lp m) - 1)) ;;
       exec (fun m =>
         let m :=
           for_range (lp_lpifirstchgcol (m_lp m)) (lp_nlpicols (m_lp m)) (fun i m =>
             modCol (aget NULL (lp_lpicols (m_lp m)) i) (fun c =>
               c |> set_col_lpipos (-1)
                 |> set_col_primsol 0%float
                 |> set_col_redcost SCIP_INVALID
                 |> set_col_farkas SCIP_INVALID
                 |> set_col_strongdown SCIP_INVALID
                 |> set_col_strongup SCIP_INVALID
                 |> set_col_validredcostlp (-1)
                 |> set_col_validfarkaslp (-1)
                 |> set_col_strongitlim (-1)) m) m in
         modLp (fun lp => set_lp_nlpicols (lp_lpifirstchgcol lp) lp) m)) m
    else (Ok tt, m).

(** the local arrays of lpFlushAddCols *)
Record COLBUF : Type := mkCOLBUF {
  cb_obj : list Real;
  cb_lb : list Real;
  cb_ub : list Real;
  cb_beg : list Z;
  cb_ind : list Z;
  cb_val : list Real;
  cb_nnonz : Z
}.

(** the coefficients of one vector that are sent to the solver: the inner
    loop of lpFlushAddCols and lpFlushAddRows over the entries, where
    [lpipos i] is the solver position of the row (column) of entry [i] *)
Definition gatherCoefs (len : Z) (lpipos : Z -> Z) (vals : list Real)
    (b : list Z * list Real * Z) : list Z * list Real * Z :=
  for_range 0 len (fun i b =>
    let '(ind, val, nnonz) := b in
    if 0 <=? lpipos i then
      (aset 0 ind nnonz (lpipos i), aset 0%float val nnonz (aget 0%float vals i), nnonz + 1)
    else b) b.

(** applies all cached column additions to the LP solver *)
Definition lpFlushAddCols (set : SET) : M MEM unit :=
  fun m =>
    (* if there are no columns to add, we are ready *)
    if lp_ncols (m_lp m) =? lp_nlpicols (m_lp m) then (Ok tt, m)
    else
      (* get the solver's infinity value *)
      let infinity := SCIPlpiInfinity (lp_lpi (m_lp m)) in
      let naddcols := lp_ncols (m_lp m) - lp_nlpicols (m_lp m) in
      let first := lp_nlpicols (m_lp m) in
      (* fill temporary memory with column data *)
      let fill : M (MEM * COLBUF) unit :=
        forM first (lp_ncols (m_lp m)) (fun c =>
          let pos := c - first in
          (fun s : MEM * COLBUF => onMem (colLink set (aget NULL (lp_cols (m_lp (fst s))) c)) s) ;;
          exec (fun s : MEM * COLBUF =>
            let (m, b) := s in
            let col := aget NULL (lp_cols (m_lp m)) c in
            let m := modLp (fun lp => set_lp_lpicols (aset NULL (lp_lpicols lp) c col) lp) m in
            let m :=
              modCol col (fun x =>
                x |> set_col_lpipos c
                  |> set_col_primsol SCIP_INVALID
                  |> set_col_redcost SCIP_INVALID
                  |> set_col_farkas SCIP_INVALID
                  |> set_col_strongdown SCIP_INVALID
                  |> set_col_strongup SCIP_INVALID
                  |> set_col_validredcostlp (-1)
                  |> set_col_validfarkaslp (-1)
                  |> set_col_strongitlim (-1)
                  |> set_col_lbchanged false
                  |> set_col_ubchanged false
                  |> set_col_coefchanged false) m in
            let var := m_vars m (col_var (m_cols m col)) in
            let x := m_cols m col in
            let '(ind, val, nnonz) :=
              gatherCoefs (col_len x)
                (fun i => row_lpipos (m_rows m (aget NULL (col_rows x) i)))
                (col_vals x) (cb_ind b, cb_val b, cb_nnonz b) in
            (m, mkCOLBUF
                  (aset 0%float (cb_obj b) pos (var_obj var))
                  (aset 0%float (cb_lb b) pos
                     (if SCIPsetIsInfinity set (- var_lb var)%float
                      then (- infinity)%float else var_lb var))
                  (aset 0%float (cb_ub b) pos
                     (if SCIPsetIsInfinity set (var_ub var) then infinity else var_ub var))
                  (aset 0 (cb_beg b) pos (cb_nnonz b))
                  ind val nnonz))) in
      match fill (m, mkCOLBUF [] [] [] [] [] [] 0) with
      | (Err rc, (m, _)) => (Err rc, m)
      | (Ok _, (m, b)) =>
          (* call LP interface *)
          (lpi (LpiAddCols naddcols (cb_obj b) (cb_lb b) (cb_ub b) (cb_nnonz b) (cb_beg b)
                  (cb_ind b) (cb_val b)) ;;
           exec (modLp (fun lp =>
                   lp |> set_lp_nlpicols (lp_ncols lp)
                      |> set_lp_lpifirstchgcol (lp_ncols lp)))) m
      end.

(** the condition of the while loop of lpFlushDelRows *)
Definition lpFlushDelRows_cond (m : MEM) : bool :=
  let lp := m_lp m in
  (lp_lpifirstchgrow lp <? lp_nlpirows lp)
  && (lp_lpifirstchgrow lp <? lp_nrows lp)
  && (row_lpipos (m_rows m (aget NULL (lp_rows lp) (lp_lpifirstchgrow lp)))
      =? lp_lpifirstchgrow lp)
  && negb (row_coefchanged (m_rows m (aget NULL (lp_rows lp) (lp_lpifirstchgrow lp)))).

(** find the first row to change: at most [n] rounds of the while loop *)
Fixpoint lpFlushDelRows_scan (n : nat) (m : MEM) : MEM :=
  match n with
  | O => m
  | Datatypes.S k =>
      if lpFlushDelRows_cond m then
        lpFlushDelRows_scan k
          (modLp (fun lp => set_lp_lpifirstchgrow (lp_lpifirstchgrow lp + 1) lp) m)
      else m
  end.

(** applies all cached row removals to the LP solver *)
Definition lpFlushDelRows : M MEM unit :=
  fun m =>
    (* find the first row to change *)
    let m :=
      lpFlushDelRows_scan
        (Z.to_nat (lp_nlpirows (m_lp m) - lp_lpifirstchgrow (m_lp m))) m in
    (* shrink LP to the part which didn't change *)
    if lp_lpifirstchgrow (m_lp m) <? lp_nlpirows (m_lp m) then
      (lpi (LpiDelRows (lp_lpifirstchgrow (m_lp m)) (lp_nlpirows (m_lp m) - 1)) ;;
       exec (fun m =>
         let m :=
           for_range (lp_lpifirstchgrow (m_lp m)) (lp_nlpirows (m_lp m)) (fun i m =>
             modRow (aget NULL (lp_lpirows (m_lp m)) i) (fun r =>
               r |> set_row_lpipos (-1)
                 |> set_row_dualsol 0%float
                 |> set_row_activity SCIP_INVALID
                 |> set_row_dualfarkas 0%float
                 |> set_row_validactivitylp (-1)) m) m in
         modLp (fun lp => set_lp_nlpirows (lp_lpifirstchgrow lp) lp) m)) m
    else (Ok tt, m).

(** the local arrays of lpFlushAddRows *)
Record ROWBUF : Type := mkROWBUF {
  rb_lhs : list Real;
  rb_rhs : list Real;
  rb_beg : list Z;
  rb_ind : list Z;
  rb_val : list Real;
  rb_nnonz : Z
}.

(** applies all cached row additions and removals to the LP solver *)
Definition lpFlushAddRows (set : SET) : M MEM unit :=
  fun m =>
    (* if there are no rows to add, we are ready *)
    if lp_nrows (m_lp m) =? lp_nlpirows (m_lp m) then (Ok tt, m)
    else
      (* get the solver's infinity value *)
      let infinity := SCIPlpiInfinity (lp_lpi (m_lp m)) in
      let naddrows := lp_nrows (m_lp m) - lp_nlpirows (m_lp m) in
      let first := lp_nlpirows (m_lp m) in
      (* fill temporary memory with row data *)
      let fill : M (MEM * ROWBUF) unit :=
        forM first (lp_nrows (m_lp m)) (fun r =>
          let pos := r - first in
          (fun s : MEM * ROWBUF => onMem (rowLink set (aget NULL (lp_rows (m_lp (fst s))) r)) s) ;;
          exec (fun s : MEM * ROWBUF =>
            let (m, b) := s in
            let row := aget NULL (lp_rows (m_lp m)) r in
            let m := modLp (fun lp => set_lp_lpirows (aset NULL (lp_lpirows lp) r row) lp) m in
            let m :=
              modRow row (fun x =>
                x |> set_row_lpipos r
                  |> set_row_dualsol SCIP_INVALID
                  |> set_row_activity SCIP_INVALID
                  |> set_row_dualfarkas SCIP_INVALID
                  |> set_row_validactivitylp (-1)
                  |> set_row_lhschanged false
                  |> set_row_rhschanged false
                  |> set_row_coefchanged false) m in
            let x := m_rows m row in
            let '(ind, val, nnonz) :=
              gatherCoefs (row_len x)
                (fun i => col_lpipos (m_cols m (aget NULL (row_cols x) i)))
                (row_vals x) (rb_ind b, rb_val b, rb_nnonz b) in
            (m, mkROWBUF
                  (aset 0%float (rb_lhs b) pos
                     (if SCIPsetIsInfinity set (- row_lhs x)%float
                      then (- infinity)%float else (row_lhs x + row_constant x)%float))
                  (aset 0%float (rb_rhs b) pos
                     (if SCIPsetIsInfinity set (row_rhs x)
                      then infinity else (row_rhs x + row_constant x)%float))
                  (aset 0 (rb_beg b) pos (rb_nnonz b))
                  ind val nnonz))) in
      match fill (m, mkROWBUF [] [] [] [] [] 0) with
      | (Err rc, (m, _)) => (Err rc, m)
      | (Ok _, (m, b)) =>
          (* call LP interface *)
          (lpi (LpiAddRows naddrows (rb_lhs b) (rb_rhs b) (rb_nnonz b) (rb_beg b)
                  (rb_ind b) (rb_val b)) ;;
           exec (modLp (fun lp =>
                   lp |> set_lp_nlpirows (lp_nrows lp)
                      |> set_lp_lpifirstchgrow (lp_nrows lp)))) m
      end.

(** the local arrays of lpFlushChgCols (bounds) and lpFlushChgRows (sides) *)
Record CHGBUF : Type := mkCHGBUF {
  chg_ind : list Z;
  chg_lo : list Real;
  chg_hi : list Real;
  chg_n : Z
}.

(** applies all cached column changes to the LP *)
Definition lpFlushChgCols (set : SET) : M MEM unit :=
  fun m =>
    if lp_nchgcols (m_lp m) =? 0 then (Ok tt, m)
    else
      (* get the solver's infinity value *)
      let infinity := SCIPlpiInfinity (lp_lpi (m_lp m)) in
      (* collect all cached bound changes *)
      let (m, b) :=
        for_range 0 (lp_nchgcols (m_lp m)) (fun i (s : MEM * CHGBUF) =>
          let (m, b) := s in
          let col := aget NULL (lp_chgcols (m_lp m)) i in
          let x := m_cols m col in
          let var := m_vars m (col_var x) in
          if 0 <=? col_lpipos x then
            if col_lbchanged x || col_ubchanged x then
              (modCol col (fun x => x |> set_col_lbchanged false |> set_col_ubchanged false) m,
               mkCHGBUF
                 (aset 0 (chg_ind b) (chg_n b) (col_lpipos x))
                 (aset 0%float (chg_lo b) (chg_n b)
                    (if SCIPsetIsInfinity set (- var_lb var)%float
                     then (- infinity)%float else var_lb var))
                 (aset 0%float (chg_hi b) (chg_n b)
                    (if SCIPsetIsInfinity set (var_ub var) then infinity else var_ub var))
                 (chg_n b + 1))
            else s
          else s) (m, mkCHGBUF [] [] [] 0) in
      (* change sides in LP *)
      ((fun m =>
          if 0 <? chg_n b
          then lpi (LpiChgBounds (chg_n b) (chg_ind b) (chg_lo b) (chg_hi b)) m
          else (Ok tt, m)) ;;
       exec (modLp (set_lp_nchgcols 0))) m.

(** applies all cached row changes to the LP *)
Definition lpFlushChgRows (set : SET) : M MEM unit :=
  fun m =>
    if lp_nchgrows (m_lp m) =? 0 then (Ok tt, m)
    else
      (* get the solver's infinity value *)
      let infinity := SCIPlpiInfinity (lp_lpi (m_lp m)) in
      (* collect all cached left and right hand side changes *)
      let (m, b) :=
        for_range 0 (lp_nchgrows (m_lp m)) (fun i (s : MEM * CHGBUF) =>
          let (m, b) := s in
          let row := aget NULL (lp_chgrows (m_lp m)) i in
          let x := m_rows m row in
          if 0 <=? row_lpipos x then
            if row_lhschanged x || row_rhschanged x then
              (modRow row (fun x => x |> set_row_lhschanged false |> set_row_rhschanged false) m,
               mkCHGBUF
                 (aset 0 (chg_ind b) (chg_n b) (row_lpipos x))
                 (aset 0%float (chg_lo b) (chg_n b)
                    (if SCIPsetIsInfinity set (- row_lhs x)%float
                     then (- infinity)%float else (row_lhs x + row_constant x)%float))
                 (aset 0%float (chg_hi b) (chg_n b)
                    (if SCIPsetIsInfinity set (row_rhs x)
                     then infinity else (row_rhs x + row_constant x)%float))
                 (chg_n b + 1))
            else s
          else s) (m, mkCHGBUF [] [] [] 0) in
      (* change left and right hand sides in LP *)
      ((fun m =>
          if 0 <? chg_n b
          then lpi (LpiChgSides (chg_n b) (chg_ind b) (chg_lo b) (chg_hi b)) m
          else (Ok tt, m)) ;;
       exec (modLp (set_lp_nchgrows 0))) m.

(** applies all cached changes to the LP solver *)
Definition lpFlush (set : SET) : M MEM unit :=
  fun m =>
    if lp_flushed (m_lp m) then (Ok tt, m)
    else
      (lpFlushDelCols ;;
       lpFlushDelRows ;;
       lpFlushChgCols set ;;
       lpFlushChgRows set ;;
       lpFlushAddCols set ;;
       lpFlushAddRows set ;;
       exec (modLp (set_lp_flushed true))) m.

(** *** LP methods *)

(** adds a column to the LP *)
Definition SCIPlpAddCol (set : SET) (col : ptr) : M MEM unit :=
  exec (fun m =>
    let m := modLp (fun lp => set_lp_cols (aset NULL (lp_cols lp) (lp_ncols lp) col) lp) m in
    let m := modCol col (set_col_lppos (lp_ncols (m_lp m))) m in
    modLp (fun lp => lp |> set_lp_ncols (lp_ncols lp + 1)
                        |> set_lp_flushed false
                        |> set_lp_solved false
                        |> set_lp_dualfeasible false
                        |> set_lp_objval SCIP_INVALID
                        |> set_lp_lpsolstat SCIP_LPSOLSTAT_NOTSOLVED) m).

(** adds a row to the LP and captures it *)
Definition SCIPlpAddRow (set : SET) (row : ptr) : M MEM unit :=
  exec (fun m =>
    let m := modRow row SCIProwCapture m in
    let m := modLp (fun lp => set_lp_rows (aset NULL (lp_rows lp) (lp_nrows lp) row) lp) m in
    let m := modRow row (set_row_lppos (lp_nrows (m_lp m))) m in
    modLp (fun lp => lp |> set_lp_nrows (lp_nrows lp + 1)
                        |> set_lp_flushed false
                        |> set_lp_solved false
                        |> set_lp_primalfeasible false
                        |> set_lp_objval SCIP_INVALID
                        |> set_lp_lpsolstat SCIP_LPSOLSTAT_NOTSOLVED) m).

(** removes all columns after the given number of cols from the LP *)
Definition SCIPlpShrinkCols (newncols : Z) : M MEM unit :=
  fun m =>
    if newncols <? lp_ncols (m_lp m) then
      let m :=
        for_range newncols (lp_ncols (m_lp m)) (fun c m =>
          modCol (aget NULL (lp_cols (m_lp m)) c) (set_col_lppos (-1)) m) m in
      (Ok tt,
       modLp (fun lp => lp |> set_lp_ncols newncols
                           |> set_lp_lpifirstchgcol (MINz (lp_lpifirstchgcol lp) newncols)
                           |> set_lp_flushed false
                           |> set_lp_solved false
                           |> set_lp_primalfeasible false
                           |> set_lp_objval SCIP_INVALID
                           |> set_lp_lpsolstat SCIP_LPSOLSTAT_NOTSOLVED) m)
    else (Ok tt, m).

(** removes and releases all rows after the given number of rows from the LP *)
Definition SCIPlpShrinkRows (set : SET) (newnrows : Z) : M MEM unit :=
  fun m =>
    if newnrows <? lp_nrows (m_lp m) then
      (forM newnrows (lp_nrows (m_lp m)) (fun r m =>
         let row := aget NULL (lp_rows (m_lp m)) r in
         let m := modRow row (set_row_lppos (-1)) m in
         (SCIProwRelease set row ;;
          (* SCIProwRelease sets the pointer lp->rows[r] to NULL *)
          exec (modLp (fun lp => set_lp_rows (aset NULL (lp_rows lp) r NULL) lp))) m) ;;
       exec (modLp (fun lp =>
               lp |> set_lp_nrows newnrows
                  |> set_lp_lpifirstchgrow (MINz (lp_lpifirstchgrow lp) newnrows)
                  |> set_lp_flushed false
                  |> set_lp_solved false
                  |> set_lp_dualfeasible false
                  |> set_lp_objval SCIP_INVALID
                  |> set_lp_lpsolstat SCIP_LPSOLSTAT_NOTSOLVED))) m
    else (Ok tt, m).

(** get number of iterations used in last LP solve *)
Definition SCIPlpGetIterations : M MEM Z :=
  fun m =>
    let (rc1, iter1) := SCIPlpiGetIntpar (lp_lpi (m_lp m)) SCIP_LPPAR_LPIT1 in
    let (rc2, iter2) := SCIPlpiGetIntpar (lp_lpi (m_lp m)) SCIP_LPPAR_LPIT2 in
    (check rc1 ;; check rc2 ;; ret (iter1 + iter2)) m.

(** evaluate solution status: the chain of tests of SCIPlpSolvePrimal on
    the termination of the solver *)
Definition primalSolstat (set : SET) : M MEM unit :=
  fun m =>
    let l := lp_lpi (m_lp m) in
    if SCIPlpiIsOptimal l then
      let m := modLp (set_lp_lpsolstat SCIP_LPSOLSTAT_OPTIMAL) m in
      let (rc, objval) := SCIPlpiGetObjval l in
      check rc (modLp (set_lp_objval objval) m)
    else if SCIPlpiIsPrimalInfeasible l then
      (Ok tt, modLp (fun lp => lp |> set_lp_lpsolstat SCIP_LPSOLSTAT_INFEASIBLE
                                  |> set_lp_objval (set_infinity set)) m)
    else if SCIPlpiIsPrimalUnbounded l then
      (Ok tt, modLp (fun lp => lp |> set_lp_lpsolstat SCIP_LPSOLSTAT_UNBOUNDED
                                  |> set_lp_objval (- set_infinity set)%float) m)
    else if SCIPlpiIsIterlimExc l then
      (Ok tt, modLp (fun lp => lp |> set_lp_lpsolstat SCIP_LPSOLSTAT_ITERLIMIT
                                  |> set_lp_objval (- set_infinity set)%float) m)
    else if SCIPlpiIsTimelimExc l then
      (Ok tt, modLp (fun lp => lp |> set_lp_lpsolstat SCIP_LPSOLSTAT_TIMELIMIT
                                  |> set_lp_objval (- set_infinity set)%float) m)
    else if SCIPlpiIsObjlimExc l then
      (* Objective limit exceeded in primal simplex - this should not happen *)
      (Err SCIP_LPERROR,
       modLp (fun lp => lp |> set_lp_lpsolstat SCIP_LPSOLSTAT_ERROR
                           |> set_lp_objval (- set_infinity set)%float) m)
    else
      (* Unknown return status of primal simplex *)
      (Err SCIP_LPERROR, modLp (set_lp_lpsolstat SCIP_LPSOLSTAT_ERROR) m).

(** solves the LP with the primal simplex algorithm *)
Definition SCIPlpSolvePrimal (set : SET) : M MEM unit :=
  (* flush changes to the LP solver *)
  lpFlush set ;;
  (* call primal simplex *)
  lpi LpiSolvePrimal ;;
  (* check for primal and dual feasibility *)
  (fun m =>
     let '(rc, (primalfeasible, dualfeasible)) :=
       SCIPlpiGetBasisFeasibility (lp_lpi (m_lp m)) in
     (check rc ;;
      exec (modLp (fun lp => lp |> set_lp_primalfeasible primalfeasible
                                |> set_lp_dualfeasible dualfeasible))) m) ;;
  (* evaluate solution status *)
  primalSolstat set ;;
  exec (modLp (set_lp_solved true)) ;;
  exec (fun m =>
    putStat (let st := m_stat m in
             mkSTAT (stat_ncolidx st) (stat_nrowidx st) (stat_nlp st + 1)
               (stat_nprimallp st + 1) (stat_nlpiterations st)
               (stat_nprimallpiterations st)) m) ;;
  iterations <- SCIPlpGetIterations ;;
  exec (fun m =>
    putStat (let st := m_stat m in
             mkSTAT (stat_ncolidx st) (stat_nrowidx st) (stat_nlp st)
               (stat_nprimallp st) (stat_nlpiterations st + iterations)
               (stat_nprimallpiterations st + iterations)) m).

(** *** Searching and sorting the coefficients *)

(** the value of an [int] expression whose exact result is [z] (32 bits,
    two's complement) *)
Definition int32 (z : Z) : Z := (z - INT_MIN) mod 4294967296 + INT_MIN.

(** sort.c is not part of the sources: SCIPbsortPtrDblInt sorts an array
    of pointers by a comparison and moves the entries of a Real array and
    of an int array along with them. *)
Variable SCIPbsortPtrDblInt :
  list ptr -> list Real -> list Z -> Z -> (ptr -> ptr -> Z) -> list ptr * list Real * list Z.

(** compare methods for sorting *)
Definition cmpRow (m : MEM) (elem1 elem2 : ptr) : Z :=
  row_index (m_rows m elem1) - row_index (m_rows m elem2).
Definition cmpCol (m : MEM) (elem1 elem2 : ptr) : Z :=
  col_index (m_cols m elem1) - col_index (m_cols m elem2).

(** sorts column entries by row index *)
Definition SCIPcolSort (col : ptr) (m : MEM) : MEM :=
  if negb (col_sorted (m_cols m col)) then
    let c := m_cols m col in
    (* sort coefficients *)
    let '(rows, vals, linkpos) :=
      SCIPbsortPtrDblInt (col_rows c) (col_vals c) (col_linkpos c) (col_len c) (cmpRow m) in
    let m :=
      modCol col (fun c =>
        c |> set_col_rows rows |> set_col_vals vals |> set_col_linkpos linkpos) m in
    (* update links *)
    let m :=
      for_range 0 (col_len (m_cols m col)) (fun i m =>
        let c := m_cols m col in
        if negb (aget 0 (col_linkpos c) i =? -1) then
          modRow (aget NULL (col_rows c) i) (fun r =>
            set_row_linkpos (aset 0 (row_linkpos r) (aget 0 (col_linkpos c) i) i) r) m
        else m) m in
    modCol col (set_col_sorted true) m
  else m.

(** sorts row entries by column index *)
Definition SCIProwSort (row : ptr) (m : MEM) : MEM :=
  if negb (row_sorted (m_rows m row)) then
    let r := m_rows m row in
    (* sort coefficients *)
    let '(cols, vals, linkpos) :=
      SCIPbsortPtrDblInt (row_cols r) (row_vals r) (row_linkpos r) (row_len r) (cmpCol m) in
    let m :=
      modRow row (fun r =>
        r |> set_row_cols cols |> set_row_vals vals |> set_row_linkpos linkpos) m in
    (* update links *)
    let m :=
      for_range 0 (row_len (m_rows m row)) (fun i m =>
        let r := m_rows m row in
        if negb (aget 0 (row_linkpos r) i =? -1) then
          modCol (aget NULL (row_cols r) i) (fun c =>
            set_col_linkpos (aset 0 (col_linkpos c) (aget 0 (row_linkpos r) i) i) c) m
        else m) m in
    modRow row (set_row_sorted true) m
  else m.

(** the binary search of colSearchCoeff and rowSearchCoeff:
    [while(minpos <= maxpos)], where [actidx actpos] is the index of the
    entry at [actpos]; [None]: more than [fuel] rounds are needed *)
Fixpoint searchCoeff (fuel : nat) (actidx : Z -> Z) (searchidx minpos maxpos : Z)
    : option Z :=
  match fuel with
  | O => None
  | Datatypes.S k =>
      if minpos <=? maxpos then
        let actpos := Z.quot (int32 (minpos + maxpos)) 2 in
        if searchidx =? actidx actpos then Some actpos
        else if searchidx <? actidx actpos then
          searchCoeff k actidx searchidx minpos (actpos - 1)
        else searchCoeff k actidx searchidx (actpos + 1) maxpos
      else Some (-1)
  end.

(** searches coefficient in column, returns position in col vector or -1 *)
Definition colSearchCoeff (fuel : nat) (col row : ptr) (m : MEM) : option (Z * MEM) :=
  (* column has to be sorted, such that binary search works *)
  let m := if negb (col_sorted (m_cols m col)) then SCIPcolSort col m else m in
  match
    searchCoeff fuel
      (fun actpos => row_index (m_rows m (aget NULL (col_rows (m_cols m col)) actpos)))
      (row_index (m_rows m row)) 0 (col_len (m_cols m col) - 1)
  with
  | Some pos => Some (pos, m)
  | None => None
  end.

(** searches coefficient in row, returns position in row vector or -1 *)
Definition rowSearchCoeff (fuel : nat) (row col : ptr) (m : MEM) : option (Z * MEM) :=
  (* row has to be sorted, such that binary search works *)
  let m := if negb (row_sorted (m_rows m row)) then SCIProwSort row m else m in
  match
    searchCoeff fuel
      (fun actpos => col_index (m_cols m (aget NULL (row_cols (m_rows m row)) actpos)))
      (col_index (m_cols m col)) 0 (row_len (m_rows m row) - 1)
  with
  | Some pos => Some (pos, m)
  | None => None
  end.

(** *** More column and row methods *)

(** frees an LP column: the coefficients are removed from the rows, then
    the memory is given back *)
Definition SCIPcolFree (set : SET) (col : ptr) : M MEM unit := colUnlink set col.

(** adds a previously non existing coefficient to an LP column *)
Definition SCIPcolAddCoeff (set : SET) (col row : ptr) (val : Real) : M MEM unit :=
  colAddCoeff set col row val (-1) None.

(** deletes existing coefficient from column *)
Definition SCIPcolDelCoeff (fuel : nat) (set : SET) (col row : ptr) (m : MEM)
    : option (res unit * MEM) :=
  (* search the position of the row in the column's row vector *)
  match colSearchCoeff fuel col row m with
  | None => None
  | Some (pos, m) =>
      Some
        (if pos =? -1 then (Err SCIP_INVALIDDATA, m)
         else
           ((* if row knows of the column, remove the column from the row's col vector *)
            (fun m =>
               let linkpos := aget 0 (col_linkpos (m_cols m col)) pos in
               if negb (linkpos =? -1) then rowDelCoeffPos set row linkpos m
               else (Ok tt, m)) ;;
            (* delete the row from the column's row vector *)
            colDelCoeffPos set col pos) m)
  end.

(** deletes coefficient from row *)
Definition SCIProwDelCoeff (fuel : nat) (set : SET) (row col : ptr) (m : MEM)
    : option (res unit * MEM) :=
  (* search the position of the column in the row's col vector *)
  match rowSearchCoeff fuel row col m with
  | None => None
  | Some (pos, m) =>
      Some
        (if pos =? -1 then (Err SCIP_INVALIDDATA, m)
         else
           ((* if column knows of the row, remove the row from the column's row vector *)
            (fun m =>
               let linkpos := aget 0 (row_linkpos (m_rows m row)) pos in
               if negb (linkpos =? -1) then colDelCoeffPos set col linkpos m
               else (Ok tt, m)) ;;
            (* delete the column from the row's col vector *)
            rowDelCoeffPos set row pos) m)
  end.

(** changes or adds a coefficient to an LP row *)
Definition SCIProwChgCoeff (fuel : nat) (set : SET) (row col : ptr) (val : Real) (m : MEM)
    : option (res unit * MEM) :=
  (* search the position of the column in the row's col vector *)
  match rowSearchCoeff fuel row col m with
  | None => None
  | Some (pos, m) =>
      Some
        (if pos =? -1 then
           (* add previously not existing coefficient *)
           rowAddCoeff set row col val (-1) None m
         else
           ((* if column knows of the row, change the corresponding coefficient in the column *)
            (fun m =>
               let linkpos := aget 0 (row_linkpos (m_rows m row)) pos in
               if negb (linkpos =? -1) then colChgCoeffPos set col linkpos val m
               else (Ok tt, m)) ;;
            (* change the coefficient in the row *)
            rowChgCoeffPos set row pos val) m)
  end.

(** unlocks a lock of a row; a row with no sealed lock may be modified *)
Definition SCIProwUnlock (row : ptr) : M MEM unit :=
  fun m =>
    (* check, if row is modifiable *)
    if row_modifiable (m_rows m row) then (Err SCIP_INVALIDDATA, m)
    (* check, if row is locked *)
    else if row_nlocks (m_rows m row) =? 0 then (Err SCIP_INVALIDDATA, m)
    else (Ok tt, modRow row (fun r => set_row_nlocks (row_nlocks r - 1) r) m).

(** calculates row norms and min/maxidx from scratch, and checks for sortation *)
Definition rowCalcNorms (set : SET) (row : ptr) (m : MEM) : MEM :=
  let m :=
    modRow row (fun r =>
      r |> set_row_sqrnorm 0%float
        |> set_row_maxval 0%float
        |> set_row_nummaxval 1
        |> set_row_minidx INT_MAX
        |> set_row_maxidx INT_MIN
        |> set_row_validminmaxidx true
        |> set_row_sorted true) m in
  (* check, if row is sorted; calculate sqrnorm, maxval, minidx, and maxidx *)
  for_range 0 (row_len (m_rows m row)) (fun i m =>
    let r := m_rows m row in
    let idx := col_index (m_cols m (aget NULL (row_cols r) i)) in
    let m := modRow row (rowAddNorms set idx (aget 0%float (row_vals r) i)) m in
    modRow row (fun r =>
      set_row_sorted
        (row_sorted r &&
         ((i =? 0) || (col_index (m_cols m (aget NULL (row_cols r) (i - 1))) <? idx))) r) m) m.

(** creates and captures an LP row. [row] is the struct that
    allocBlockMemory returns and [fresh] what the newly allocated link
    array holds; [col] and [val] are the arrays of the caller. *)
Definition SCIProwCreate (row : ptr) (fresh : list Z) (set : SET) (len : Z)
    (col : list ptr) (val : list Real) (lhs rhs : Real) (local modifiable : bool)
    : M MEM unit :=
  fun m =>
    let m :=
      if 0 <? len then
        let m :=
          modRow row (fun r =>
            r |> set_row_cols (prefix col len)
              |> set_row_vals (prefix val len)
              |> set_row_linkpos fresh) m in
        for_range 0 len (fun i m =>
          modRow row (fun r => set_row_linkpos (aset 0 (row_linkpos r) i (-1)) r) m) m
      else
        modRow row (fun r =>
          r |> set_row_cols [] |> set_row_vals [] |> set_row_linkpos []) m in
    let m :=
      modRow row (fun r =>
        r |> set_row_constant 0%float
          |> set_row_lhs lhs
          |> set_row_rhs rhs
          |> set_row_sqrnorm 0%float
          |> set_row_maxval 0%float
          |> set_row_dualsol 0%float
          |> set_row_activity SCIP_INVALID
          |> set_row_dualfarkas 0%float
          |> set_row_pseudoactivity SCIP_INVALID
          |> set_row_minactivity SCIP_INVALID
          |> set_row_maxactivity SCIP_INVALID
          |> set_row_minactivityinf (-1)
          |> set_row_maxactivityinf (-1)
          |> set_row_index (stat_nrowidx (m_stat m))) m in
    let m :=
      putStat (let st := m_stat m in
               mkSTAT (stat_ncolidx st) (stat_nrowidx st + 1) (stat_nlp st)
                 (stat_nprimallp st) (stat_nlpiterations st)
                 (stat_nprimallpiterations st)) m in
    let m :=
      modRow row (fun r =>
        r |> set_row_len len
          |> set_row_nunlinked len
          |> set_row_nuses 0
          |> set_row_lppos (-1)
          |> set_row_lpipos (-1)
          |> set_row_minidx INT_MAX
          |> set_row_maxidx INT_MIN
          |> set_row_nummaxval 0
          |> set_row_validactivitylp (-1)
          |> set_row_sorted false
          |> set_row_validpsactivity false
          |> set_row_validactivitybds false
          |> set_row_validminmaxidx false
          |> set_row_lhschanged false
          |> set_row_rhschanged false
          |> set_row_coefchanged false
          |> set_row_local local
          |> set_row_modifiable modifiable
          |> set_row_nlocks 0) m in
    (* calculate row norms and min/maxidx, and check if row is sorted *)
    let m := rowCalcNorms set row m in
    (* capture the row *)
    (Ok tt, modRow row SCIProwCapture m).

(** *** Solution values of columns and rows *)

(** calculates the reduced costs of a column *)
Definition colCalcRedcost (col : ptr) (m : MEM) : MEM :=
  let m := modCol col (fun c => set_col_redcost (var_obj (m_vars m (col_var c))) c) m in
  for_range 0 (col_len (m_cols m col)) (fun r m =>
    let c := m_cols m col in
    let row := m_rows m (aget NULL (col_rows c) r) in
    modCol col
      (set_col_redcost (col_redcost c - aget 0%float (col_vals c) r * row_dualsol row)%float)
      m) m.

(** gets the reduced costs of a column in last LP or after recalculation *)
Definition SCIPcolGetRedcost (col : ptr) (m : MEM) : Real * MEM :=
  let m :=
    if col_validredcostlp (m_cols m col) <? stat_nlp (m_stat m)
    then colCalcRedcost col m else m in
  let m := modCol col (set_col_validredcostlp (stat_nlp (m_stat m))) m in
  (col_redcost (m_cols m col), m).

(** gets the feasibility of a column in last LP or after recalculation *)
Definition SCIPcolGetFeasibility (col : ptr) (m : MEM) : Real * MEM :=
  let (redcost, m) := SCIPcolGetRedcost col m in
  if (var_lb (m_vars m (col_var (m_cols m col))) <? 0)%float
  then ((- ABSr redcost)%float, m)
  else (redcost, m).

(** recalculates the actual activity of a row *)
Definition rowCalcActivity (row : ptr) (m : MEM) : MEM :=
  let m := modRow row (fun r => set_row_activity (row_constant r) r) m in
  for_range 0 (row_len (m_rows m row)) (fun c m =>
    let r := m_rows m row in
    let col := m_cols m (aget NULL (row_cols r) c) in
    modRow row
      (set_row_activity (row_activity r + aget 0%float (row_vals r) c * col_primsol col)%float)
      m) m.

(** returns the activity of a row in the last LP or after recalculation *)
Definition SCIProwGetActivity (row : ptr) (m : MEM) : Real * MEM :=
  let m :=
    if negb (row_validactivitylp (m_rows m row) =? stat_nlp (m_stat m))
    then rowCalcActivity row m else m in
  let m := modRow row (set_row_validactivitylp (stat_nlp (m_stat m))) m in
  (row_activity (m_rows m row), m).

(** *** More LP methods *)


(** remembers number of columns and rows to track the newly added ones *)
Definition SCIPlpMarkSize (m : MEM) : MEM :=
  modLp (fun lp => lp |> set_lp_firstnewcol (lp_ncols lp)
                      |> set_lp_firstnewrow (lp_nrows lp)) m.

(** get number of newly added columns after the last mark *)
Definition SCIPlpGetNumNewcols (m : MEM) : Z := lp_ncols (m_lp m) - lp_firstnewcol (m_lp m).

(** get number of newly added rows after the last mark *)
Definition SCIPlpGetNumNewrows (m : MEM) : Z := lp_nrows (m_lp m) - lp_firstnewrow (m_lp m).

End LPManagement.

(** ** cons_linear.c: activity bounds and bound tightening *)

(** result codes of a propagation call (result.h), the ones used here *)
Inductive RESULT : Type :=
| SCIP_DIDNOTRUN
| SCIP_DIDNOTFIND
| SCIP_CUTOFF
| SCIP_REDUCEDDOM.

Definition RESULT_eqb (a b : RESULT) : bool :=
  match a, b with
  | SCIP_DIDNOTRUN, SCIP_DIDNOTRUN | SCIP_DIDNOTFIND, SCIP_DIDNOTFIND
  | SCIP_CUTOFF, SCIP_CUTOFF | SCIP_REDUCEDDOM, SCIP_REDUCEDDOM => true
  | _, _ => false
  end.

(** linear constraint (struct LinCons): [eventdatas] and the capacity [varssize] are left out. *)
Record LINCONS : Type := mkLINCONS {
  lc_vars : list ptr;  (* variables of constraint entries *)
  lc_vals : list Real;  (* coefficients of constraint entries *)
  lc_lhs : Real;  (* left hand side of row (for ranged rows) *)
  lc_rhs : Real;  (* right hand side of row *)
  lc_pseudoactivity : Real;  (* pseudo activity value in actual pseudo solution *)
  lc_minactivity : Real;  (* minimal activity, ignoring infinite contributions *)
  lc_maxactivity : Real;  (* maximal activity, ignoring infinite contributions *)
  lc_minactivityinf : Z;  (* coefficients contributing infinitely to minactivity *)
  lc_maxactivityinf : Z;  (* coefficients contributing infinitely to maxactivity *)
  lc_nvars : Z;  (* number of nonzeros in constraint *)
  lc_local : bool;  (* is linear constraint only valid locally? *)
  lc_modifiable : bool;  (* is data modifiable during node processing? *)
  lc_removeable : bool;  (* should the row be removed from the LP due to aging? *)
  lc_transformed : bool;  (* does the data belong to the transformed problem? *)
  lc_validactivities : bool;  (* are the pseudo activity and activity bounds valid? *)
  lc_propagated : bool;  (* is constraint already preprocessed/propagated? *)
  lc_redchecked : bool;  (* is constraint already checked for redundancy? *)
  lc_sorted : bool  (* are the constraint's variables sorted? *)
}.

Definition set_lc_vars (v : list ptr) (x : LINCONS) : LINCONS :=
  mkLINCONS v (lc_vals x) (lc_lhs x) (lc_rhs x) (lc_pseudoactivity x) (lc_minactivity x)
    (lc_maxactivity x) (lc_minactivityinf x) (lc_maxactivityinf x) (lc_nvars x) (lc_local x)
    (lc_modifiable x) (lc_removeable x) (lc_transformed x) (lc_validactivities x)
    (lc_propagated x) (lc_redchecked x) (lc_sorted x).
Definition set_lc_vals (v : list Real) (x : LINCONS) : LINCONS :=
  mkLINCONS (lc_vars x) v (lc_lhs x) (lc_rhs x) (lc_pseudoactivity x) (lc_minactivity x)
    (lc_maxactivity x) (lc_minactivityinf x) (lc_maxactivityinf x) (lc_nvars x) (lc_local x)
    (lc_modifiable x) (lc_removeable x) (lc_transformed x) (lc_validactivities x)
    (lc_propagated x) (lc_redchecked x) (lc_sorted x).
Definition set_lc_lhs (v : Real) (x : LINCONS) : LINCONS :=
  mkLINCONS (lc_vars x) (lc_vals x) v (lc_rhs x) (lc_pseudoactivity x) (lc_minactivity x)
    (lc_maxactivity x) (lc_minactivityinf x) (lc_maxactivityinf x) (lc_nvars x) (lc_local x)
    (lc_modifiable x) (lc_removeable x) (lc_transformed x) (lc_validactivities x)
    (lc_propagated x) (lc_redchecked x) (lc_sorted x).
Definition set_lc_rhs (v : Real) (x : LINCONS) : LINCONS :=
  mkLINCONS (lc_vars x) (lc_vals x) (lc_lhs x) v (lc_pseudoactivity x) (lc_minactivity x)
    (lc_maxactivity x) (lc_minactivityinf x) (lc_maxactivityinf x) (lc_nvars x) (lc_local x)
    (lc_modifiable x) (lc_removeable x) (lc_transformed x) (lc_validactivities x)
    (lc_propagated x) (lc_redchecked x) (lc_sorted x).
Definition set_lc_pseudoactivity (v : Real) (x : LINCONS) : LINCONS :=
  mkLINCONS (lc_vars x) (lc_vals x) (lc_lhs x) (lc_rhs x) v (lc_minactivity x) (lc_maxactivity x)
    (lc_minactivityinf x) (lc_maxactivityinf x) (lc_nvars x) (lc_local x) (lc_modifiable x)
    (lc_removeable x) (lc_transformed x) (lc_validactivities x) (lc_propagated x)
    (lc_redchecked x) (lc_sorted x).
Definition set_lc_minactivity (v : Real) (x : LINCONS) : LINCONS :=
  mkLINCONS (lc_vars x) (lc_vals x) (lc_lhs x) (lc_rhs x) (lc_pseudoactivity x) v
    (lc_maxactivity x) (lc_minactivityinf x) (lc_maxactivityinf x) (lc_nvars x) (lc_local x)
    (lc_modifiable x) (lc_removeable x) (lc_transformed x) (lc_validactivities x)
    (lc_propagated x) (lc_redchecked x) (lc_sorted x).
Definition set_lc_maxactivity (v : Real) (x : LINCONS) : LINCONS :=
  mkLINCONS (lc_vars x) (lc_vals x) (lc_lhs x) (lc_rhs x) (lc_pseudoactivity x)
    (lc_minactivity x) v (lc_minactivityinf x) (lc_maxactivityinf x) (lc_nvars x) (lc_local x)
    (lc_modifiable x) (lc_removeable x) (lc_transformed x) (lc_validactivities x)
    (lc_propagated x) (lc_redchecked x) (lc_sorted x).
Definition set_lc_minactivityinf (v : Z) (x : LINCONS) : LINCONS :=
  mkLINCONS (lc_vars x) (lc_vals x) (lc_lhs x) (lc_rhs x) (lc_pseudoactivity x)
    (lc_minactivity x) (lc_maxactivity x) v (lc_maxactivityinf x) (lc_nvars x) (lc_local x)
    (lc_modifiable x) (lc_removeable x) (lc_transformed x) (lc_validactivities x)
    (lc_propagated x) (lc_redchecked x) (lc_sorted x).
Definition set_lc_maxactivityinf (v : Z) (x : LINCONS) : LINCONS :=
  mkLINCONS (lc_vars x) (lc_vals x) (lc_lhs x) (lc_rhs x) (lc_pseudoactivity x)
    (lc_minactivity x) (lc_maxactivity x) (lc_minactivityinf x) v (lc_nvars x) (lc_local x)
    (lc_modifiable x) (lc_removeable x) (lc_transformed x) (lc_validactivities x)
    (lc_propagated x) (lc_redchecked x) (lc_sorted x).
Definition set_lc_nvars (v : Z) (x : LINCONS) : LINCONS :=
  mkLINCONS (lc_vars x) (lc_vals x) (lc_lhs x) (lc_rhs x) (lc_pseudoactivity x)
    (lc_minactivity x) (lc_maxactivity x) (lc_minactivityinf x) (lc_maxactivityinf x) v
    (lc_local x) (lc_modifiable x) (lc_removeable x) (lc_transformed x) (lc_validactivities x)
    (lc_propagated x) (lc_redchecked x) (lc_sorted x).
Definition set_lc_local (v : bool) (x : LINCONS) : LINCONS :=
  mkLINCONS (lc_vars x) (lc_vals x) (lc_lhs x) (lc_rhs x) (lc_pseudoactivity x)
    (lc_minactivity x) (lc_maxactivity x) (lc_minactivityinf x) (lc_maxactivityinf x)
    (lc_nvars x) v (lc_modifiable x) (lc_removeable x) (lc_transformed x) (lc_validactivities x)
    (lc_propagated x) (lc_redchecked x) (lc_sorted x).
Definition set_lc_modifiable (v : bool) (x : LINCONS) : LINCONS :=
  mkLINCONS (lc_vars x) (lc_vals x) (lc_lhs x) (lc_rhs x) (lc_pseudoactivity x)
    (lc_minactivity x) (lc_maxactivity x) (lc_minactivityinf x) (lc_maxactivityinf x)
    (lc_nvars x) (lc_local x) v (lc_removeable x) (lc_transformed x) (lc_validactivities x)
    (lc_propagated x) (lc_redchecked x) (lc_sorted x).
Definition set_lc_removeable (v : bool) (x : LINCONS) : LINCONS :=
  mkLINCONS (lc_vars x) (lc_vals x) (lc_lhs x) (lc_rhs x) (lc_pseudoactivity x)
    (lc_minactivity x) (lc_maxactivity x) (lc_minactivityinf x) (lc_maxactivityinf x)
    (lc_nvars x) (lc_local x) (lc_modifiable x) v (lc_transformed x) (lc_validactivities x)
    (lc_propagated x) (lc_redchecked x) (lc_sorted x).
Definition set_lc_transformed (v : bool) (x : LINCONS) : LINCONS :=
  mkLINCONS (lc_vars x) (lc_vals x) (lc_lhs x) (lc_rhs x) (lc_pseudoactivity x)
    (lc_minactivity x) (lc_maxactivity x) (lc_minactivityinf x) (lc_maxactivityinf x)
    (lc_nvars x) (lc_local x) (lc_modifiable x) (lc_removeable x) v (lc_validactivities x)
    (lc_propagated x) (lc_redchecked x) (lc_sorted x).
Definition set_lc_validactivities (v : bool) (x : LINCONS) : LINCONS :=
  mkLINCONS (lc_vars x) (lc_vals x) (lc_lhs x) (lc_rhs x) (lc_pseudoactivity x)
    (lc_minactivity x) (lc_maxactivity x) (lc_minactivityinf x) (lc_maxactivityinf x)
    (lc_nvars x) (lc_local x) (lc_modifiable x) (lc_removeable x) (lc_transformed x) v
    (lc_propagated x) (lc_redchecked x) (lc_sorted x).
Definition set_lc_propagated (v : bool) (x : LINCONS) : LINCONS :=
  mkLINCONS (lc_vars x) (lc_vals x) (lc_lhs x) (lc_rhs x) (lc_pseudoactivity x)
    (lc_minactivity x) (lc_maxactivity x) (lc_minactivityinf x) (lc_maxactivityinf x)
    (lc_nvars x) (lc_local x) (lc_modifiable x) (lc_removeable x) (lc_transformed x)
    (lc_validactivities x) v (lc_redchecked x) (lc_sorted x).
Definition set_lc_redchecked (v : bool) (x : LINCONS) : LINCONS :=
  mkLINCONS (lc_vars x) (lc_vals x) (lc_lhs x) (lc_rhs x) (lc_pseudoactivity x)
    (lc_minactivity x) (lc_maxactivity x) (lc_minactivityinf x) (lc_maxactivityinf x)
    (lc_nvars x) (lc_local x) (lc_modifiable x) (lc_removeable x) (lc_transformed x)
    (lc_validactivities x) (lc_propagated x) v (lc_sorted x).
Definition set_lc_sorted (v : bool) (x : LINCONS) : LINCONS :=
  mkLINCONS (lc_vars x) (lc_vals x) (lc_lhs x) (lc_rhs x) (lc_pseudoactivity x)
    (lc_minactivity x) (lc_maxactivity x) (lc_minactivityinf x) (lc_maxactivityinf x)
    (lc_nvars x) (lc_local x) (lc_modifiable x) (lc_removeable x) (lc_transformed x)
    (lc_validactivities x) (lc_propagated x) (lc_redchecked x) v.


(** a bound change that the constraint handler asks SCIP to apply *)
Inductive BDCALL : Type :=
| CallChgVarLb (var : ptr) (newbound : Real)
| CallChgVarUb (var : ptr) (newbound : Real).

Section ConsLinear.

(** What stands behind the [scip] pointer is not part of the sources
    (scip.c, var.c, the event system): it is a state of some type [SCIP]
    with the interface the handler calls. A bound change may adjust the
    bound it is given (integrality) and runs the handler's event
    execution method on the constraint, so it maps the state and the
    constraint to a new state and a new constraint. *)
Variable SCIP : Type.
Variable SCIPinfinity : SCIP -> Real.
Variable SCIPisInfinity : SCIP -> Real -> bool.
Variable SCIPisSumLT : SCIP -> Real -> Real -> bool.
Variable SCIPisSumGT : SCIP -> Real -> Real -> bool.
Variable SCIPvarGetLbLocal : SCIP -> ptr -> Real.
Variable SCIPvarGetUbLocal : SCIP -> ptr -> Real.
Variable SCIPvarGetBestBoundType : SCIP -> ptr -> BOUNDTYPE.
Variable SCIPchgVarLb : SCIP -> LINCONS -> ptr -> Real -> RETCODE * (SCIP * LINCONS).
Variable SCIPchgVarUb : SCIP -> LINCONS -> ptr -> Real -> RETCODE * (SCIP * LINCONS).

(** the state a routine of the handler works on: SCIP, the constraint
    behind the [lincons] pointer, and the bound changes requested so far
    (oldest first) *)
Record CLSTATE : Type := mkCL {
  cl_scip : SCIP;
  cl_lincons : LINCONS;
  cl_calls : list BDCALL
}.

(** CHECK_OKAY( SCIPchgVarLb(scip, var, newlb) ) *)
Definition chgVarLb (var : ptr) (newlb : Real) : M CLSTATE unit :=
  fun s =>
    let '(rc, (scip, lincons)) := SCIPchgVarLb (cl_scip s) (cl_lincons s) var newlb in
    check rc (mkCL scip lincons (cl_calls s ++ [CallChgVarLb var newlb])).

(** CHECK_OKAY( SCIPchgVarUb(scip, var, newub) ) *)
Definition chgVarUb (var : ptr) (newub : Real) : M CLSTATE unit :=
  fun s =>
    let '(rc, (scip, lincons)) := SCIPchgVarUb (cl_scip s) (cl_lincons s) var newub in
    check rc (mkCL scip lincons (cl_calls s ++ [CallChgVarUb var newub])).

(** updates minimum and maximum activity for a change in lower bound *)
Definition linconsUpdateChgLb (scip : SCIP) (var : ptr) (oldlb newlb val : Real)
    (lincons : LINCONS) : LINCONS :=
  if lc_validactivities lincons then
    let lincons :=
      if BOUNDTYPE_eqb (SCIPvarGetBestBoundType scip var) SCIP_BOUNDTYPE_LOWER then
        set_lc_pseudoactivity
          (lc_pseudoactivity lincons + val * (newlb - oldlb))%float lincons
      else lincons in
    if Rpos val then
      let lincons :=
        if SCIPisInfinity scip (- oldlb)%float then
          set_lc_minactivityinf (lc_minactivityinf lincons - 1) lincons
        else set_lc_minactivity (lc_minactivity lincons - val * oldlb)%float lincons in
      if SCIPisInfinity scip (- newlb)%float then
        set_lc_minactivityinf (lc_minactivityinf lincons + 1) lincons
      else set_lc_minactivity (lc_minactivity lincons + val * newlb)%float lincons
    else
      let lincons :=
        if SCIPisInfinity scip (- oldlb)%float then
          set_lc_maxactivityinf (lc_maxactivityinf lincons - 1) lincons
        else set_lc_maxactivity (lc_maxactivity lincons - val * oldlb)%float lincons in
      if SCIPisInfinity scip (- newlb)%float then
        set_lc_maxactivityinf (lc_maxactivityinf lincons + 1) lincons
      else set_lc_maxactivity (lc_maxactivity lincons + val * newlb)%float lincons
  else lincons.

(** updates minimum and maximum activity for a change in upper bound *)
Definition linconsUpdateChgUb (scip : SCIP) (var : ptr) (oldub newub val : Real)
    (lincons : LINCONS) : LINCONS :=
  if lc_validactivities lincons then
    let lincons :=
      if BOUNDTYPE_eqb (SCIPvarGetBestBoundType scip var) SCIP_BOUNDTYPE_UPPER then
        set_lc_pseudoactivity
          (lc_pseudoactivity lincons + val * (newub - oldub))%float lincons
      else lincons in
    if Rpos val then
      let lincons :=
        if SCIPisInfinity scip oldub then
          set_lc_maxactivityinf (lc_maxactivityinf lincons - 1) lincons
        else set_lc_maxactivity (lc_maxactivity lincons - val * oldub)%float lincons in
      if SCIPisInfinity scip newub then
        set_lc_maxactivityinf (lc_maxactivityinf lincons + 1) lincons
      else set_lc_maxactivity (lc_maxactivity lincons + val * newub)%float lincons
    else
      let lincons :=
        if SCIPisInfinity scip oldub then
          set_lc_minactivityinf (lc_minactivityinf lincons - 1) lincons
        else set_lc_minactivity (lc_minactivity lincons - val * oldub)%float lincons in
      if SCIPisInfinity scip newub then
        set_lc_minactivityinf (lc_minactivityinf lincons + 1) lincons
      else set_lc_minactivity (lc_minactivity lincons + val * newub)%float lincons
  else lincons.

(** updates minimum and maximum activity for coefficient addition *)
Definition linconsUpdateAddCoef (scip : SCIP) (var : ptr) (val : Real)
    (lincons : LINCONS) : LINCONS :=
  if lc_validactivities lincons then
    lincons |> linconsUpdateChgLb scip var 0%float (SCIPvarGetLbLocal scip var) val
            |> linconsUpdateChgUb scip var 0%float (SCIPvarGetUbLocal scip var) val
  else lincons.

(** calculates pseudo activity, and minimum and maximum activity for constraint *)
Definition linconsCalcActivities (scip : SCIP) (lincons : LINCONS) : LINCONS :=
  let lincons :=
    lincons |> set_lc_validactivities true
            |> set_lc_pseudoactivity 0%float
            |> set_lc_minactivity 0%float
            |> set_lc_maxactivity 0%float
            |> set_lc_minactivityinf 0
            |> set_lc_maxactivityinf 0 in
  for_range 0 (lc_nvars lincons) (fun i lincons =>
    linconsUpdateAddCoef scip (aget NULL (lc_vars lincons) i)
      (aget 0%float (lc_vals lincons) i) lincons) lincons.

(** gets activity bounds for constraint after setting variable to zero *)
Definition linconsGetActivityResiduals (var : ptr) (val : Real) : M CLSTATE (Real * Real) :=
  fun s =>
    let scip := cl_scip s in
    (* get activity bounds of linear constraint *)
    let s :=
      if negb (lc_validactivities (cl_lincons s))
      then mkCL scip (linconsCalcActivities scip (cl_lincons s)) (cl_calls s) else s in
    let lincons := cl_lincons s in
    let lb := SCIPvarGetLbLocal scip var in
    let ub := SCIPvarGetUbLocal scip var in
    let minresactivity :=
      if Rpos val then
        if SCIPisInfinity scip (- lb)%float then
          if 2 <=? lc_minactivityinf lincons then (- SCIPinfinity scip)%float
          else lc_minactivity lincons
        else
          if 1 <=? lc_minactivityinf lincons then (- SCIPinfinity scip)%float
          else (lc_minactivity lincons - val * lb)%float
      else
        if SCIPisInfinity scip ub then
          if 2 <=? lc_minactivityinf lincons then (- SCIPinfinity scip)%float
          else lc_minactivity lincons
        else
          if 1 <=? lc_minactivityinf lincons then (- SCIPinfinity scip)%float
          else (lc_minactivity lincons - val * ub)%float in
    let maxresactivity :=
      if Rpos val then
        if SCIPisInfinity scip ub then
          if 2 <=? lc_maxactivityinf lincons then SCIPinfinity scip
          else lc_maxactivity lincons
        else
          if 1 <=? lc_maxactivityinf lincons then SCIPinfinity scip
          else (lc_maxactivity lincons - val * ub)%float
      else
        if SCIPisInfinity scip (- lb)%float then
          if 2 <=? lc_maxactivityinf lincons then SCIPinfinity scip
          else lc_maxactivity lincons
        else
          if 1 <=? lc_maxactivityinf lincons then SCIPinfinity scip
          else (lc_maxactivity lincons - val * lb)%float in
    (Ok (minresactivity, maxresactivity), s).

(** the exec method of the bound change event handler, for the events
    of the variable at position [varpos]: [lower] tells a changed lower
    bound from a changed upper bound *)
Definition eventExecLinear (scip : SCIP) (varpos : Z) (lower : bool) (var : ptr)
    (oldbound newbound : Real) (lincons : LINCONS) : LINCONS :=
  (if lower
   then linconsUpdateChgLb scip var oldbound newbound (aget 0%float (lc_vals lincons) varpos)
          lincons
   else linconsUpdateChgUb scip var oldbound newbound (aget 0%float (lc_vals lincons) varpos)
          lincons)
  |> set_lc_propagated false.

(** the local variables of linconsTightenVarBounds that its blocks
    change, and whether the routine has returned *)
Record TIGHTEN : Type := mkTIGHTEN {
  t_lb : Real;
  t_ub : Real;
  t_nchgbds : Z;
  t_result : RESULT;
  t_returned : bool
}.

(** the block [if( SCIPisSumLT(scip, newub, ub) ) { tighten upper bound }] *)
Definition tightenUpper (var : ptr) (newub : Real) (t : TIGHTEN) : M CLSTATE TIGHTEN :=
  fun s =>
    if SCIPisSumLT (cl_scip s) newub (t_ub t) then
      if SCIPisSumLT (cl_scip s) newub (t_lb t) then
        (* *result = SCIP_CUTOFF; return SCIP_OKAY; *)
        (Ok (mkTIGHTEN (t_lb t) (t_ub t) (t_nchgbds t) SCIP_CUTOFF true), s)
      else
        (chgVarUb var newub ;;
         (fun s =>
            (* get bound again, because it may be additionally modified due to
               integrality *)
            (Ok (mkTIGHTEN (t_lb t) (SCIPvarGetUbLocal (cl_scip s) var) (t_nchgbds t + 1)
                   SCIP_REDUCEDDOM false), s))) s
    else (Ok t, s).

(** the block [if( SCIPisSumGT(scip, newlb, lb) ) { tighten lower bound }] *)
Definition tightenLower (var : ptr) (newlb : Real) (t : TIGHTEN) : M CLSTATE TIGHTEN :=
  fun s =>
    if SCIPisSumGT (cl_scip s) newlb (t_lb t) then
      if SCIPisSumGT (cl_scip s) newlb (t_ub t) then
        (* *result = SCIP_CUTOFF; return SCIP_OKAY; *)
        (Ok (mkTIGHTEN (t_lb t) (t_ub t) (t_nchgbds t) SCIP_CUTOFF true), s)
      else
        (chgVarLb var newlb ;;
         (fun s =>
            (Ok (mkTIGHTEN (SCIPvarGetLbLocal (cl_scip s) var) (t_ub t) (t_nchgbds t + 1)
                   SCIP_REDUCEDDOM false), s))) s
    else (Ok t, s).

(** [!SCIPisInfinity(scip, -minresactivity) && !SCIPisInfinity(scip, rhs)] *)
Definition finiteMin (minresactivity rhs : Real) (s : CLSTATE) : bool :=
  negb (SCIPisInfinity (cl_scip s) (- minresactivity)%float)
  && negb (SCIPisInfinity (cl_scip s) rhs).

(** [!SCIPisInfinity(scip, maxresactivity) && !SCIPisInfinity(scip, -lhs)] *)
Definition finiteMax (maxresactivity lhs : Real) (s : CLSTATE) : bool :=
  negb (SCIPisInfinity (cl_scip s) maxresactivity)
  && negb (SCIPisInfinity (cl_scip s) (- lhs)%float).

(** runs a block of the routine unless it has returned or its guard,
    evaluated when the block is reached, fails *)
Definition block (guard : CLSTATE -> bool) (body : TIGHTEN -> M CLSTATE TIGHTEN)
    (t : TIGHTEN) : M CLSTATE TIGHTEN :=
  fun s => if t_returned t then (Ok t, s) else if guard s then body t s else (Ok t, s).

(** tightens bounds of a single variable due to activity bounds; the
    counter [*nchgbds] and [*result] are passed in and handed back *)
Definition linconsTightenVarBounds (var : ptr) (val : Real) (nchgbds : Z)
    (result : RESULT) : M CLSTATE (Z * RESULT) :=
  fun s =>
    let lhs := lc_lhs (cl_lincons s) in
    let rhs := lc_rhs (cl_lincons s) in
    (mm <- linconsGetActivityResiduals var val ;;
     (fun s =>
        let (minresactivity, maxresactivity) := (mm : Real * Real) in
        let t :=
          mkTIGHTEN (SCIPvarGetLbLocal (cl_scip s) var) (SCIPvarGetUbLocal (cl_scip s) var)
            nchgbds result false in
        (t <- (if Rpos val then
                 (* check, if we can tighten the variable's bounds *)
                 t <- block (finiteMin minresactivity rhs)
                        (tightenUpper var ((rhs - minresactivity) / val)%float) t ;;
                 block (finiteMax maxresactivity lhs)
                   (tightenLower var ((lhs - maxresactivity) / val)%float) t
               else
                 t <- block (finiteMin minresactivity rhs)
                        (tightenLower var ((rhs - minresactivity) / val)%float) t ;;
                 block (finiteMax maxresactivity lhs)
                   (tightenUpper var ((lhs - maxresactivity) / val)%float) t) ;;
         ret (t_nchgbds t, t_result t)) s)) s.

(** the do-while loop of linconsTightenBounds; [None]: more than [fuel]
    rounds are needed *)
Fixpoint linconsTightenBounds_loop (fuel : nat) (vars : list ptr) (vals : list Real)
    (nvars v lastsuccess nchgbds : Z) (result : RESULT) (s : CLSTATE)
    : option (res (Z * RESULT) * CLSTATE) :=
  match fuel with
  | O => None
  | Datatypes.S k =>
      let lastnchgbds := nchgbds in
      match linconsTightenVarBounds (aget NULL vars v) (aget 0%float vals v) nchgbds result s
      with
      | (Err rc, s) => Some (Err rc, s)
      | (Ok (nchgbds, result), s) =>
          let lastsuccess := if lastnchgbds <? nchgbds then v else lastsuccess in
          let v := v + 1 in
          let v := if v =? nvars then 0 else v in
          if negb (v =? lastsuccess) && negb (RESULT_eqb result SCIP_CUTOFF) then
            linconsTightenBounds_loop k vars vals nvars v lastsuccess nchgbds result s
          else Some (Ok (nchgbds, result), s)
      end
  end.

(** tightens variable's bounds due to activity bounds *)
Definition linconsTightenBounds (fuel : nat) (nchgbds : Z) (result : RESULT)
    (s : CLSTATE) : option (res (Z * RESULT) * CLSTATE) :=
  let lincons := cl_lincons s in
  (* we cannot tighten variables' bounds, if the constraint may be not complete *)
  if lc_modifiable lincons then Some (Ok (nchgbds, result), s)
  else if 0 <? lc_nvars lincons then
    linconsTightenBounds_loop fuel (lc_vars lincons) (lc_vals lincons) (lc_nvars lincons)
      0 0 nchgbds result s
  else Some (Ok (nchgbds, result), s).

End ConsLinear.

(** * Vocabulary of the properties *)

(** the bound of the variable that enters the minimal activity of a row
    in which it has coefficient [val], and the one that enters the maximal
    activity *)
Definition minBound (val lb ub : Real) : Real := if Rpos val then lb else ub.
Definition maxBound (val lb ub : Real) : Real := if Rpos val then ub else lb.

(** is that bound infinite (in the direction that makes the activity
    unbounded)? *)
Definition minBoundInf (set : SET) (val lb ub : Real) : bool :=
  if Rpos val then SCIPsetIsInfinity set (- lb)%float else SCIPsetIsInfinity set ub.
Definition maxBoundInf (set : SET) (val lb ub : Real) : bool :=
  if Rpos val then SCIPsetIsInfinity set ub else SCIPsetIsInfinity set (- lb)%float.

(** the current domain [lb, ub] of the column at each position of a row:
    what [row->cols[pos]->var->dom] holds *)
Definition DOMS : Type := list (Real * Real).

Definition b2z (b : bool) : Z := if b then 1 else 0.

(** number of entries whose bound contributes an unbounded value *)
Fixpoint countInf (f : Real -> Real -> Real -> bool) (vals : list Real) (doms : DOMS) : Z :=
  match vals, doms with
  | v :: vals', d :: doms' => b2z (f v (fst d) (snd d)) + countInf f vals' doms'
  | _, _ => 0
  end.

Definition minInfCount (set : SET) (row : ROW) (doms : DOMS) : Z :=
  countInf (minBoundInf set) (prefix (row_vals row) (row_len row)) doms.
Definition maxInfCount (set : SET) (row : ROW) (doms : DOMS) : Z :=
  countInf (maxBoundInf set) (prefix (row_vals row) (row_len row)) doms.

(** the arrays of the row hold its [len] entries, and [doms] has one
    domain for each of them *)
Definition rowDomsOk (row : ROW) (doms : DOMS) : Prop :=
  0 <= row_len row /\
  (Z.to_nat (row_len row) <= length (row_vals row))%nat /\
  length doms = Z.to_nat (row_len row).

(** the counters of the row agree with a recount *)
Definition countersExact (set : SET) (row : ROW) (doms : DOMS) : Prop :=
  row_minactivityinf row = minInfCount set row doms /\
  row_maxactivityinf row = maxInfCount set row doms.

(** a change of the lower or of the upper bound of the column at a
    position of the row *)
Inductive BDCHG : Type :=
| ChgLb (pos : Z) (newlb : Real)
| ChgUb (pos : Z) (newub : Real).

Definition bdchgPos (e : BDCHG) : Z :=
  match e with
  | ChgLb pos _ | ChgUb pos _ => pos
  end.

(** the bound changes and the row is notified through its incremental
    update routine, with the old and the new bound (as SCIPcolBoundChanged
    does for every row the column is linked to) *)
Definition applyBdchg (set : SET) (s : ROW * DOMS) (e : BDCHG) : ROW * DOMS :=
  let (row, doms) := s in
  match e with
  | ChgLb pos newlb =>
      let d := aget (0%float, 0%float) doms pos in
      (rowUpdateActivityBoundsLb set pos (fst d) newlb row,
       aset (0%float, 0%float) doms pos (newlb, snd d))
  | ChgUb pos newub =>
      let d := aget (0%float, 0%float) doms pos in
      (rowUpdateActivityBoundsUb set pos (snd d) newub row,
       aset (0%float, 0%float) doms pos (fst d, newub))
  end.

(** the LP is in the state (unflushed, unsolved) *)
Definition unflushedUnsolved (m : MEM) : Prop :=
  lp_flushed (m_lp m) = false /\
  lp_solved (m_lp m) = false /\
  lp_lpsolstat (m_lp m) = SCIP_LPSOLSTAT_NOTSOLVED.

(** the calls [calls] were sent to the solver between the memories [m]
    and [m'], and an unsolved LP was not marked solved *)
Definition sent (m m' : MEM) (calls : list LPICALL) : Prop :=
  lpi_calls (lp_lpi (m_lp m')) = lpi_calls (lp_lpi (m_lp m)) ++ calls /\
  (lp_solved (m_lp m) = false -> lp_solved (m_lp m') = false).

(** nothing was sent to the solver *)
Definition quiet (m m' : MEM) : Prop := sent m m' [].

(** the step of the flush a call belongs to *)
Definition flushStage (c : LPICALL) : Z :=
  match c with
  | LpiDelCols _ _ => 1
  | LpiDelRows _ _ => 2
  | LpiChgBounds _ _ _ _ => 3
  | LpiChgSides _ _ _ _ => 4
  | LpiAddCols _ _ _ _ _ _ _ _ => 5
  | LpiAddRows _ _ _ _ _ _ _ => 6
  | LpiSolvePrimal => 7
  end.

(** the coefficients sent with new columns or rows refer to positions in
    the solver *)
Definition residentOnly (c : LPICALL) : Prop :=
  match c with
  | LpiAddCols _ _ _ _ _ _ ind _ => Forall (fun i => 0 <= i) ind
  | LpiAddRows _ _ _ _ _ ind _ => Forall (fun i => 0 <= i) ind
  | _ => True
  end.

(** calls of the flush in the order of its steps, none before step [k],
    each step at most once *)
Definition flushOrdered (k : Z) (calls : list LPICALL) : Prop :=
  StronglySorted (fun a b => flushStage a < flushStage b) calls /\
  Forall (fun c => k <= flushStage c <= 6) calls /\
  Forall residentOnly calls.

(** at most the one call of step [k] *)
Definition oneStage (k : Z) (calls : list LPICALL) : Prop :=
  calls = [] \/ exists c, calls = [c] /\ flushStage c = k /\ residentOnly c.


(** the domains of the columns of a row as the memory holds them: what
    [row->cols[i]->var->dom] is for each entry [i] of the row *)
Definition rowDoms (m : MEM) (row : ptr) : DOMS :=
  map (fun i =>
         let var := m_vars m (col_var (m_cols m (aget NULL (row_cols (m_rows m row)) i))) in
         (var_lb var, var_ub var))
    (map Z.of_nat (seq 0 (Z.to_nat (row_len (m_rows m row))))).

(** the variables, the variable of each column and the entries of each
    row are the same in two memories *)
Definition sameData (m m' : MEM) : Prop :=
  m_vars m' = m_vars m /\
  (forall q, col_var (m_cols m' q) = col_var (m_cols m q)) /\
  (forall q, row_cols (m_rows m' q) = row_cols (m_rows m q)) /\
  (forall q, row_vals (m_rows m' q) = row_vals (m_rows m q)) /\
  (forall q, row_len (m_rows m' q) = row_len (m_rows m q)).

(** a quantity of the LP that does not depend on the flags, the stored
    solution status and objective value, and the marks of the first
    changed column and row *)
Definition flagLike (T : Type) (F : LP -> T) : Prop :=
  (forall v lp, F (set_lp_lpifirstchgcol v lp) = F lp) /\
  (forall v lp, F (set_lp_lpifirstchgrow v lp) = F lp) /\
  (forall v lp, F (set_lp_flushed v lp) = F lp) /\
  (forall v lp, F (set_lp_solved v lp) = F lp) /\
  (forall v lp, F (set_lp_primalfeasible v lp) = F lp) /\
  (forall v lp, F (set_lp_dualfeasible v lp) = F lp) /\
  (forall v lp, F (set_lp_objval v lp) = F lp) /\
  (forall v lp, F (set_lp_lpsolstat v lp) = F lp).

(** ... nor on the solver handle and the arrays of the solver's columns
    and rows *)
Definition sizeLike (T : Type) (F : LP -> T) : Prop :=
  flagLike F /\
  (forall v lp, F (set_lp_lpi v lp) = F lp) /\
  (forall v lp, F (set_lp_lpicols v lp) = F lp) /\
  (forall v lp, F (set_lp_lpirows v lp) = F lp).

(** an addition to the LP: of a column or of a row *)
Inductive LPADD : Type :=
| AddCol (col : ptr)
| AddRow (row : ptr).

Definition isAddCol (a : LPADD) : bool :=
  match a with AddCol _ => true | AddRow _ => false end.

(** the memory after the addition, made through SCIPlpAddCol or
    SCIPlpAddRow ([invalid] is SCIP_INVALID) *)
Definition applyAdd (invalid : Real) (set : SET) (m : MEM) (a : LPADD) : MEM :=
  match a with
  | AddCol col => snd (SCIPlpAddCol invalid set col m)
  | AddRow row => snd (SCIPlpAddRow invalid set row m)
  end.

(** the variable of a requested bound change *)
Definition bdcallVar (c : BDCALL) : ptr :=
  match c with
  | CallChgVarLb var _ | CallChgVarUb var _ => var
  end.

(** what a run of the bound tightening did between the states [s] and
    [s'], as its counter and its result tell it: the counter went from
    [n] to [n'], the result from [res] to [res'], and the bound changes
    [calls] of variables in [P] were requested *)
Definition tightened (SCIP : Type) (P : ptr -> Prop) (n : Z) (res : RESULT)
    (s : CLSTATE SCIP) (n' : Z) (res' : RESULT) (s' : CLSTATE SCIP) : Prop :=
  exists calls,
    cl_calls s' = cl_calls s ++ calls /\
    n' = n + Z.of_nat (length calls) /\
    Forall (fun c => P (bdcallVar c)) calls /\
    (calls = [] /\ (res' = res \/ res' = SCIP_CUTOFF) \/
     calls <> [] /\ (res' = SCIP_REDUCEDDOM \/ res' = SCIP_CUTOFF)).

(** is the bound that enters the minimal (maximal) activity of a linear
    constraint infinite, for the infinity test [isInf] of SCIP? *)
Definition linMinInf (isInf : Real -> bool) (val lb ub : Real) : bool :=
  if Rpos val then isInf (- lb)%float else isInf ub.
Definition linMaxInf (isInf : Real -> bool) (val lb ub : Real) : bool :=
  if Rpos val then isInf ub else isInf (- lb)%float.

(** the local bounds [lb], [ub] of the variables of a linear constraint *)
Definition linDoms (lb ub : ptr -> Real) (lincons : LINCONS) : DOMS :=
  map (fun i => (lb (aget NULL (lc_vars lincons) i), ub (aget NULL (lc_vars lincons) i)))
    (map Z.of_nat (seq 0 (Z.to_nat (lc_nvars lincons)))).

(** the arrays of the constraint hold its [nvars] entries, and [doms]
    has one domain for each of them *)
Definition linDomsOk (lincons : LINCONS) (doms : DOMS) : Prop :=
  0 <= lc_nvars lincons /\
  (Z.to_nat (lc_nvars lincons) <= length (lc_vals lincons))%nat /\
  length doms = Z.to_nat (lc_nvars lincons).

(** the counters of the constraint agree with a recount *)
Definition linCountersExact (isInf : Real -> bool) (lincons : LINCONS) (doms : DOMS) : Prop :=
  lc_minactivityinf lincons
  = countInf (linMinInf isInf) (prefix (lc_vals lincons) (lc_nvars lincons)) doms /\
  lc_maxactivityinf lincons
  = countInf (linMaxInf isInf) (prefix (lc_vals lincons) (lc_nvars lincons)) doms.

(** ** What a flush sends to the solver *)






















(** * Properties *)

Unset Implicit Arguments.

(** ** Arrays, stores and loops *)

Lemma upd_same (T : Type) (f : ptr -> T) (p : ptr) (v : T) : upd f p v p = v.
Proof. unfold upd. now rewrite Nat.eqb_refl. Qed.

Lemma upd_other (T : Type) (f : ptr -> T) (p q : ptr) (v : T) :
  q <> p -> upd f p v q = f q.
Proof. intros H. unfold upd. apply Nat.eqb_neq in H. now rewrite H. Qed.

Lemma nth_store_at_same (A : Type) (d : A) (n : nat) (a : list A) (v : A) :
  nth n (store_at d a n v) d = v.
Proof.
  revert a. induction n as [|n IH]; intros [|x a]; simpl; auto.
Qed.

Lemma nth_store_at_other (A : Type) (d : A) (n k : nat) (a : list A) (v : A) :
  k <> n -> nth k (store_at d a n v) d = nth k a d.
Proof.
  revert k a. induction n as [|n IH]; intros [|k] [|x a] H; simpl; auto;
    try congruence.
  - now destruct k.
  - rewrite IH by auto. now destruct k.
Qed.

Lemma length_store_at (A : Type) (d : A) (n : nat) (a : list A) (v : A) :
  (n < length a)%nat -> length (store_at d a n v) = length a.
Proof.
  revert a. induction n as [|n IH]; intros [|x a] H; simpl in *; try lia.
  rewrite IH; lia.
Qed.

Lemma Forall_store_at (A : Type) (P : A -> Prop) (d : A) (n : nat) (a : list A) (v : A) :
  P d -> P v -> Forall P a -> Forall P (store_at d a n v).
Proof.
  intros Hd Hv. revert a. induction n as [|n IH]; intros [|x a] H; simpl.
  - auto.
  - inversion H; auto.
  - constructor; auto.
  - inversion H; subst. constructor; auto.
Qed.

Lemma Forall_aset (A : Type) (P : A -> Prop) (d : A) (i : Z) (a : list A) (v : A) :
  P d -> P v -> Forall P a -> Forall P (aset d a i v).
Proof.
  intros. unfold aset. destruct (i <? 0); auto using Forall_store_at.
Qed.

(** an invariant of the loop body is an invariant of the loop *)
Lemma for_nat_inv (S : Type) (P : S -> Prop) (body : Z -> S -> S) (n : nat) :
  (forall i s, P s -> P (body i s)) ->
  forall i s, P s -> P (for_nat n i body s).
Proof.
  intros Hb. induction n as [|n IH]; intros i s H; simpl; auto.
Qed.

Lemma for_range_inv (S : Type) (P : S -> Prop) (body : Z -> S -> S) (lo hi : Z) :
  (forall i s, P s -> P (body i s)) ->
  forall s, P s -> P (for_range lo hi body s).
Proof. intros Hb s H. unfold for_range. now apply for_nat_inv. Qed.

(** the same for a loop whose body may fail: the invariant holds for the
    state the loop leaves, whether it went through or stopped at an error *)
Lemma forM_nat_inv (S : Type) (P : S -> Prop) (body : Z -> M S unit) (n : nat) :
  (forall i s, P s -> P (snd (body i s))) ->
  forall i s, P s -> P (snd (forM_nat n i body s)).
Proof.
  intros Hb. induction n as [|n IH]; intros i s H; simpl; auto.
  unfold bind. specialize (Hb i s H). destruct (body i s) as [[u|rc] s']; simpl in *; auto.
Qed.

Lemma forM_inv (S : Type) (P : S -> Prop) (body : Z -> M S unit) (lo hi : Z) :
  (forall i s, P s -> P (snd (body i s))) ->
  forall s, P s -> P (snd (forM lo hi body s)).
Proof. intros Hb s H. unfold forM. now apply forM_nat_inv. Qed.

Section LPTheorems.

Variable SCIP_INVALID : Real.

(** ** SCIPcolGetPrimsol *)

(** C10: SCIPcolGetPrimsol returns the cached primal solution value of a
    column that is in the LP (lppos >= 0), and exactly 0.0 for a column
    that is not in the LP, whatever value is cached in it. *)
Theorem SCIPcolGetPrimsol_spec (col : COL) :
  (0 <= col_lppos col -> SCIPcolGetPrimsol col = col_primsol col) /\
  (col_lppos col < 0 -> SCIPcolGetPrimsol col = 0%float).
Proof.
  unfold SCIPcolGetPrimsol. split; intros H.
  - apply Z.leb_le in H. now rewrite H.
  - apply Z.leb_gt in H. now rewrite H.
Qed.

(** ** Residual activities *)

(** C4: for a row with valid activity bounds and a variable with
    coefficient [val], SCIProwGetActivityResiduals succeeds, leaves the
    memory as it is, and returns: the cached accumulator when the
    variable's relevant bound is infinite and the counter of infinite
    contributions is 1; minus (plus) infinity when that bound is infinite
    and the counter is at least 2; the accumulator minus coefficient times
    bound when the bound is finite and the counter is 0; minus (plus)
    infinity when the bound is finite and the counter is at least 1. *)
Theorem SCIProwGetActivityResiduals_spec (set : SET) (m : MEM) (row var : ptr)
    (val : Real) :
  row_validactivitybds (m_rows m row) = true ->
  let r := m_rows m row in
  let lb := SCIPvarGetLb m var in
  let ub := SCIPvarGetUb m var in
  exists minres maxres,
    SCIProwGetActivityResiduals SCIP_INVALID set row var val m = (Ok (minres, maxres), m) /\
    (minBoundInf set val lb ub = true -> row_minactivityinf r = 1 ->
     minres = row_minactivity r) /\
    (minBoundInf set val lb ub = true -> 2 <= row_minactivityinf r ->
     minres = (- set_infinity set)%float) /\
    (minBoundInf set val lb ub = false -> row_minactivityinf r = 0 ->
     minres = (row_minactivity r - val * minBound val lb ub)%float) /\
    (minBoundInf set val lb ub = false -> 1 <= row_minactivityinf r ->
     minres = (- set_infinity set)%float) /\
    (maxBoundInf set val lb ub = true -> row_maxactivityinf r = 1 ->
     maxres = row_maxactivity r) /\
    (maxBoundInf set val lb ub = true -> 2 <= row_maxactivityinf r ->
     maxres = set_infinity set) /\
    (maxBoundInf set val lb ub = false -> row_maxactivityinf r = 0 ->
     maxres = (row_maxactivity r - val * maxBound val lb ub)%float) /\
    (maxBoundInf set val lb ub = false -> 1 <= row_maxactivityinf r ->
     maxres = set_infinity set).
Proof.
  intros Hvalid r lb ub.
  unfold SCIProwGetActivityResiduals. rewrite Hvalid. cbn [negb].
  fold r lb ub.
  eexists. eexists. split; [reflexivity|].
  unfold minBoundInf, maxBoundInf, minBound, maxBound.
  destruct (Rpos val);
    destruct (SCIPsetIsInfinity set (- lb)%float);
    destruct (SCIPsetIsInfinity set ub);
    repeat split; intros Hb Hc; try discriminate Hb;
    repeat match goal with
           | |- context [?a <=? ?b] =>
               let E := fresh in destruct (Z.leb_spec a b) as [E|E]; try lia
           end;
    reflexivity.
Qed.

(** ** Counters of infinite contributions *)

Lemma countInf_nonneg (f : Real -> Real -> Real -> bool) (vals : list Real) (doms : DOMS) :
  0 <= countInf f vals doms.
Proof.
  revert doms. induction vals as [|v vals IH]; intros [|d doms]; simpl; try lia.
  specialize (IH doms). unfold b2z. destruct (f v (fst d) (snd d)); lia.
Qed.

(** a recount after the domain at one position changed *)
Lemma countInf_store_at (f : Real -> Real -> Real -> bool) (d0 d' : Real * Real) :
  forall (n : nat) (vals : list Real) (doms : DOMS),
    (n < length vals)%nat -> (n < length doms)%nat ->
    countInf f vals (store_at d0 doms n d')
    = countInf f vals doms
      - b2z (f (nth n vals 0%float) (fst (nth n doms d0)) (snd (nth n doms d0)))
      + b2z (f (nth n vals 0%float) (fst d') (snd d')).
Proof.
  induction n as [|n IH]; intros [|v vals] [|d doms] Hv Hd; simpl in *; try lia.
  rewrite IH by lia. lia.
Qed.

Lemma nth_prefix (A : Type) (d : A) (a : list A) (k : Z) (n : nat) :
  (n < Z.to_nat k)%nat -> nth n (prefix a k) d = nth n a d.
Proof.
  unfold prefix. generalize (Z.to_nat k) as j. revert a.
  induction n as [|n IH]; intros [|x a] [|j] H; simpl; auto; try lia.
  apply IH. lia.
Qed.

Lemma length_prefix (A : Type) (a : list A) (k : Z) :
  (Z.to_nat k <= length a)%nat -> length (prefix a k) = Z.to_nat k.
Proof. intros H. unfold prefix. rewrite length_firstn. lia. Qed.

(** what the incremental update routines do to the row *)
Lemma rowUpdateActivityBoundsLb_effect (set : SET) (pos : Z) (oldlb newlb ub : Real)
    (row : ROW) :
  row_validactivitybds row = true ->
  let val := aget 0%float (row_vals row) pos in
  let row' := rowUpdateActivityBoundsLb set pos oldlb newlb row in
  row_minactivityinf row'
  = row_minactivityinf row - b2z (minBoundInf set val oldlb ub)
    + b2z (minBoundInf set val newlb ub) /\
  row_maxactivityinf row'
  = row_maxactivityinf row - b2z (maxBoundInf set val oldlb ub)
    + b2z (maxBoundInf set val newlb ub) /\
  row_vals row' = row_vals row /\ row_len row' = row_len row /\
  row_validactivitybds row' = true.
Proof.
  intros Hvalid val row'. subst row'. unfold rowUpdateActivityBoundsLb.
  rewrite Hvalid. fold val. unfold minBoundInf, maxBoundInf.
  destruct (Rpos val);
    destruct (SCIPsetIsInfinity set (- oldlb)%float);
    destruct (SCIPsetIsInfinity set (- newlb)%float);
    destruct (SCIPsetIsInfinity set ub);
    cbn; rewrite ?Hvalid; repeat split; lia.
Qed.

Lemma rowUpdateActivityBoundsUb_effect (set : SET) (pos : Z) (oldub newub lb : Real)
    (row : ROW) :
  row_validactivitybds row = true ->
  let val := aget 0%float (row_vals row) pos in
  let row' := rowUpdateActivityBoundsUb set pos oldub newub row in
  row_minactivityinf row'
  = row_minactivityinf row - b2z (minBoundInf set val lb oldub)
    + b2z (minBoundInf set val lb newub) /\
  row_maxactivityinf row'
  = row_maxactivityinf row - b2z (maxBoundInf set val lb oldub)
    + b2z (maxBoundInf set val lb newub) /\
  row_vals row' = row_vals row /\ row_len row' = row_len row /\
  row_validactivitybds row' = true.
Proof.
  intros Hvalid val row'. subst row'. unfold rowUpdateActivityBoundsUb.
  rewrite Hvalid. fold val. unfold minBoundInf, maxBoundInf.
  destruct (Rpos val);
    destruct (SCIPsetIsInfinity set oldub);
    destruct (SCIPsetIsInfinity set newub);
    destruct (SCIPsetIsInfinity set (- lb)%float);
    cbn; rewrite ?Hvalid; repeat split; lia.
Qed.

(** one bound change keeps the counters exact *)
Lemma applyBdchg_exact (set : SET) (row : ROW) (doms : DOMS) (e : BDCHG) :
  row_validactivitybds row = true ->
  rowDomsOk row doms ->
  countersExact set row doms ->
  0 <= bdchgPos e < row_len row ->
  let s' := applyBdchg set (row, doms) e in
  row_validactivitybds (fst s') = true /\
  rowDomsOk (fst s') (snd s') /\
  countersExact set (fst s') (snd s') /\
  row_len (fst s') = row_len row.
Proof.
  intros Hvalid (Hlen & Hvals & Hdoms) (Hmin & Hmax) Hpos.
  assert (Hn : (Z.to_nat (bdchgPos e) < Z.to_nat (row_len row))%nat) by lia.
  assert (Hneg : (bdchgPos e <? 0) = false) by (apply Z.ltb_ge; lia).
  unfold countersExact, minInfCount, maxInfCount, rowDomsOk in *.
  destruct e as [pos newlb|pos newub]; cbn [bdchgPos] in *; cbn [applyBdchg fst snd];
    set (d := aget (0%float, 0%float) doms pos).
  - destruct (rowUpdateActivityBoundsLb_effect set pos (fst d) newlb (snd d) row Hvalid)
      as (E1 & E2 & E3 & E4 & E5).
    rewrite E1, E2, E3, E4, E5, Hmin, Hmax.
    unfold aset. rewrite Hneg.
    do 2 (rewrite countInf_store_at; [|rewrite length_prefix; lia|lia]).
    rewrite length_store_at by lia.
    rewrite !nth_prefix by lia.
    assert (Hd : nth (Z.to_nat pos) doms (0%float, 0%float) = d)
      by (unfold d, aget; now rewrite Hneg).
    assert (Hv : nth (Z.to_nat pos) (row_vals row) 0%float
                 = aget 0%float (row_vals row) pos)
      by (unfold aget; now rewrite Hneg).
    rewrite Hd, Hv. cbn [fst snd].
    repeat split; auto; lia.
  - destruct (rowUpdateActivityBoundsUb_effect set pos (snd d) newub (fst d) row Hvalid)
      as (E1 & E2 & E3 & E4 & E5).
    rewrite E1, E2, E3, E4, E5, Hmin, Hmax.
    unfold aset. rewrite Hneg.
    do 2 (rewrite countInf_store_at; [|rewrite length_prefix; lia|lia]).
    rewrite length_store_at by lia.
    rewrite !nth_prefix by lia.
    assert (Hd : nth (Z.to_nat pos) doms (0%float, 0%float) = d)
      by (unfold d, aget; now rewrite Hneg).
    assert (Hv : nth (Z.to_nat pos) (row_vals row) 0%float
                 = aget 0%float (row_vals row) pos)
      by (unfold aget; now rewrite Hneg).
    rewrite Hd, Hv. cbn [fst snd].
    repeat split; auto; lia.
Qed.

(** any sequence of bound changes keeps the counters exact *)
Lemma applyBdchgs_exact (set : SET) (evs : list BDCHG) :
  forall (row : ROW) (doms : DOMS),
    row_validactivitybds row = true ->
    rowDomsOk row doms ->
    countersExact set row doms ->
    Forall (fun e => 0 <= bdchgPos e < row_len row) evs ->
    let s' := fold_left (applyBdchg set) evs (row, doms) in
    row_validactivitybds (fst s') = true /\
    rowDomsOk (fst s') (snd s') /\
    countersExact set (fst s') (snd s') /\
    row_len (fst s') = row_len row.
Proof.
  induction evs as [|e evs IH]; intros row doms Hvalid Hok Hex Hpos; cbn [fold_left].
  - cbn. auto.
  - inversion Hpos as [|? ? He Hrest]; subst.
    destruct (applyBdchg_exact set row doms e Hvalid Hok Hex He) as (V & O & X & L).
    destruct (applyBdchg set (row, doms) e) as [row1 doms1]. cbn [fst snd] in *.
    rewrite <- L in Hrest.
    destruct (IH row1 doms1 V O X Hrest) as (V' & O' & X' & L').
    repeat split; auto; try apply O'; try apply X'. congruence.
Qed.



(** ** Reads after writes *)

Lemma m_rows_modRow (p q : ptr) (f : ROW -> ROW) (m : MEM) :
  m_rows (modRow p f m) q = if Nat.eqb q p then f (m_rows m p) else m_rows m q.
Proof. reflexivity. Qed.

Lemma m_cols_modCol (p q : ptr) (f : COL -> COL) (m : MEM) :
  m_cols (modCol p f m) q = if Nat.eqb q p then f (m_cols m p) else m_cols m q.
Proof. reflexivity. Qed.

Lemma m_rows_modCol (p : ptr) (f : COL -> COL) (m : MEM) :
  m_rows (modCol p f m) = m_rows m.
Proof. reflexivity. Qed.

Lemma m_cols_modRow (p : ptr) (f : ROW -> ROW) (m : MEM) :
  m_cols (modRow p f m) = m_cols m.
Proof. reflexivity. Qed.

Lemma m_lp_modRow (p : ptr) (f : ROW -> ROW) (m : MEM) : m_lp (modRow p f m) = m_lp m.
Proof. reflexivity. Qed.

Lemma m_lp_modCol (p : ptr) (f : COL -> COL) (m : MEM) : m_lp (modCol p f m) = m_lp m.
Proof. reflexivity. Qed.

(** a write to a row that keeps a field keeps it in every row *)
Lemma modRow_keeps (T : Type) (F : ROW -> T) (p q : ptr) (f : ROW -> ROW) (m : MEM) :
  (forall r, F (f r) = F r) -> F (m_rows (modRow p f m) q) = F (m_rows m q).
Proof.
  intros H. rewrite m_rows_modRow. destruct (Nat.eqb_spec q p) as [->|]; auto.
Qed.

Lemma modCol_keeps (T : Type) (F : COL -> T) (p q : ptr) (f : COL -> COL) (m : MEM) :
  (forall c, F (f c) = F c) -> F (m_cols (modCol p f m) q) = F (m_cols m q).
Proof.
  intros H. rewrite m_cols_modCol. destruct (Nat.eqb_spec q p) as [->|]; auto.
Qed.

(** ** Locked rows *)

(** the sides of the rows are not touched by the notification *)
Lemma rowSideChanged_sides (set : SET) (row q : ptr) (sidetype : SIDETYPE) (m : MEM) :
  fst (rowSideChanged SCIP_INVALID set row sidetype m) = Ok tt /\
  row_lhs (m_rows (snd (rowSideChanged SCIP_INVALID set row sidetype m)) q)
  = row_lhs (m_rows m q) /\
  row_rhs (m_rows (snd (rowSideChanged SCIP_INVALID set row sidetype m)) q)
  = row_rhs (m_rows m q).
Proof.
  unfold rowSideChanged.
  destruct (0 <=? row_lpipos (m_rows m row)); [|auto].
  destruct (negb (row_lhschanged (m_rows m row)) && negb (row_rhschanged (m_rows m row)));
    destruct sidetype; cbn [fst snd modLp putLp m_rows];
    (split; [reflexivity|]);
    split; (rewrite modRow_keeps; [reflexivity|intros; reflexivity]).
Qed.

(** X20: for a row with nlocks > 0, adding a coefficient, deleting the
    coefficient at a position and changing the coefficient at a position
    fail with SCIP_INVALIDDATA and leave the memory as it was, so the row's
    coefficient vector, its length and its sides are unchanged. The lock
    is not tested by SCIProwChgLhs and SCIProwChgRhs: they succeed on the
    locked row and store a side that differs from the old one. *)
Theorem locked_row_coefficients (set : SET) (m : MEM) (row col : ptr) (val : Real)
    (linkpos pos : Z) (colpos : option (ptr * Z)) :
  0 < row_nlocks (m_rows m row) ->
  rowAddCoeff SCIP_INVALID set row col val linkpos colpos m = (Err SCIP_INVALIDDATA, m) /\
  SCIProwAddCoeff SCIP_INVALID set row col val m = (Err SCIP_INVALIDDATA, m) /\
  rowDelCoeffPos SCIP_INVALID set row pos m = (Err SCIP_INVALIDDATA, m) /\
  rowChgCoeffPos SCIP_INVALID set row pos val m = (Err SCIP_INVALIDDATA, m) /\
  (forall lhs, SCIPsetIsEQ set (row_lhs (m_rows m row)) lhs = false ->
     let r := SCIProwChgLhs SCIP_INVALID set row lhs m in
     fst r = Ok tt /\ row_lhs (m_rows (snd r) row) = lhs) /\
  (forall rhs, SCIPsetIsEQ set (row_rhs (m_rows m row)) rhs = false ->
     let r := SCIProwChgRhs SCIP_INVALID set row rhs m in
     fst r = Ok tt /\ row_rhs (m_rows (snd r) row) = rhs).
Proof.
  intros Hlock. apply Z.ltb_lt in Hlock.
  unfold SCIProwAddCoeff, rowAddCoeff, rowDelCoeffPos, rowChgCoeffPos.
  rewrite Hlock. repeat (split; [reflexivity|]). split.
  - intros lhs H. cbv zeta. unfold SCIProwChgLhs. rewrite H. cbn [negb]. cbv iota.
    split; [apply (rowSideChanged_sides set row row)|].
    destruct (rowSideChanged_sides set row row SCIP_SIDETYPE_LEFT
                (modRow row (set_row_lhs lhs) m)) as (_ & E & _).
    rewrite E, m_rows_modRow, Nat.eqb_refl. reflexivity.
  - intros rhs H. cbv zeta. unfold SCIProwChgRhs. rewrite H. cbn [negb]. cbv iota.
    split; [apply (rowSideChanged_sides set row row)|].
    destruct (rowSideChanged_sides set row row SCIP_SIDETYPE_RIGHT
                (modRow row (set_row_rhs rhs) m)) as (_ & _ & E).
    rewrite E, m_rows_modRow, Nat.eqb_refl. reflexivity.
Qed.

(** ** Structural mutations *)

Ltac case_ifs :=
  repeat match goal with
         | |- context [if ?b then _ else _] => destruct b
         end.

(** side conditions "this write keeps that field" *)
Ltac keeps_field :=
  intros;
  unfold rowAddNorms, rowDelNorms, rowInvalidateActivities, SCIProwInvalidActivityBounds,
    rowUpdatePseudoActivity, rowUpdateActivityBoundsLb, rowUpdateActivityBoundsUb,
    SCIProwCapture;
  case_ifs; reflexivity.

(** pushes a read of a field through the writes before it *)
Ltac read_through :=
  repeat first
    [ rewrite modRow_keeps by keeps_field
    | rewrite modCol_keeps by keeps_field
    | rewrite m_rows_modCol
    | rewrite m_cols_modRow
    | rewrite m_lp_modRow
    | rewrite m_lp_modCol
    | progress cbn [m_rows m_cols m_lp m_vars m_stat modLp putLp putStat fst snd] ].

(** a step that succeeds hands its result and its state to the next one *)
Lemma bind_ok {S A B : Type} (c : M S A) (k : A -> M S B) (s : S) (a : A) :
  fst (c s) = Ok a -> bind c k s = k a (snd (c s)).
Proof.
  unfold bind. destruct (c s) as [[a'|rc] s']; cbn [fst snd]; intros E.
  - now inversion E.
  - discriminate.
Qed.

(** a step that fails ends the routine *)
Lemma bind_err {S A B : Type} (c : M S A) (k : A -> M S B) (s : S) (rc : RETCODE) :
  fst (c s) = Err rc -> bind c k s = (Err rc, snd (c s)).
Proof.
  unfold bind. destruct (c s) as [[a'|rc'] s']; cbn [fst snd]; intros E.
  - discriminate.
  - now inversion E.
Qed.

Lemma forM_nat_ok (S : Type) (body : Z -> M S unit) (n : nat) :
  (forall i s, fst (body i s) = Ok tt) ->
  forall i s, fst (forM_nat n i body s) = Ok tt.
Proof.
  intros Hb. induction n as [|n IH]; intros i s; simpl; auto.
  unfold bind. specialize (Hb i s). destruct (body i s) as [[[]|rc] s']; simpl in *.
  - apply IH.
  - discriminate.
Qed.

Lemma coefChanged_unflushes (row col : ptr) (m : MEM) :
  0 <= row_lpipos (m_rows m row) -> 0 <= col_lpipos (m_cols m col) ->
  unflushedUnsolved (coefChanged SCIP_INVALID row col m).
Proof.
  intros Hr Hc. apply Z.leb_le in Hr, Hc. unfold coefChanged, unflushedUnsolved.
  rewrite Hr, Hc. cbn [andb]. case_ifs; repeat split.
Qed.

(** a routine that removes coefficients from columns never fails *)
Lemma colDelCoeffPos_ok (set : SET) (col : ptr) (pos : Z) (m : MEM) :
  fst (colDelCoeffPos SCIP_INVALID set col pos m) = Ok tt.
Proof. reflexivity. Qed.

Lemma rowUnlink_ok (set : SET) (row : ptr) (m : MEM) :
  fst (rowUnlink SCIP_INVALID set row m) = Ok tt.
Proof.
  unfold rowUnlink. case_ifs; [|reflexivity].
  unfold forM. apply forM_nat_ok. intros i s. case_ifs; reflexivity.
Qed.

Lemma SCIProwRelease_ok (set : SET) (row : ptr) (m : MEM) :
  fst (SCIProwRelease SCIP_INVALID set row m) = Ok tt.
Proof.
  unfold SCIProwRelease, SCIProwFree. case_ifs; [apply rowUnlink_ok|reflexivity].
Qed.

Lemma SCIPlpShrinkRows_unflushes (set : SET) (newnrows : Z) (m : MEM) :
  newnrows < lp_nrows (m_lp m) ->
  fst (SCIPlpShrinkRows SCIP_INVALID set newnrows m) = Ok tt /\
  unflushedUnsolved (snd (SCIPlpShrinkRows SCIP_INVALID set newnrows m)).
Proof.
  intros H. apply Z.ltb_lt in H. unfold SCIPlpShrinkRows. rewrite H.
  match goal with
  | |- context [bind ?c ?k m] =>
      assert (Hok : fst (c m) = Ok tt); [|rewrite (bind_ok c k m tt Hok)]
  end.
  - unfold forM. apply forM_nat_ok. intros i s.
    match goal with
    | |- fst (bind ?c ?k ?mm) = _ =>
        rewrite (bind_ok c k mm tt (SCIProwRelease_ok set _ mm))
    end.
    reflexivity.
  - split; [reflexivity|]. repeat split.
Qed.

Lemma SCIPcolBoundChanged_unflushes (set : SET) (col : ptr) (boundtype : BOUNDTYPE)
    (oldbound newbound : Real) (m : MEM) :
  0 <= col_lpipos (m_cols m col) ->
  fst (SCIPcolBoundChanged SCIP_INVALID set col boundtype oldbound newbound m) = Ok tt /\
  unflushedUnsolved
    (snd (SCIPcolBoundChanged SCIP_INVALID set col boundtype oldbound newbound m)).
Proof.
  intros H. apply Z.leb_le in H. unfold SCIPcolBoundChanged. rewrite H.
  split; [reflexivity|]. cbn [snd].
  (* the loops over the rows of the column write to rows only *)
  destruct boundtype;
    repeat match goal with
           | |- unflushedUnsolved (for_range _ _ _ _) =>
               apply (for_range_inv _ unflushedUnsolved);
               [intros ? ? Hs; case_ifs; exact Hs|]
           | |- unflushedUnsolved (if ?b then _ else _) => destruct b
           end;
    repeat split.
Qed.

Lemma rowAddCoeff_unflushes (set : SET) (row col : ptr) (val : Real) (linkpos : Z)
    (colpos : option (ptr * Z)) (m : MEM) :
  row_nlocks (m_rows m row) <= 0 ->
  0 <= row_lpipos (m_rows m row) -> 0 <= col_lpipos (m_cols m col) ->
  fst (rowAddCoeff SCIP_INVALID set row col val linkpos colpos m) = Ok tt /\
  unflushedUnsolved (snd (rowAddCoeff SCIP_INVALID set row col val linkpos colpos m)).
Proof.
  intros Hl Hr Hc. apply Z.ltb_ge in Hl. unfold rowAddCoeff. rewrite Hl.
  split; [reflexivity|]. cbn [snd].
  apply coefChanged_unflushes.
  - destruct colpos as [[c i]|]; case_ifs; read_through; exact Hr.
  - destruct colpos as [[c i]|]; case_ifs; read_through; exact Hc.
Qed.



(** ** What the routines send to the solver *)

Lemma sent_refl (m : MEM) : quiet m m.
Proof. split; [now rewrite app_nil_r|auto]. Qed.

Lemma sent_trans (m m1 m2 : MEM) (c1 c2 : list LPICALL) :
  sent m m1 c1 -> sent m1 m2 c2 -> sent m m2 (c1 ++ c2).
Proof.
  intros (E1 & S1) (E2 & S2). split; [|auto].
  now rewrite E2, E1, app_assoc.
Qed.

Lemma quiet_trans (m m1 m2 : MEM) : quiet m m1 -> quiet m1 m2 -> quiet m m2.
Proof. intros H1 H2. exact (sent_trans _ _ _ _ _ H1 H2). Qed.

Lemma sent_quiet (m m1 m2 : MEM) (c : list LPICALL) :
  sent m m1 c -> quiet m1 m2 -> sent m m2 c.
Proof.
  intros H1 H2. rewrite <- (app_nil_r c). exact (sent_trans _ _ _ _ _ H1 H2).
Qed.

Lemma quiet_sent (m m1 m2 : MEM) (c : list LPICALL) :
  quiet m m1 -> sent m1 m2 c -> sent m m2 c.
Proof. intros H1 H2. exact (sent_trans _ _ _ _ _ H1 H2). Qed.

(** writes to rows and columns send nothing *)
Lemma quiet_modRow (p : ptr) (f : ROW -> ROW) (m : MEM) : quiet m (modRow p f m).
Proof. exact (sent_refl m). Qed.

Lemma quiet_modCol (p : ptr) (f : COL -> COL) (m : MEM) : quiet m (modCol p f m).
Proof. exact (sent_refl m). Qed.

(** a write to the LP that keeps the solver handle and does not set the
    solved flag *)
Lemma quiet_modLp (f : LP -> LP) (m : MEM) :
  (forall lp, lp_lpi (f lp) = lp_lpi lp) ->
  (forall lp, lp_solved lp = false -> lp_solved (f lp) = false) ->
  quiet m (modLp f m).
Proof.
  intros H1 H2. split; cbn [modLp putLp m_lp].
  - now rewrite H1, app_nil_r.
  - apply H2.
Qed.

Ltac quiet_step :=
  first
    [ apply sent_refl
    | apply quiet_modLp; intros; (reflexivity || assumption) ].

(** chains of writes *)
Ltac quiet_chain :=
  repeat match goal with
         | |- quiet ?m ?m => apply sent_refl
         | |- quiet ?m (if ?b then _ else _) => destruct b
         | |- quiet ?m (match ?o with Some _ => _ | None => _ end) => destruct o as [[? ?]|]
         | |- quiet ?m (modRow ?p ?f ?m') =>
             apply (quiet_trans m m' _); [|apply quiet_modRow]
         | |- quiet ?m (modCol ?p ?f ?m') =>
             apply (quiet_trans m m' _); [|apply quiet_modCol]
         | |- quiet ?m (modLp ?f ?m') =>
             apply (quiet_trans m m' _);
             [|apply quiet_modLp; intros; (reflexivity || assumption)]
         end.

Lemma coefChanged_quiet (row col : ptr) (m : MEM) :
  quiet m (coefChanged SCIP_INVALID row col m).
Proof.
  unfold coefChanged.
  destruct ((0 <=? row_lpipos (m_rows m row)) && (0 <=? col_lpipos (m_cols m col)));
    [|apply sent_refl].
  case_ifs; quiet_chain.
Qed.

Lemma for_range_quiet (lo hi : Z) (body : Z -> MEM -> MEM) (m : MEM) :
  (forall i s, quiet s (body i s)) -> quiet m (for_range lo hi body m).
Proof.
  intros Hb. apply (for_range_inv _ (quiet m)); [|apply sent_refl].
  intros i s Hs. exact (quiet_trans _ _ _ Hs (Hb i s)).
Qed.

Lemma forM_quiet (lo hi : Z) (body : Z -> M MEM unit) (m : MEM) :
  (forall i s, quiet s (snd (body i s))) -> quiet m (snd (forM lo hi body m)).
Proof.
  intros Hb. apply (forM_inv _ (quiet m)); [|apply sent_refl].
  intros i s Hs. exact (quiet_trans _ _ _ Hs (Hb i s)).
Qed.

Lemma bind_quiet (A B : Type) (c : M MEM A) (k : A -> M MEM B) (m : MEM) :
  quiet m (snd (c m)) -> (forall a s, quiet s (snd (k a s))) ->
  quiet m (snd (bind c k m)).
Proof.
  intros H1 H2. unfold bind. destruct (c m) as [[a|rc] m1]; cbn [snd] in *; auto.
  exact (quiet_trans _ _ _ H1 (H2 a m1)).
Qed.

Lemma rowAddCoeff_quiet (set : SET) (row col : ptr) (val : Real) (linkpos : Z)
    (colpos : option (ptr * Z)) (m : MEM) :
  quiet m (snd (rowAddCoeff SCIP_INVALID set row col val linkpos colpos m)).
Proof.
  unfold rowAddCoeff. destruct (0 <? row_nlocks (m_rows m row)); [apply sent_refl|].
  cbn [snd].
  match goal with
  | |- quiet m (coefChanged _ _ _ ?m') =>
      apply (quiet_trans m m' _); [|apply coefChanged_quiet]
  end.
  quiet_chain.
Qed.

Lemma colAddCoeff_quiet (set : SET) (col row : ptr) (val : Real) (linkpos : Z)
    (rowpos : option (ptr * Z)) (m : MEM) :
  quiet m (snd (colAddCoeff SCIP_INVALID set col row val linkpos rowpos m)).
Proof.
  unfold colAddCoeff. cbn [snd].
  match goal with
  | |- quiet m (coefChanged _ _ _ ?m') =>
      apply (quiet_trans m m' _); [|apply coefChanged_quiet]
  end.
  quiet_chain.
Qed.

Lemma colLink_quiet (set : SET) (col : ptr) (m : MEM) :
  quiet m (snd (colLink SCIP_INVALID set col m)).
Proof.
  unfold colLink. destruct (0 <? col_nunlinked (m_cols m col)); [|apply sent_refl].
  apply forM_quiet. intros i s.
  destruct (aget 0 (col_linkpos (m_cols s col)) i =? -1); [|apply sent_refl].
  apply bind_quiet; [apply rowAddCoeff_quiet|].
  intros a s'. apply quiet_modCol.
Qed.

Lemma rowLink_quiet (set : SET) (row : ptr) (m : MEM) :
  quiet m (snd (rowLink SCIP_INVALID set row m)).
Proof.
  unfold rowLink. destruct (0 <? row_nunlinked (m_rows m row)); [|apply sent_refl].
  apply forM_quiet. intros i s.
  destruct (aget 0 (row_linkpos (m_rows s row)) i =? -1); [|apply sent_refl].
  apply bind_quiet; [apply colAddCoeff_quiet|].
  intros a s'. apply quiet_modRow.
Qed.

Lemma lpi_sent (c : LPICALL) (m : MEM) : sent m (snd (lpi c m)) [c].
Proof.
  unfold lpi, lpiCall, check.
  destruct (RETCODE_eqb _ SCIP_OKAY); split; cbn; auto.
Qed.

Lemma exec_quiet (f : MEM -> MEM) (m : MEM) :
  quiet m (f m) -> quiet m (snd (exec f m)).
Proof. auto. Qed.

(** a routine that sends at most the call of its step, then writes *)
Lemma oneStage_nil (k : Z) : oneStage k [].
Proof. now left. Qed.

Lemma oneStage_one (k : Z) (c : LPICALL) :
  flushStage c = k -> residentOnly c -> oneStage k [c].
Proof. intros H1 H2. right. now exists c. Qed.

Lemma lpFlushDelCols_scan_quiet (n : nat) (m : MEM) :
  quiet m (lpFlushDelCols_scan n m).
Proof.
  revert m. induction n as [|n IH]; intros m; cbn [lpFlushDelCols_scan].
  - apply sent_refl.
  - destruct (lpFlushDelCols_cond m); [|apply sent_refl].
    eapply quiet_trans; [|apply IH]. apply quiet_modLp; auto.
Qed.

Lemma lpFlushDelRows_scan_quiet (n : nat) (m : MEM) :
  quiet m (lpFlushDelRows_scan n m).
Proof.
  revert m. induction n as [|n IH]; intros m; cbn [lpFlushDelRows_scan].
  - apply sent_refl.
  - destruct (lpFlushDelRows_cond m); [|apply sent_refl].
    eapply quiet_trans; [|apply IH]. apply quiet_modLp; auto.
Qed.

(** [lpi c ;; exec f] where [f] sends nothing *)
Lemma lpi_then_quiet (c : LPICALL) (f : MEM -> MEM) (m : MEM) :
  (forall s, quiet s (f s)) -> sent m (snd ((lpi c ;; exec f) m)) [c].
Proof.
  intros Hf. unfold bind. pose proof (lpi_sent c m) as H.
  destruct (lpi c m) as [[[]|rc] m1]; cbn [snd] in *; auto.
  exact (sent_quiet _ _ _ _ H (Hf m1)).
Qed.

Lemma lpFlushDelCols_sent (m : MEM) :
  exists calls, sent m (snd (lpFlushDelCols SCIP_INVALID m)) calls /\ oneStage 1 calls.
Proof.
  unfold lpFlushDelCols.
  set (m0 := lpFlushDelCols_scan _ m).
  assert (H0 : quiet m m0) by apply lpFlushDelCols_scan_quiet.
  destruct (lp_lpifirstchgcol (m_lp m0) <? lp_nlpicols (m_lp m0)).
  - eexists. split.
    + eapply quiet_sent; [exact H0|]. apply lpi_then_quiet.
      intros s. eapply quiet_trans; [|apply quiet_modLp; auto].
      apply for_range_quiet. intros i s'. apply quiet_modCol.
    + apply oneStage_one; [reflexivity|exact I].
  - exists []. split; [exact H0|apply oneStage_nil].
Qed.

Lemma lpFlushDelRows_sent (m : MEM) :
  exists calls, sent m (snd (lpFlushDelRows SCIP_INVALID m)) calls /\ oneStage 2 calls.
Proof.
  unfold lpFlushDelRows.
  set (m0 := lpFlushDelRows_scan _ m).
  assert (H0 : quiet m m0) by apply lpFlushDelRows_scan_quiet.
  destruct (lp_lpifirstchgrow (m_lp m0) <? lp_nlpirows (m_lp m0)).
  - eexists. split.
    + eapply quiet_sent; [exact H0|]. apply lpi_then_quiet.
      intros s. eapply quiet_trans; [|apply quiet_modLp; auto].
      apply for_range_quiet. intros i s'. apply quiet_modRow.
    + apply oneStage_one; [reflexivity|exact I].
  - exists []. split; [exact H0|apply oneStage_nil].
Qed.

(** [(if b then lpi c else skip) ;; exec f] where [f] sends nothing *)
Lemma maybe_lpi_then_quiet (k : Z) (b : bool) (c : LPICALL) (f : MEM -> MEM) (m : MEM) :
  flushStage c = k -> residentOnly c ->
  (forall s, quiet s (f s)) ->
  exists calls,
    sent m (snd (((fun m => if b then lpi c m else (Ok tt, m)) ;; exec f) m)) calls /\
    oneStage k calls.
Proof.
  intros Hk Hr Hf. destruct b.
  - exists [c]. split; [|now apply oneStage_one].
    now apply lpi_then_quiet.
  - exists []. split; [|apply oneStage_nil]. unfold bind. cbn [snd exec]. apply Hf.
Qed.

Lemma lpFlushChgCols_sent (set : SET) (m : MEM) :
  exists calls, sent m (snd (lpFlushChgCols set m)) calls /\ oneStage 3 calls.
Proof.
  unfold lpFlushChgCols.
  destruct (lp_nchgcols (m_lp m) =? 0).
  { exists []. split; [apply sent_refl|apply oneStage_nil]. }
  match goal with
  | |- context [for_range ?lo ?hi ?body ?s0] =>
      assert (H0 : quiet m (fst (for_range lo hi body s0)));
      [|destruct (for_range lo hi body s0) as [m0 b]]
  end.
  - apply (for_range_inv _ (fun s : MEM * CHGBUF => quiet m (fst s)));
      [|apply sent_refl].
    intros i [s b] Hs. cbn [fst] in *.
    case_ifs; cbn [fst]; first [exact Hs|eapply quiet_trans; [exact Hs|apply quiet_modCol]].
  - cbn [fst] in H0.
    destruct (maybe_lpi_then_quiet 3 (0 <? chg_n b)
                (LpiChgBounds (chg_n b) (chg_ind b) (chg_lo b) (chg_hi b))
                (modLp (set_lp_nchgcols 0)) m0 eq_refl I) as (calls & Hs & Ho).
    + intros s. apply quiet_modLp; auto.
    + exists calls. split; [|exact Ho]. exact (quiet_sent _ _ _ _ H0 Hs).
Qed.

Lemma lpFlushChgRows_sent (set : SET) (m : MEM) :
  exists calls, sent m (snd (lpFlushChgRows set m)) calls /\ oneStage 4 calls.
Proof.
  unfold lpFlushChgRows.
  destruct (lp_nchgrows (m_lp m) =? 0).
  { exists []. split; [apply sent_refl|apply oneStage_nil]. }
  match goal with
  | |- context [for_range ?lo ?hi ?body ?s0] =>
      assert (H0 : quiet m (fst (for_range lo hi body s0)));
      [|destruct (for_range lo hi body s0) as [m0 b]]
  end.
  - apply (for_range_inv _ (fun s : MEM * CHGBUF => quiet m (fst s)));
      [|apply sent_refl].
    intros i [s b] Hs. cbn [fst] in *.
    case_ifs; cbn [fst]; first [exact Hs|eapply quiet_trans; [exact Hs|apply quiet_modRow]].
  - cbn [fst] in H0.
    destruct (maybe_lpi_then_quiet 4 (0 <? chg_n b)
                (LpiChgSides (chg_n b) (chg_ind b) (chg_lo b) (chg_hi b))
                (modLp (set_lp_nchgrows 0)) m0 eq_refl I) as (calls & Hs & Ho).
    + intros s. apply quiet_modLp; auto.
    + exists calls. split; [|exact Ho]. exact (quiet_sent _ _ _ _ H0 Hs).
Qed.

(** *** The coefficients sent with new columns and rows *)



Lemma gatherCoefs_nonneg (len : Z) (lpipos : Z -> Z) (vals : list Real)
    (b : list Z * list Real * Z) :
  Forall (fun i => 0 <= i) (fst (fst b)) ->
  Forall (fun i => 0 <= i) (fst (fst (gatherCoefs len lpipos vals b))).
Proof.
  intros H. unfold gatherCoefs.
  apply (for_range_inv _ (fun b : list Z * list Real * Z =>
                            Forall (fun i => 0 <= i) (fst (fst b)))); [|exact H].
  intros i [[ind val] n] Hb. cbn [fst] in *.
  destruct (Z.leb_spec 0 (lpipos i)); cbn [fst]; auto.
  apply Forall_aset; auto. lia.
Qed.



Lemma fst_onMem (B A : Type) (c : M MEM A) (s : MEM * B) :
  fst (onMem c s) = fst (c (fst s)).
Proof. unfold onMem. now destruct (c (fst s)). Qed.

Lemma snd_onMem (B A : Type) (c : M MEM A) (s : MEM * B) :
  snd (onMem c s) = (snd (c (fst s)), snd s).
Proof. unfold onMem. now destruct (c (fst s)). Qed.

Lemma lpFlushAddCols_sent (set : SET) (m : MEM) :
  exists calls, sent m (snd (lpFlushAddCols SCIP_INVALID set m)) calls /\ oneStage 5 calls.
Proof.
  unfold lpFlushAddCols.
  destruct (lp_ncols (m_lp m) =? lp_nlpicols (m_lp m)).
  { exists []. split; [apply sent_refl|apply oneStage_nil]. }
  match goal with
  | |- context [forM ?lo ?hi ?body ?s0] =>
      assert (H0 : (fun s : MEM * COLBUF =>
                      quiet m (fst s) /\ Forall (fun i => 0 <= i) (cb_ind (snd s)))
                     (snd (forM lo hi body s0)));
      [|destruct (forM lo hi body s0) as [[[]|rc] [m0 b]]]
  end.
  - apply forM_inv; [|split; [apply sent_refl|constructor]].
    intros c [s b] (Hq & Hind). cbn [fst snd] in *. unfold bind. cbn [fst snd].
    pose proof (fst_onMem COLBUF unit
                  (colLink SCIP_INVALID set (aget NULL (lp_cols (m_lp s)) c)) (s, b)) as E1.
    pose proof (snd_onMem COLBUF unit
                  (colLink SCIP_INVALID set (aget NULL (lp_cols (m_lp s)) c)) (s, b)) as E2.
    pose proof (colLink_quiet set (aget NULL (lp_cols (m_lp s)) c) s) as Hl.
    cbn [fst snd] in E1, E2.
    destruct (onMem (colLink SCIP_INVALID set (aget NULL (lp_cols (m_lp s)) c)) (s, b))
      as [[[]|rc] [s1 b1]]; cbn [fst snd] in *; inversion E2; subst s1 b1; clear E2.
    + unfold exec. cbn [snd].
      match goal with
      | |- context [gatherCoefs ?len ?lp ?vals ?b0] =>
          pose proof (gatherCoefs_nonneg len lp vals b0 Hind) as Hg;
          destruct (gatherCoefs len lp vals b0) as [[ind val] nnonz]
      end.
      cbn [fst snd cb_ind] in *. split; [|exact Hg].
      eapply quiet_trans; [exact Hq|]. eapply quiet_trans; [exact Hl|].
      eapply quiet_trans; [|apply quiet_modCol]. apply quiet_modLp; auto.
    + split; [|exact Hind]. exact (quiet_trans _ _ _ Hq Hl).
  - cbn [fst snd] in H0. destruct H0 as (Hq & Hind).
    eexists. split.
    + eapply quiet_sent; [exact Hq|]. apply lpi_then_quiet.
      intros s. apply quiet_modLp; auto.
    + apply oneStage_one; [reflexivity|exact Hind].
  - cbn [fst snd] in H0. destruct H0 as (Hq & Hind).
    exists []. split; [exact Hq|apply oneStage_nil].
Qed.

Lemma lpFlushAddRows_sent (set : SET) (m : MEM) :
  exists calls, sent m (snd (lpFlushAddRows SCIP_INVALID set m)) calls /\ oneStage 6 calls.
Proof.
  unfold lpFlushAddRows.
  destruct (lp_nrows (m_lp m) =? lp_nlpirows (m_lp m)).
  { exists []. split; [apply sent_refl|apply oneStage_nil]. }
  match goal with
  | |- context [forM ?lo ?hi ?body ?s0] =>
      assert (H0 : (fun s : MEM * ROWBUF =>
                      quiet m (fst s) /\ Forall (fun i => 0 <= i) (rb_ind (snd s)))
                     (snd (forM lo hi body s0)));
      [|destruct (forM lo hi body s0) as [[[]|rc] [m0 b]]]
  end.
  - apply forM_inv; [|split; [apply sent_refl|constructor]].
    intros c [s b] (Hq & Hind). cbn [fst snd] in *. unfold bind. cbn [fst snd].
    pose proof (fst_onMem ROWBUF unit
                  (rowLink SCIP_INVALID set (aget NULL (lp_rows (m_lp s)) c)) (s, b)) as E1.
    pose proof (snd_onMem ROWBUF unit
                  (rowLink SCIP_INVALID set (aget NULL (lp_rows (m_lp s)) c)) (s, b)) as E2.
    pose proof (rowLink_quiet set (aget NULL (lp_rows (m_lp s)) c) s) as Hl.
    cbn [fst snd] in E1, E2.
    destruct (onMem (rowLink SCIP_INVALID set (aget NULL (lp_rows (m_lp s)) c)) (s, b))
      as [[[]|rc] [s1 b1]]; cbn [fst snd] in *; inversion E2; subst s1 b1; clear E2.
    + unfold exec. cbn [snd].
      match goal with
      | |- context [gatherCoefs ?len ?lp ?vals ?b0] =>
          pose proof (gatherCoefs_nonneg len lp vals b0 Hind) as Hg;
          destruct (gatherCoefs len lp vals b0) as [[ind val] nnonz]
      end.
      cbn [fst snd rb_ind] in *. split; [|exact Hg].
      eapply quiet_trans; [exact Hq|]. eapply quiet_trans; [exact Hl|].
      eapply quiet_trans; [|apply quiet_modRow]. apply quiet_modLp; auto.
    + split; [|exact Hind]. exact (quiet_trans _ _ _ Hq Hl).
  - cbn [fst snd] in H0. destruct H0 as (Hq & Hind).
    eexists. split.
    + eapply quiet_sent; [exact Hq|]. apply lpi_then_quiet.
      intros s. apply quiet_modLp; auto.
    + apply oneStage_one; [reflexivity|exact Hind].
  - cbn [fst snd] in H0. destruct H0 as (Hq & Hind).
    exists []. split; [exact Hq|apply oneStage_nil].
Qed.

(** *** The order of the flush *)

Lemma flushOrdered_nil (k : Z) : flushOrdered k [].
Proof. repeat split; constructor. Qed.

Lemma flushOrdered_app (k : Z) (c1 c2 : list LPICALL) :
  1 <= k <= 6 -> oneStage k c1 -> flushOrdered (k + 1) c2 -> flushOrdered k (c1 ++ c2).
Proof.
  intros Hk [->|(c & -> & Hs & Hr)] (S2 & B2 & R2); cbn [app].
  - repeat split; auto. eapply Forall_impl; [|exact B2]. cbn. intros; lia.
  - repeat split.
    + constructor; [exact S2|]. eapply Forall_impl; [|exact B2]. cbn. intros; lia.
    + constructor; [lia|]. eapply Forall_impl; [|exact B2]. cbn. intros; lia.
    + constructor; auto.
Qed.

(** a step of the flush followed by the later steps; a step that fails
    ends the flush *)
Lemma bind_flush (k : Z) (A B : M MEM unit) (m : MEM) :
  1 <= k <= 6 ->
  (exists c1, sent m (snd (A m)) c1 /\ oneStage k c1) ->
  (forall m1, exists c2, sent m1 (snd (B m1)) c2 /\ flushOrdered (k + 1) c2) ->
  exists c, sent m (snd ((A ;; B) m)) c /\ flushOrdered k c.
Proof.
  intros Hk (c1 & H1 & O1) HB. unfold bind.
  destruct (A m) as [[[]|rc] m1]; cbn [snd] in *.
  - destruct (HB m1) as (c2 & H2 & O2). exists (c1 ++ c2). split.
    + exact (sent_trans _ _ _ _ _ H1 H2).
    + now apply flushOrdered_app.
  - exists c1. split; [exact H1|]. rewrite <- (app_nil_r c1).
    apply flushOrdered_app; auto. apply flushOrdered_nil.
Qed.

Lemma lpFlush_sent (set : SET) (m : MEM) :
  exists calls, sent m (snd (lpFlush SCIP_INVALID set m)) calls /\ flushOrdered 1 calls.
Proof.
  unfold lpFlush. destruct (lp_flushed (m_lp m)).
  { exists []. split; [apply sent_refl|apply flushOrdered_nil]. }
  apply bind_flush; [lia|apply lpFlushDelCols_sent|]. intros m1.
  apply (bind_flush 2); [lia|apply lpFlushDelRows_sent|]. intros m2.
  apply (bind_flush 3); [lia|apply lpFlushChgCols_sent|]. intros m3.
  apply (bind_flush 4); [lia|apply lpFlushChgRows_sent|]. intros m4.
  apply (bind_flush 5); [lia|apply lpFlushAddCols_sent|]. intros m5.
  apply (bind_flush 6); [lia|apply lpFlushAddRows_sent|]. intros m6.
  exists []. split; [|apply flushOrdered_nil].
  apply exec_quiet. apply quiet_modLp; auto.
Qed.



(** ** Objective limit in the primal simplex *)



(** * Further properties of lp.c *)

(** sort.c is not part of the sources; see SCIPcolSort *)
Variable SCIPbsortPtrDblInt :
  list ptr -> list Real -> list Z -> Z -> (ptr -> ptr -> Z) -> list ptr * list Real * list Z.

(** ** Binary search for a coefficient *)

Lemma int32_small (z : Z) : INT_MIN <= z <= INT_MAX -> int32 z = z.
Proof.
  unfold int32, INT_MIN, INT_MAX. intros H.
  rewrite Z.mod_small by lia. lia.
Qed.

(** the middle of an interval of positions below 2^30 *)
Lemma midpoint (minpos maxpos : Z) :
  0 <= minpos -> minpos <= maxpos -> maxpos < 1073741824 ->
  minpos <= Z.quot (int32 (minpos + maxpos)) 2 <= maxpos.
Proof.
  intros H0 H1 H2. rewrite int32_small by (unfold INT_MIN, INT_MAX; lia).
  rewrite Z.quot_div_nonneg by lia.
  split.
  - apply Z.div_le_lower_bound; lia.
  - apply Z.div_le_upper_bound; lia.
Qed.

(** the loop ends within one round more than the interval has positions;
    a position it returns holds the index searched for; if the indices
    grow strictly along the interval, it finds the index wherever it is *)
Lemma searchCoeff_spec (actidx : Z -> Z) (searchidx : Z) (fuel : nat) :
  forall minpos maxpos,
    0 <= minpos -> maxpos < 1073741824 ->
    (Z.to_nat (maxpos - minpos + 1) < fuel)%nat ->
    exists pos,
      searchCoeff fuel actidx searchidx minpos maxpos = Some pos /\
      (pos = -1 \/ (minpos <= pos <= maxpos /\ actidx pos = searchidx)) /\
      ((forall i j, minpos <= i -> i < j -> j <= maxpos -> actidx i < actidx j) ->
       forall p, minpos <= p <= maxpos -> actidx p = searchidx -> pos = p).
Proof.
  induction fuel as [|k IH]; intros minpos maxpos H0 Hmax Hfuel; [lia|].
  cbn [searchCoeff].
  destruct (minpos <=? maxpos) eqn:Hle.
  - apply Z.leb_le in Hle.
    pose proof (midpoint minpos maxpos H0 Hle Hmax) as Hmid.
    set (actpos := Z.quot (int32 (minpos + maxpos)) 2) in *.
    destruct (searchidx =? actidx actpos) eqn:Heq.
    + apply Z.eqb_eq in Heq. exists actpos. split; [reflexivity|]. split.
      * right. split; [exact Hmid|]. now symmetry.
      * intros Hinc p Hp Hpidx.
        destruct (Z.lt_trichotomy p actpos) as [Hlt|[He|Hgt]]; [|now symmetry|].
        -- specialize (Hinc p actpos). lia.
        -- specialize (Hinc actpos p). lia.
    + apply Z.eqb_neq in Heq.
      destruct (searchidx <? actidx actpos) eqn:Hlt.
      * apply Z.ltb_lt in Hlt.
        destruct (IH minpos (actpos - 1)) as (pos & E & Hs & Hc); [lia|lia|lia|].
        exists pos. split; [exact E|]. split.
        -- destruct Hs as [Hs|(Hs & Hi)]; [now left|right; split; [lia|exact Hi]].
        -- intros Hinc p Hp Hpidx. apply Hc; auto.
           ++ intros i j Hi Hij Hj. apply Hinc; lia.
           ++ destruct (Z_lt_le_dec p actpos) as [Hpa|Hpa]; [lia|].
              destruct (Z.eq_dec p actpos) as [->|Hne]; [lia|].
              specialize (Hinc actpos p). lia.
      * apply Z.ltb_ge in Hlt.
        destruct (IH (actpos + 1) maxpos) as (pos & E & Hs & Hc); [lia|lia|lia|].
        exists pos. split; [exact E|]. split.
        -- destruct Hs as [Hs|(Hs & Hi)]; [now left|right; split; [lia|exact Hi]].
        -- intros Hinc p Hp Hpidx. apply Hc; auto.
           ++ intros i j Hi Hij Hj. apply Hinc; lia.
           ++ destruct (Z_lt_le_dec actpos p) as [Hpa|Hpa]; [lia|].
              destruct (Z.eq_dec p actpos) as [->|Hne]; [lia|].
              specialize (Hinc p actpos). lia.
  - apply Z.leb_gt in Hle. exists (-1). split; [reflexivity|]. split; [now left|].
    intros _ p Hp. lia.
Qed.

(** X1: on a column whose sorted flag is set and that has at most 2^30
    entries, colSearchCoeff ends (within len + 1 rounds), leaves the
    memory as it is, and returns -1 or a position inside the column whose
    row has the index of the row searched for; if the row indices grow
    strictly along the column, it returns the position of the row
    wherever the row is in the column. *)
Theorem colSearchCoeff_spec (fuel : nat) (col row : ptr) (m : MEM) :
  let len := col_len (m_cols m col) in
  let idx p := row_index (m_rows m (aget NULL (col_rows (m_cols m col)) p)) in
  col_sorted (m_cols m col) = true ->
  len <= 1073741824 ->
  (Z.to_nat len < fuel)%nat ->
  exists pos,
    colSearchCoeff SCIPbsortPtrDblInt fuel col row m = Some (pos, m) /\
    (pos = -1 \/ (0 <= pos < len /\ idx pos = row_index (m_rows m row))) /\
    ((forall i j, 0 <= i -> i < j -> j < len -> idx i < idx j) ->
     forall p, 0 <= p < len -> idx p = row_index (m_rows m row) -> pos = p).
Proof.
  intros len idx Hsorted Hlen Hfuel.
  destruct (searchCoeff_spec idx (row_index (m_rows m row)) fuel 0 (len - 1))
    as (pos & E & Hs & Hc); [lia|lia|lia|].
  exists pos. unfold colSearchCoeff. rewrite Hsorted. cbn [negb].
  fold len. fold idx. rewrite E. split; [reflexivity|]. split.
  - destruct Hs as [Hs|(Hs & Hi)]; [now left|right; split; [lia|exact Hi]].
  - intros Hinc p Hp Hpidx. apply Hc; [|lia|exact Hpidx].
    intros i j Hi Hij Hj. apply Hinc; lia.
Qed.

(** X2: on a row whose sorted flag is set and that has at most 2^30
    entries, rowSearchCoeff ends (within len + 1 rounds), leaves the
    memory as it is, and returns -1 or a position of the row whose
    column has the index of the given column; if the indices of the
    row's columns increase strictly, it returns the position of the
    column whenever the row has an entry for it. *)
Theorem rowSearchCoeff_spec (fuel : nat) (row col : ptr) (m : MEM) :
  let len := row_len (m_rows m row) in
  let idx p := col_index (m_cols m (aget NULL (row_cols (m_rows m row)) p)) in
  row_sorted (m_rows m row) = true ->
  len <= 1073741824 ->
  (Z.to_nat len < fuel)%nat ->
  exists pos,
    rowSearchCoeff SCIPbsortPtrDblInt fuel row col m = Some (pos, m) /\
    (pos = -1 \/ (0 <= pos < len /\ idx pos = col_index (m_cols m col))) /\
    ((forall i j, 0 <= i -> i < j -> j < len -> idx i < idx j) ->
     forall p, 0 <= p < len -> idx p = col_index (m_cols m col) -> pos = p).
Proof.
  intros len idx Hsorted Hlen Hfuel.
  destruct (searchCoeff_spec idx (col_index (m_cols m col)) fuel 0 (len - 1))
    as (pos & E & Hs & Hc); [lia|lia|lia|].
  exists pos. unfold rowSearchCoeff. rewrite Hsorted. cbn [negb].
  fold len. fold idx. rewrite E. split; [reflexivity|]. split.
  - destruct Hs as [Hs|(Hs & Hi)]; [now left|right; split; [lia|exact Hi]].
  - intros Hinc p Hp Hpidx. apply Hc; [|lia|exact Hpidx].
    intros i j Hi Hij Hj. apply Hinc; lia.
Qed.

(** ** Deleting a coefficient by its row or column *)

(** X3: SCIPcolDelCoeff for a row that has no entry in the (sorted)
    column fails with SCIP_INVALIDDATA and leaves the memory as it is. *)
Theorem SCIPcolDelCoeff_missing (fuel : nat) (set : SET) (col row : ptr) (m : MEM) :
  let len := col_len (m_cols m col) in
  let idx p := row_index (m_rows m (aget NULL (col_rows (m_cols m col)) p)) in
  col_sorted (m_cols m col) = true ->
  len <= 1073741824 ->
  (Z.to_nat len < fuel)%nat ->
  (forall p, 0 <= p < len -> idx p <> row_index (m_rows m row)) ->
  SCIPcolDelCoeff SCIP_INVALID SCIPbsortPtrDblInt fuel set col row m
  = Some (Err SCIP_INVALIDDATA, m).
Proof.
  intros len idx Hsorted Hlen Hfuel Habsent.
  destruct (searchCoeff_spec idx (row_index (m_rows m row)) fuel 0 (len - 1))
    as (pos & E & Hs & _); [lia|lia|lia|].
  unfold SCIPcolDelCoeff, colSearchCoeff. rewrite Hsorted. cbn [negb].
  fold len. fold idx. rewrite E.
  destruct Hs as [->|(Hp & Hi)]; [reflexivity|].
  exfalso. apply (Habsent pos); [lia|exact Hi].
Qed.

(** the announcement of a changed coefficient writes flags only *)
Lemma coefChanged_keeps_row (T : Type) (F : ROW -> T) (row col : ptr) (m : MEM) (q : ptr) :
  (forall b r, F (set_row_coefchanged b r) = F r) ->
  F (m_rows (coefChanged SCIP_INVALID row col m) q) = F (m_rows m q).
Proof.
  intros H. unfold coefChanged.
  destruct ((0 <=? row_lpipos (m_rows m row)) && (0 <=? col_lpipos (m_cols m col)));
    [|reflexivity].
  cbn [m_rows modLp putLp].
  destruct (lp_lpifirstchgrow (m_lp m) <=? row_lpipos (m_rows m row));
    [now rewrite modRow_keeps by (intros; apply H)|].
  destruct (lp_lpifirstchgcol (m_lp m) <=? col_lpipos (m_cols m col)); [reflexivity|].
  destruct (lp_lpifirstchgrow (m_lp m) - row_lpipos (m_rows m row)
            <=? lp_lpifirstchgcol (m_lp m) - col_lpipos (m_cols m col));
    cbn [m_rows modLp putLp]; [now rewrite modRow_keeps by (intros; apply H)|reflexivity].
Qed.

Lemma coefChanged_keeps_col (T : Type) (F : COL -> T) (row col : ptr) (m : MEM) (q : ptr) :
  (forall b c, F (set_col_coefchanged b c) = F c) ->
  F (m_cols (coefChanged SCIP_INVALID row col m) q) = F (m_cols m q).
Proof.
  intros H. unfold coefChanged.
  destruct ((0 <=? row_lpipos (m_rows m row)) && (0 <=? col_lpipos (m_cols m col)));
    [|reflexivity].
  cbn [m_cols modLp putLp].
  destruct (lp_lpifirstchgrow (m_lp m) <=? row_lpipos (m_rows m row)); [reflexivity|].
  destruct (lp_lpifirstchgcol (m_lp m) <=? col_lpipos (m_cols m col));
    [now rewrite modCol_keeps by (intros; apply H)|].
  destruct (lp_lpifirstchgrow (m_lp m) - row_lpipos (m_rows m row)
            <=? lp_lpifirstchgcol (m_lp m) - col_lpipos (m_cols m col));
    cbn [m_cols modLp putLp]; [reflexivity|now rewrite modCol_keeps by (intros; apply H)].
Qed.

(** deleting a coefficient from a column writes no row's entries and no
    row's lock counter *)
Lemma colDelCoeffPos_rows (set : SET) (col : ptr) (pos : Z) (m : MEM) (q : ptr) :
  let m' := snd (colDelCoeffPos SCIP_INVALID set col pos m) in
  row_nlocks (m_rows m' q) = row_nlocks (m_rows m q) /\
  row_cols (m_rows m' q) = row_cols (m_rows m q) /\
  row_vals (m_rows m' q) = row_vals (m_rows m q) /\
  row_len (m_rows m' q) = row_len (m_rows m q).
Proof.
  cbv zeta. unfold colDelCoeffPos. cbn [snd].
  repeat split; (rewrite coefChanged_keeps_row by reflexivity);
    case_ifs; read_through; reflexivity.
Qed.

Lemma colDelCoeffPos_len (set : SET) (col : ptr) (pos : Z) (m : MEM) :
  col_len (m_cols (snd (colDelCoeffPos SCIP_INVALID set col pos m)) col)
  = col_len (m_cols m col) - 1.
Proof.
  unfold colDelCoeffPos. cbn [snd].
  rewrite coefChanged_keeps_col by reflexivity.
  rewrite m_cols_modCol, Nat.eqb_refl. cbn [col_len set_col_len].
  case_ifs; read_through; reflexivity.
Qed.

(** X4: SCIProwDelCoeff on a locked row fails with SCIP_INVALIDDATA and
    keeps the entries of the row, but not before it has removed the
    entry from the column, if the two are linked: the error leaves the
    column one entry shorter. *)
Theorem SCIProwDelCoeff_locked (fuel : nat) (set : SET) (row col : ptr) (m : MEM) (p : Z) :
  let r := m_rows m row in
  let idx q := col_index (m_cols m (aget NULL (row_cols r) q)) in
  let linkpos := aget 0 (row_linkpos r) p in
  let m' := if linkpos =? -1 then m else snd (colDelCoeffPos SCIP_INVALID set col linkpos m) in
  row_sorted r = true ->
  row_len r <= 1073741824 ->
  (Z.to_nat (row_len r) < fuel)%nat ->
  (forall i j, 0 <= i -> i < j -> j < row_len r -> idx i < idx j) ->
  0 <= p < row_len r ->
  idx p = col_index (m_cols m col) ->
  0 < row_nlocks r ->
  SCIProwDelCoeff SCIP_INVALID SCIPbsortPtrDblInt fuel set row col m
  = Some (Err SCIP_INVALIDDATA, m') /\
  row_cols (m_rows m' row) = row_cols r /\
  row_vals (m_rows m' row) = row_vals r /\
  row_len (m_rows m' row) = row_len r /\
  (linkpos <> -1 -> col_len (m_cols m' col) = col_len (m_cols m col) - 1).
Proof.
  intros r idx linkpos m' Hsorted Hlen Hfuel Hinc Hp Hidx Hlock.
  destruct (searchCoeff_spec idx (col_index (m_cols m col)) fuel 0 (row_len r - 1))
    as (pos & E & _ & Hc); [lia|lia|lia|].
  assert (pos = p).
  { apply Hc; [|lia|exact Hidx]. intros i j Hi Hij Hj. apply Hinc; lia. }
  subst pos.
  apply Z.ltb_lt in Hlock.
  unfold SCIProwDelCoeff, rowSearchCoeff. fold r. rewrite Hsorted. cbn [negb].
  fold r. fold idx. rewrite E.
  replace (p =? -1) with false by (symmetry; apply Z.eqb_neq; lia).
  unfold bind. fold r. fold linkpos. subst m'.
  destruct (linkpos =? -1) eqn:Hlink; cbn [negb].
  - unfold rowDelCoeffPos. fold r. rewrite Hlock.
    repeat split; auto. intros H. apply Z.eqb_eq in Hlink. contradiction.
  - pose proof (colDelCoeffPos_rows set col linkpos m row) as (Hn & Hcols & Hvals & Hl).
    cbv zeta in Hn, Hcols, Hvals, Hl.
    destruct (colDelCoeffPos SCIP_INVALID set col linkpos m) as [[[]|rc] m1] eqn:Edel;
      [|discriminate (eq_trans (eq_sym (colDelCoeffPos_ok set col linkpos m))
                        (f_equal fst Edel))].
    cbn [snd] in *. unfold rowDelCoeffPos. rewrite Hn. fold r. rewrite Hlock.
    repeat split; auto.
    intros _. pose proof (colDelCoeffPos_len set col linkpos m) as H.
    rewrite Edel in H. exact H.
Qed.

(** ** Creating a row *)

(** an invariant that depends on the loop counter *)
Lemma for_nat_ind (S : Type) (P : Z -> S -> Prop) (body : Z -> S -> S) (n : nat) :
  forall i s,
    (forall j t, i <= j < i + Z.of_nat n -> P j t -> P (j + 1) (body j t)) ->
    P i s -> P (i + Z.of_nat n) (for_nat n i body s).
Proof.
  induction n as [|n IH]; intros i s Hb H.
  - cbn [for_nat]. now replace (i + Z.of_nat 0) with i by lia.
  - cbn [for_nat]. replace (i + Z.of_nat (Datatypes.S n)) with (i + 1 + Z.of_nat n) by lia.
    apply IH.
    + intros j t Hj. apply Hb. lia.
    + apply Hb; [lia|exact H].
Qed.

Lemma for_range_ind (S : Type) (P : Z -> S -> Prop) (body : Z -> S -> S) (lo hi : Z) :
  lo <= hi ->
  (forall j t, lo <= j < hi -> P j t -> P (j + 1) (body j t)) ->
  forall s, P lo s -> P hi (for_range lo hi body s).
Proof.
  intros Hle Hb s H. unfold for_range.
  replace hi with (lo + Z.of_nat (Z.to_nat (hi - lo))) at 1 by lia.
  apply for_nat_ind; [|exact H].
  intros j t Hj. apply Hb. lia.
Qed.

Lemma aget_aset_same (A : Type) (d : A) (a : list A) (i : Z) (v : A) :
  0 <= i -> aget d (aset d a i v) i = v.
Proof.
  intros H. unfold aget, aset. destruct (Z.ltb_spec i 0); [lia|].
  apply nth_store_at_same.
Qed.

Lemma aget_aset_other (A : Type) (d : A) (a : list A) (i j : Z) (v : A) :
  i <> j -> aget d (aset d a i v) j = aget d a j.
Proof.
  intros H. unfold aget, aset.
  destruct (Z.ltb_spec j 0); [reflexivity|].
  destruct (Z.ltb_spec i 0); [reflexivity|].
  apply nth_store_at_other. lia.
Qed.

(** rowCalcNorms writes the norms, the index range and the sorted flag of
    its row, and nothing else *)
Lemma rowCalcNorms_frame (set : SET) (row : ptr) (m : MEM) :
  let m' := rowCalcNorms set row m in
  m_cols m' = m_cols m /\ m_lp m' = m_lp m /\ m_stat m' = m_stat m /\
  m_vars m' = m_vars m /\
  (forall q, q <> row -> m_rows m' q = m_rows m q) /\
  row_cols (m_rows m' row) = row_cols (m_rows m row) /\
  row_vals (m_rows m' row) = row_vals (m_rows m row) /\
  row_linkpos (m_rows m' row) = row_linkpos (m_rows m row) /\
  row_len (m_rows m' row) = row_len (m_rows m row) /\
  row_nunlinked (m_rows m' row) = row_nunlinked (m_rows m row) /\
  row_nuses (m_rows m' row) = row_nuses (m_rows m row) /\
  row_nlocks (m_rows m' row) = row_nlocks (m_rows m row) /\
  row_index (m_rows m' row) = row_index (m_rows m row) /\
  row_lppos (m_rows m' row) = row_lppos (m_rows m row) /\
  row_lpipos (m_rows m' row) = row_lpipos (m_rows m row) /\
  row_validactivitybds (m_rows m' row) = row_validactivitybds (m_rows m row).
Proof.
  cbv zeta. unfold rowCalcNorms.
  repeat match goal with
         | |- _ /\ _ => split
         end;
    try (match goal with
         | |- ?F (for_range _ _ _ ?s0) = _ =>
             apply (for_range_inv _ (fun s => F s = F s0)); [|reflexivity];
             intros i s H; rewrite <- H; reflexivity
         end);
    try (match goal with
         | |- ?F (m_rows (for_range _ _ _ ?s0) row) = _ =>
             transitivity (F (m_rows s0 row)); [|read_through; reflexivity];
             apply (for_range_inv _ (fun s => F (m_rows s row) = F (m_rows s0 row)));
             [|reflexivity];
             intros i s H; rewrite <- H; read_through; reflexivity
         end).
  intros q Hq.
  match goal with
  | |- m_rows (for_range _ _ _ ?s0) q = _ =>
      transitivity (m_rows s0 q);
      [|rewrite m_rows_modRow; apply Nat.eqb_neq in Hq; now rewrite Hq];
      apply (for_range_inv _ (fun s => m_rows s q = m_rows s0 q)); [|reflexivity];
      intros i s H; rewrite <- H; rewrite !m_rows_modRow;
      apply Nat.eqb_neq in Hq; now rewrite Hq
  end.
Qed.

(** X5: SCIProwCreate returns a captured row (nuses = 1) without locks
    that is in no LP, whose len link positions are all -1 with
    nunlinked = len, that has the next row index, and whose activity
    bounds are not valid; it writes the new row and the row counter of
    the statistics only: no column, no other row, not the LP. *)
Theorem SCIProwCreate_links (row : ptr) (fresh : list Z) (set : SET) (len : Z)
    (col : list ptr) (val : list Real) (lhs rhs : Real) (local modifiable : bool) (m : MEM) :
  let r := SCIProwCreate SCIP_INVALID row fresh set len col val lhs rhs local modifiable m in
  let x := m_rows (snd r) row in
  fst r = Ok tt /\
  row_len x = len /\ row_nunlinked x = len /\
  (forall i, 0 <= i < len -> aget 0 (row_linkpos x) i = -1) /\
  row_nuses x = 1 /\ row_nlocks x = 0 /\ row_lppos x = -1 /\ row_lpipos x = -1 /\
  row_validactivitybds x = false /\
  row_index x = stat_nrowidx (m_stat m) /\
  stat_nrowidx (m_stat (snd r)) = stat_nrowidx (m_stat m) + 1 /\
  m_cols (snd r) = m_cols m /\ m_lp (snd r) = m_lp m /\
  (forall q, q <> row -> m_rows (snd r) q = m_rows m q).
Proof.
  cbv zeta. unfold SCIProwCreate. cbn [fst snd].
  (* the state after the arrays of the row are set up *)
  set (m0 := if 0 <? len then _ else _).
  assert (H0 : m_stat m0 = m_stat m /\ m_cols m0 = m_cols m /\ m_lp m0 = m_lp m /\
               (forall q, q <> row -> m_rows m0 q = m_rows m q) /\
               (forall i, 0 <= i < len -> aget 0 (row_linkpos (m_rows m0 row)) i = -1)).
  { subst m0. destruct (Z.ltb_spec 0 len) as [Hlen|Hlen].
    - match goal with
      | |- context [for_range 0 len ?body ?s0] =>
          apply (for_range_ind _ (fun k s =>
                   m_stat s = m_stat m /\ m_cols s = m_cols m /\ m_lp s = m_lp m /\
                   (forall q, q <> row -> m_rows s q = m_rows m q) /\
                   (forall i, 0 <= i < k -> aget 0 (row_linkpos (m_rows s row)) i = -1))
                   body 0 len)
      end; [lia| |].
      + intros j t Hj (IH1 & IH2 & IH3 & IH4 & IH5).
        repeat split; auto.
        * intros q Hq. rewrite m_rows_modRow. apply Nat.eqb_neq in Hq. rewrite Hq.
          apply IH4. now apply Nat.eqb_neq.
        * intros i Hi. rewrite m_rows_modRow, Nat.eqb_refl.
          cbn [row_linkpos set_row_linkpos].
          destruct (Z.eq_dec i j) as [->|Hne].
          -- apply aget_aset_same. lia.
          -- rewrite aget_aset_other by lia. apply IH5. lia.
      + repeat split; auto.
        * intros q Hq. rewrite m_rows_modRow. apply Nat.eqb_neq in Hq. now rewrite Hq.
        * intros i Hi. lia.
    - repeat split; auto.
      + intros q Hq. rewrite m_rows_modRow. apply Nat.eqb_neq in Hq. now rewrite Hq.
      + intros i Hi. lia. }
  destruct H0 as (Hstat0 & Hcols0 & Hlp0 & Hrows0 & Hlink0).
  clearbody m0.
  match goal with
  | |- context [rowCalcNorms set row ?s] =>
      set (m1 := s);
      pose proof (rowCalcNorms_frame set row m1)
        as (Hc & Hlp & Hst & _ & Hq & _ & _ & Hlink & Hlen & Hnun & Hnuses & Hnl & Hidx
            & Hpos & Hipos & Hval)
  end.
  cbv zeta in Hc, Hlp, Hst, Hq, Hlink, Hlen, Hnun, Hnuses, Hnl, Hidx, Hpos, Hipos, Hval.
  set (m2 := rowCalcNorms set row m1) in *.
  assert (Hown : forall (T : Type) (F : ROW -> T),
            (forall v r, F (set_row_nuses v r) = F r) ->
            F (m_rows (modRow row SCIProwCapture m2) row) = F (m_rows m2 row)).
  { intros T F HF. rewrite m_rows_modRow, Nat.eqb_refl. unfold SCIProwCapture. apply HF. }
  repeat match goal with
         | |- _ /\ _ => split
         end.
  - reflexivity.
  - rewrite Hown by reflexivity. rewrite Hlen. subst m1.
    rewrite m_rows_modRow, Nat.eqb_refl. reflexivity.
  - rewrite Hown by reflexivity. rewrite Hnun. subst m1.
    rewrite m_rows_modRow, Nat.eqb_refl. reflexivity.
  - intros i Hi. rewrite Hown by reflexivity. rewrite Hlink. subst m1.
    rewrite m_rows_modRow, Nat.eqb_refl. cbn [row_linkpos]. cbn [m_rows putStat].
    rewrite m_rows_modRow, Nat.eqb_refl. cbn [row_linkpos]. now apply Hlink0.
  - rewrite m_rows_modRow, Nat.eqb_refl. unfold SCIProwCapture.
    cbn [row_nuses set_row_nuses]. rewrite Hnuses. subst m1.
    rewrite m_rows_modRow, Nat.eqb_refl. reflexivity.
  - rewrite Hown by reflexivity. rewrite Hnl. subst m1.
    rewrite m_rows_modRow, Nat.eqb_refl. reflexivity.
  - rewrite Hown by reflexivity. rewrite Hpos. subst m1.
    rewrite m_rows_modRow, Nat.eqb_refl. reflexivity.
  - rewrite Hown by reflexivity. rewrite Hipos. subst m1.
    rewrite m_rows_modRow, Nat.eqb_refl. reflexivity.
  - rewrite Hown by reflexivity. rewrite Hval. subst m1.
    rewrite m_rows_modRow, Nat.eqb_refl. reflexivity.
  - rewrite Hown by reflexivity. rewrite Hidx. subst m1.
    rewrite m_rows_modRow, Nat.eqb_refl. cbn [row_index]. cbn [m_rows putStat].
    rewrite m_rows_modRow, Nat.eqb_refl. cbn [row_index]. now rewrite Hstat0.
  - cbn [m_stat modRow putRow]. rewrite Hst. subst m1. cbn [m_stat modRow putRow putStat].
    now rewrite Hstat0.
  - rewrite m_cols_modRow, Hc. subst m1. read_through. exact Hcols0.
  - rewrite m_lp_modRow, Hlp. subst m1. read_through. exact Hlp0.
  - intros q Hne. rewrite m_rows_modRow. pose proof Hne as Hne'.
    apply Nat.eqb_neq in Hne'. rewrite Hne'. rewrite (Hq q Hne). subst m1.
    rewrite m_rows_modRow, Hne'. cbn [m_rows putStat]. rewrite m_rows_modRow, Hne'.
    now apply Hrows0.
Qed.

(** ** The index range and the sorted flag of a row *)

Lemma rowAddNorms_idx (set : SET) (colidx : Z) (val : Real) (r : ROW) :
  colidx <> -1 ->
  let r' := rowAddNorms set colidx val r in
  row_minidx r' = MINz (row_minidx r) colidx /\
  row_maxidx r' = MAXz (row_maxidx r) colidx /\
  row_sorted r' = row_sorted r /\
  row_validminmaxidx r' = row_validminmaxidx r /\
  row_cols r' = row_cols r /\ row_vals r' = row_vals r /\ row_len r' = row_len r.
Proof.
  intros H. apply Z.eqb_neq in H. cbv zeta. unfold rowAddNorms. rewrite H. cbn [negb].
  repeat split; case_ifs; reflexivity.
Qed.

(** X6: rowCalcNorms leaves a valid index range that contains the index
    of every column of the row, with both ends attained (INT_MAX and
    INT_MIN for an empty row), and sets the sorted flag exactly when the
    column indices grow strictly along the row. The column indices are
    non-negative ints. *)
Theorem rowCalcNorms_index_range (set : SET) (row : ptr) (m : MEM) :
  let r := m_rows m row in
  let idx p := col_index (m_cols m (aget NULL (row_cols r) p)) in
  let r' := m_rows (rowCalcNorms set row m) row in
  (forall p, 0 <= p < row_len r -> 0 <= idx p <= INT_MAX) ->
  row_validminmaxidx r' = true /\
  (forall p, 0 <= p < row_len r -> row_minidx r' <= idx p <= row_maxidx r') /\
  (row_len r <= 0 -> row_minidx r' = INT_MAX /\ row_maxidx r' = INT_MIN) /\
  (0 < row_len r ->
   exists p q, 0 <= p < row_len r /\ 0 <= q < row_len r /\
               idx p = row_minidx r' /\ idx q = row_maxidx r') /\
  (row_sorted r' = true <-> forall p, 1 <= p < row_len r -> idx (p - 1) < idx p).
Proof.
  intros r idx r' Hidx. subst r'. unfold rowCalcNorms.
  set (len := row_len r) in *.
  match goal with
  | |- context [for_range 0 ?hi ?body ?s0] =>
      replace hi with len by (rewrite m_rows_modRow, Nat.eqb_refl; reflexivity);
      set (b := body); set (s0' := s0)
  end.
  destruct (Z_le_gt_dec len 0) as [Hempty|Hpos].
  - (* no entry: the loop does not run *)
    unfold for_range. replace (Z.to_nat (len - 0)) with O by lia. cbn [for_nat].
    subst s0'. rewrite m_rows_modRow, Nat.eqb_refl.
    cbn [row_validminmaxidx row_minidx row_maxidx row_sorted set_row_sorted
         set_row_validminmaxidx set_row_maxidx set_row_minidx].
    repeat split; try lia; auto; try (intros p Hp; lia).
  - assert (Hinv :
      let s := for_range 0 len b s0' in
      m_cols s = m_cols m /\
      row_cols (m_rows s row) = row_cols r /\
      row_validminmaxidx (m_rows s row) = true /\
      (forall p, 0 <= p < len ->
         row_minidx (m_rows s row) <= idx p <= row_maxidx (m_rows s row)) /\
      (len = 0 -> row_minidx (m_rows s row) = INT_MAX /\
                  row_maxidx (m_rows s row) = INT_MIN) /\
      (0 < len -> exists p q, 0 <= p < len /\ 0 <= q < len /\
                    idx p = row_minidx (m_rows s row) /\
                    idx q = row_maxidx (m_rows s row)) /\
      (row_sorted (m_rows s row) = true <->
       forall p, 1 <= p < len -> idx (p - 1) < idx p)).
    { cbv zeta.
      apply (for_range_ind _ (fun k s =>
        m_cols s = m_cols m /\
        row_cols (m_rows s row) = row_cols r /\
        row_validminmaxidx (m_rows s row) = true /\
        (forall p, 0 <= p < k ->
           row_minidx (m_rows s row) <= idx p <= row_maxidx (m_rows s row)) /\
        (k = 0 -> row_minidx (m_rows s row) = INT_MAX /\
                  row_maxidx (m_rows s row) = INT_MIN) /\
        (0 < k -> exists p q, 0 <= p < k /\ 0 <= q < k /\
                    idx p = row_minidx (m_rows s row) /\
                    idx q = row_maxidx (m_rows s row)) /\
        (row_sorted (m_rows s row) = true <->
         forall p, 1 <= p < k -> idx (p - 1) < idx p)) b 0 len); [lia| |].
      - intros j t Hj (Hcols & Hrc & Hv & Hrange & Hzero & Hatt & Hsort).
        subst b. cbv beta.
        rewrite !m_rows_modRow, !Nat.eqb_refl, !m_cols_modRow, Hcols, Hrc.
        fold (idx j). fold (idx (j - 1)).
        pose proof (Hidx j ltac:(lia)) as Hij.
        destruct (rowAddNorms_idx set (idx j) (aget 0%float (row_vals (m_rows t row)) j)
                    (m_rows t row)) as (Emin & Emax & Esorted & Evalid & Ecols & _ & _);
          [lia|].
        cbn [row_cols row_validminmaxidx row_minidx row_maxidx row_sorted set_row_sorted].
        rewrite Emin, Emax, Esorted, Evalid, Ecols, ?Hrc.
        fold r. fold (idx (j - 1)).
        assert (Hmin : MINz (row_minidx (m_rows t row)) (idx j)
                       = Z.min (row_minidx (m_rows t row)) (idx j)).
        { unfold MINz. destruct (Z.ltb_spec (row_minidx (m_rows t row)) (idx j)); lia. }
        assert (Hmax : MAXz (row_maxidx (m_rows t row)) (idx j)
                       = Z.max (row_maxidx (m_rows t row)) (idx j)).
        { unfold MAXz. destruct (Z.ltb_spec (idx j) (row_maxidx (m_rows t row))); lia. }
        rewrite Hmin, Hmax.
        split; [reflexivity|]. split; [reflexivity|]. split; [exact Hv|]. split.
        { intros p Hp. destruct (Z.eq_dec p j) as [->|Hne]; [lia|].
          specialize (Hrange p ltac:(lia)). lia. }
        split; [intros; lia|]. split.
        { intros _. destruct (Z.eq_dec j 0) as [->|Hj0].
          - destruct (Hzero eq_refl) as (E1 & E2). rewrite E1, E2.
            unfold INT_MAX, INT_MIN in *. exists 0, 0. repeat split; lia.
          - destruct (Hatt ltac:(lia)) as (p & q & Hp & Hq & Ep & Eq).
            exists (if idx j <? row_minidx (m_rows t row) then j else p),
                   (if row_maxidx (m_rows t row) <? idx j then j else q).
            destruct (Z.ltb_spec (idx j) (row_minidx (m_rows t row)));
              destruct (Z.ltb_spec (row_maxidx (m_rows t row)) (idx j));
              repeat split; lia. }
        { rewrite andb_true_iff, orb_true_iff, Z.eqb_eq, Z.ltb_lt, Hsort. split.
          - intros (Hs & Hlast) p Hp.
            destruct (Z.eq_dec p j) as [->|Hne]; [|apply Hs; lia].
            destruct Hlast as [->|Hlast]; [lia|exact Hlast].
          - intros Hs. split; [intros p Hp; apply Hs; lia|].
            destruct (Z.eq_dec j 0) as [->|Hj0]; [now left|right; apply Hs; lia]. }
      - subst s0'. rewrite m_rows_modRow, Nat.eqb_refl.
        cbn [row_cols row_validminmaxidx row_minidx row_maxidx row_sorted set_row_sorted
             set_row_validminmaxidx set_row_maxidx set_row_minidx set_row_nummaxval
             set_row_maxval set_row_sqrnorm].
        repeat split; auto; try (intros; lia). }
    cbv zeta in Hinv. destruct Hinv as (_ & _ & Hv & Hrange & _ & Hatt & Hsort).
    split; [exact Hv|]. split; [exact Hrange|]. split; [intros; lia|].
    split; [intros _; apply Hatt; lia|]. exact Hsort.
Qed.

(** ** Locks and uses of a row *)

(** X7: a modifiable row can be neither locked nor unlocked, and a row
    without lock cannot be unlocked: the calls fail with
    SCIP_INVALIDDATA and leave the memory as it is. On an unmodifiable
    row with nlocks >= 0, SCIProwLock succeeds and raises nlocks by one,
    and the SCIProwUnlock that follows it succeeds and gives back the row
    as it was before the lock; no other row is written. *)
Theorem SCIProwLock_Unlock (row : ptr) (m : MEM) :
  (row_modifiable (m_rows m row) = true ->
   SCIProwLock row m = (Err SCIP_INVALIDDATA, m) /\
   SCIProwUnlock row m = (Err SCIP_INVALIDDATA, m)) /\
  (row_nlocks (m_rows m row) = 0 -> SCIProwUnlock row m = (Err SCIP_INVALIDDATA, m)) /\
  (row_modifiable (m_rows m row) = false -> 0 <= row_nlocks (m_rows m row) ->
   let m1 := snd (SCIProwLock row m) in
   let m2 := snd (SCIProwUnlock row m1) in
   fst (SCIProwLock row m) = Ok tt /\
   row_nlocks (m_rows m1 row) = row_nlocks (m_rows m row) + 1 /\
   fst (SCIProwUnlock row m1) = Ok tt /\
   m_rows m2 row = m_rows m row /\
   (forall q, q <> row -> m_rows m2 q = m_rows m q) /\
   m_cols m2 = m_cols m /\ m_lp m2 = m_lp m).
Proof.
  split; [|split].
  - intros H. unfold SCIProwLock, SCIProwUnlock. now rewrite H.
  - intros H. unfold SCIProwUnlock. rewrite H.
    now destruct (row_modifiable (m_rows m row)).
  - intros Hmod Hn. cbv zeta. unfold SCIProwLock. rewrite Hmod. cbn [fst snd].
    unfold SCIProwUnlock. rewrite !m_rows_modRow, !Nat.eqb_refl.
    cbn [row_modifiable row_nlocks set_row_nlocks]. rewrite Hmod.
    replace (row_nlocks (m_rows m row) + 1 =? 0) with false
      by (symmetry; apply Z.eqb_neq; lia).
    cbn [fst snd]. rewrite !m_rows_modRow, !Nat.eqb_refl.
    repeat split.
    + destruct (m_rows m row). unfold set_row_nlocks. cbn. f_equal. lia.
    + intros q Hq. rewrite !m_rows_modRow. apply Nat.eqb_neq in Hq. now rewrite Hq.
Qed.

(** ** Columns and rows of the LP *)

(** what SCIPlpAddRow leaves *)
Lemma SCIPlpAddRow_effect (set : SET) (row : ptr) (m : MEM) :
  let n := lp_nrows (m_lp m) in
  let m1 := snd (SCIPlpAddRow SCIP_INVALID set row m) in
  0 <= n ->
  row_nuses (m_rows m1 row) = row_nuses (m_rows m row) + 1 /\
  row_lppos (m_rows m1 row) = n /\
  aget NULL (lp_rows (m_lp m1)) n = row /\
  lp_nrows (m_lp m1) = n + 1 /\
  lpi_calls (lp_lpi (m_lp m1)) = lpi_calls (lp_lpi (m_lp m)).
Proof.
  intros n m1 Hn. subst m1. unfold SCIPlpAddRow, exec, SCIProwCapture. cbn [snd].
  cbn [m_rows m_lp modLp putLp].
  repeat split.
  - rewrite m_rows_modRow, Nat.eqb_refl. cbn [row_nuses set_row_lppos].
    cbn [m_rows m_lp modLp putLp]. rewrite m_rows_modRow, Nat.eqb_refl. reflexivity.
  - rewrite m_rows_modRow, Nat.eqb_refl. reflexivity.
  - rewrite !m_lp_modRow. cbn [m_lp modLp putLp]. rewrite !m_lp_modRow.
    cbn [lp_rows set_lp_rows set_lp_nrows set_lp_flushed set_lp_solved
         set_lp_primalfeasible set_lp_objval set_lp_lpsolstat].
    apply aget_aset_same. exact Hn.
Qed.

(** removing the last row of the LP, when the LP does not hold the last
    use of the row *)
Lemma SCIPlpShrinkRows_last (set : SET) (row : ptr) (n : Z) (m : MEM) :
  lp_nrows (m_lp m) = n + 1 ->
  aget NULL (lp_rows (m_lp m)) n = row ->
  row_nuses (m_rows m row) <> 1 ->
  let r := SCIPlpShrinkRows SCIP_INVALID set n m in
  fst r = Ok tt /\
  row_nuses (m_rows (snd r) row) = row_nuses (m_rows m row) - 1 /\
  row_lppos (m_rows (snd r) row) = -1 /\
  lp_nrows (m_lp (snd r)) = n /\
  lp_flushed (m_lp (snd r)) = false /\
  lpi_calls (lp_lpi (m_lp (snd r))) = lpi_calls (lp_lpi (m_lp m)).
Proof.
  intros E4 E3 Huses r.
  assert (Er : r = (Ok tt,
            modLp (fun lp =>
                     lp |> set_lp_nrows n
                        |> set_lp_lpifirstchgrow (MINz (lp_lpifirstchgrow lp) n)
                        |> set_lp_flushed false
                        |> set_lp_solved false
                        |> set_lp_dualfeasible false
                        |> set_lp_objval SCIP_INVALID
                        |> set_lp_lpsolstat SCIP_LPSOLSTAT_NOTSOLVED)
              (modLp (fun lp => set_lp_rows (aset NULL (lp_rows lp) n NULL) lp)
                 (modRow row (fun r0 => set_row_nuses (row_nuses r0 - 1) r0)
                    (modRow row (set_row_lppos (-1)) m))))).
  { subst r. unfold SCIPlpShrinkRows. rewrite E4.
    replace (n <? n + 1) with true by (symmetry; apply Z.ltb_lt; lia).
    unfold forM. replace (Z.to_nat (n + 1 - n)) with 1%nat by lia.
    cbn [forM_nat]. unfold bind at 1 2. unfold ret. cbv beta. rewrite E3.
    unfold bind at 1. unfold SCIProwRelease.
    rewrite !m_rows_modRow, !Nat.eqb_refl. cbn [row_nuses set_row_nuses set_row_lppos].
    replace (row_nuses (m_rows m row) - 1 =? 0) with false
      by (symmetry; apply Z.eqb_neq; lia).
    reflexivity. }
  rewrite Er. cbn [fst snd m_rows m_lp modLp putLp].
  rewrite !m_rows_modRow, !Nat.eqb_refl, !m_lp_modRow.
  repeat split.
Qed.

(** X8: a row that is added to the LP is captured and stands at the end
    of the LP; when the LP is shrunk to its old number of rows, the row
    is released again: its use counter is what it was, it is in no LP,
    and the LP has its old number of rows. Nothing is sent to the solver,
    and the LP stays unflushed. The row is in use (nuses > 0) before. *)
Theorem SCIPlpAddRow_ShrinkRows (set : SET) (row : ptr) (m : MEM) :
  let n := lp_nrows (m_lp m) in
  let m1 := snd (SCIPlpAddRow SCIP_INVALID set row m) in
  let r := SCIPlpShrinkRows SCIP_INVALID set n m1 in
  0 <= n -> 0 < row_nuses (m_rows m row) ->
  row_nuses (m_rows m1 row) = row_nuses (m_rows m row) + 1 /\
  row_lppos (m_rows m1 row) = n /\
  aget NULL (lp_rows (m_lp m1)) n = row /\
  lp_nrows (m_lp m1) = n + 1 /\
  fst r = Ok tt /\
  row_nuses (m_rows (snd r) row) = row_nuses (m_rows m row) /\
  row_lppos (m_rows (snd r) row) = -1 /\
  lp_nrows (m_lp (snd r)) = n /\
  lp_flushed (m_lp (snd r)) = false /\
  lpi_calls (lp_lpi (m_lp (snd r))) = lpi_calls (lp_lpi (m_lp m)).
Proof.
  intros n m1 r Hn Huses.
  destruct (SCIPlpAddRow_effect set row m Hn) as (E1 & E2 & E3 & E4 & E5).
  fold m1 in E1, E2, E3, E4, E5. fold n in E2, E3, E4.
  destruct (SCIPlpShrinkRows_last set row n m1 E4 E3) as (R1 & R2 & R3 & R4 & R5 & R6).
  { rewrite E1. lia. }
  fold r in R1, R2, R3, R4, R5, R6.
  repeat split; auto; try congruence.
  rewrite R2, E1. lia.
Qed.

(** what SCIPlpAddCol leaves *)
Lemma SCIPlpAddCol_effect (set : SET) (col : ptr) (m : MEM) :
  let n := lp_ncols (m_lp m) in
  let m1 := snd (SCIPlpAddCol SCIP_INVALID set col m) in
  0 <= n ->
  col_lppos (m_cols m1 col) = n /\
  aget NULL (lp_cols (m_lp m1)) n = col /\
  lp_ncols (m_lp m1) = n + 1 /\
  (forall i, i <> n -> aget NULL (lp_cols (m_lp m1)) i = aget NULL (lp_cols (m_lp m)) i) /\
  (forall q, q <> col -> m_cols m1 q = m_cols m q).
Proof.
  intros n m1 Hn. subst m1. unfold SCIPlpAddCol, exec. cbn [snd].
  cbn [m_cols m_lp modLp putLp]. rewrite !m_lp_modCol. cbn [m_cols m_lp modLp putLp].
  repeat split.
  - rewrite m_cols_modCol, Nat.eqb_refl. reflexivity.
  - cbn [lp_cols set_lp_cols set_lp_ncols set_lp_flushed set_lp_solved
         set_lp_dualfeasible set_lp_objval set_lp_lpsolstat].
    apply aget_aset_same. exact Hn.
  - intros i Hi.
    cbn [lp_cols set_lp_cols set_lp_ncols set_lp_flushed set_lp_solved
         set_lp_dualfeasible set_lp_objval set_lp_lpsolstat].
    apply aget_aset_other. fold n. lia.
  - intros q Hq. rewrite m_cols_modCol. apply Nat.eqb_neq in Hq. now rewrite Hq.
Qed.

(** removing the last column of the LP *)
Lemma SCIPlpShrinkCols_last (col : ptr) (n : Z) (m : MEM) :
  lp_ncols (m_lp m) = n + 1 ->
  aget NULL (lp_cols (m_lp m)) n = col ->
  let r := SCIPlpShrinkCols SCIP_INVALID n m in
  fst r = Ok tt /\
  col_lppos (m_cols (snd r) col) = -1 /\
  lp_ncols (m_lp (snd r)) = n /\
  lp_cols (m_lp (snd r)) = lp_cols (m_lp m) /\
  (forall q, q <> col -> m_cols (snd r) q = m_cols m q) /\
  lp_flushed (m_lp (snd r)) = false.
Proof.
  intros E4 E3 r.
  assert (Er : r = (Ok tt,
     modLp (fun lp => lp |> set_lp_ncols n
                         |> set_lp_lpifirstchgcol (MINz (lp_lpifirstchgcol lp) n)
                         |> set_lp_flushed false
                         |> set_lp_solved false
                         |> set_lp_primalfeasible false
                         |> set_lp_objval SCIP_INVALID
                         |> set_lp_lpsolstat SCIP_LPSOLSTAT_NOTSOLVED)
       (modCol col (set_col_lppos (-1)) m))).
  { subst r. unfold SCIPlpShrinkCols. rewrite E4.
    replace (n <? n + 1) with true by (symmetry; apply Z.ltb_lt; lia).
    unfold for_range. replace (Z.to_nat (n + 1 - n)) with 1%nat by lia.
    cbn [for_nat]. now rewrite E3. }
  rewrite Er. clear Er r. cbn [fst snd m_cols m_lp modLp putLp].
  rewrite m_lp_modCol.
  split; [reflexivity|]. split.
  { rewrite m_cols_modCol, Nat.eqb_refl. reflexivity. }
  split; [reflexivity|]. split; [reflexivity|]. split; [|reflexivity].
  intros q Hq. rewrite m_cols_modCol. apply Nat.eqb_neq in Hq. now rewrite Hq.
Qed.

(** X9: a column that is added to the LP stands at the end of the LP at
    its position lppos; when the LP is shrunk to its old number of
    columns, the column is in no LP again (lppos = -1), the LP has its
    old number of columns and the columns before are where they were. *)
Theorem SCIPlpAddCol_ShrinkCols (set : SET) (col : ptr) (m : MEM) :
  let n := lp_ncols (m_lp m) in
  let m1 := snd (SCIPlpAddCol SCIP_INVALID set col m) in
  let r := SCIPlpShrinkCols SCIP_INVALID n m1 in
  0 <= n ->
  col_lppos (m_cols m1 col) = n /\
  aget NULL (lp_cols (m_lp m1)) (col_lppos (m_cols m1 col)) = col /\
  lp_ncols (m_lp m1) = n + 1 /\
  fst r = Ok tt /\
  col_lppos (m_cols (snd r) col) = -1 /\
  lp_ncols (m_lp (snd r)) = n /\
  (forall i, 0 <= i < n ->
     aget NULL (lp_cols (m_lp (snd r))) i = aget NULL (lp_cols (m_lp m)) i) /\
  (forall q, q <> col -> m_cols (snd r) q = m_cols m q) /\
  lp_flushed (m_lp (snd r)) = false.
Proof.
  intros n m1 r Hn.
  destruct (SCIPlpAddCol_effect set col m Hn) as (E2 & E3 & E4 & E5 & E6).
  fold m1 in E2, E3, E4, E5, E6. fold n in E2, E3, E4, E5.
  destruct (SCIPlpShrinkCols_last col n m1 E4 E3) as (R1 & R2 & R3 & R4 & R5 & R6).
  fold r in R1, R2, R3, R4, R5, R6.
  split; [exact E2|]. split; [now rewrite E2|]. split; [exact E4|].
  split; [exact R1|]. split; [exact R2|]. split; [exact R3|]. split.
  { intros i Hi. rewrite R4. apply E5. lia. }
  split; [|exact R6].
  intros q Hq. rewrite (R5 q Hq). now apply E6.
Qed.

(** ** Calculating the activity bounds *)

Lemma sameData_refl (m : MEM) : sameData m m.
Proof. unfold sameData. auto. Qed.

Lemma sameData_trans (m m1 m2 : MEM) : sameData m m1 -> sameData m1 m2 -> sameData m m2.
Proof.
  intros (A1 & A2 & A3 & A4 & A5) (B1 & B2 & B3 & B4 & B5).
  unfold sameData. repeat split; intros; congruence.
Qed.

Lemma sameData_modRow (p : ptr) (f : ROW -> ROW) (m : MEM) :
  (forall r, row_cols (f r) = row_cols r) ->
  (forall r, row_vals (f r) = row_vals r) ->
  (forall r, row_len (f r) = row_len r) ->
  sameData m (modRow p f m).
Proof.
  intros H1 H2 H3. unfold sameData.
  split; [reflexivity|]. split; [reflexivity|].
  split; [|split]; intros q; now apply modRow_keeps.
Qed.

Lemma sameData_modCol (p : ptr) (f : COL -> COL) (m : MEM) :
  (forall c, col_var (f c) = col_var c) -> sameData m (modCol p f m).
Proof.
  intros H. unfold sameData.
  split; [reflexivity|]. split; [intros q; now apply modCol_keeps|].
  split; [|split]; reflexivity.
Qed.

Lemma sameData_coefChanged (row col : ptr) (m : MEM) :
  sameData m (coefChanged SCIP_INVALID row col m).
Proof.
  unfold sameData.
  split.
  { unfold coefChanged. case_ifs; reflexivity. }
  split; [intros q; now apply coefChanged_keeps_col|].
  split; [|split]; intros q; now apply coefChanged_keeps_row.
Qed.

Lemma sameData_colAddCoeff (set : SET) (col row : ptr) (val : Real) (linkpos : Z)
    (rowpos : option (ptr * Z)) (m : MEM) :
  fst (colAddCoeff SCIP_INVALID set col row val linkpos rowpos m) = Ok tt /\
  sameData m (snd (colAddCoeff SCIP_INVALID set col row val linkpos rowpos m)).
Proof.
  unfold colAddCoeff. cbn [fst snd]. split; [reflexivity|].
  match goal with
  | |- sameData m (coefChanged _ _ _ ?m') =>
      apply (sameData_trans m m' _); [|apply sameData_coefChanged]
  end.
  match goal with
  | |- sameData m (modCol _ _ ?m') =>
      apply (sameData_trans m m' _);
      [|apply sameData_modCol; intros c; destruct (linkpos =? -1); reflexivity]
  end.
  destruct rowpos as [[r i]|].
  - match goal with
    | |- sameData m (modRow _ _ ?m') =>
        apply (sameData_trans m m' _); [|apply sameData_modRow; reflexivity]
    end.
    destruct (0 <? col_len (m_cols m col)); [|apply sameData_refl].
    apply sameData_modCol. reflexivity.
  - destruct (0 <? col_len (m_cols m col)); [|apply sameData_refl].
    apply sameData_modCol. reflexivity.
Qed.

Lemma forM_nat_both (S : Type) (P : S -> Prop) (body : Z -> M S unit) (n : nat) :
  (forall i s, P s -> fst (body i s) = Ok tt /\ P (snd (body i s))) ->
  forall i s, P s -> fst (forM_nat n i body s) = Ok tt /\ P (snd (forM_nat n i body s)).
Proof.
  intros Hb. induction n as [|n IH]; intros i s H; simpl; auto.
  unfold bind. destruct (Hb i s H) as (E & H').
  destruct (body i s) as [[[]|rc] s']; simpl in *; [auto|discriminate].
Qed.

(** linking a row goes through and writes link positions and flags only *)
Lemma rowLink_sameData (set : SET) (row : ptr) (m : MEM) :
  fst (rowLink SCIP_INVALID set row m) = Ok tt /\
  sameData m (snd (rowLink SCIP_INVALID set row m)).
Proof.
  unfold rowLink. destruct (0 <? row_nunlinked (m_rows m row));
    [|split; [reflexivity|apply sameData_refl]].
  unfold forM. apply (forM_nat_both _ (sameData m)); [|apply sameData_refl].
  intros i s Hs.
  destruct (aget 0 (row_linkpos (m_rows s row)) i =? -1); [|split; [reflexivity|exact Hs]].
  match goal with
  | |- fst (bind (colAddCoeff _ ?st ?c ?r ?v ?l ?rp) _ s) = _ /\ _ =>
      destruct (sameData_colAddCoeff st c r v l rp s) as (E & D);
      rewrite (bind_ok _ _ s tt E)
  end.
  unfold exec. cbn [fst snd]. split; [reflexivity|].
  eapply sameData_trans; [exact Hs|]. eapply sameData_trans; [exact D|].
  apply sameData_modRow; reflexivity.
Qed.

Lemma rowDoms_sameData (m m' : MEM) (row : ptr) :
  sameData m m' -> rowDoms m' row = rowDoms m row.
Proof.
  intros (A1 & A2 & A3 & A4 & A5). unfold rowDoms.
  rewrite A1, A3, A5. apply map_ext. intros i. now rewrite A2.
Qed.

Lemma rowDoms_length (m : MEM) (row : ptr) :
  length (rowDoms m row) = Z.to_nat (row_len (m_rows m row)).
Proof. unfold rowDoms. now rewrite !length_map, length_seq. Qed.

Lemma rowDoms_nth (m : MEM) (row : ptr) (i : Z) (d : Real * Real) :
  0 <= i < row_len (m_rows m row) ->
  nth (Z.to_nat i) (rowDoms m row) d
  = (var_lb (m_vars m (col_var (m_cols m (aget NULL (row_cols (m_rows m row)) i)))),
     var_ub (m_vars m (col_var (m_cols m (aget NULL (row_cols (m_rows m row)) i))))).
Proof.
  intros Hi. unfold rowDoms. rewrite map_map.
  match goal with
  | |- nth _ (map ?h _) _ = _ =>
      rewrite (nth_indep _ d (h 0%nat)) by (rewrite length_map, length_seq; lia);
      rewrite (map_nth h)
  end.
  rewrite seq_nth by lia. now rewrite Nat.add_0_l, Z2Nat.id by lia.
Qed.

(** the recount over one more entry *)
Lemma countInf_firstn_S (f : Real -> Real -> Real -> bool) :
  forall (n : nat) (vals : list Real) (doms : DOMS) (d : Real * Real),
    (n < length vals)%nat -> (n < length doms)%nat ->
    countInf f (firstn (Datatypes.S n) vals) (firstn (Datatypes.S n) doms)
    = countInf f (firstn n vals) (firstn n doms)
      + b2z (f (nth n vals 0%float) (fst (nth n doms d)) (snd (nth n doms d))).
Proof.
  induction n as [|n IH]; intros [|v vals] [|x doms] d Hv Hd; simpl in *; try lia.
  rewrite (IH vals doms d) by lia. simpl. lia.
Qed.

Lemma countInf_firstn_both (f : Real -> Real -> Real -> bool) :
  forall (n : nat) (vals : list Real) (doms : DOMS),
    countInf f (firstn n vals) (firstn n doms) = countInf f (firstn n vals) doms.
Proof.
  induction n as [|n IH]; intros [|v vals] [|x doms]; simpl; auto.
  now rewrite IH.
Qed.

(** rowCalcActivityBounds links the row and then recounts: for settings
    that do not take zero for infinite and a row whose value array holds
    its len entries, the call succeeds, leaves the entries of all rows and
    the domains of all variables as they were, marks the activity bounds
    valid, and the counters it leaves are the numbers of entries whose
    bound contributes an unbounded value, counted over the current
    domains of the row's columns. *)
Lemma rowCalcActivityBounds_recount (set : SET) (row : ptr) (m : MEM) :
  SCIPsetIsInfinity set 0%float = false ->
  SCIPsetIsInfinity set (- 0)%float = false ->
  0 <= row_len (m_rows m row) ->
  (Z.to_nat (row_len (m_rows m row)) <= length (row_vals (m_rows m row)))%nat ->
  let r := rowCalcActivityBounds SCIP_INVALID set row m in
  let row' := m_rows (snd r) row in
  fst r = Ok tt /\
  sameData m (snd r) /\
  row_validactivitybds row' = true /\
  rowDomsOk row' (rowDoms (snd r) row) /\
  countersExact set row' (rowDoms (snd r) row).
Proof.
  intros Hz Hnz Hlen Hvals r row'.
  set (vals := row_vals (m_rows m row)) in *.
  set (len := row_len (m_rows m row)) in *.
  set (D := rowDoms m row).
  assert (Hmin0 : forall v, minBoundInf set v 0%float 0%float = false)
    by (intros v; unfold minBoundInf; destruct (Rpos v); assumption).
  assert (Hmax0 : forall v, maxBoundInf set v 0%float 0%float = false)
    by (intros v; unfold maxBoundInf; destruct (Rpos v); assumption).
  destruct (rowLink_sameData set row m) as (E & D0).
  assert (Er : r = (Ok tt, snd r) /\
          sameData m (snd r) /\
          row_validactivitybds (m_rows (snd r) row) = true /\
          row_minactivityinf (m_rows (snd r) row)
          = countInf (minBoundInf set) (firstn (Z.to_nat len) vals) (firstn (Z.to_nat len) D) /\
          row_maxactivityinf (m_rows (snd r) row)
          = countInf (maxBoundInf set) (firstn (Z.to_nat len) vals) (firstn (Z.to_nat len) D)).
  { subst r. unfold rowCalcActivityBounds. rewrite (bind_ok _ _ m tt E).
    unfold exec. cbn [fst snd]. split; [reflexivity|].
    set (m0 := snd (rowLink SCIP_INVALID set row m)) in *. clearbody m0.
    match goal with
    | |- sameData m (for_range 0 _ ?body ?m1) /\ _ =>
        set (b := body); set (s1 := m1)
    end.
    assert (D1 : sameData m s1).
    { eapply sameData_trans; [exact D0|]. apply sameData_modRow; reflexivity. }
    assert (L1 : row_len (m_rows s1 row) = len) by apply D1.
    rewrite L1.
    apply (for_range_ind _
      (fun i s =>
         sameData m s /\
         row_validactivitybds (m_rows s row) = true /\
         row_minactivityinf (m_rows s row)
         = countInf (minBoundInf set) (firstn (Z.to_nat i) vals) (firstn (Z.to_nat i) D) /\
         row_maxactivityinf (m_rows s row)
         = countInf (maxBoundInf set) (firstn (Z.to_nat i) vals) (firstn (Z.to_nat i) D))
      b 0 len Hlen).
    - intros j t Hj (Dt & Vt & Mint & Maxt).
      destruct Dt as (A1 & A2 & A3 & A4 & A5).
      subst b. cbv beta.
      set (lb := var_lb (m_vars t
                   (col_var (m_cols t (aget NULL (row_cols (m_rows t row)) j))))).
      set (ub := var_ub (m_vars t
                   (col_var (m_cols t (aget NULL (row_cols (m_rows t row)) j))))).
      assert (Hd : nth (Z.to_nat j) D (0%float, 0%float) = (lb, ub)).
      { unfold D. rewrite rowDoms_nth by (fold len; lia).
        subst lb ub. now rewrite A1, A3, A2. }
      split.
      { apply (sameData_trans m t _); [unfold sameData; auto|].
        apply sameData_modRow; keeps_field. }
      rewrite m_rows_modRow, Nat.eqb_refl.
      set (rt := m_rows t row) in *.
      destruct (rowUpdateActivityBoundsLb_effect set j 0%float lb 0%float rt Vt)
        as (E1 & E2 & E3 & E4 & E5).
      set (rl := rowUpdateActivityBoundsLb set j 0 lb rt) in *.
      destruct (rowUpdateActivityBoundsUb_effect set j 0%float ub lb rl E5)
        as (F1 & F2 & F3 & F4 & F5).
      cbv beta. split; [exact F5|].
      replace (Z.to_nat (j + 1)) with (Datatypes.S (Z.to_nat j)) by lia.
      rewrite !(countInf_firstn_S _ _ _ _ (0%float, 0%float))
        by (try (unfold D; rewrite rowDoms_length; fold len); lia).
      rewrite Hd. cbn [fst snd].
      assert (Hv : nth (Z.to_nat j) vals 0%float = aget 0%float (row_vals rt) j).
      { unfold aget. replace (j <? 0) with false by (symmetry; apply Z.ltb_ge; lia).
        unfold rt. now rewrite A4. }
      rewrite Hv, F1, F2, E1, E2, E3, !Hmin0, !Hmax0, Mint, Maxt.
      cbn [b2z]. split; lia.
    - split; [exact D1|]. subst s1. rewrite m_rows_modRow, Nat.eqb_refl.
      cbn. auto. }
  destruct Er as (Er & Dr & Vr & Minr & Maxr).
  assert (Lr : row_len row' = len) by apply Dr.
  assert (Wr : row_vals row' = vals) by apply Dr.
  split; [now rewrite Er|]. split; [exact Dr|]. split; [exact Vr|].
  split.
  - unfold rowDomsOk. rewrite Lr, Wr, rowDoms_length. fold row'. rewrite Lr. auto.
  - unfold countersExact, minInfCount, maxInfCount, prefix.
    rewrite (rowDoms_sameData _ _ _ Dr). fold D. fold row'.
    rewrite Lr, Wr. fold row' in Minr, Maxr.
    rewrite Minr, Maxr, !countInf_firstn_both. auto.
Qed.

(** ** What the flush leaves *)

Ltac size_like :=
  repeat split; intros; reflexivity.

Lemma sizeLike_ncols : sizeLike lp_ncols.
Proof. size_like. Qed.
Lemma sizeLike_nrows : sizeLike lp_nrows.
Proof. size_like. Qed.
Lemma sizeLike_nlpicols : sizeLike lp_nlpicols.
Proof. size_like. Qed.
Lemma sizeLike_nlpirows : sizeLike lp_nlpirows.
Proof. size_like. Qed.
Lemma sizeLike_nchgcols : sizeLike lp_nchgcols.
Proof. size_like. Qed.
Lemma sizeLike_nchgrows : sizeLike lp_nchgrows.
Proof. size_like. Qed.
Lemma sizeLike_rows : sizeLike lp_rows.
Proof. size_like. Qed.
Lemma flagLike_nrows : flagLike lp_nrows.
Proof. size_like. Qed.
Lemma flagLike_nlpicols : flagLike lp_nlpicols.
Proof. size_like. Qed.
Lemma flagLike_nlpirows : flagLike lp_nlpirows.
Proof. size_like. Qed.

Section LpFlags.

Variable T : Type.
Variable F : LP -> T.
Hypothesis HF : flagLike F.

Ltac frame_lp :=
  destruct HF as (? & ? & ? & ? & ? & ? & ? & ?);
  intros; cbv beta;
  repeat match goal with
         | H : forall v lp, F _ = F lp |- _ => rewrite H
         end;
  reflexivity.

Lemma size_modLp (f : LP -> LP) (m : MEM) :
  (forall lp, F (f lp) = F lp) -> F (m_lp (modLp f m)) = F (m_lp m).
Proof. intros H. cbn [m_lp modLp putLp]. apply H. Qed.

Lemma size_coefChanged (row col : ptr) (m : MEM) :
  F (m_lp (coefChanged SCIP_INVALID row col m)) = F (m_lp m).
Proof.
  unfold coefChanged.
  destruct ((0 <=? row_lpipos (m_rows m row)) && (0 <=? col_lpipos (m_cols m col)));
    [|reflexivity].
  rewrite size_modLp by frame_lp.
  case_ifs; rewrite ?size_modLp by frame_lp; reflexivity.
Qed.

Lemma size_colAddCoeff (set : SET) (col row : ptr) (val : Real) (linkpos : Z)
    (rowpos : option (ptr * Z)) (m : MEM) :
  F (m_lp (snd (colAddCoeff SCIP_INVALID set col row val linkpos rowpos m))) = F (m_lp m).
Proof.
  unfold colAddCoeff. cbn [snd]. rewrite size_coefChanged.
  destruct rowpos as [[r i]|]; case_ifs; reflexivity.
Qed.

Lemma size_rowAddCoeff (set : SET) (row col : ptr) (val : Real) (linkpos : Z)
    (colpos : option (ptr * Z)) (m : MEM) :
  F (m_lp (snd (rowAddCoeff SCIP_INVALID set row col val linkpos colpos m))) = F (m_lp m).
Proof.
  unfold rowAddCoeff. destruct (0 <? row_nlocks (m_rows m row)); [reflexivity|].
  cbn [snd]. rewrite size_coefChanged.
  destruct colpos as [[c i]|]; case_ifs; reflexivity.
Qed.

Lemma size_bind (A B : Type) (c : M MEM A) (k : A -> M MEM B) (m : MEM) :
  F (m_lp (snd (c m))) = F (m_lp m) ->
  (forall a s, F (m_lp (snd (k a s))) = F (m_lp s)) ->
  F (m_lp (snd (bind c k m))) = F (m_lp m).
Proof.
  intros H1 H2. unfold bind. destruct (c m) as [[a|rc] m1]; cbn [snd] in *; auto.
  now rewrite H2.
Qed.

Lemma size_forM (lo hi : Z) (body : Z -> M MEM unit) (m : MEM) :
  (forall i s, F (m_lp (snd (body i s))) = F (m_lp s)) ->
  F (m_lp (snd (forM lo hi body m))) = F (m_lp m).
Proof.
  intros Hb. apply (forM_inv _ (fun s => F (m_lp s) = F (m_lp m))); [|reflexivity].
  intros i s Hs. now rewrite Hb.
Qed.

Lemma size_colLink (set : SET) (col : ptr) (m : MEM) :
  F (m_lp (snd (colLink SCIP_INVALID set col m))) = F (m_lp m).
Proof.
  unfold colLink. destruct (0 <? col_nunlinked (m_cols m col)); [|reflexivity].
  apply size_forM. intros i s.
  destruct (aget 0 (col_linkpos (m_cols s col)) i =? -1); [|reflexivity].
  apply size_bind; [apply size_rowAddCoeff|]. reflexivity.
Qed.

Lemma size_rowLink (set : SET) (row : ptr) (m : MEM) :
  F (m_lp (snd (rowLink SCIP_INVALID set row m))) = F (m_lp m).
Proof.
  unfold rowLink. destruct (0 <? row_nunlinked (m_rows m row)); [|reflexivity].
  apply size_forM. intros i s.
  destruct (aget 0 (row_linkpos (m_rows s row)) i =? -1); [|reflexivity].
  apply size_bind; [apply size_colAddCoeff|]. reflexivity.
Qed.

Lemma size_for_range (lo hi : Z) (body : Z -> MEM -> MEM) (m : MEM) :
  (forall i s, F (m_lp (body i s)) = F (m_lp s)) ->
  F (m_lp (for_range lo hi body m)) = F (m_lp m).
Proof.
  intros Hb. apply (for_range_inv _ (fun s => F (m_lp s) = F (m_lp m))); [|reflexivity].
  intros i s Hs. now rewrite Hb.
Qed.




End LpFlags.

Section LpFrame.

Variable T : Type.
Variable F : LP -> T.
Hypothesis HS : sizeLike F.

Let HF : flagLike F := proj1 HS.
Let modLpF := size_modLp T F.
Let bindF := size_bind T F.
Let forMF := size_forM T F.
Let colLinkF := size_colLink T F HF.
Let rowLinkF := size_rowLink T F HF.
Let for_rangeF := size_for_range T F.

Ltac frame_lp :=
  pose proof HS as ((? & ? & ? & ? & ? & ? & ? & ?) & ? & ? & ?);
  intros; cbv beta;
  repeat match goal with
         | H : forall v lp, F _ = F lp |- _ => rewrite H
         end;
  reflexivity.

Lemma size_lpi (c : LPICALL) (m : MEM) : F (m_lp (snd (lpi c m))) = F (m_lp m).
Proof.
  unfold lpi, lpiCall, check.
  destruct (RETCODE_eqb _ SCIP_OKAY); cbn [snd]; apply modLpF; frame_lp.
Qed.

Lemma size_DelCols_scan (n : nat) (m : MEM) :
  F (m_lp (lpFlushDelCols_scan n m)) = F (m_lp m).
Proof.
  revert m. induction n as [|n IH]; intros m; cbn [lpFlushDelCols_scan]; [reflexivity|].
  destruct (lpFlushDelCols_cond m); [|reflexivity].
  rewrite IH. apply modLpF. frame_lp.
Qed.

Lemma size_DelRows_scan (n : nat) (m : MEM) :
  F (m_lp (lpFlushDelRows_scan n m)) = F (m_lp m).
Proof.
  revert m. induction n as [|n IH]; intros m; cbn [lpFlushDelRows_scan]; [reflexivity|].
  destruct (lpFlushDelRows_cond m); [|reflexivity].
  rewrite IH. apply modLpF. frame_lp.
Qed.

Lemma size_lpFlushDelCols (m : MEM) :
  (forall v lp, F (set_lp_nlpicols v lp) = F lp) ->
  F (m_lp (snd (lpFlushDelCols SCIP_INVALID m))) = F (m_lp m).
Proof.
  intros Hn. unfold lpFlushDelCols.
  set (m0 := lpFlushDelCols_scan _ m).
  assert (H0 : F (m_lp m0) = F (m_lp m)) by apply size_DelCols_scan.
  destruct (lp_lpifirstchgcol (m_lp m0) <? lp_nlpicols (m_lp m0)); [|exact H0].
  rewrite <- H0. apply bindF; [apply size_lpi|].
  intros [] s. unfold exec. cbn [snd]. rewrite modLpF by (intros; apply Hn).
  apply for_rangeF. reflexivity.
Qed.

Lemma size_lpFlushDelRows (m : MEM) :
  (forall v lp, F (set_lp_nlpirows v lp) = F lp) ->
  F (m_lp (snd (lpFlushDelRows SCIP_INVALID m))) = F (m_lp m).
Proof.
  intros Hn. unfold lpFlushDelRows.
  set (m0 := lpFlushDelRows_scan _ m).
  assert (H0 : F (m_lp m0) = F (m_lp m)) by apply size_DelRows_scan.
  destruct (lp_lpifirstchgrow (m_lp m0) <? lp_nlpirows (m_lp m0)); [|exact H0].
  rewrite <- H0. apply bindF; [apply size_lpi|].
  intros [] s. unfold exec. cbn [snd]. rewrite modLpF by (intros; apply Hn).
  apply for_rangeF. reflexivity.
Qed.

Lemma size_lpFlushChgCols (set : SET) (m : MEM) :
  (forall v lp, F (set_lp_nchgcols v lp) = F lp) ->
  F (m_lp (snd (lpFlushChgCols set m))) = F (m_lp m).
Proof.
  intros Hn. unfold lpFlushChgCols.
  destruct (lp_nchgcols (m_lp m) =? 0); [reflexivity|].
  match goal with
  | |- context [for_range ?lo ?hi ?body ?s0] =>
      assert (H0 : F (m_lp (fst (for_range lo hi body s0))) = F (m_lp m));
      [|destruct (for_range lo hi body s0) as [m0 b]]
  end.
  - apply (for_range_inv _ (fun s : MEM * CHGBUF => F (m_lp (fst s)) = F (m_lp m)));
      [|reflexivity].
    intros i [s b] Hs. cbn [fst] in *. case_ifs; cbn [fst]; exact Hs.
  - cbn [fst] in H0. rewrite <- H0. apply bindF.
    + destruct (0 <? chg_n b); [apply size_lpi|reflexivity].
    + intros [] s. unfold exec. cbn [snd]. apply modLpF. intros; apply Hn.
Qed.

Lemma size_lpFlushChgRows (set : SET) (m : MEM) :
  (forall v lp, F (set_lp_nchgrows v lp) = F lp) ->
  F (m_lp (snd (lpFlushChgRows set m))) = F (m_lp m).
Proof.
  intros Hn. unfold lpFlushChgRows.
  destruct (lp_nchgrows (m_lp m) =? 0); [reflexivity|].
  match goal with
  | |- context [for_range ?lo ?hi ?body ?s0] =>
      assert (H0 : F (m_lp (fst (for_range lo hi body s0))) = F (m_lp m));
      [|destruct (for_range lo hi body s0) as [m0 b]]
  end.
  - apply (for_range_inv _ (fun s : MEM * CHGBUF => F (m_lp (fst s)) = F (m_lp m)));
      [|reflexivity].
    intros i [s b] Hs. cbn [fst] in *. case_ifs; cbn [fst]; exact Hs.
  - cbn [fst] in H0. rewrite <- H0. apply bindF.
    + destruct (0 <? chg_n b); [apply size_lpi|reflexivity].
    + intros [] s. unfold exec. cbn [snd]. apply modLpF. intros; apply Hn.
Qed.

Lemma size_lpFlushAddCols (set : SET) (m : MEM) :
  (forall v lp, F (set_lp_nlpicols v lp) = F lp) ->
  F (m_lp (snd (lpFlushAddCols SCIP_INVALID set m))) = F (m_lp m).
Proof.
  intros Hn. unfold lpFlushAddCols.
  destruct (lp_ncols (m_lp m) =? lp_nlpicols (m_lp m)); [reflexivity|].
  match goal with
  | |- context [forM ?lo ?hi ?body ?s0] =>
      assert (H0 : (fun s : MEM * COLBUF => F (m_lp (fst s)) = F (m_lp m))
                     (snd (forM lo hi body s0)));
      [|destruct (forM lo hi body s0) as [[[]|rc] [m0 b]]]
  end.
  - apply forM_inv; [|reflexivity].
    intros c [s b] Hq. cbn [fst snd] in *. unfold bind. cbn [fst snd].
    pose proof (snd_onMem COLBUF unit
                  (colLink SCIP_INVALID set (aget NULL (lp_cols (m_lp s)) c)) (s, b)) as E2.
    pose proof (colLinkF set (aget NULL (lp_cols (m_lp s)) c) s) as Hl.
    cbn [fst snd] in E2.
    destruct (onMem (colLink SCIP_INVALID set (aget NULL (lp_cols (m_lp s)) c)) (s, b))
      as [[[]|rc] [s1 b1]]; cbn [fst snd] in *; inversion E2; subst s1 b1; clear E2.
    + unfold exec. cbn [snd].
      match goal with
      | |- context [gatherCoefs ?len ?lp ?vals ?b0] =>
          destruct (gatherCoefs len lp vals b0) as [[ind val] nnonz]
      end.
      cbn [fst snd]. rewrite m_lp_modCol, modLpF by frame_lp. congruence.
    + congruence.
  - cbn [fst snd] in H0. rewrite <- H0. apply bindF; [apply size_lpi|].
    intros [] s. unfold exec. cbn [snd]. apply modLpF.
    intros lp. cbv beta. pose proof HF as (H4 & _). now rewrite H4, Hn.
  - exact H0.
Qed.

Lemma size_lpFlushAddRows (set : SET) (m : MEM) :
  (forall v lp, F (set_lp_nlpirows v lp) = F lp) ->
  F (m_lp (snd (lpFlushAddRows SCIP_INVALID set m))) = F (m_lp m).
Proof.
  intros Hn. unfold lpFlushAddRows.
  destruct (lp_nrows (m_lp m) =? lp_nlpirows (m_lp m)); [reflexivity|].
  match goal with
  | |- context [forM ?lo ?hi ?body ?s0] =>
      assert (H0 : (fun s : MEM * ROWBUF => F (m_lp (fst s)) = F (m_lp m))
                     (snd (forM lo hi body s0)));
      [|destruct (forM lo hi body s0) as [[[]|rc] [m0 b]]]
  end.
  - apply forM_inv; [|reflexivity].
    intros c [s b] Hq. cbn [fst snd] in *. unfold bind. cbn [fst snd].
    pose proof (snd_onMem ROWBUF unit
                  (rowLink SCIP_INVALID set (aget NULL (lp_rows (m_lp s)) c)) (s, b)) as E2.
    pose proof (rowLinkF set (aget NULL (lp_rows (m_lp s)) c) s) as Hl.
    cbn [fst snd] in E2.
    destruct (onMem (rowLink SCIP_INVALID set (aget NULL (lp_rows (m_lp s)) c)) (s, b))
      as [[[]|rc] [s1 b1]]; cbn [fst snd] in *; inversion E2; subst s1 b1; clear E2.
    + unfold exec. cbn [snd].
      match goal with
      | |- context [gatherCoefs ?len ?lp ?vals ?b0] =>
          destruct (gatherCoefs len lp vals b0) as [[ind val] nnonz]
      end.
      cbn [fst snd]. rewrite m_lp_modRow, modLpF by frame_lp. congruence.
    + congruence.
  - cbn [fst snd] in H0. rewrite <- H0. apply bindF; [apply size_lpi|].
    intros [] s. unfold exec. cbn [snd]. apply modLpF.
    intros lp. cbv beta. pose proof HF as (_ & H5 & _). now rewrite H5, Hn.
  - exact H0.
Qed.

End LpFrame.

(** a step of a routine either hands over to the rest or ends it *)
Lemma bind_case {S A B : Type} (c : M S A) (k : A -> M S B) (s : S)
    (P : res B * S -> Prop) :
  (forall a s', c s = (Ok a, s') -> P (k a s')) ->
  (forall rc s', c s = (Err rc, s') -> P (Err rc, s')) ->
  P (bind c k s).
Proof.
  intros H1 H2. unfold bind. destruct (c s) as [[a|rc] s'] eqn:E; auto.
Qed.

Ltac by_bind s' E :=
  match goal with
  | |- context [bind ?c ?k ?s] =>
      pattern (bind c k s); apply bind_case; cbv beta;
      [intros [] s' E|intros ? ? _; cbn [fst]; discriminate]
  end.

Lemma lpFlushChgCols_done (set : SET) (m : MEM) :
  fst (lpFlushChgCols set m) = Ok tt -> lp_nchgcols (m_lp (snd (lpFlushChgCols set m))) = 0.
Proof.
  unfold lpFlushChgCols.
  destruct (lp_nchgcols (m_lp m) =? 0) eqn:E0; [intros _; now apply Z.eqb_eq in E0|].
  match goal with
  | |- context [for_range ?lo ?hi ?body ?s0] =>
      destruct (for_range lo hi body s0) as [m0 b]
  end.
  by_bind m1 E. reflexivity.
Qed.

Lemma lpFlushChgRows_done (set : SET) (m : MEM) :
  fst (lpFlushChgRows set m) = Ok tt -> lp_nchgrows (m_lp (snd (lpFlushChgRows set m))) = 0.
Proof.
  unfold lpFlushChgRows.
  destruct (lp_nchgrows (m_lp m) =? 0) eqn:E0; [intros _; now apply Z.eqb_eq in E0|].
  match goal with
  | |- context [for_range ?lo ?hi ?body ?s0] =>
      destruct (for_range lo hi body s0) as [m0 b]
  end.
  by_bind m1 E. reflexivity.
Qed.

Lemma lpFlushAddCols_done (set : SET) (m : MEM) :
  fst (lpFlushAddCols SCIP_INVALID set m) = Ok tt ->
  lp_nlpicols (m_lp (snd (lpFlushAddCols SCIP_INVALID set m)))
  = lp_ncols (m_lp (snd (lpFlushAddCols SCIP_INVALID set m))).
Proof.
  unfold lpFlushAddCols.
  destruct (lp_ncols (m_lp m) =? lp_nlpicols (m_lp m)) eqn:E0;
    [intros _; apply Z.eqb_eq in E0; cbn [snd]; now rewrite E0|].
  match goal with
  | |- context [forM ?lo ?hi ?body ?s0] =>
      destruct (forM lo hi body s0) as [[[]|rc] [m0 b]]
  end; [|discriminate].
  by_bind m1 E. reflexivity.
Qed.

Lemma lpFlushAddRows_done (set : SET) (m : MEM) :
  fst (lpFlushAddRows SCIP_INVALID set m) = Ok tt ->
  lp_nlpirows (m_lp (snd (lpFlushAddRows SCIP_INVALID set m)))
  = lp_nrows (m_lp (snd (lpFlushAddRows SCIP_INVALID set m))).
Proof.
  unfold lpFlushAddRows.
  destruct (lp_nrows (m_lp m) =? lp_nlpirows (m_lp m)) eqn:E0;
    [intros _; apply Z.eqb_eq in E0; cbn [snd]; now rewrite E0|].
  match goal with
  | |- context [forM ?lo ?hi ?body ?s0] =>
      destruct (forM lo hi body s0) as [[[]|rc] [m0 b]]
  end; [|discriminate].
  by_bind m1 E. reflexivity.
Qed.

(** the six steps of a flush that goes through *)
Lemma lpFlush_unflushed (set : SET) (m : MEM) :
  let r := lpFlush SCIP_INVALID set m in
  lp_flushed (m_lp m) = false ->
  fst r = Ok tt ->
  lp_flushed (m_lp (snd r)) = true /\
  lp_ncols (m_lp (snd r)) = lp_ncols (m_lp m) /\
  lp_nrows (m_lp (snd r)) = lp_nrows (m_lp m) /\
  lp_nlpicols (m_lp (snd r)) = lp_ncols (m_lp m) /\
  lp_nlpirows (m_lp (snd r)) = lp_nrows (m_lp m) /\
  lp_nchgcols (m_lp (snd r)) = 0 /\
  lp_nchgrows (m_lp (snd r)) = 0.
Proof.
  intros r Hf. subst r. unfold lpFlush. rewrite Hf.
  (* cached column removals *)
  pose proof (size_lpFlushDelCols _ _ sizeLike_ncols m (fun _ _ => eq_refl)) as C1.
  pose proof (size_lpFlushDelCols _ _ sizeLike_nrows m (fun _ _ => eq_refl)) as R1.
  by_bind m1 E1. rewrite E1 in C1, R1. cbn [snd] in C1, R1. clear E1.
  (* cached row removals *)
  pose proof (size_lpFlushDelRows _ _ sizeLike_ncols m1 (fun _ _ => eq_refl)) as C2.
  pose proof (size_lpFlushDelRows _ _ sizeLike_nrows m1 (fun _ _ => eq_refl)) as R2.
  by_bind m2 E2. rewrite E2 in C2, R2. cbn [snd] in C2, R2. clear E2.
  (* cached bound changes *)
  pose proof (size_lpFlushChgCols _ _ sizeLike_ncols set m2 (fun _ _ => eq_refl)) as C3.
  pose proof (size_lpFlushChgCols _ _ sizeLike_nrows set m2 (fun _ _ => eq_refl)) as R3.
  pose proof (lpFlushChgCols_done set m2) as N3.
  by_bind m3 E3. rewrite E3 in C3, R3, N3. cbn [fst snd] in C3, R3, N3.
  specialize (N3 eq_refl). clear E3.
  (* cached side changes *)
  pose proof (size_lpFlushChgRows _ _ sizeLike_ncols set m3 (fun _ _ => eq_refl)) as C4.
  pose proof (size_lpFlushChgRows _ _ sizeLike_nrows set m3 (fun _ _ => eq_refl)) as R4.
  pose proof (size_lpFlushChgRows _ _ sizeLike_nchgcols set m3 (fun _ _ => eq_refl)) as N4.
  pose proof (lpFlushChgRows_done set m3) as M4.
  by_bind m4 E4. rewrite E4 in C4, R4, N4, M4. cbn [fst snd] in C4, R4, N4, M4.
  specialize (M4 eq_refl). clear E4.
  (* new columns *)
  pose proof (size_lpFlushAddCols _ _ sizeLike_ncols set m4 (fun _ _ => eq_refl)) as C5.
  pose proof (size_lpFlushAddCols _ _ sizeLike_nrows set m4 (fun _ _ => eq_refl)) as R5.
  pose proof (size_lpFlushAddCols _ _ sizeLike_nchgcols set m4 (fun _ _ => eq_refl)) as N5.
  pose proof (size_lpFlushAddCols _ _ sizeLike_nchgrows set m4 (fun _ _ => eq_refl)) as M5.
  pose proof (lpFlushAddCols_done set m4) as P5.
  by_bind m5 E5. rewrite E5 in C5, R5, N5, M5, P5. cbn [fst snd] in C5, R5, N5, M5, P5.
  specialize (P5 eq_refl). clear E5.
  (* new rows *)
  pose proof (size_lpFlushAddRows _ _ sizeLike_ncols set m5 (fun _ _ => eq_refl)) as C6.
  pose proof (size_lpFlushAddRows _ _ sizeLike_nrows set m5 (fun _ _ => eq_refl)) as R6.
  pose proof (size_lpFlushAddRows _ _ sizeLike_nchgcols set m5 (fun _ _ => eq_refl)) as N6.
  pose proof (size_lpFlushAddRows _ _ sizeLike_nchgrows set m5 (fun _ _ => eq_refl)) as M6.
  pose proof (size_lpFlushAddRows _ _ sizeLike_nlpicols set m5 (fun _ _ => eq_refl)) as P6.
  pose proof (lpFlushAddRows_done set m5) as Q6.
  by_bind m6 E6. rewrite E6 in C6, R6, N6, M6, P6, Q6.
  cbn [fst snd] in C6, R6, N6, M6, P6, Q6.
  specialize (Q6 eq_refl). clear E6.
  intros _. unfold exec. cbn [snd m_lp modLp putLp].
  cbn [lp_flushed lp_ncols lp_nrows lp_nlpicols lp_nlpirows lp_nchgcols lp_nchgrows
       set_lp_flushed].
  repeat split; congruence.
Qed.

(** X10: a flush that goes through leaves the LP flushed, with the
    numbers of columns and rows of the LP it had at the call. If the LP
    was unflushed, the solver then holds all of it: its numbers of
    columns and rows are those of the LP, and no cached bound or side
    change is left. If the LP was flushed, nothing is written. *)
Theorem lpFlush_post (set : SET) (m : MEM) :
  let r := lpFlush SCIP_INVALID set m in
  fst r = Ok tt ->
  lp_flushed (m_lp (snd r)) = true /\
  lp_ncols (m_lp (snd r)) = lp_ncols (m_lp m) /\
  lp_nrows (m_lp (snd r)) = lp_nrows (m_lp m) /\
  (lp_flushed (m_lp m) = false ->
   lp_nlpicols (m_lp (snd r)) = lp_ncols (m_lp m) /\
   lp_nlpirows (m_lp (snd r)) = lp_nrows (m_lp m) /\
   lp_nchgcols (m_lp (snd r)) = 0 /\
   lp_nchgrows (m_lp (snd r)) = 0) /\
  (lp_flushed (m_lp m) = true -> snd r = m).
Proof.
  intros r Hok. destruct (lp_flushed (m_lp m)) eqn:Hf.
  - assert (E : r = (Ok tt, m)) by (subst r; unfold lpFlush; now rewrite Hf).
    rewrite E. cbn [snd]. repeat split; auto; discriminate.
  - destruct (lpFlush_unflushed set m Hf Hok) as (H1 & H2 & H3 & H4 & H5 & H6 & H7).
    fold r in H1, H2, H3, H4, H5, H6, H7.
    repeat split; auto; discriminate.
Qed.

(** ** A primal simplex call that goes through *)

Lemma lpi_ok (c : LPICALL) (m m' : MEM) :
  lpi c m = (Ok tt, m') ->
  m' = modLp (set_lp_lpi (snd (lpiCall c (lp_lpi (m_lp m))))) m.
Proof.
  unfold lpi. destruct (lpiCall c (lp_lpi (m_lp m))) as [rc l]. unfold check.
  destruct (RETCODE_eqb rc SCIP_OKAY); intros E; inversion E. reflexivity.
Qed.

Lemma primalSolstat_ok (set : SET) (m m' : MEM) :
  primalSolstat set m = (Ok tt, m') ->
  lp_flushed (m_lp m') = lp_flushed (m_lp m) /\
  lp_ncols (m_lp m') = lp_ncols (m_lp m) /\
  lp_nrows (m_lp m') = lp_nrows (m_lp m) /\
  lp_lpi (m_lp m') = lp_lpi (m_lp m) /\
  (lp_lpsolstat (m_lp m') = SCIP_LPSOLSTAT_OPTIMAL /\
   SCIPlpiIsOptimal (lp_lpi (m_lp m)) = true /\
   SCIPlpiGetObjval (lp_lpi (m_lp m)) = (SCIP_OKAY, lp_objval (m_lp m')) \/
   lp_lpsolstat (m_lp m') = SCIP_LPSOLSTAT_INFEASIBLE /\
   lp_objval (m_lp m') = set_infinity set \/
   (lp_lpsolstat (m_lp m') = SCIP_LPSOLSTAT_UNBOUNDED \/
    lp_lpsolstat (m_lp m') = SCIP_LPSOLSTAT_ITERLIMIT \/
    lp_lpsolstat (m_lp m') = SCIP_LPSOLSTAT_TIMELIMIT) /\
   lp_objval (m_lp m') = (- set_infinity set)%float).
Proof.
  unfold primalSolstat. set (l := lp_lpi (m_lp m)).
  destruct (SCIPlpiIsOptimal l) eqn:Hopt.
  { destruct (SCIPlpiGetObjval l) as [rc objval] eqn:Eobj. unfold check.
    destruct rc; cbn [RETCODE_eqb]; intros E; inversion E.
    cbn. repeat split; auto. }
  destruct (SCIPlpiIsPrimalInfeasible l).
  { intros E; inversion E. cbn. repeat split; auto. }
  destruct (SCIPlpiIsPrimalUnbounded l).
  { intros E; inversion E. cbn. repeat split; auto 6. }
  destruct (SCIPlpiIsIterlimExc l).
  { intros E; inversion E. cbn. repeat split; auto 6. }
  destruct (SCIPlpiIsTimelimExc l).
  { intros E; inversion E. cbn. repeat split; auto 6. }
  destruct (SCIPlpiIsObjlimExc l); discriminate.
Qed.

Lemma SCIPlpGetIterations_state (m m' : MEM) (it : Z) :
  SCIPlpGetIterations m = (Ok it, m') -> m' = m.
Proof.
  unfold SCIPlpGetIterations.
  destruct (SCIPlpiGetIntpar (lp_lpi (m_lp m)) SCIP_LPPAR_LPIT1) as [rc1 i1].
  destruct (SCIPlpiGetIntpar (lp_lpi (m_lp m)) SCIP_LPPAR_LPIT2) as [rc2 i2].
  unfold bind, check, ret.
  destruct (RETCODE_eqb rc1 SCIP_OKAY); [|discriminate].
  destruct (RETCODE_eqb rc2 SCIP_OKAY); [|discriminate].
  intros E; now inversion E.
Qed.

Ltac by_bind_val a s' E :=
  match goal with
  | |- context [bind ?c ?k ?s] =>
      pattern (bind c k s); apply bind_case; cbv beta;
      [intros a s' E|intros ? ? _; cbn [fst]; discriminate]
  end.

(** X11: when SCIPlpSolvePrimal returns SCIP_OKAY, the LP is flushed
    and marked solved with its numbers of columns and rows unchanged,
    the primal simplex call is the last call the solver received, after
    the calls of the flush in their order, and the stored solution
    status is one of OPTIMAL (with the objective value the solver
    reports), INFEASIBLE (objective value plus infinity), UNBOUNDED,
    ITERLIMIT or TIMELIMIT (objective value minus infinity): never
    NOTSOLVED or ERROR. *)
Theorem SCIPlpSolvePrimal_ok (set : SET) (m : MEM) :
  let r := SCIPlpSolvePrimal SCIP_INVALID set m in
  let lp' := m_lp (snd r) in
  fst r = Ok tt ->
  lp_flushed lp' = true /\
  lp_solved lp' = true /\
  lp_ncols lp' = lp_ncols (m_lp m) /\
  lp_nrows lp' = lp_nrows (m_lp m) /\
  (exists calls,
     lpi_calls (lp_lpi lp') = lpi_calls (lp_lpi (m_lp m)) ++ calls ++ [LpiSolvePrimal] /\
     flushOrdered 1 calls) /\
  (lp_lpsolstat lp' = SCIP_LPSOLSTAT_OPTIMAL /\
   SCIPlpiIsOptimal (lp_lpi lp') = true /\
   SCIPlpiGetObjval (lp_lpi lp') = (SCIP_OKAY, lp_objval lp') \/
   lp_lpsolstat lp' = SCIP_LPSOLSTAT_INFEASIBLE /\ lp_objval lp' = set_infinity set \/
   (lp_lpsolstat lp' = SCIP_LPSOLSTAT_UNBOUNDED \/
    lp_lpsolstat lp' = SCIP_LPSOLSTAT_ITERLIMIT \/
    lp_lpsolstat lp' = SCIP_LPSOLSTAT_TIMELIMIT) /\
   lp_objval lp' = (- set_infinity set)%float).
Proof.
  intros r lp'. subst lp' r. unfold SCIPlpSolvePrimal.
  (* flush changes to the LP solver *)
  pose proof (lpFlush_sent set m) as (calls & (Hcalls & _) & Hord).
  assert (Hfl : fst (lpFlush SCIP_INVALID set m) = Ok tt ->
                lp_flushed (m_lp (snd (lpFlush SCIP_INVALID set m))) = true /\
                lp_ncols (m_lp (snd (lpFlush SCIP_INVALID set m))) = lp_ncols (m_lp m) /\
                lp_nrows (m_lp (snd (lpFlush SCIP_INVALID set m))) = lp_nrows (m_lp m)).
  { intros Hok. destruct (lp_flushed (m_lp m)) eqn:Hf.
    - unfold lpFlush. rewrite Hf. cbn [snd]. auto.
    - destruct (lpFlush_unflushed set m Hf Hok) as (H1 & H2 & H3 & _). auto. }
  by_bind m1 E1. rewrite E1 in Hcalls, Hfl. cbn [fst snd] in Hcalls, Hfl.
  destruct (Hfl eq_refl) as (F1 & C1 & R1). clear Hfl E1.
  (* call primal simplex *)
  by_bind m2 E2. apply lpi_ok in E2.
  (* check for primal and dual feasibility *)
  by_bind m3 E3.
  assert (H3 : exists pf df,
            m3 = modLp (fun lp => lp |> set_lp_primalfeasible pf
                                     |> set_lp_dualfeasible df) m2).
  { destruct (SCIPlpiGetBasisFeasibility (lp_lpi (m_lp m2))) as [rc [pf df]].
    unfold bind, check, exec in E3.
    destruct (RETCODE_eqb rc SCIP_OKAY); inversion E3. eauto. }
  destruct H3 as (pf & df & H3). clear E3.
  (* evaluate solution status *)
  by_bind m4 E4. apply primalSolstat_ok in E4.
  destruct E4 as (F4 & C4 & R4 & L4 & S4).
  by_bind m5 E5. by_bind m6 E6. by_bind_val it m7 E7.
  apply SCIPlpGetIterations_state in E7.
  unfold exec in E5, E6. inversion E5 as [H5]. inversion E6 as [H6]. clear E5 E6.
  intros _. unfold exec. cbn [snd m_lp putStat].
  assert (Hlp : m_lp m7 = set_lp_solved true (m_lp m4)) by (now subst m7 m6 m5).
  assert (Hlp3 : lp_lpi (m_lp m3) = snd (lpiCall LpiSolvePrimal (lp_lpi (m_lp m1))))
    by (now subst m3 m2).
  rewrite Hlp. cbn [lp_flushed lp_solved lp_ncols lp_nrows lp_lpi lp_lpsolstat lp_objval
                    set_lp_solved].
  rewrite F4, C4, R4, L4.
  split; [now subst m3 m2|]. split; [reflexivity|].
  split; [now subst m3 m2|]. split; [now subst m3 m2|].
  split; [|exact S4].
  exists calls. split; [|exact Hord].
  rewrite Hlp3. unfold lpiCall. cbn [snd lpi_calls]. now rewrite Hcalls, app_assoc.
Qed.

(** ** Linking a column into a locked row *)

(** a loop whose body does nothing up to a round that fails *)
Lemma forM_nat_stops (S : Type) (body : Z -> M S unit) (s : S) (rc : RETCODE) (i0 : Z) :
  forall (n : nat) (i : Z),
    i <= i0 < i + Z.of_nat n ->
    (forall j, i <= j < i0 -> body j s = (Ok tt, s)) ->
    body i0 s = (Err rc, s) ->
    forM_nat n i body s = (Err rc, s).
Proof.
  induction n as [|n IH]; intros i Hi Hskip Hfail; [lia|].
  cbn [forM_nat]. unfold bind.
  destruct (Z.eq_dec i i0) as [->|Hne].
  - now rewrite Hfail.
  - rewrite Hskip by lia. apply IH; [lia| |exact Hfail].
    intros j Hj. apply Hskip. lia.
Qed.

(** X12: colLink fails on a column whose first entry that is not yet
    linked belongs to a locked row: it returns SCIP_INVALIDDATA and
    leaves the memory untouched (rowLink has no such case: linking a
    row always succeeds). *)
Theorem colLink_locked_row (set : SET) (col : ptr) (m : MEM) (i0 : Z) :
  let c := m_cols m col in
  0 < col_nunlinked c ->
  0 <= i0 < col_len c ->
  (forall i, 0 <= i < i0 -> aget 0 (col_linkpos c) i <> -1) ->
  aget 0 (col_linkpos c) i0 = -1 ->
  0 < row_nlocks (m_rows m (aget NULL (col_rows c) i0)) ->
  colLink SCIP_INVALID set col m = (Err SCIP_INVALIDDATA, m) /\
  forall row m0, fst (rowLink SCIP_INVALID set row m0) = Ok tt.
Proof.
  intros c Hun Hi0 Hlinked Hfree Hlock.
  split; [|intros row m0; apply rowLink_sameData].
  unfold colLink. fold c. apply Z.ltb_lt in Hun. rewrite Hun.
  unfold forM. apply (forM_nat_stops _ _ _ _ i0); [lia| |].
  - intros j Hj. fold c. specialize (Hlinked j Hj).
    apply Z.eqb_neq in Hlinked. now rewrite Hlinked.
  - fold c. rewrite Hfree. cbn [Z.eqb Pos.eqb].
    unfold bind, rowAddCoeff. apply Z.ltb_lt in Hlock. now rewrite Hlock.
Qed.

(** ** Columns and rows added since the mark *)

Lemma SCIPlpAddCol_sizes (set : SET) (col : ptr) (m : MEM) :
  let lp' := m_lp (snd (SCIPlpAddCol SCIP_INVALID set col m)) in
  lp_ncols lp' = lp_ncols (m_lp m) + 1 /\ lp_nrows lp' = lp_nrows (m_lp m) /\
  lp_firstnewcol lp' = lp_firstnewcol (m_lp m) /\
  lp_firstnewrow lp' = lp_firstnewrow (m_lp m).
Proof. cbv zeta. unfold SCIPlpAddCol, exec. cbn. auto. Qed.

Lemma SCIPlpAddRow_sizes (set : SET) (row : ptr) (m : MEM) :
  let lp' := m_lp (snd (SCIPlpAddRow SCIP_INVALID set row m)) in
  lp_ncols lp' = lp_ncols (m_lp m) /\ lp_nrows lp' = lp_nrows (m_lp m) + 1 /\
  lp_firstnewcol lp' = lp_firstnewcol (m_lp m) /\
  lp_firstnewrow lp' = lp_firstnewrow (m_lp m).
Proof. cbv zeta. unfold SCIPlpAddRow, exec. cbn. auto. Qed.

Lemma applyAdds_sizes (set : SET) (adds : list LPADD) :
  forall m,
    let m' := fold_left (applyAdd SCIP_INVALID set) adds m in
    lp_ncols (m_lp m') - lp_firstnewcol (m_lp m')
    = lp_ncols (m_lp m) - lp_firstnewcol (m_lp m)
      + Z.of_nat (length (filter isAddCol adds)) /\
    lp_nrows (m_lp m') - lp_firstnewrow (m_lp m')
    = lp_nrows (m_lp m) - lp_firstnewrow (m_lp m)
      + Z.of_nat (length (filter (fun a => negb (isAddCol a)) adds)).
Proof.
  induction adds as [|a adds IH]; intros m; cbn [fold_left].
  - cbn. lia.
  - destruct (IH (applyAdd SCIP_INVALID set m a)) as (IH1 & IH2).
    cbv zeta. rewrite IH1, IH2. clear IH IH1 IH2.
    destruct a as [col|row]; cbn [applyAdd filter isAddCol negb length].
    + destruct (SCIPlpAddCol_sizes set col m) as (E1 & E2 & E3 & E4).
      rewrite E1, E2, E3, E4. lia.
    + destruct (SCIPlpAddRow_sizes set row m) as (E1 & E2 & E3 & E4).
      rewrite E1, E2, E3, E4. lia.
Qed.

(** X13: after SCIPlpMarkSize, whatever columns and rows are added to
    the LP through SCIPlpAddCol and SCIPlpAddRow, in any order,
    SCIPlpGetNumNewcols is the number of columns and
    SCIPlpGetNumNewrows the number of rows added since the mark. *)
Theorem SCIPlpMarkSize_counts (set : SET) (adds : list LPADD) (m : MEM) :
  let m' := fold_left (applyAdd SCIP_INVALID set) adds (SCIPlpMarkSize m) in
  SCIPlpGetNumNewcols m' = Z.of_nat (length (filter isAddCol adds)) /\
  SCIPlpGetNumNewrows m' = Z.of_nat (length (filter (fun a => negb (isAddCol a)) adds)).
Proof.
  intros m'. unfold SCIPlpGetNumNewcols, SCIPlpGetNumNewrows.
  destruct (applyAdds_sizes set adds (SCIPlpMarkSize m)) as (E1 & E2).
  fold m' in E1, E2. rewrite E1, E2. unfold SCIPlpMarkSize. cbn. lia.
Qed.

(** ** Cached solution values *)

Lemma modCol_stat (p : ptr) (f : COL -> COL) (m : MEM) : m_stat (modCol p f m) = m_stat m.
Proof. reflexivity. Qed.

Lemma modRow_stat (p : ptr) (f : ROW -> ROW) (m : MEM) : m_stat (modRow p f m) = m_stat m.
Proof. reflexivity. Qed.

Lemma colCalcRedcost_frame (col : ptr) (m : MEM) :
  m_stat (colCalcRedcost col m) = m_stat m /\
  col_validredcostlp (m_cols (colCalcRedcost col m) col)
  = col_validredcostlp (m_cols m col).
Proof.
  unfold colCalcRedcost.
  apply (for_range_inv _ (fun s => m_stat s = m_stat m /\
           col_validredcostlp (m_cols s col) = col_validredcostlp (m_cols m col))).
  - intros i s (H1 & H2). split; [exact H1|].
    rewrite m_cols_modCol, Nat.eqb_refl. exact H2.
  - split; [reflexivity|]. rewrite m_cols_modCol, Nat.eqb_refl. reflexivity.
Qed.

Lemma rowCalcActivity_frame (row : ptr) (m : MEM) :
  m_stat (rowCalcActivity row m) = m_stat m /\
  row_validactivitylp (m_rows (rowCalcActivity row m) row)
  = row_validactivitylp (m_rows m row).
Proof.
  unfold rowCalcActivity.
  apply (for_range_inv _ (fun s => m_stat s = m_stat m /\
           row_validactivitylp (m_rows s row) = row_validactivitylp (m_rows m row))).
  - intros i s (H1 & H2). split; [exact H1|].
    rewrite m_rows_modRow, Nat.eqb_refl. exact H2.
  - split; [reflexivity|]. rewrite m_rows_modRow, Nat.eqb_refl. reflexivity.
Qed.

Lemma SCIPcolGetRedcost_first (col : ptr) (m : MEM) :
  let c1 := SCIPcolGetRedcost col m in
  m_stat (snd c1) = m_stat m /\
  col_validredcostlp (m_cols (snd c1) col) = stat_nlp (m_stat m) /\
  fst c1 = col_redcost (m_cols (snd c1) col).
Proof.
  cbv zeta. unfold SCIPcolGetRedcost. cbn [fst snd].
  rewrite modCol_stat, !m_cols_modCol, !Nat.eqb_refl.
  cbn [col_validredcostlp set_col_validredcostlp].
  destruct (_ <? _); [|auto].
  rewrite (proj1 (colCalcRedcost_frame col m)). auto.
Qed.

Lemma SCIPcolGetRedcost_again (col : ptr) (m : MEM) :
  col_validredcostlp (m_cols m col) = stat_nlp (m_stat m) ->
  let c2 := SCIPcolGetRedcost col m in
  fst c2 = col_redcost (m_cols m col) /\
  (forall q, m_cols (snd c2) q = m_cols m q) /\
  m_rows (snd c2) = m_rows m /\ m_stat (snd c2) = m_stat m.
Proof.
  intros Hv. cbv zeta. unfold SCIPcolGetRedcost. rewrite Hv, Z.ltb_irrefl.
  cbn [fst snd]. rewrite <- Hv.
  assert (Hq : forall q, m_cols (modCol col
                 (set_col_validredcostlp (col_validredcostlp (m_cols m col))) m) q
               = m_cols m q).
  { intros q. rewrite m_cols_modCol. destruct (Nat.eqb_spec q col) as [->|]; auto.
    now destruct (m_cols m col). }
  rewrite Hq. repeat split; auto.
Qed.

Lemma SCIProwGetActivity_first (row : ptr) (m : MEM) :
  let r1 := SCIProwGetActivity row m in
  m_stat (snd r1) = m_stat m /\
  row_validactivitylp (m_rows (snd r1) row) = stat_nlp (m_stat m) /\
  fst r1 = row_activity (m_rows (snd r1) row).
Proof.
  cbv zeta. unfold SCIProwGetActivity. cbn [fst snd].
  rewrite modRow_stat, !m_rows_modRow, !Nat.eqb_refl.
  cbn [row_validactivitylp set_row_validactivitylp].
  destruct (negb _); [|auto].
  rewrite (proj1 (rowCalcActivity_frame row m)). auto.
Qed.

Lemma SCIProwGetActivity_again (row : ptr) (m : MEM) :
  row_validactivitylp (m_rows m row) = stat_nlp (m_stat m) ->
  let r2 := SCIProwGetActivity row m in
  fst r2 = row_activity (m_rows m row) /\
  (forall q, m_rows (snd r2) q = m_rows m q) /\
  m_cols (snd r2) = m_cols m /\ m_stat (snd r2) = m_stat m.
Proof.
  intros Hv. cbv zeta. unfold SCIProwGetActivity. rewrite Hv, Z.eqb_refl.
  cbn [negb fst snd]. rewrite <- Hv.
  assert (Hq : forall q, m_rows (modRow row
                 (set_row_validactivitylp (row_validactivitylp (m_rows m row))) m) q
               = m_rows m q).
  { intros q. rewrite m_rows_modRow. destruct (Nat.eqb_spec q row) as [->|]; auto.
    now destruct (m_rows m row). }
  rewrite Hq. repeat split; auto.
Qed.

(** X14: the reduced costs of a column and the activity of a row are
    cached for the LP they were computed in: a call of
    SCIPcolGetRedcost (SCIProwGetActivity) right after another returns
    the same value without a recalculation and leaves every column,
    every row and the statistics as the first call left them. *)
Theorem solution_values_cached (col row : ptr) (m : MEM) :
  let c1 := SCIPcolGetRedcost col m in
  let c2 := SCIPcolGetRedcost col (snd c1) in
  let r1 := SCIProwGetActivity row m in
  let r2 := SCIProwGetActivity row (snd r1) in
  (fst c2 = fst c1 /\
   col_validredcostlp (m_cols (snd c1) col) = stat_nlp (m_stat m) /\
   (forall q, m_cols (snd c2) q = m_cols (snd c1) q) /\
   m_rows (snd c2) = m_rows (snd c1) /\ m_stat (snd c2) = m_stat (snd c1)) /\
  (fst r2 = fst r1 /\
   row_validactivitylp (m_rows (snd r1) row) = stat_nlp (m_stat m) /\
   (forall q, m_rows (snd r2) q = m_rows (snd r1) q) /\
   m_cols (snd r2) = m_cols (snd r1) /\ m_stat (snd r2) = m_stat (snd r1)).
Proof.
  intros c1 c2 r1 r2. split.
  - destruct (SCIPcolGetRedcost_first col m) as (Hs & Hv & Hc). fold c1 in Hs, Hv, Hc.
    destruct (SCIPcolGetRedcost_again col (snd c1)) as (A1 & A2 & A3 & A4);
      [congruence|].
    fold c2 in A1, A2, A3, A4. repeat split; auto; congruence.
  - destruct (SCIProwGetActivity_first row m) as (Hs & Hv & Hc). fold r1 in Hs, Hv, Hc.
    destruct (SCIProwGetActivity_again row (snd r1)) as (A1 & A2 & A3 & A4);
      [congruence|].
    fold r2 in A1, A2, A3, A4. repeat split; auto; congruence.
Qed.

(** ** The list of columns with changed bounds *)

(** what SCIPcolBoundChanged writes to the LP and to the columns is
    written by its first block *)
Lemma SCIPcolBoundChanged_first (set : SET) (col : ptr) (boundtype : BOUNDTYPE)
    (oldbound newbound : Real) (m : MEM) :
  let r := SCIPcolBoundChanged SCIP_INVALID set col boundtype oldbound newbound m in
  let m0 :=
    if 0 <=? col_lpipos (m_cols m col) then
      let m :=
        if negb (col_lbchanged (m_cols m col)) && negb (col_ubchanged (m_cols m col)) then
          modLp (fun lp =>
            lp |> set_lp_chgcols (aset NULL (lp_chgcols lp) (lp_nchgcols lp) col)
               |> set_lp_nchgcols (lp_nchgcols lp + 1)) m
        else m in
      let m :=
        match boundtype with
        | SCIP_BOUNDTYPE_LOWER => modCol col (set_col_lbchanged true) m
        | SCIP_BOUNDTYPE_UPPER => modCol col (set_col_ubchanged true) m
        end in
      modLp (fun lp => lp |> set_lp_flushed false
                          |> set_lp_solved false
                          |> set_lp_primalfeasible false
                          |> set_lp_objval SCIP_INVALID
                          |> set_lp_lpsolstat SCIP_LPSOLSTAT_NOTSOLVED) m
    else m in
  fst r = Ok tt /\ m_lp (snd r) = m_lp m0 /\ m_cols (snd r) = m_cols m0.
Proof.
  intros r m0. subst r. unfold SCIPcolBoundChanged. fold m0. clearbody m0.
  cbn [fst snd]. split; [reflexivity|].
  set (P := fun s : MEM => m_lp s = m_lp m0 /\ m_cols s = m_cols m0).
  match goal with |- m_lp ?X = _ /\ _ => change (P X) end.
  assert (HP : P m0) by (split; reflexivity).
  assert (Hloop : forall len (c : Z -> bool) (p : Z -> ptr) (g : Z -> ROW -> ROW) s,
             P s -> P (for_range 0 len
                         (fun r m => if c r then modRow (p r) (g r) m else m) s)).
  { intros len c p g s Hs. apply (for_range_inv _ P); [|exact Hs].
    intros i s' Hs'. destruct (c i); exact Hs'. }
  clearbody P.
  destruct boundtype; cbn [BOUNDTYPE_eqb andb];
    rewrite ?andb_true_r, ?andb_false_r;
    repeat first
      [ exact HP
      | match goal with
        | |- P (for_range 0 ?len (fun r m => if @?c r then modRow (@?p r) (@?g r) m else m) ?s) =>
            apply (Hloop len c p g s)
        | |- P (if ?b then _ else _) => destruct b
        end ].
Qed.

Lemma SCIPcolBoundChanged_resident (set : SET) (col : ptr) (boundtype : BOUNDTYPE)
    (oldbound newbound : Real) (m : MEM) :
  let r := SCIPcolBoundChanged SCIP_INVALID set col boundtype oldbound newbound m in
  0 <= col_lpipos (m_cols m col) ->
  fst r = Ok tt /\
  lp_flushed (m_lp (snd r)) = false /\
  col_lpipos (m_cols (snd r) col) = col_lpipos (m_cols m col) /\
  col_lbchanged (m_cols (snd r) col) || col_ubchanged (m_cols (snd r) col) = true /\
  (col_lbchanged (m_cols m col) || col_ubchanged (m_cols m col) = false ->
   lp_nchgcols (m_lp (snd r)) = lp_nchgcols (m_lp m) + 1 /\
   lp_chgcols (m_lp (snd r)) = aset NULL (lp_chgcols (m_lp m)) (lp_nchgcols (m_lp m)) col) /\
  (col_lbchanged (m_cols m col) || col_ubchanged (m_cols m col) = true ->
   lp_nchgcols (m_lp (snd r)) = lp_nchgcols (m_lp m) /\
   lp_chgcols (m_lp (snd r)) = lp_chgcols (m_lp m)).
Proof.
  intros r Hpos.
  destruct (SCIPcolBoundChanged_first set col boundtype oldbound newbound m)
    as (E & L & C).
  fold r in E, L, C. rewrite L, C. clear L C. split; [exact E|].
  apply Z.leb_le in Hpos. rewrite Hpos.
  destruct (col_lbchanged (m_cols m col)) eqn:Hl;
    destruct (col_ubchanged (m_cols m col)) eqn:Hu;
    destruct boundtype; cbn [negb andb orb];
    cbn [m_lp m_cols modLp putLp modCol putCol];
    rewrite ?upd_same;
    cbn; rewrite ?Hl, ?Hu, ?orb_true_r;
    repeat split; auto; discriminate.
Qed.

(** X16: a bound change of a column that is in the solver and has no
    bound change pending appends the column to the list of changed
    columns and unflushes the LP; a second bound change of the same
    column, of its lower or its upper bound, does not append it again:
    the column stands once in the list until the list is flushed. *)
Theorem SCIPcolBoundChanged_chgcols (set : SET) (col : ptr) (bt1 bt2 : BOUNDTYPE)
    (old1 new1 old2 new2 : Real) (m : MEM) :
  let r1 := SCIPcolBoundChanged SCIP_INVALID set col bt1 old1 new1 m in
  let r2 := SCIPcolBoundChanged SCIP_INVALID set col bt2 old2 new2 (snd r1) in
  0 <= col_lpipos (m_cols m col) ->
  col_lbchanged (m_cols m col) = false ->
  col_ubchanged (m_cols m col) = false ->
  0 <= lp_nchgcols (m_lp m) ->
  fst r1 = Ok tt /\ fst r2 = Ok tt /\
  lp_nchgcols (m_lp (snd r1)) = lp_nchgcols (m_lp m) + 1 /\
  aget NULL (lp_chgcols (m_lp (snd r1))) (lp_nchgcols (m_lp m)) = col /\
  lp_nchgcols (m_lp (snd r2)) = lp_nchgcols (m_lp (snd r1)) /\
  lp_chgcols (m_lp (snd r2)) = lp_chgcols (m_lp (snd r1)) /\
  lp_flushed (m_lp (snd r2)) = false.
Proof.
  intros r1 r2 Hpos Hl Hu Hn.
  destruct (SCIPcolBoundChanged_resident set col bt1 old1 new1 m Hpos)
    as (E1 & F1 & P1 & G1 & A1 & _).
  fold r1 in E1, F1, P1, G1, A1.
  destruct A1 as (N1 & C1); [now rewrite Hl, Hu|].
  assert (Hpos1 : 0 <= col_lpipos (m_cols (snd r1) col)) by lia.
  destruct (SCIPcolBoundChanged_resident set col bt2 old2 new2 (snd r1) Hpos1)
    as (E2 & F2 & _ & _ & _ & A2).
  fold r2 in E2, F2, A2. destruct (A2 G1) as (N2 & C2).
  repeat split; auto.
  rewrite C1. now apply aget_aset_same.
Qed.

(** ** Clearing the LP *)








(** ** Objective limit in the primal simplex *)

(** the objective limit is the only termination the solver reports *)
Lemma SCIPlpSolvePrimal_objlimit_alone (set : SET) (m : MEM) :
  let m1 := snd (lpFlush SCIP_INVALID set m) in
  let l := snd (lpiCall LpiSolvePrimal (lp_lpi (m_lp m1))) in
  fst (lpFlush SCIP_INVALID set m) = Ok tt ->
  fst (lpiCall LpiSolvePrimal (lp_lpi (m_lp m1))) = SCIP_OKAY ->
  fst (SCIPlpiGetBasisFeasibility l) = SCIP_OKAY ->
  SCIPlpiIsOptimal l = false ->
  SCIPlpiIsPrimalInfeasible l = false ->
  SCIPlpiIsPrimalUnbounded l = false ->
  SCIPlpiIsIterlimExc l = false ->
  SCIPlpiIsTimelimExc l = false ->
  SCIPlpiIsObjlimExc l = true ->
  let r := SCIPlpSolvePrimal SCIP_INVALID set m in
  fst r = Err SCIP_LPERROR /\
  lp_lpsolstat (m_lp (snd r)) = SCIP_LPSOLSTAT_ERROR /\
  lp_solved (m_lp (snd r)) = lp_solved (m_lp m1) /\
  (lp_solved (m_lp m) = false -> lp_solved (m_lp (snd r)) = false) /\
  m_stat (snd r) = m_stat m1.
Proof.
  intros m1 l Hflush Hcall Hfeas Hopt Hinf Hunb Hit Htime Hobj r.
  assert (Hunsolved : lp_solved (m_lp m) = false -> lp_solved (m_lp m1) = false).
  { destruct (lpFlush_sent set m) as (calls & (_ & Hs) & _). exact Hs. }
  destruct (SCIPlpiGetBasisFeasibility l) as [rc [pf df]] eqn:Ebf.
  cbn [fst] in Hfeas. subst rc.
  set (m2 := modLp (set_lp_lpi l) m1).
  set (m3 := modLp (fun lp => lp |> set_lp_primalfeasible pf |> set_lp_dualfeasible df) m2).
  set (m4 := modLp (fun lp => lp |> set_lp_lpsolstat SCIP_LPSOLSTAT_ERROR
                                 |> set_lp_objval (- set_infinity set)%float) m3).
  assert (E : r = (Err SCIP_LPERROR, m4)).
  { subst r. unfold SCIPlpSolvePrimal.
    rewrite (bind_ok _ _ m tt Hflush). fold m1.
    (* call primal simplex *)
    assert (Hlpi : lpi LpiSolvePrimal m1 = (Ok tt, m2)).
    { unfold lpi. subst m2 l.
      destruct (lpiCall LpiSolvePrimal (lp_lpi (m_lp m1))) as [rc l'].
      cbn [fst snd] in *. subst rc. reflexivity. }
    rewrite (bind_ok (lpi LpiSolvePrimal) _ m1 tt) by (now rewrite Hlpi).
    rewrite Hlpi. cbn [snd].
    (* check for primal and dual feasibility *)
    match goal with
    | |- bind ?c ?k m2 = _ =>
        assert (Hbf : c m2 = (Ok tt, m3));
        [|rewrite (bind_ok c k m2 tt) by (now rewrite Hbf); rewrite Hbf; cbn [snd]]
    end.
    { change (lp_lpi (m_lp m2)) with l. rewrite Ebf. reflexivity. }
    (* evaluate solution status *)
    assert (Hst : primalSolstat set m3 = (Err SCIP_LPERROR, m4)).
    { unfold primalSolstat. change (lp_lpi (m_lp m3)) with l.
      now rewrite Hopt, Hinf, Hunb, Hit, Htime, Hobj. }
    rewrite (bind_err (primalSolstat set) _ m3 SCIP_LPERROR) by (now rewrite Hst).
    now rewrite Hst. }
  rewrite E. cbn [fst snd]. repeat split; auto.
Qed.

(** the solver reports a termination that is tested before the objective
    limit: the steps of SCIPlpSolvePrimal from the status on *)
Lemma SCIPlpSolvePrimal_taken (set : SET) (m : MEM) (st : LPSOLSTAT) :
  let m1 := snd (lpFlush SCIP_INVALID set m) in
  let l := snd (lpiCall LpiSolvePrimal (lp_lpi (m_lp m1))) in
  let r := SCIPlpSolvePrimal SCIP_INVALID set m in
  fst (lpFlush SCIP_INVALID set m) = Ok tt ->
  fst (lpiCall LpiSolvePrimal (lp_lpi (m_lp m1))) = SCIP_OKAY ->
  fst (SCIPlpiGetBasisFeasibility l) = SCIP_OKAY ->
  (forall m3, lp_lpi (m_lp m3) = l ->
     fst (primalSolstat set m3) = Ok tt /\
     lp_lpi (m_lp (snd (primalSolstat set m3))) = l /\
     lp_lpsolstat (m_lp (snd (primalSolstat set m3))) = st) ->
  lp_solved (m_lp (snd r)) = true /\
  lp_lpsolstat (m_lp (snd r)) = st /\
  (fst (SCIPlpiGetIntpar l SCIP_LPPAR_LPIT1) = SCIP_OKAY ->
   fst (SCIPlpiGetIntpar l SCIP_LPPAR_LPIT2) = SCIP_OKAY ->
   fst r = Ok tt).
Proof.
  intros m1 l r Hflush Hcall Hfeas Hst.
  destruct (SCIPlpiGetBasisFeasibility l) as [rc [pf df]] eqn:Ebf.
  cbn [fst] in Hfeas. subst rc.
  set (m2 := modLp (set_lp_lpi l) m1).
  set (m3 := modLp (fun lp => lp |> set_lp_primalfeasible pf |> set_lp_dualfeasible df) m2).
  assert (Hl3 : lp_lpi (m_lp m3) = l) by reflexivity.
  destruct (Hst m3 Hl3) as (Hok4 & L4 & T4).
  destruct (primalSolstat set m3) as [[[]|e] m4] eqn:E4; [|discriminate Hok4].
  cbn [snd] in L4, T4.
  set (m5 := modLp (set_lp_solved true) m4).
  set (m6 := putStat (let s := m_stat m5 in
                      mkSTAT (stat_ncolidx s) (stat_nrowidx s) (stat_nlp s + 1)
                        (stat_nprimallp s + 1) (stat_nlpiterations s)
                        (stat_nprimallpiterations s)) m5).
  assert (E : exists k, r = bind SCIPlpGetIterations k m6 /\
                        forall it s, m_lp (snd (k it s)) = m_lp s /\ fst (k it s) = Ok tt).
  { eexists. split.
    - subst r. unfold SCIPlpSolvePrimal.
      rewrite (bind_ok _ _ m tt Hflush). fold m1.
      assert (Hlpi : lpi LpiSolvePrimal m1 = (Ok tt, m2)).
      { unfold lpi. subst m2 l.
        destruct (lpiCall LpiSolvePrimal (lp_lpi (m_lp m1))) as [rc l'].
        cbn [fst snd] in *. subst rc. reflexivity. }
      rewrite (bind_ok (lpi LpiSolvePrimal) _ m1 tt) by (now rewrite Hlpi).
      rewrite Hlpi. cbn [snd].
      match goal with
      | |- bind ?c ?k m2 = _ =>
          assert (Hbf : c m2 = (Ok tt, m3));
          [|rewrite (bind_ok c k m2 tt) by (now rewrite Hbf); rewrite Hbf; cbn [snd]]
      end.
      { change (lp_lpi (m_lp m2)) with l. rewrite Ebf. reflexivity. }
      rewrite (bind_ok (primalSolstat set) _ m3 tt) by (now rewrite E4).
      rewrite E4. cbn [snd].
      unfold bind at 1. unfold exec at 1. fold m5.
      unfold bind at 1. unfold exec at 1. fold m6.
      reflexivity.
    - intros it s. split; reflexivity. }
  destruct E as (k & Er & Hk).
  assert (H6 : lp_solved (m_lp m6) = true /\ lp_lpsolstat (m_lp m6) = st /\
               lp_lpi (m_lp m6) = l) by (repeat split; assumption).
  clearbody m6. clear m5.
  destruct H6 as (S6 & T6 & L6).
  rewrite Er. unfold bind. unfold SCIPlpGetIterations. rewrite L6.
  destruct (SCIPlpiGetIntpar l SCIP_LPPAR_LPIT1) as [rc1 i1].
  destruct (SCIPlpiGetIntpar l SCIP_LPPAR_LPIT2) as [rc2 i2].
  unfold bind, check, ret. cbn [fst].
  destruct (RETCODE_eqb rc1 SCIP_OKAY) eqn:E1.
  - destruct (RETCODE_eqb rc2 SCIP_OKAY) eqn:E2.
    + destruct (Hk (i1 + i2) m6) as (Hlp & Hok). rewrite Hlp.
      repeat split; auto.
    + cbn [fst snd]. repeat split; auto.
      intros _ H2. subst rc2. discriminate E2.
  - cbn [fst snd]. repeat split; auto.
    intros H1. subst rc1. discriminate E1.
Qed.

(** C7 (as the routine behaves): the flush went through, the primal
    simplex was called, and the solver reports that the objective limit
    was exceeded. SCIPlpSolvePrimal tests the objective limit last. If the
    solver reports none of the terminations tested before it (optimal,
    primal infeasible, primal unbounded, iteration limit, time limit),
    SCIPlpSolvePrimal returns SCIP_LPERROR with solution status ERROR,
    does not set the solved flag, which stays as the flush left it, and
    counts no solved LP. If the solver reports one of the earlier
    terminations as well, the objective limit is not looked at: the LP is
    marked solved with the status of the first of them in the order of the
    tests (for optimality, when the objective value can be read), and the
    call returns SCIP_OKAY when the iteration counts can be read. *)
Theorem SCIPlpSolvePrimal_objlimit (set : SET) (m : MEM) :
  let m1 := snd (lpFlush SCIP_INVALID set m) in
  let l := snd (lpiCall LpiSolvePrimal (lp_lpi (m_lp m1))) in
  let r := SCIPlpSolvePrimal SCIP_INVALID set m in
  fst (lpFlush SCIP_INVALID set m) = Ok tt ->
  fst (lpiCall LpiSolvePrimal (lp_lpi (m_lp m1))) = SCIP_OKAY ->
  fst (SCIPlpiGetBasisFeasibility l) = SCIP_OKAY ->
  SCIPlpiIsObjlimExc l = true ->
  (SCIPlpiIsOptimal l = false ->
   SCIPlpiIsPrimalInfeasible l = false ->
   SCIPlpiIsPrimalUnbounded l = false ->
   SCIPlpiIsIterlimExc l = false ->
   SCIPlpiIsTimelimExc l = false ->
   fst r = Err SCIP_LPERROR /\
   lp_lpsolstat (m_lp (snd r)) = SCIP_LPSOLSTAT_ERROR /\
   lp_solved (m_lp (snd r)) = lp_solved (m_lp m1) /\
   (lp_solved (m_lp m) = false -> lp_solved (m_lp (snd r)) = false) /\
   m_stat (snd r) = m_stat m1) /\
  ((SCIPlpiIsOptimal l = true /\ fst (SCIPlpiGetObjval l) = SCIP_OKAY) \/
   (SCIPlpiIsOptimal l = false /\
    SCIPlpiIsPrimalInfeasible l || SCIPlpiIsPrimalUnbounded l
    || SCIPlpiIsIterlimExc l || SCIPlpiIsTimelimExc l = true) ->
   lp_solved (m_lp (snd r)) = true /\
   lp_lpsolstat (m_lp (snd r))
   = (if SCIPlpiIsOptimal l then SCIP_LPSOLSTAT_OPTIMAL
      else if SCIPlpiIsPrimalInfeasible l then SCIP_LPSOLSTAT_INFEASIBLE
      else if SCIPlpiIsPrimalUnbounded l then SCIP_LPSOLSTAT_UNBOUNDED
      else if SCIPlpiIsIterlimExc l then SCIP_LPSOLSTAT_ITERLIMIT
      else SCIP_LPSOLSTAT_TIMELIMIT) /\
   (fst (SCIPlpiGetIntpar l SCIP_LPPAR_LPIT1) = SCIP_OKAY ->
    fst (SCIPlpiGetIntpar l SCIP_LPPAR_LPIT2) = SCIP_OKAY ->
    fst r = Ok tt)).
Proof.
  intros m1 l r Hflush Hcall Hfeas Hobj. split.
  - intros Hopt Hinf Hunb Hit Htime.
    exact (SCIPlpSolvePrimal_objlimit_alone set m Hflush Hcall Hfeas Hopt Hinf Hunb Hit
             Htime Hobj).
  - intros Hsome.
    apply (SCIPlpSolvePrimal_taken set m _ Hflush Hcall Hfeas).
    intros m3 H3. unfold primalSolstat. cbv zeta. rewrite H3. fold m1. fold l.
    destruct Hsome as [[Hopt Hval]|[Hopt Hsome]]; rewrite Hopt.
    { destruct (SCIPlpiGetObjval l) as [rc ov]. cbn [fst] in Hval. subst rc.
      repeat split; exact H3. }
    destruct (SCIPlpiIsPrimalInfeasible l); [repeat split; exact H3|].
    destruct (SCIPlpiIsPrimalUnbounded l); [repeat split; exact H3|].
    destruct (SCIPlpiIsIterlimExc l); [repeat split; exact H3|].
    destruct (SCIPlpiIsTimelimExc l); [repeat split; exact H3|].
    discriminate Hsome.
Qed.

(** ** Structural mutations and the flags of the LP *)

(** coefChanged acts only when the row and the column are both in the
    solver *)
Lemma coefChanged_nonresident (row col : ptr) (m : MEM) :
  row_lpipos (m_rows m row) < 0 \/ col_lpipos (m_cols m col) < 0 ->
  coefChanged SCIP_INVALID row col m = m.
Proof.
  intros H. unfold coefChanged.
  destruct (Z.leb_spec 0 (row_lpipos (m_rows m row)));
    destruct (Z.leb_spec 0 (col_lpipos (m_cols m col))); cbn [andb];
    try reflexivity.
  lia.
Qed.

(** the announcement of a coefficient change after writes that keep the
    solver positions and the LP *)
Lemma coefChanged_flags (row col : ptr) (m m' : MEM) :
  row_lpipos (m_rows m' row) = row_lpipos (m_rows m row) ->
  col_lpipos (m_cols m' col) = col_lpipos (m_cols m col) ->
  m_lp m' = m_lp m ->
  (0 <= row_lpipos (m_rows m row) -> 0 <= col_lpipos (m_cols m col) ->
   unflushedUnsolved (coefChanged SCIP_INVALID row col m')) /\
  (row_lpipos (m_rows m row) < 0 \/ col_lpipos (m_cols m col) < 0 ->
   m_lp (coefChanged SCIP_INVALID row col m') = m_lp m).
Proof.
  intros Er Ec El. split.
  - intros Hr Hc. apply coefChanged_unflushes; [now rewrite Er|now rewrite Ec].
  - intros H. rewrite coefChanged_nonresident; [exact El|now rewrite Er, Ec].
Qed.

Lemma colAddCoeff_flags (set : SET) (col row : ptr) (val : Real) (linkpos : Z)
    (rowpos : option (ptr * Z)) (m : MEM) :
  let r := colAddCoeff SCIP_INVALID set col row val linkpos rowpos m in
  fst r = Ok tt /\
  (0 <= row_lpipos (m_rows m row) -> 0 <= col_lpipos (m_cols m col) ->
   unflushedUnsolved (snd r)) /\
  (row_lpipos (m_rows m row) < 0 \/ col_lpipos (m_cols m col) < 0 ->
   m_lp (snd r) = m_lp m).
Proof.
  cbv zeta. unfold colAddCoeff. split; [reflexivity|]. cbn [snd].
  apply coefChanged_flags;
    destruct rowpos as [[c i]|]; case_ifs; read_through; reflexivity.
Qed.

Lemma colDelCoeffPos_flags (set : SET) (col : ptr) (pos : Z) (m : MEM) :
  let row := aget NULL (col_rows (m_cols m col)) pos in
  let r := colDelCoeffPos SCIP_INVALID set col pos m in
  fst r = Ok tt /\
  (0 <= row_lpipos (m_rows m row) -> 0 <= col_lpipos (m_cols m col) ->
   unflushedUnsolved (snd r)) /\
  (row_lpipos (m_rows m row) < 0 \/ col_lpipos (m_cols m col) < 0 ->
   m_lp (snd r) = m_lp m).
Proof.
  cbv zeta. unfold colDelCoeffPos. split; [reflexivity|]. cbn [snd].
  apply coefChanged_flags; case_ifs; read_through; reflexivity.
Qed.

Lemma colChgCoeffPos_flags (set : SET) (col : ptr) (pos : Z) (val : Real) (m : MEM) :
  let row := aget NULL (col_rows (m_cols m col)) pos in
  let r := colChgCoeffPos SCIP_INVALID set col pos val m in
  SCIPsetIsZero set val = true
  \/ SCIPsetIsEQ set (aget 0%float (col_vals (m_cols m col)) pos) val = false ->
  fst r = Ok tt /\
  (0 <= row_lpipos (m_rows m row) -> 0 <= col_lpipos (m_cols m col) ->
   unflushedUnsolved (snd r)) /\
  (row_lpipos (m_rows m row) < 0 \/ col_lpipos (m_cols m col) < 0 ->
   m_lp (snd r) = m_lp m).
Proof.
  cbv zeta. intros Hval. unfold colChgCoeffPos.
  destruct (SCIPsetIsZero set val) eqn:Ez.
  - apply colDelCoeffPos_flags.
  - destruct Hval as [Hval|Hval]; [discriminate Hval|]. rewrite Hval. cbn [negb].
    split; [reflexivity|]. cbn [snd].
    apply coefChanged_flags; read_through; reflexivity.
Qed.

Lemma rowAddCoeff_flags (set : SET) (row col : ptr) (val : Real) (linkpos : Z)
    (colpos : option (ptr * Z)) (m : MEM) :
  let r := rowAddCoeff SCIP_INVALID set row col val linkpos colpos m in
  row_nlocks (m_rows m row) <= 0 ->
  fst r = Ok tt /\
  (0 <= row_lpipos (m_rows m row) -> 0 <= col_lpipos (m_cols m col) ->
   unflushedUnsolved (snd r)) /\
  (row_lpipos (m_rows m row) < 0 \/ col_lpipos (m_cols m col) < 0 ->
   m_lp (snd r) = m_lp m).
Proof.
  cbv zeta. intros Hl. apply Z.ltb_ge in Hl. unfold rowAddCoeff. rewrite Hl.
  split; [reflexivity|]. cbn [snd].
  apply coefChanged_flags;
    destruct colpos as [[c i]|]; case_ifs; read_through; reflexivity.
Qed.

Lemma rowDelCoeffPos_flags (set : SET) (row : ptr) (pos : Z) (m : MEM) :
  let col := aget NULL (row_cols (m_rows m row)) pos in
  let r := rowDelCoeffPos SCIP_INVALID set row pos m in
  row_nlocks (m_rows m row) <= 0 ->
  fst r = Ok tt /\
  (0 <= row_lpipos (m_rows m row) -> 0 <= col_lpipos (m_cols m col) ->
   unflushedUnsolved (snd r)) /\
  (row_lpipos (m_rows m row) < 0 \/ col_lpipos (m_cols m col) < 0 ->
   m_lp (snd r) = m_lp m).
Proof.
  cbv zeta. intros Hl. apply Z.ltb_ge in Hl. unfold rowDelCoeffPos. rewrite Hl.
  split; [reflexivity|]. cbn [snd].
  apply coefChanged_flags; case_ifs; read_through; reflexivity.
Qed.

Lemma rowChgCoeffPos_flags (set : SET) (row : ptr) (pos : Z) (val : Real) (m : MEM) :
  let col := aget NULL (row_cols (m_rows m row)) pos in
  let r := rowChgCoeffPos SCIP_INVALID set row pos val m in
  row_nlocks (m_rows m row) <= 0 ->
  SCIPsetIsZero set val = true
  \/ SCIPsetIsEQ set (aget 0%float (row_vals (m_rows m row)) pos) val = false ->
  fst r = Ok tt /\
  (0 <= row_lpipos (m_rows m row) -> 0 <= col_lpipos (m_cols m col) ->
   unflushedUnsolved (snd r)) /\
  (row_lpipos (m_rows m row) < 0 \/ col_lpipos (m_cols m col) < 0 ->
   m_lp (snd r) = m_lp m).
Proof.
  cbv zeta. intros Hl Hval. unfold rowChgCoeffPos.
  rewrite (proj2 (Z.ltb_ge _ _) Hl).
  destruct (SCIPsetIsZero set val) eqn:Ez.
  - now apply rowDelCoeffPos_flags.
  - destruct Hval as [Hval|Hval]; [discriminate Hval|]. rewrite Hval. cbn [negb].
    split; [reflexivity|]. cbn [snd]. unfold unflushedUnsolved.
    rewrite !m_lp_modRow. fold (unflushedUnsolved
      (coefChanged SCIP_INVALID row
         (aget NULL (row_cols (m_rows m row)) pos)
         (modRow row (fun r => rowAddNorms set (-1) (aget 0%float (row_vals r) pos) r)
            (modRow row (fun r => set_row_vals (aset 0%float (row_vals r) pos val) r)
               (modRow row
                  (fun r => rowDelNorms set (-1) (aget 0%float (row_vals r) pos) r) m))))).
    match goal with
    | |- context [coefChanged _ row ?c ?mm] =>
        replace c with (aget NULL (row_cols (m_rows m row)) pos)
          by (read_through; reflexivity)
    end.
    apply coefChanged_flags; read_through; reflexivity.
Qed.

Lemma rowSideChanged_flags (set : SET) (row : ptr) (sidetype : SIDETYPE) (m : MEM) :
  let r := rowSideChanged SCIP_INVALID set row sidetype m in
  fst r = Ok tt /\
  (0 <= row_lpipos (m_rows m row) -> unflushedUnsolved (snd r)) /\
  (row_lpipos (m_rows m row) < 0 -> snd r = m).
Proof.
  cbv zeta. unfold rowSideChanged.
  destruct (Z.leb_spec 0 (row_lpipos (m_rows m row))) as [H|H].
  - split; [reflexivity|]. split; [|lia]. intros _. case_ifs; repeat split.
  - split; [reflexivity|]. split; [lia|reflexivity].
Qed.

(** C3 (as the code has it): adding a column or a row to the LP, removing
    columns or rows from it, a bound change on a column that is in the
    solver, a side change on a row that is in the solver (rowSideChanged,
    and SCIProwChgLhs and SCIProwChgRhs with a side that differs from the
    old one), and a coefficient change that concerns a row and a column
    that are both in the solver (coefChanged, and through it colAddCoeff,
    colDelCoeffPos, colChgCoeffPos, rowAddCoeff, rowDelCoeffPos and
    rowChgCoeffPos, the row routines on an unlocked row, the change
    routines with a value that is zero or differs from the old one) leave
    the LP unflushed and unsolved with solution status NOTSOLVED. When
    the row or the column of a coefficient change is not in the solver,
    each of these coefficient routines leaves the LP data, and so the
    flags and the status, as they were. *)
Theorem structural_mutation_unflushes (set : SET) (m : MEM) (row col : ptr)
    (boundtype : BOUNDTYPE) (sidetype : SIDETYPE) (oldbound newbound val side : Real)
    (n linkpos pos : Z) (colpos rowpos : option (ptr * Z)) :
  let rcol := aget NULL (row_cols (m_rows m row)) pos in
  let crow := aget NULL (col_rows (m_cols m col)) pos in
  let changes old := SCIPsetIsZero set val = true \/ SCIPsetIsEQ set old val = false in
  (* columns and rows enter and leave the LP *)
  unflushedUnsolved (snd (SCIPlpAddCol SCIP_INVALID set col m)) /\
  unflushedUnsolved (snd (SCIPlpAddRow SCIP_INVALID set row m)) /\
  (n < lp_ncols (m_lp m) -> unflushedUnsolved (snd (SCIPlpShrinkCols SCIP_INVALID n m))) /\
  (n < lp_nrows (m_lp m) ->
   unflushedUnsolved (snd (SCIPlpShrinkRows SCIP_INVALID set n m))) /\
  (* bound change on a column in the solver *)
  (0 <= col_lpipos (m_cols m col) ->
   unflushedUnsolved
     (snd (SCIPcolBoundChanged SCIP_INVALID set col boundtype oldbound newbound m))) /\
  (* side change on a row in the solver *)
  (0 <= row_lpipos (m_rows m row) ->
   unflushedUnsolved (snd (rowSideChanged SCIP_INVALID set row sidetype m)) /\
   (SCIPsetIsEQ set (row_lhs (m_rows m row)) side = false ->
    unflushedUnsolved (snd (SCIProwChgLhs SCIP_INVALID set row side m))) /\
   (SCIPsetIsEQ set (row_rhs (m_rows m row)) side = false ->
    unflushedUnsolved (snd (SCIProwChgRhs SCIP_INVALID set row side m)))) /\
  (* coefficient change, row and column in the solver *)
  (0 <= row_lpipos (m_rows m row) -> 0 <= col_lpipos (m_cols m col) ->
   unflushedUnsolved (coefChanged SCIP_INVALID row col m) /\
   unflushedUnsolved (snd (colAddCoeff SCIP_INVALID set col row val linkpos rowpos m)) /\
   (row_nlocks (m_rows m row) <= 0 ->
    unflushedUnsolved (snd (rowAddCoeff SCIP_INVALID set row col val linkpos colpos m)) /\
    unflushedUnsolved (snd (SCIProwAddCoeff SCIP_INVALID set row col val m)))) /\
  (0 <= row_lpipos (m_rows m crow) -> 0 <= col_lpipos (m_cols m col) ->
   unflushedUnsolved (snd (colDelCoeffPos SCIP_INVALID set col pos m)) /\
   (changes (aget 0%float (col_vals (m_cols m col)) pos) ->
    unflushedUnsolved (snd (colChgCoeffPos SCIP_INVALID set col pos val m)))) /\
  (0 <= row_lpipos (m_rows m row) -> 0 <= col_lpipos (m_cols m rcol) ->
   row_nlocks (m_rows m row) <= 0 ->
   unflushedUnsolved (snd (rowDelCoeffPos SCIP_INVALID set row pos m)) /\
   (changes (aget 0%float (row_vals (m_rows m row)) pos) ->
    unflushedUnsolved (snd (rowChgCoeffPos SCIP_INVALID set row pos val m)))) /\
  (* coefficient change, row or column not in the solver *)
  (row_lpipos (m_rows m row) < 0 \/ col_lpipos (m_cols m col) < 0 ->
   coefChanged SCIP_INVALID row col m = m /\
   m_lp (snd (colAddCoeff SCIP_INVALID set col row val linkpos rowpos m)) = m_lp m /\
   m_lp (snd (rowAddCoeff SCIP_INVALID set row col val linkpos colpos m)) = m_lp m /\
   m_lp (snd (SCIProwAddCoeff SCIP_INVALID set row col val m)) = m_lp m) /\
  (row_lpipos (m_rows m crow) < 0 \/ col_lpipos (m_cols m col) < 0 ->
   m_lp (snd (colDelCoeffPos SCIP_INVALID set col pos m)) = m_lp m /\
   m_lp (snd (colChgCoeffPos SCIP_INVALID set col pos val m)) = m_lp m) /\
  (row_lpipos (m_rows m row) < 0 \/ col_lpipos (m_cols m rcol) < 0 ->
   m_lp (snd (rowDelCoeffPos SCIP_INVALID set row pos m)) = m_lp m /\
   m_lp (snd (rowChgCoeffPos SCIP_INVALID set row pos val m)) = m_lp m).
Proof.
  intros rcol crow changes.
  split. { repeat split. }
  split. { repeat split. }
  split.
  { intros H. apply Z.ltb_lt in H. unfold SCIPlpShrinkCols. rewrite H. repeat split. }
  split. { intros H. now apply SCIPlpShrinkRows_unflushes. }
  split. { intros H. now apply SCIPcolBoundChanged_unflushes. }
  split.
  { intros H. split; [now apply rowSideChanged_flags|]. split; intros Hs.
    - unfold SCIProwChgLhs. rewrite Hs. cbn [negb].
      apply rowSideChanged_flags. now read_through.
    - unfold SCIProwChgRhs. rewrite Hs. cbn [negb].
      apply rowSideChanged_flags. now read_through. }
  split.
  { intros Hr Hc. split; [now apply coefChanged_unflushes|].
    split; [now apply colAddCoeff_flags|].
    intros Hl. split.
    - now apply rowAddCoeff_flags.
    - unfold SCIProwAddCoeff. now apply rowAddCoeff_flags. }
  split.
  { intros Hr Hc. split; [now apply colDelCoeffPos_flags|].
    intros Hv. now apply colChgCoeffPos_flags. }
  split.
  { intros Hr Hc Hl. split; [now apply rowDelCoeffPos_flags|].
    intros Hv. now apply rowChgCoeffPos_flags. }
  split.
  { intros H. split; [now apply coefChanged_nonresident|].
    split; [now apply colAddCoeff_flags|].
    assert (Ha : m_lp (snd (rowAddCoeff SCIP_INVALID set row col val linkpos colpos m))
                 = m_lp m /\
                 m_lp (snd (rowAddCoeff SCIP_INVALID set row col val (-1) None m))
                 = m_lp m); [|exact Ha].
    split.
    - destruct (Z.ltb_spec 0 (row_nlocks (m_rows m row))) as [Hl|Hl].
      + unfold rowAddCoeff. apply Z.ltb_lt in Hl. now rewrite Hl.
      + now apply rowAddCoeff_flags.
    - destruct (Z.ltb_spec 0 (row_nlocks (m_rows m row))) as [Hl|Hl].
      + unfold rowAddCoeff. apply Z.ltb_lt in Hl. now rewrite Hl.
      + now apply rowAddCoeff_flags. }
  split.
  { intros H. split; [now apply colDelCoeffPos_flags|].
    destruct (SCIPsetIsZero set val) eqn:Ez.
    { apply (colChgCoeffPos_flags set col pos val m); [now left|exact H]. }
    destruct (SCIPsetIsEQ set (aget 0%float (col_vals (m_cols m col)) pos) val) eqn:E.
    { unfold colChgCoeffPos. rewrite Ez, E. reflexivity. }
    apply (colChgCoeffPos_flags set col pos val m); [now right|exact H]. }
  intros H.
  destruct (Z.ltb_spec 0 (row_nlocks (m_rows m row))) as [Hl|Hl].
  { unfold rowChgCoeffPos, rowDelCoeffPos. apply Z.ltb_lt in Hl. rewrite Hl.
    split; reflexivity. }
  split; [now apply rowDelCoeffPos_flags|].
  destruct (SCIPsetIsZero set val) eqn:Ez.
  { apply (rowChgCoeffPos_flags set row pos val m Hl); [now left|exact H]. }
  destruct (SCIPsetIsEQ set (aget 0%float (row_vals (m_rows m row)) pos) val) eqn:E.
  { unfold rowChgCoeffPos. rewrite (proj2 (Z.ltb_ge _ _) Hl), Ez, E. reflexivity. }
  apply (rowChgCoeffPos_flags set row pos val m Hl); [now right|exact H].
Qed.

(** ** The counters of the activity bounds *)

(** C1: the activity bounds of a row become valid in rowCalcActivityBounds
    and nowhere else. For settings that do not take zero for infinite and
    a row whose value array holds its len entries, rowCalcActivityBounds
    succeeds and marks the activity bounds valid; after it, and after any
    sequence of lower and upper bound changes of the row's columns applied
    through rowUpdateActivityBoundsLb and rowUpdateActivityBoundsUb, the
    activity bounds are still valid, the counter minactivityinf
    (maxactivityinf) is the number of entries whose current bound
    contributes an unbounded value to the minimal (maximal) activity,
    neither counter is negative, and SCIProwGetActivityBounds reports
    minus (plus) infinity when the recount is greater than zero and the
    cached accumulator otherwise. *)
Theorem activity_counters_exact (set : SET) (m : MEM) (row : ptr) (evs : list BDCHG) :
  SCIPsetIsInfinity set 0%float = false ->
  SCIPsetIsInfinity set (- 0)%float = false ->
  0 <= row_len (m_rows m row) ->
  (Z.to_nat (row_len (m_rows m row)) <= length (row_vals (m_rows m row)))%nat ->
  Forall (fun e => 0 <= bdchgPos e < row_len (m_rows m row)) evs ->
  let r := rowCalcActivityBounds SCIP_INVALID set row m in
  let m1 := snd r in
  let s' := fold_left (applyBdchg set) evs (m_rows m1 row, rowDoms m1 row) in
  let row' := fst s' in
  let doms' := snd s' in
  let m' := putRow row row' m1 in
  fst r = Ok tt /\
  row_validactivitybds (m_rows m1 row) = true /\
  row_validactivitybds row' = true /\
  row_minactivityinf row' = minInfCount set row' doms' /\
  row_maxactivityinf row' = maxInfCount set row' doms' /\
  0 <= row_minactivityinf row' /\
  0 <= row_maxactivityinf row' /\
  SCIProwGetActivityBounds SCIP_INVALID set row m'
  = (Ok ((if 0 <? minInfCount set row' doms'
          then (- set_infinity set)%float else row_minactivity row'),
         (if 0 <? maxInfCount set row' doms'
          then set_infinity set else row_maxactivity row')), m').
Proof.
  intros Hz Hnz Hlen Hvals Hpos r m1 s' row' doms' m'.
  destruct (rowCalcActivityBounds_recount set row m Hz Hnz Hlen Hvals)
    as (Hok & Hsame & Hvalid & Hdoms & Hex).
  fold r in Hok, Hsame, Hvalid, Hdoms, Hex. fold m1 in Hsame, Hvalid, Hdoms, Hex.
  assert (Hpos1 : Forall (fun e => 0 <= bdchgPos e < row_len (m_rows m1 row)) evs).
  { destruct Hsame as (_ & _ & _ & _ & L). now rewrite L. }
  destruct (applyBdchgs_exact set evs _ _ Hvalid Hdoms Hex Hpos1)
    as (V & O & (Xmin & Xmax) & L).
  fold s' in V, O, Xmin, Xmax, L. fold row' in V, O, Xmin, Xmax, L.
  fold doms' in O, Xmin, Xmax.
  repeat split; auto.
  - rewrite Xmin. apply countInf_nonneg.
  - rewrite Xmax. apply countInf_nonneg.
  - unfold SCIProwGetActivityBounds, bind. subst m'. cbn [m_rows putRow].
    rewrite upd_same, V. cbn [negb m_rows putRow]. rewrite upd_same.
    unfold reportedActivityBounds. rewrite <- Xmin, <- Xmax. reflexivity.
Qed.

(** ** What a flush sends to the solver *)




















(** *** The frame of the steps that add columns and rows *)

















(** *** New columns and rows *)
















End LPTheorems.

(** ** cons_linear.c: tightening the bounds of one variable *)

Section ConsLinearTheorems.

Variable SCIP : Type.
Variable SCIPinfinity : SCIP -> Real.
Variable SCIPisInfinity : SCIP -> Real -> bool.
Variable SCIPisSumLT : SCIP -> Real -> Real -> bool.
Variable SCIPisSumGT : SCIP -> Real -> Real -> bool.
Variable SCIPvarGetLbLocal : SCIP -> ptr -> Real.
Variable SCIPvarGetUbLocal : SCIP -> ptr -> Real.
Variable SCIPvarGetBestBoundType : SCIP -> ptr -> BOUNDTYPE.
Variable SCIPchgVarLb : SCIP -> LINCONS -> ptr -> Real -> RETCODE * (SCIP * LINCONS).
Variable SCIPchgVarUb : SCIP -> LINCONS -> ptr -> Real -> RETCODE * (SCIP * LINCONS).

#[local] Abbreviation residuals :=
  (linconsGetActivityResiduals SCIPinfinity SCIPisInfinity SCIPvarGetLbLocal
     SCIPvarGetUbLocal SCIPvarGetBestBoundType).
#[local] Abbreviation tightenVarBounds :=
  (linconsTightenVarBounds SCIPinfinity SCIPisInfinity SCIPisSumLT SCIPisSumGT
     SCIPvarGetLbLocal SCIPvarGetUbLocal SCIPvarGetBestBoundType SCIPchgVarLb SCIPchgVarUb).

(** computing the residual activities cannot fail and touches neither
    a bound nor the sides *)
Lemma linconsGetActivityResiduals_frame (var : ptr) (val : Real) (s : CLSTATE SCIP) :
  exists mm,
    fst (residuals var val s) = Ok mm /\
    cl_scip (snd (residuals var val s)) = cl_scip s /\
    cl_calls (snd (residuals var val s)) = cl_calls s.
Proof.
  unfold linconsGetActivityResiduals.
  destruct (negb (lc_validactivities (cl_lincons s))); cbn [fst snd]; eauto.
Qed.

(** the block that tightens the lower bound, entered with the bounds [t]:
    either it requests nothing (the candidate is not tighter, or it is
    above the upper bound and the routine returns with a cutoff), or it
    requests the one change of the lower bound *)
Lemma tightenLower_block (guard : CLSTATE SCIP -> bool) (var : ptr) (newlb : Real)
    (t : TIGHTEN) (s1 : CLSTATE SCIP) :
  let r := block guard (tightenLower SCIPisSumGT SCIPvarGetLbLocal SCIPchgVarLb var newlb)
             t s1 in
  (snd r = s1 /\
   (fst r = Ok t \/
    fst r = Ok (mkTIGHTEN (t_lb t) (t_ub t) (t_nchgbds t) SCIP_CUTOFF true) /\
    SCIPisSumGT (cl_scip s1) newlb (t_ub t) = true)) \/
  (cl_calls (snd r) = cl_calls s1 ++ [CallChgVarLb var newlb] /\
   forall t', fst r = Ok t' -> t_result t' = SCIP_REDUCEDDOM).
Proof.
  unfold block, tightenLower.
  destruct (t_returned t); [left; cbn; auto|].
  destruct (guard s1); [|left; cbn; auto].
  destruct (SCIPisSumGT (cl_scip s1) newlb (t_lb t)); [|left; cbn; auto].
  destruct (SCIPisSumGT (cl_scip s1) newlb (t_ub t)) eqn:E; [left; cbn; auto|].
  right. unfold bind, chgVarLb, check.
  destruct (SCIPchgVarLb (cl_scip s1) (cl_lincons s1) var newlb) as [rc [scip1 lc1]].
  destruct (RETCODE_eqb rc SCIP_OKAY); cbn [fst snd cl_calls]; split; auto.
  - intros t' E'. inversion E'. reflexivity.
  - intros t' E'. discriminate E'.
Qed.

(** the requests of a call with a positive coefficient, finite residual
    minimal activity and finite right hand side, with
    newub = (rhs - minresactivity)/val and newlb = (lhs - maxresactivity)/val:
    an upper bound is requested only for this variable, only the value
    newub, and only when newub is below the upper bound by more than the
    sum tolerance and not below the lower bound. When newub is below both
    bounds, the call reports the cutoff and leaves SCIP and the list of
    requested changes as they were. When the upper bound is left alone
    and newlb is above both bounds, the same holds. Whenever the call
    reports a cutoff, it has requested either nothing or exactly the
    change of the upper bound to newub. *)
Lemma linconsTightenVarBounds_positive_requests
    (var : ptr) (val : Real) (nchgbds : Z) (result : RESULT) (s s0 : CLSTATE SCIP)
    (minres maxres : Real) :
  let scip := cl_scip s in
  let lb := SCIPvarGetLbLocal scip var in
  let ub := SCIPvarGetUbLocal scip var in
  let newub := ((lc_rhs (cl_lincons s) - minres) / val)%float in
  let newlb := ((lc_lhs (cl_lincons s) - maxres) / val)%float in
  let r := tightenVarBounds var val nchgbds result s in
  residuals var val s = (Ok (minres, maxres), s0) ->
  Rpos val = true ->
  SCIPisInfinity scip (- minres)%float = false ->
  SCIPisInfinity scip (lc_rhs (cl_lincons s)) = false ->
  exists calls,
    cl_calls (snd r) = cl_calls s ++ calls /\
    (forall v b, In (CallChgVarUb v b) calls ->
       v = var /\ b = newub /\
       SCIPisSumLT scip newub ub = true /\ SCIPisSumLT scip newub lb = false) /\
    (SCIPisSumLT scip newub ub = true -> SCIPisSumLT scip newub lb = true ->
       r = (Ok (nchgbds, SCIP_CUTOFF), s0) /\ calls = []) /\
    (result <> SCIP_CUTOFF ->
     forall n, fst r = Ok (n, SCIP_CUTOFF) ->
       (calls = [] /\ n = nchgbds /\ cl_scip (snd r) = scip) \/
       (calls = [CallChgVarUb var newub] /\ n = nchgbds + 1)) /\
    (SCIPisSumLT scip newub ub = false ->
     SCIPisInfinity scip maxres = false ->
     SCIPisInfinity scip (- lc_lhs (cl_lincons s))%float = false ->
     SCIPisSumGT scip newlb lb = true -> SCIPisSumGT scip newlb ub = true ->
       r = (Ok (nchgbds, SCIP_CUTOFF), s0) /\ calls = []).
Proof.
  intros scip lb ub newub newlb r Hres Hval Hmin Hrhs.
  destruct (linconsGetActivityResiduals_frame var val s) as (mm & _ & Hscip & Hcalls).
  rewrite Hres in Hscip, Hcalls. cbn [snd] in Hscip, Hcalls.
  subst r. unfold linconsTightenVarBounds.
  rewrite (bind_ok _ _ s (minres, maxres)) by (now rewrite Hres).
  rewrite Hres. cbn [snd]. rewrite Hval, Hscip. fold scip lb ub newub newlb.
  set (t0 := mkTIGHTEN lb ub nchgbds result false).
  set (L := block (finiteMax SCIPisInfinity maxres (lc_lhs (cl_lincons s)))
              (tightenLower SCIPisSumGT SCIPvarGetLbLocal SCIPchgVarLb var newlb)).
  set (U := block (finiteMin SCIPisInfinity minres (lc_rhs (cl_lincons s)))
              (tightenUpper SCIPisSumLT SCIPvarGetUbLocal SCIPchgVarUb var newub) t0).
  (* the block of the upper bound *)
  assert (HU :
    (SCIPisSumLT scip newub ub = false /\ U s0 = (Ok t0, s0)) \/
    (SCIPisSumLT scip newub ub = true /\ SCIPisSumLT scip newub lb = true /\
     U s0 = (Ok (mkTIGHTEN lb ub nchgbds SCIP_CUTOFF true), s0)) \/
    (SCIPisSumLT scip newub ub = true /\ SCIPisSumLT scip newub lb = false /\
     exists s1, cl_calls s1 = cl_calls s ++ [CallChgVarUb var newub] /\
       ((exists rc, U s0 = (Err rc, s1)) \/
        U s0 = (Ok (mkTIGHTEN lb (SCIPvarGetUbLocal (cl_scip s1) var) (nchgbds + 1)
                     SCIP_REDUCEDDOM false), s1)))).
  { subst U. unfold block, finiteMin, tightenUpper. cbn [t_returned t0 t_ub t_lb].
    rewrite Hscip. fold scip. rewrite Hmin, Hrhs. cbn [negb andb].
    destruct (SCIPisSumLT scip newub ub); [|now left].
    right. destruct (SCIPisSumLT scip newub lb); [now left|].
    right. do 2 (split; [reflexivity|]).
    unfold bind, chgVarUb, check. rewrite Hscip, Hcalls.
    destruct (SCIPchgVarUb (cl_scip s) (cl_lincons s0) var newub) as [rc [scip1 lc1]].
    destruct (RETCODE_eqb rc SCIP_OKAY);
      exists (mkCL scip1 lc1 (cl_calls s ++ [CallChgVarUb var newub]));
      (split; [reflexivity|]); [right; reflexivity | left; exists rc; reflexivity]. }
  (* the block of the lower bound, when the upper bound was left alone *)
  assert (HL :
    SCIPisInfinity scip maxres = false ->
    SCIPisInfinity scip (- lc_lhs (cl_lincons s))%float = false ->
    SCIPisSumGT scip newlb lb = true -> SCIPisSumGT scip newlb ub = true ->
    L t0 s0 = (Ok (mkTIGHTEN lb ub nchgbds SCIP_CUTOFF true), s0)).
  { intros H1 H2 H3 H4. subst L. unfold block, finiteMax, tightenLower.
    cbn [t_returned t0 t_ub t_lb t_nchgbds]. rewrite Hscip. fold scip.
    now rewrite H1, H2, H3, H4. }
  unfold bind, ret.
  destruct HU as [(Elt & HU) | [(Elt & Ecross & HU) | (Elt & Ecross & s1 & Hs1 & [(rc & HU) | HU])]];
    rewrite HU; cbv beta iota.
  - (* the candidate is not tighter *)
    destruct (tightenLower_block (finiteMax SCIPisInfinity maxres (lc_lhs (cl_lincons s)))
                var newlb t0 s0)
      as [(E1 & E2) | (E1 & E2)];
      fold L in E1, E2; destruct (L t0 s0) as [[t2|rc2] s2] eqn:EL; cbn [fst snd] in *.
    + exists []. rewrite app_nil_r. subst s2. split; [|split; [|split; [|split]]].
      * exact Hcalls.
      * intros v b [].
      * congruence.
      * intros Hr n E. left. inversion E. subst n.
        destruct E2 as [E2 | (E2 & _)]; inversion E2; subst t2; cbn in *; intuition congruence.
      * intros _ H1 H2 H3 H4. specialize (HL H1 H2 H3 H4). inversion HL. split; reflexivity.
    + destruct E2 as [E2 | (E2 & _)]; discriminate E2.
    + exists [CallChgVarLb var newlb].
      rewrite E1, Hcalls. split; [|split; [|split; [|split]]].
      * reflexivity.
      * intros v b [H|[]]. discriminate H.
      * congruence.
      * intros _ n E. inversion E. rewrite (E2 t2 eq_refl) in *. discriminate.
      * intros _ H1 H2 H3 H4. specialize (HL H1 H2 H3 H4). inversion HL. subst t2.
        specialize (E2 _ eq_refl). discriminate E2.
    + exists [CallChgVarLb var newlb].
      rewrite E1, Hcalls. split; [|split; [|split; [|split]]].
      * reflexivity.
      * intros v b [H|[]]. discriminate H.
      * congruence.
      * intros _ n E. discriminate E.
      * intros _ H1 H2 H3 H4. specialize (HL H1 H2 H3 H4). discriminate HL.
  - (* the candidate is below the lower bound *)
    subst L. unfold block. cbn [t_returned fst snd t_nchgbds t_result].
    exists []. rewrite app_nil_r. split; [|split; [|split; [|split]]].
    + exact Hcalls.
    + intros v b [].
    + auto.
    + intros _ n E. inversion E. left. auto.
    + congruence.
  - (* the change of the upper bound fails *)
    exists [CallChgVarUb var newub]. cbn [fst snd]. split; [|split; [|split; [|split]]].
    + exact Hs1.
    + intros v b [H|[]]. inversion H. auto.
    + congruence.
    + intros _ n E. discriminate E.
    + congruence.
  - (* the upper bound is tightened *)
    set (t1 := mkTIGHTEN lb (SCIPvarGetUbLocal (cl_scip s1) var) (nchgbds + 1)
                 SCIP_REDUCEDDOM false).
    destruct (tightenLower_block (finiteMax SCIPisInfinity maxres (lc_lhs (cl_lincons s)))
                var newlb t1 s1)
      as [(E1 & E2) | (E1 & E2)];
      fold L in E1, E2; destruct (L t1 s1) as [[t2|rc2] s2]; cbn [fst snd] in *.
    + exists [CallChgVarUb var newub]. subst s2. split; [|split; [|split; [|split]]].
      * exact Hs1.
      * intros v b [H|[]]. inversion H. auto.
      * congruence.
      * intros Hr n E. right. inversion E. subst n.
        destruct E2 as [E2 | (E2 & _)]; inversion E2; subst t2; cbn in *; intuition congruence.
      * congruence.
    + destruct E2 as [E2 | (E2 & _)]; discriminate E2.
    + exists [CallChgVarUb var newub; CallChgVarLb var newlb].
      rewrite E1, Hs1, <- app_assoc. split; [|split; [|split; [|split]]].
      * reflexivity.
      * intros v b [H|[H|[]]]; inversion H. auto.
      * congruence.
      * intros _ n E. inversion E. rewrite (E2 t2 eq_refl) in *. discriminate.
      * congruence.
    + exists [CallChgVarUb var newub; CallChgVarLb var newlb].
      rewrite E1, Hs1, <- app_assoc. split; [|split; [|split; [|split]]].
      * reflexivity.
      * intros v b [H|[H|[]]]; inversion H. auto.
      * congruence.
      * intros _ n E. discriminate E.
      * congruence.
Qed.


(** ** cons_linear.c: the counter of tightened bounds *)

#[local] Abbreviation tightenBounds :=
  (linconsTightenBounds SCIPinfinity SCIPisInfinity SCIPisSumLT SCIPisSumGT
     SCIPvarGetLbLocal SCIPvarGetUbLocal SCIPvarGetBestBoundType SCIPchgVarLb SCIPchgVarUb).
#[local] Abbreviation tightenBounds_loop :=
  (linconsTightenBounds_loop SCIPinfinity SCIPisInfinity SCIPisSumLT SCIPisSumGT
     SCIPvarGetLbLocal SCIPvarGetUbLocal SCIPvarGetBestBoundType SCIPchgVarLb SCIPchgVarUb).

Lemma tightened_refl (P : ptr -> Prop) (n : Z) (res : RESULT) (s : CLSTATE SCIP) :
  tightened P n res s n res s.
Proof.
  exists []. rewrite app_nil_r. cbn. repeat split; auto. lia.
Qed.

Lemma tightened_trans (P : ptr -> Prop) (n n1 n2 : Z) (res res1 res2 : RESULT)
    (s s1 s2 : CLSTATE SCIP) :
  tightened P n res s n1 res1 s1 -> tightened P n1 res1 s1 n2 res2 s2 ->
  tightened P n res s n2 res2 s2.
Proof.
  intros (c1 & A1 & A2 & A3 & A4) (c2 & B1 & B2 & B3 & B4).
  exists (c1 ++ c2). split; [now rewrite B1, A1, app_assoc|].
  split; [rewrite length_app; lia|]. split; [now apply Forall_app|].
  destruct B4 as [[-> B4]|[Hne B4]].
  - rewrite app_nil_r. destruct A4 as [[-> A4]|[Hne A4]].
    + left. split; [reflexivity|]. destruct B4 as [-> | ->]; auto.
    + right. split; [exact Hne|]. destruct B4 as [-> | ->]; auto.
  - right. split; [|exact B4].
    intros H. apply app_eq_nil in H. destruct H as (_ & H). contradiction.
Qed.

(** the block that tightens the upper bound, and the one that tightens
    the lower bound: one request and one count, or none *)
Lemma tightenUpper_tightened (P : ptr -> Prop) (guard : CLSTATE SCIP -> bool) (var : ptr)
    (newub : Real) (t t' : TIGHTEN) (s : CLSTATE SCIP) :
  P var ->
  let r := block guard (tightenUpper SCIPisSumLT SCIPvarGetUbLocal SCIPchgVarUb var newub)
             t s in
  fst r = Ok t' ->
  tightened P (t_nchgbds t) (t_result t) s (t_nchgbds t') (t_result t') (snd r).
Proof.
  intros HP. cbv zeta. unfold block, tightenUpper.
  destruct (t_returned t);
    [cbn [fst snd]; intros E; inversion E; apply tightened_refl|].
  destruct (guard s); [|cbn [fst snd]; intros E; inversion E; apply tightened_refl].
  destruct (SCIPisSumLT (cl_scip s) newub (t_ub t));
    [|cbn [fst snd]; intros E; inversion E; apply tightened_refl].
  destruct (SCIPisSumLT (cl_scip s) newub (t_lb t)).
  { cbn [fst snd]. intros E; inversion E. exists []. rewrite app_nil_r. cbn.
    repeat split; auto. lia. }
  unfold bind, chgVarUb, check.
  destruct (SCIPchgVarUb (cl_scip s) (cl_lincons s) var newub) as [rc [scip1 lc1]].
  destruct (RETCODE_eqb rc SCIP_OKAY); cbn [fst snd]; intros E; inversion E.
  exists [CallChgVarUb var newub]. cbn. repeat split; auto.
  right. split; [discriminate|auto].
Qed.

Lemma tightenLower_tightened (P : ptr -> Prop) (guard : CLSTATE SCIP -> bool) (var : ptr)
    (newlb : Real) (t t' : TIGHTEN) (s : CLSTATE SCIP) :
  P var ->
  let r := block guard (tightenLower SCIPisSumGT SCIPvarGetLbLocal SCIPchgVarLb var newlb)
             t s in
  fst r = Ok t' ->
  tightened P (t_nchgbds t) (t_result t) s (t_nchgbds t') (t_result t') (snd r).
Proof.
  intros HP. cbv zeta. unfold block, tightenLower.
  destruct (t_returned t);
    [cbn [fst snd]; intros E; inversion E; apply tightened_refl|].
  destruct (guard s); [|cbn [fst snd]; intros E; inversion E; apply tightened_refl].
  destruct (SCIPisSumGT (cl_scip s) newlb (t_lb t));
    [|cbn [fst snd]; intros E; inversion E; apply tightened_refl].
  destruct (SCIPisSumGT (cl_scip s) newlb (t_ub t)).
  { cbn [fst snd]. intros E; inversion E. exists []. rewrite app_nil_r. cbn.
    repeat split; auto. lia. }
  unfold bind, chgVarLb, check.
  destruct (SCIPchgVarLb (cl_scip s) (cl_lincons s) var newlb) as [rc [scip1 lc1]].
  destruct (RETCODE_eqb rc SCIP_OKAY); cbn [fst snd]; intros E; inversion E.
  exists [CallChgVarLb var newlb]. cbn. repeat split; auto.
  right. split; [discriminate|auto].
Qed.

Ltac next_step a s' E :=
  match goal with
  | |- context [bind ?c ?k ?s] =>
      pattern (bind c k s); apply bind_case; cbv beta;
      [intros a s' E|intros ? ? _; cbn [fst]; discriminate]
  end.

(** one variable: the counter counts the requests *)
Lemma linconsTightenVarBounds_tightened (P : ptr -> Prop) (var : ptr) (val : Real)
    (nchgbds n' : Z) (result res' : RESULT) (s : CLSTATE SCIP) :
  P var ->
  fst (tightenVarBounds var val nchgbds result s) = Ok (n', res') ->
  tightened P nchgbds result s n' res' (snd (tightenVarBounds var val nchgbds result s)).
Proof.
  intros HP. unfold linconsTightenVarBounds.
  destruct (linconsGetActivityResiduals_frame var val s) as (mm & E0 & _ & Hcalls).
  next_step mm1 s0 E1. rewrite E1 in Hcalls. cbn [snd] in Hcalls.
  destruct mm1 as [minres maxres].
  set (t0 := mkTIGHTEN _ _ nchgbds result false).
  assert (H0 : tightened P nchgbds result s (t_nchgbds t0) (t_result t0) s0).
  { exists []. rewrite app_nil_r. cbn. repeat split; auto. lia. }
  clearbody t0.
  next_step t2 s2 E2. unfold ret. cbn [fst snd]. intros E; inversion E; subst n' res'.
  eapply tightened_trans; [exact H0|]. clear H0 E.
  destruct (Rpos val).
  - revert E2. next_step t1 s1 E1'. intros E2.
    eapply tightened_trans.
    + match type of E1' with
      | block ?g (tightenUpper _ _ _ _ ?nb) _ _ = _ =>
          pose proof (tightenUpper_tightened P g var nb t0 t1 s0 HP) as H
      end.
      cbv zeta in H. rewrite E1' in H. apply H. reflexivity.
    + match type of E2 with
      | block ?g (tightenLower _ _ _ _ ?nb) _ _ = _ =>
          pose proof (tightenLower_tightened P g var nb t1 t2 s1 HP) as H
      end.
      cbv zeta in H. rewrite E2 in H. apply H. reflexivity.
  - revert E2. next_step t1 s1 E1'. intros E2.
    eapply tightened_trans.
    + match type of E1' with
      | block ?g (tightenLower _ _ _ _ ?nb) _ _ = _ =>
          pose proof (tightenLower_tightened P g var nb t0 t1 s0 HP) as H
      end.
      cbv zeta in H. rewrite E1' in H. apply H. reflexivity.
    + match type of E2 with
      | block ?g (tightenUpper _ _ _ _ ?nb) _ _ = _ =>
          pose proof (tightenUpper_tightened P g var nb t1 t2 s1 HP) as H
      end.
      cbv zeta in H. rewrite E2 in H. apply H. reflexivity.
Qed.

(** the rounds of the loop *)
Lemma linconsTightenBounds_loop_tightened (vars : list ptr) (vals : list Real) (nvars : Z)
    (fuel : nat) :
  forall (v lastsuccess nchgbds : Z) (result : RESULT) (s : CLSTATE SCIP)
         (n' : Z) (res' : RESULT) (s' : CLSTATE SCIP),
    0 <= v < nvars ->
    tightenBounds_loop fuel vars vals nvars v lastsuccess nchgbds result s
    = Some (Ok (n', res'), s') ->
    tightened (fun x => exists i, 0 <= i < nvars /\ x = aget NULL vars i)
      nchgbds result s n' res' s'.
Proof.
  induction fuel as [|k IH]; intros v lastsuccess nchgbds result s n' res' s' Hv;
    cbn [linconsTightenBounds_loop]; [discriminate|].
  destruct (tightenVarBounds (aget NULL vars v) (aget 0%float vals v) nchgbds result s)
    as [[[n1 res1]|rc] s1] eqn:E1; [|discriminate].
  pose proof (linconsTightenVarBounds_tightened
                (fun x => exists i, 0 <= i < nvars /\ x = aget NULL vars i)
                (aget NULL vars v) (aget 0%float vals v) nchgbds n1 result res1 s
                (ex_intro _ v (conj Hv eq_refl))) as H1.
  rewrite E1 in H1. cbn [fst snd] in H1. specialize (H1 eq_refl).
  destruct (_ && _).
  - intros E. eapply tightened_trans; [exact H1|].
    apply (IH _ _ _ _ _ _ _ _) in E; [exact E|].
    destruct (Z.eqb_spec (v + 1) nvars); lia.
  - intros E. inversion E; subst. exact H1.
Qed.

(** X15: whenever linconsTightenBounds returns SCIP_OKAY, the counter
    nchgbds has grown by exactly the number of bound changes the call
    requested from SCIP, each of them for a variable of the constraint;
    if none was requested the result is the one passed in or
    SCIP_CUTOFF, otherwise it is SCIP_REDUCEDDOM or SCIP_CUTOFF. *)
Theorem linconsTightenBounds_counts (fuel : nat) (nchgbds n' : Z) (result res' : RESULT)
    (s s' : CLSTATE SCIP) :
  tightenBounds fuel nchgbds result s = Some (Ok (n', res'), s') ->
  tightened
    (fun x => exists i, 0 <= i < lc_nvars (cl_lincons s) /\
                        x = aget NULL (lc_vars (cl_lincons s)) i)
    nchgbds result s n' res' s'.
Proof.
  unfold linconsTightenBounds.
  destruct (lc_modifiable (cl_lincons s));
    [intros E; inversion E; apply tightened_refl|].
  destruct (0 <? lc_nvars (cl_lincons s)) eqn:Hn;
    [|intros E; inversion E; apply tightened_refl].
  apply Z.ltb_lt in Hn. apply linconsTightenBounds_loop_tightened. lia.
Qed.

(** ** cons_linear.c: the counters of infinite contributions *)

#[local] Abbreviation updateChgLb := (linconsUpdateChgLb SCIPisInfinity SCIPvarGetBestBoundType).
#[local] Abbreviation updateChgUb := (linconsUpdateChgUb SCIPisInfinity SCIPvarGetBestBoundType).
#[local] Abbreviation calcActivities :=
  (linconsCalcActivities SCIPisInfinity SCIPvarGetLbLocal SCIPvarGetUbLocal
     SCIPvarGetBestBoundType).
#[local] Abbreviation eventExec := (eventExecLinear SCIPisInfinity SCIPvarGetBestBoundType).

(** what the incremental update routines do to the constraint *)
Lemma linconsUpdateChgLb_effect (scip : SCIP) (var : ptr) (oldlb newlb val ub : Real)
    (lincons : LINCONS) :
  lc_validactivities lincons = true ->
  let lc' := updateChgLb scip var oldlb newlb val lincons in
  lc_minactivityinf lc'
  = lc_minactivityinf lincons - b2z (linMinInf (SCIPisInfinity scip) val oldlb ub)
    + b2z (linMinInf (SCIPisInfinity scip) val newlb ub) /\
  lc_maxactivityinf lc'
  = lc_maxactivityinf lincons - b2z (linMaxInf (SCIPisInfinity scip) val oldlb ub)
    + b2z (linMaxInf (SCIPisInfinity scip) val newlb ub) /\
  lc_vars lc' = lc_vars lincons /\ lc_vals lc' = lc_vals lincons /\
  lc_nvars lc' = lc_nvars lincons /\ lc_validactivities lc' = true.
Proof.
  intros Hvalid. cbv zeta. unfold linconsUpdateChgLb.
  rewrite Hvalid. unfold linMinInf, linMaxInf.
  destruct (BOUNDTYPE_eqb _ _);
    destruct (Rpos val);
    destruct (SCIPisInfinity scip (- oldlb)%float);
    destruct (SCIPisInfinity scip (- newlb)%float);
    destruct (SCIPisInfinity scip ub);
    cbn; rewrite ?Hvalid; repeat split; lia.
Qed.

Lemma linconsUpdateChgUb_effect (scip : SCIP) (var : ptr) (oldub newub val lb : Real)
    (lincons : LINCONS) :
  lc_validactivities lincons = true ->
  let lc' := updateChgUb scip var oldub newub val lincons in
  lc_minactivityinf lc'
  = lc_minactivityinf lincons - b2z (linMinInf (SCIPisInfinity scip) val lb oldub)
    + b2z (linMinInf (SCIPisInfinity scip) val lb newub) /\
  lc_maxactivityinf lc'
  = lc_maxactivityinf lincons - b2z (linMaxInf (SCIPisInfinity scip) val lb oldub)
    + b2z (linMaxInf (SCIPisInfinity scip) val lb newub) /\
  lc_vars lc' = lc_vars lincons /\ lc_vals lc' = lc_vals lincons /\
  lc_nvars lc' = lc_nvars lincons /\ lc_validactivities lc' = true.
Proof.
  intros Hvalid. cbv zeta. unfold linconsUpdateChgUb.
  rewrite Hvalid. unfold linMinInf, linMaxInf.
  destruct (BOUNDTYPE_eqb _ _);
    destruct (Rpos val);
    destruct (SCIPisInfinity scip oldub);
    destruct (SCIPisInfinity scip newub);
    destruct (SCIPisInfinity scip (- lb)%float);
    cbn; rewrite ?Hvalid; repeat split; lia.
Qed.

Lemma linDoms_length (lb ub : ptr -> Real) (lincons : LINCONS) :
  length (linDoms lb ub lincons) = Z.to_nat (lc_nvars lincons).
Proof. unfold linDoms. now rewrite !length_map, length_seq. Qed.

Lemma linDoms_nth (lb ub : ptr -> Real) (lincons : LINCONS) (i : Z) (d : Real * Real) :
  0 <= i < lc_nvars lincons ->
  nth (Z.to_nat i) (linDoms lb ub lincons) d
  = (lb (aget NULL (lc_vars lincons) i), ub (aget NULL (lc_vars lincons) i)).
Proof.
  intros Hi. unfold linDoms. rewrite map_map.
  match goal with
  | |- nth _ (map ?h _) _ = _ =>
      rewrite (nth_indep _ d (h 0%nat)) by (rewrite length_map, length_seq; lia);
      rewrite (map_nth h)
  end.
  rewrite seq_nth by lia. now rewrite Nat.add_0_l, Z2Nat.id by lia.
Qed.

(** X18: linconsCalcActivities recounts: for a SCIP that does not take
    zero for infinite and a constraint whose value array holds its
    nvars entries, it marks the activities valid, keeps the variables
    and coefficients, and leaves in minactivityinf and maxactivityinf
    the numbers of variables whose local bound contributes an unbounded
    value to the minimal and to the maximal activity. *)
Theorem linconsCalcActivities_exact (scip : SCIP) (lincons : LINCONS) :
  SCIPisInfinity scip 0%float = false ->
  SCIPisInfinity scip (- 0)%float = false ->
  0 <= lc_nvars lincons ->
  (Z.to_nat (lc_nvars lincons) <= length (lc_vals lincons))%nat ->
  let lc' := calcActivities scip lincons in
  let doms := linDoms (SCIPvarGetLbLocal scip) (SCIPvarGetUbLocal scip) lincons in
  lc_validactivities lc' = true /\
  lc_vars lc' = lc_vars lincons /\ lc_vals lc' = lc_vals lincons /\
  lc_nvars lc' = lc_nvars lincons /\
  linDomsOk lc' doms /\
  linCountersExact (SCIPisInfinity scip) lc' doms.
Proof.
  intros Hz Hnz Hlen Hvals lc' doms.
  set (vals := lc_vals lincons) in *.
  set (n := lc_nvars lincons) in *.
  assert (Hmin0 : forall v, linMinInf (SCIPisInfinity scip) v 0%float 0%float = false)
    by (intros v; unfold linMinInf; destruct (Rpos v); assumption).
  assert (Hmax0 : forall v, linMaxInf (SCIPisInfinity scip) v 0%float 0%float = false)
    by (intros v; unfold linMaxInf; destruct (Rpos v); assumption).
  assert (H : lc_validactivities lc' = true /\
              lc_vars lc' = lc_vars lincons /\ lc_vals lc' = vals /\ lc_nvars lc' = n /\
              lc_minactivityinf lc'
              = countInf (linMinInf (SCIPisInfinity scip)) (firstn (Z.to_nat n) vals)
                  (firstn (Z.to_nat n) doms) /\
              lc_maxactivityinf lc'
              = countInf (linMaxInf (SCIPisInfinity scip)) (firstn (Z.to_nat n) vals)
                  (firstn (Z.to_nat n) doms)).
  { subst lc'. unfold linconsCalcActivities.
    match goal with
    | |- context [for_range 0 _ ?body ?l1] => set (b := body); set (s1 := l1)
    end.
    change (lc_nvars s1) with n.
    apply (for_range_ind _
      (fun i s =>
         lc_validactivities s = true /\
         lc_vars s = lc_vars lincons /\ lc_vals s = vals /\ lc_nvars s = n /\
         lc_minactivityinf s
         = countInf (linMinInf (SCIPisInfinity scip)) (firstn (Z.to_nat i) vals)
             (firstn (Z.to_nat i) doms) /\
         lc_maxactivityinf s
         = countInf (linMaxInf (SCIPisInfinity scip)) (firstn (Z.to_nat i) vals)
             (firstn (Z.to_nat i) doms))
      b 0 n Hlen).
    - intros j t Hj (V & A1 & A2 & A3 & Mint & Maxt).
      subst b. cbv beta. unfold linconsUpdateAddCoef. rewrite V, A1, A2.
      set (var := aget NULL (lc_vars lincons) j).
      set (val := aget 0%float vals j).
      set (lb := SCIPvarGetLbLocal scip var).
      set (ub := SCIPvarGetUbLocal scip var).
      assert (Hd : nth (Z.to_nat j) doms (0%float, 0%float) = (lb, ub)).
      { unfold doms. now rewrite linDoms_nth by (fold n; lia). }
      destruct (linconsUpdateChgLb_effect scip var 0%float lb val 0%float t V)
        as (E1 & E2 & E3 & E4 & E5 & E6).
      set (tl := updateChgLb scip var 0 lb val t) in *.
      destruct (linconsUpdateChgUb_effect scip var 0%float ub val lb tl E6)
        as (F1 & F2 & F3 & F4 & F5 & F6).
      split; [exact F6|]. split; [congruence|]. split; [congruence|].
      split; [congruence|].
      replace (Z.to_nat (j + 1)) with (Datatypes.S (Z.to_nat j)) by lia.
      rewrite !(countInf_firstn_S _ _ _ _ (0%float, 0%float))
        by (try (unfold doms; rewrite linDoms_length; fold n); lia).
      rewrite Hd. cbn [fst snd].
      assert (Hv : nth (Z.to_nat j) vals 0%float = val).
      { unfold val, aget. now replace (j <? 0) with false by (symmetry; apply Z.ltb_ge; lia). }
      rewrite Hv, F1, F2, E1, E2, !Hmin0, !Hmax0, Mint, Maxt.
      cbn [b2z]. split; lia.
    - subst s1. cbn. repeat split. }
  destruct H as (V & A1 & A2 & A3 & Minr & Maxr).
  split; [exact V|]. split; [exact A1|]. split; [exact A2|]. split; [exact A3|].
  split.
  - unfold linDomsOk. rewrite A2, A3. unfold doms. rewrite linDoms_length. fold n. auto.
  - unfold linCountersExact, prefix.
    rewrite A2, A3, Minr, Maxr, !countInf_firstn_both. auto.
Qed.

(** X19: the event handler keeps the counters exact: when the
    activities are valid and the counters agree with a recount over the
    domains of the variables, a bound change event for the variable at a
    position of the constraint, delivered with the old bound of that
    domain, leaves counters that agree with a recount over the domains
    with the new bound in place; the activities stay valid and the
    constraint is marked as not propagated. *)
Theorem eventExecLinear_exact (scip : SCIP) (varpos : Z) (lower : bool) (var : ptr)
    (newbound : Real) (lincons : LINCONS) (doms : DOMS) :
  let d := aget (0%float, 0%float) doms varpos in
  let oldbound := if lower then fst d else snd d in
  let d' := if lower then (newbound, snd d) else (fst d, newbound) in
  let lc' := eventExec scip varpos lower var oldbound newbound lincons in
  let doms' := aset (0%float, 0%float) doms varpos d' in
  lc_validactivities lincons = true ->
  linDomsOk lincons doms ->
  linCountersExact (SCIPisInfinity scip) lincons doms ->
  0 <= varpos < lc_nvars lincons ->
  lc_validactivities lc' = true /\
  lc_propagated lc' = false /\
  linDomsOk lc' doms' /\
  linCountersExact (SCIPisInfinity scip) lc' doms' /\
  0 <= lc_minactivityinf lc' /\ 0 <= lc_maxactivityinf lc'.
Proof.
  intros d oldbound d' lc' doms' Hvalid (Hlen & Hvals & Hdoms) (Hmin & Hmax) Hpos.
  assert (Hn : (Z.to_nat varpos < Z.to_nat (lc_nvars lincons))%nat) by lia.
  assert (Hneg : (varpos <? 0) = false) by (apply Z.ltb_ge; lia).
  assert (Hd : nth (Z.to_nat varpos) doms (0%float, 0%float) = d)
    by (unfold d, aget; now rewrite Hneg).
  assert (Hv : nth (Z.to_nat varpos) (lc_vals lincons) 0%float
               = aget 0%float (lc_vals lincons) varpos)
    by (unfold aget; now rewrite Hneg).
  assert (Hex : lc_validactivities lc' = true /\ lc_propagated lc' = false /\
                linDomsOk lc' doms' /\ linCountersExact (SCIPisInfinity scip) lc' doms').
  { subst lc' doms' d' oldbound. unfold eventExecLinear, linCountersExact, linDomsOk.
    cbn [lc_validactivities lc_propagated lc_minactivityinf lc_maxactivityinf lc_vals
         lc_nvars set_lc_propagated].
    unfold aset. rewrite Hneg.
    destruct lower.
    - destruct (linconsUpdateChgLb_effect scip var (fst d) newbound
                  (aget 0%float (lc_vals lincons) varpos) (snd d) lincons Hvalid)
        as (E1 & E2 & E3 & E4 & E5 & E6).
      rewrite E1, E2, E4, E5, E6, Hmin, Hmax.
      do 2 (rewrite countInf_store_at; [|rewrite length_prefix; lia|lia]).
      rewrite length_store_at by lia.
      rewrite !nth_prefix by lia. rewrite Hd, Hv. cbn [fst snd].
      repeat split; auto; lia.
    - destruct (linconsUpdateChgUb_effect scip var (snd d) newbound
                  (aget 0%float (lc_vals lincons) varpos) (fst d) lincons Hvalid)
        as (E1 & E2 & E3 & E4 & E5 & E6).
      rewrite E1, E2, E4, E5, E6, Hmin, Hmax.
      do 2 (rewrite countInf_store_at; [|rewrite length_prefix; lia|lia]).
      rewrite length_store_at by lia.
      rewrite !nth_prefix by lia. rewrite Hd, Hv. cbn [fst snd].
      repeat split; auto; lia. }
  destruct Hex as (V & Pr & O & (Xmin & Xmax)).
  repeat split; auto; try apply O.
  - rewrite Xmin. apply countInf_nonneg.
  - rewrite Xmax. apply countInf_nonneg.
Qed.


(** the upper bound was tightened: the block of the lower bound runs on
    the state the bound change left, with the upper bound read again *)
Lemma linconsTightenVarBounds_after_upper
    (var : ptr) (val : Real) (nchgbds : Z) (result : RESULT) (s s0 : CLSTATE SCIP)
    (minres maxres : Real) (scip1 : SCIP) (lc1 : LINCONS) :
  let scip := cl_scip s in
  let lb := SCIPvarGetLbLocal scip var in
  let ub := SCIPvarGetUbLocal scip var in
  let newub := ((lc_rhs (cl_lincons s) - minres) / val)%float in
  let newlb := ((lc_lhs (cl_lincons s) - maxres) / val)%float in
  let s1 := mkCL scip1 lc1 (cl_calls s ++ [CallChgVarUb var newub]) in
  let t1 := mkTIGHTEN lb (SCIPvarGetUbLocal scip1 var) (nchgbds + 1) SCIP_REDUCEDDOM false in
  residuals var val s = (Ok (minres, maxres), s0) ->
  Rpos val = true ->
  SCIPisInfinity scip (- minres)%float = false ->
  SCIPisInfinity scip (lc_rhs (cl_lincons s)) = false ->
  SCIPisSumLT scip newub ub = true ->
  SCIPisSumLT scip newub lb = false ->
  SCIPchgVarUb scip (cl_lincons s0) var newub = (SCIP_OKAY, (scip1, lc1)) ->
  tightenVarBounds var val nchgbds result s
  = (t <- block (finiteMax SCIPisInfinity maxres (lc_lhs (cl_lincons s)))
            (tightenLower SCIPisSumGT SCIPvarGetLbLocal SCIPchgVarLb var newlb) t1 ;;
     ret (t_nchgbds t, t_result t)) s1.
Proof.
  intros scip lb ub newub newlb s1 t1 Hres Hval Hmin Hrhs Hlt Hcross Hchg.
  destruct (linconsGetActivityResiduals_frame var val s) as (mm & _ & Hscip & Hcalls).
  rewrite Hres in Hscip, Hcalls. cbn [snd] in Hscip, Hcalls.
  unfold linconsTightenVarBounds.
  rewrite (bind_ok _ _ s (minres, maxres)) by (now rewrite Hres).
  rewrite Hres. cbn [snd]. rewrite Hval, Hscip. fold scip lb ub newub newlb.
  set (t0 := mkTIGHTEN lb ub nchgbds result false).
  set (U := block (finiteMin SCIPisInfinity minres (lc_rhs (cl_lincons s)))
              (tightenUpper SCIPisSumLT SCIPvarGetUbLocal SCIPchgVarUb var newub) t0).
  assert (HU : U s0 = (Ok t1, s1)).
  { subst U. unfold block, finiteMin, tightenUpper. cbn [t_returned t0 t_ub t_lb t_nchgbds].
    rewrite Hscip. fold scip. rewrite Hmin, Hrhs. cbn [negb andb].
    rewrite Hlt, Hcross.
    unfold bind, chgVarUb, check. rewrite Hscip, Hcalls. fold scip. rewrite Hchg.
    reflexivity. }
  unfold bind. rewrite HU. reflexivity.
Qed.

(** C5 (as the routine behaves): for a call with a positive coefficient,
    finite residual minimal activity and finite right hand side, let
    newub = (rhs - minresactivity)/val and newlb = (lhs - maxresactivity)/val.
    The call requests an upper bound only for this variable, only the
    value newub, and only when newub is below the upper bound by more than
    the sum tolerance and not below the lower bound. When newub is below
    both bounds, the call reports the cutoff and leaves SCIP and the list
    of requested changes as they were. When the upper bound is left alone
    and newlb is above both bounds, the same holds. Whenever the call
    reports a cutoff, it has requested either nothing or exactly the
    change of the upper bound to newub, which precedes the test of newlb:
    the candidate that crosses is never requested, and nothing after it.
    When the upper bound has been tightened, the candidate newlb is tested
    in the state the bound change left, against the lower bound and
    against the upper bound as read again after the change: if it is
    above both, the call reports the cutoff with the one change of the
    upper bound counted and requested and nothing else; if it is above the
    lower bound only, the lower bound is requested next. *)
Theorem linconsTightenVarBounds_positive_coefficient
    (var : ptr) (val : Real) (nchgbds : Z) (result : RESULT) (s s0 : CLSTATE SCIP)
    (minres maxres : Real) :
  let scip := cl_scip s in
  let lb := SCIPvarGetLbLocal scip var in
  let ub := SCIPvarGetUbLocal scip var in
  let newub := ((lc_rhs (cl_lincons s) - minres) / val)%float in
  let newlb := ((lc_lhs (cl_lincons s) - maxres) / val)%float in
  let r := tightenVarBounds var val nchgbds result s in
  residuals var val s = (Ok (minres, maxres), s0) ->
  Rpos val = true ->
  SCIPisInfinity scip (- minres)%float = false ->
  SCIPisInfinity scip (lc_rhs (cl_lincons s)) = false ->
  exists calls,
    cl_calls (snd r) = cl_calls s ++ calls /\
    (forall v b, In (CallChgVarUb v b) calls ->
       v = var /\ b = newub /\
       SCIPisSumLT scip newub ub = true /\ SCIPisSumLT scip newub lb = false) /\
    (SCIPisSumLT scip newub ub = true -> SCIPisSumLT scip newub lb = true ->
       r = (Ok (nchgbds, SCIP_CUTOFF), s0) /\ calls = []) /\
    (result <> SCIP_CUTOFF ->
     forall n, fst r = Ok (n, SCIP_CUTOFF) ->
       (calls = [] /\ n = nchgbds /\ cl_scip (snd r) = scip) \/
       (calls = [CallChgVarUb var newub] /\ n = nchgbds + 1)) /\
    (SCIPisSumLT scip newub ub = false ->
     SCIPisInfinity scip maxres = false ->
     SCIPisInfinity scip (- lc_lhs (cl_lincons s))%float = false ->
     SCIPisSumGT scip newlb lb = true -> SCIPisSumGT scip newlb ub = true ->
       r = (Ok (nchgbds, SCIP_CUTOFF), s0) /\ calls = []) /\
    (SCIPisSumLT scip newub ub = true -> SCIPisSumLT scip newub lb = false ->
     forall scip1 lc1,
       SCIPchgVarUb scip (cl_lincons s0) var newub = (SCIP_OKAY, (scip1, lc1)) ->
       SCIPisInfinity scip1 maxres = false ->
       SCIPisInfinity scip1 (- lc_lhs (cl_lincons s))%float = false ->
       SCIPisSumGT scip1 newlb lb = true ->
       (SCIPisSumGT scip1 newlb (SCIPvarGetUbLocal scip1 var) = true ->
        r = (Ok (nchgbds + 1, SCIP_CUTOFF),
             mkCL scip1 lc1 (cl_calls s ++ [CallChgVarUb var newub])) /\
        calls = [CallChgVarUb var newub]) /\
       (SCIPisSumGT scip1 newlb (SCIPvarGetUbLocal scip1 var) = false ->
        calls = [CallChgVarUb var newub; CallChgVarLb var newlb])).
Proof.
  intros scip lb ub newub newlb r Hres Hval Hmin Hrhs.
  destruct (linconsTightenVarBounds_positive_requests var val nchgbds result s s0
              minres maxres Hres Hval Hmin Hrhs)
    as (calls & C1 & C2 & C3 & C4 & C5).
  fold scip lb ub newub newlb r in C1, C2, C3, C4, C5.
  exists calls. do 5 (split; [assumption|]).
  intros Hlt Hcross scip1 lc1 Hchg Hmax Hlhs Hgt.
  pose proof (linconsTightenVarBounds_after_upper var val nchgbds result s s0
                minres maxres scip1 lc1 Hres Hval Hmin Hrhs Hlt Hcross Hchg) as E.
  fold scip lb ub newub newlb r in E.
  unfold bind, block, finiteMax, tightenLower, ret in E.
  cbn [t_returned t_lb t_ub t_nchgbds cl_scip] in E.
  rewrite Hmax, Hlhs, Hgt in E. cbn [negb andb] in E.
  split; intros Hub; rewrite Hub in E.
  - split; [exact E|]. rewrite E in C1. cbn [snd cl_calls] in C1.
    apply app_inv_head in C1. now symmetry.
  - unfold bind, chgVarLb, check in E. cbn [cl_scip cl_lincons cl_calls] in E.
    destruct (SCIPchgVarLb scip1 lc1 var newlb) as [rc [scip2 lc2]].
    destruct (RETCODE_eqb rc SCIP_OKAY); rewrite E in C1; cbn [snd cl_calls] in C1;
      rewrite <- app_assoc in C1; apply app_inv_head in C1; now symmetry.
Qed.

End ConsLinearTheorems.

(** * Concrete instances *)

#[local] Set Warnings "-inexact-float".

(** the marker value and the tolerances of a default installation *)
Definition INVALID : float := 1e99%float.

Definition stdSet : SET :=
  mkSET 1e20%float 1e-6%float
    (fun v => (1e20 <=? v)%float)
    (fun v => (ABSr v <=? 1e-9)%float)
    (fun a b => (ABSr (a - b) <=? 1e-9)%float)
    (fun a b => (b + 1e-9 <? a)%float)
    (fun a b => (b - 1e-9 <=? a)%float).

(** a solver that accepts every call and reports an optimal solution *)
Definition okLpi : LPI :=
  mkLPI [] (fun _ _ => SCIP_OKAY) 1e30%float
    (fun _ => (SCIP_OKAY, (true, true)))
    (fun _ => true) (fun _ => false) (fun _ => false) (fun _ => false) (fun _ => false)
    (fun _ => false) (fun _ => (SCIP_OKAY, 0%float)) (fun _ _ => (SCIP_OKAY, 0)).

(** structs as the create routines leave them, without entries *)
Definition nilCol : COL :=
  mkCOL NULL [] [] [] 0 0 0 (-1) (-1) 0%float INVALID INVALID INVALID INVALID (-1) (-1) (-1)
    true false false false.

Definition nilRow : ROW :=
  mkROW [] [] [] 0%float 0%float 0%float 0%float 0%float 0%float INVALID 0%float INVALID
    INVALID INVALID 0 0 0 1 (-1) (-1) INT_MAX INT_MIN 1 (-1) (-1) (-1)
    true false false true false false false false false 0.

Definition nilLp : LP :=
  mkLP okLpi [] [] [] [] [] [] SCIP_LPSOLSTAT_OPTIMAL 0%float 0 0 0 0 0 0 0 0 0 0
    true true true true.

Definition nilMem : MEM :=
  mkMEM (fun _ => nilCol) (fun _ => nilRow) (fun _ => mkVAR 0%float 0%float 0%float) nilLp
    (mkSTAT 0 0 0 0 0 0).

(** a row [2 x1 - x2] whose activity bounds are valid for the domains
    x1 in [lb1, ub1], x2 in [lb2, ub2] *)
Definition twoColRow (minact maxact : float) (mininf maxinf : Z) : ROW :=
  nilRow |> set_row_cols [1%nat; 2%nat]
         |> set_row_vals [2%float; (-1)%float]
         |> set_row_linkpos [0; 0]
         |> set_row_len 2
         |> set_row_validactivitybds true
         |> set_row_minactivity minact
         |> set_row_maxactivity maxact
         |> set_row_minactivityinf mininf
         |> set_row_maxactivityinf maxinf.

(** Scenario of the specification: coefficients [2, -1], domains [0,5]
    and [0,10], activity bounds [-10, 10]; raising the lower bound of the
    second column from 0 to 3 moves the maximal activity to 7 through the
    incremental update. *)
Example scenario_column_activity_update :
  let row := twoColRow (-10)%float 10%float 0 0 in
  let row' := rowUpdateActivityBoundsLb stdSet 1 0%float 3%float row in
  reportedActivityBounds stdSet row' = ((-10)%float, 7%float).
Proof. reflexivity. Qed.

Lemma SCIProwGetActivityResiduals_witness :
  let row := twoColRow 0%float 10%float 1 0 in
  let m := putVar 1%nat (mkVAR 1%float (-1e20)%float 5%float) (putRow 1%nat row nilMem) in
  SCIProwGetActivityResiduals INVALID stdSet 1%nat 1%nat 2%float m
  = (Ok (0%float, 0%float), m).
Proof.
  intros row m.
  destruct (SCIProwGetActivityResiduals_spec INVALID stdSet m 1%nat 1%nat 2%float)
    as (minres & maxres & E & A1 & _ & _ & _ & _ & _ & A7 & _).
  - reflexivity.
  - rewrite E. rewrite A1 by reflexivity. rewrite A7 by reflexivity. reflexivity.
Defined.

(** ** Row locks *)

(** a locked, unmodifiable row [0 <= ... <= 10] without entries *)
Definition lockedRowMem : MEM :=
  putRow 1%nat (nilRow |> set_row_rhs 10%float |> set_row_nlocks 1) nilMem.

Lemma locked_row_coefficients_witness :
  rowAddCoeff INVALID stdSet 1%nat 1%nat 2%float (-1) None lockedRowMem
  = (Err SCIP_INVALIDDATA, lockedRowMem).
Proof.
  apply (locked_row_coefficients INVALID stdSet lockedRowMem 1%nat 1%nat 2%float (-1) 0 None).
  reflexivity.
Defined.

(** C6: SCIProwChgLhs(row, 5.0) and SCIProwChgRhs(row, 7.0) on the locked,
    unmodifiable row 0 <= ... <= 10 (nlocks = 1): neither call fails, the
    left hand side moves from 0 to 5 and the right hand side from 10
    to 7 *)
Theorem locked_row_side_change :
  let r := SCIProwChgLhs INVALID stdSet 1%nat 5%float lockedRowMem in
  let r' := SCIProwChgRhs INVALID stdSet 1%nat 7%float lockedRowMem in
  0 < row_nlocks (m_rows lockedRowMem 1%nat) /\
  row_modifiable (m_rows lockedRowMem 1%nat) = false /\
  row_lhs (m_rows lockedRowMem 1%nat) = 0%float /\
  row_rhs (m_rows lockedRowMem 1%nat) = 10%float /\
  fst r = Ok tt /\
  row_lhs (m_rows (snd r) 1%nat) = 5%float /\
  fst r' = Ok tt /\
  row_rhs (m_rows (snd r') 1%nat) = 7%float.
Proof. cbv zeta. repeat split. Qed.

(** ** Coefficient change on a row in the solver *)

(** a flushed and solved LP with one row in the solver and no column *)
Definition oneRowMem : MEM :=
  nilMem
  |> putRow 1%nat (nilRow |> set_row_lppos 0 |> set_row_lpipos 0)
  |> putLp (nilLp |> set_lp_rows [1%nat] |> set_lp_nrows 1
                  |> set_lp_lpirows [1%nat] |> set_lp_nlpirows 1
                  |> set_lp_lpifirstchgrow 1).

(** a coefficient for a column that is not in the solver is added to the
    row: the row changes, the LP stays flushed and solved *)
Lemma coefficient_change_keeps_flushed :
  let r := SCIProwAddCoeff INVALID stdSet 1%nat 2%nat 2%float oneRowMem in
  0 <= row_lpipos (m_rows oneRowMem 1%nat) /\
  row_len (m_rows oneRowMem 1%nat) = 0 /\
  fst r = Ok tt /\
  row_len (m_rows (snd r) 1%nat) = 1 /\
  aget 0%float (row_vals (m_rows (snd r) 1%nat)) 0 = 2%float /\
  lp_flushed (m_lp (snd r)) = true /\
  lp_solved (m_lp (snd r)) = true /\
  lp_lpsolstat (m_lp (snd r)) = SCIP_LPSOLSTAT_OPTIMAL /\
  ~ unflushedUnsolved (snd r).
Proof.
  cbv zeta. repeat split; try (vm_compute; congruence).
  intros (H & _). vm_compute in H. discriminate H.
Qed.

(** ** Link positions *)

(** row 1 and column 5 share one linked coefficient *)
Definition linkedMem : MEM :=
  nilMem
  |> putRow 1%nat (nilRow |> set_row_cols [5%nat] |> set_row_vals [3%float]
                          |> set_row_linkpos [0] |> set_row_len 1
                          |> set_row_nunlinked 0)
  |> putCol 5%nat (nilCol |> set_col_rows [1%nat] |> set_col_vals [3%float]
                          |> set_col_linkpos [0] |> set_col_len 1
                          |> set_col_nunlinked 0).

(** C9: SCIPcolCreate for a new column with the one entry (row 1, 2.0), when
    the allocated link array holds 7: the new column keeps the 7 in its
    link array, and the link position of row 1, which pointed into column
    5, is overwritten with -1 *)
Lemma SCIPcolCreate_link_arrays :
  let r := SCIPcolCreate INVALID 2%nat [7] stdSet 3%nat 1 [1%nat] [2%float] linkedMem in
  fst r = Ok tt /\
  col_len (m_cols (snd r) 2%nat) = 1 /\
  col_nunlinked (m_cols (snd r) 2%nat) = 1 /\
  col_linkpos (m_cols (snd r) 2%nat) = [7] /\
  row_linkpos (m_rows linkedMem 1%nat) = [0] /\
  row_nunlinked (m_rows (snd r) 1%nat) = 0 /\
  row_linkpos (m_rows (snd r) 1%nat) = [-1].
Proof. cbv zeta. repeat split. Qed.

(** C8: rowUnlink on row 1: the entry leaves column 5 and the counter of the
    row reaches its length, but its link position stays 0; colUnlink on
    column 5 stores the sentinel *)
Lemma rowUnlink_link_positions :
  let r := rowUnlink INVALID stdSet 1%nat linkedMem in
  let c := colUnlink INVALID stdSet 5%nat linkedMem in
  fst r = Ok tt /\
  col_len (m_cols (snd r) 5%nat) = 0 /\
  row_len (m_rows (snd r) 1%nat) = 1 /\
  row_nunlinked (m_rows (snd r) 1%nat) = 1 /\
  row_linkpos (m_rows (snd r) 1%nat) = [0] /\
  fst c = Ok tt /\
  row_len (m_rows (snd c) 1%nat) = 0 /\
  col_len (m_cols (snd c) 5%nat) = 1 /\
  col_nunlinked (m_cols (snd c) 5%nat) = 1 /\
  col_linkpos (m_cols (snd c) 5%nat) = [-1].
Proof. cbv zeta. repeat split. Qed.

(** ** Objective limit reported to the primal simplex *)

(** a solver that accepts every call and stops at the objective limit *)
Definition objlimLpi : LPI :=
  mkLPI [] (fun _ _ => SCIP_OKAY) 1e30%float
    (fun _ => (SCIP_OKAY, (true, false)))
    (fun _ => false) (fun _ => false) (fun _ => false) (fun _ => false) (fun _ => false)
    (fun _ => true) (fun _ => (SCIP_OKAY, 0%float)) (fun _ _ => (SCIP_OKAY, 0)).

(** an LP with one new row, neither flushed nor solved *)
Definition objlimMem : MEM :=
  nilMem
  |> putRow 1%nat (nilRow |> set_row_lppos 0 |> set_row_rhs 4%float)
  |> putLp (nilLp |> set_lp_lpi objlimLpi |> set_lp_rows [1%nat] |> set_lp_nrows 1
                  |> set_lp_flushed false |> set_lp_solved false
                  |> set_lp_lpsolstat SCIP_LPSOLSTAT_NOTSOLVED).

(** ** A flush with a deletion and two additions *)

(** Column 6 is in the solver at position 0 and has left the LP; column 4
    is new, with entries in row 1 (in the solver) and in row 2 (new);
    row 2 is new, with its entry in column 4. *)
Definition flushMem : MEM :=
  nilMem
  |> putVar 3%nat (mkVAR 1%float 0%float 9%float)
  |> putRow 1%nat (nilRow |> set_row_cols [4%nat] |> set_row_vals [2%float]
                          |> set_row_linkpos [0] |> set_row_len 1
                          |> set_row_rhs 4%float
                          |> set_row_lppos 0 |> set_row_lpipos 0)
  |> putRow 2%nat (nilRow |> set_row_cols [4%nat] |> set_row_vals [5%float]
                          |> set_row_linkpos [1] |> set_row_len 1
                          |> set_row_rhs 7%float
                          |> set_row_lppos 1)
  |> putCol 4%nat (nilCol |> set_col_var 3%nat
                          |> set_col_rows [1%nat; 2%nat] |> set_col_vals [2%float; 5%float]
                          |> set_col_linkpos [0; 0] |> set_col_len 2
                          |> set_col_lppos 0)
  |> putCol 6%nat (nilCol |> set_col_var 3%nat |> set_col_lpipos 0)
  |> putLp (nilLp |> set_lp_lpicols [6%nat] |> set_lp_nlpicols 1
                  |> set_lp_rows [1%nat; 2%nat] |> set_lp_nrows 2
                  |> set_lp_cols [4%nat] |> set_lp_ncols 1
                  |> set_lp_lpirows [1%nat] |> set_lp_nlpirows 1
                  |> set_lp_lpifirstchgrow 1
                  |> set_lp_flushed false |> set_lp_solved false
                  |> set_lp_lpsolstat SCIP_LPSOLSTAT_NOTSOLVED).

(** The flush deletes column 6, then adds column 4 with the one
    coefficient of row 1 (the entry of row 2 is left out), then adds row 2
    with its coefficient in column 4, which by then is at position 0. *)
Example scenario_flush :
  let r := lpFlush INVALID stdSet flushMem in
  fst r = Ok tt /\
  lpi_calls (lp_lpi (m_lp (snd r)))
  = [LpiDelCols 0 0;
     LpiAddCols 1 [1%float] [0%float] [9%float] 1 [0] [0] [2%float];
     LpiAddRows 1 [0%float] [7%float] 1 [0] [0] [5%float]] /\
  lp_flushed (m_lp (snd r)) = true.
Proof. cbv zeta. repeat split. Qed.

(** ** Bound tightening on a store of variable bounds *)

(** scip.c and var.c are not part of the sources. The runs below
    instantiate the interface of section ConsLinear with a store of the
    local bounds of the variables that knows which of them are integer;
    linconsTightenVarBounds reads a bound again after changing it,
    because it may be additionally modified due to integrality. *)
Record VARSTORE : Type := mkVARSTORE {
  vs_lb : ptr -> Real;
  vs_ub : ptr -> Real;
  vs_integral : ptr -> bool
}.

Definition vsInfinity (_ : VARSTORE) : Real := 1e20%float.
Definition vsIsInfinity (_ : VARSTORE) (v : Real) : bool := (1e20 <=? v)%float.
(** sum comparisons with the tolerance 1e-6 *)
Definition vsIsSumLT (_ : VARSTORE) (a b : Real) : bool := (a <? b - 1e-6)%float.
Definition vsIsSumGT (_ : VARSTORE) (a b : Real) : bool := (b + 1e-6 <? a)%float.
Definition vsBestBoundType (_ : VARSTORE) (_ : ptr) : BOUNDTYPE := SCIP_BOUNDTYPE_LOWER.

(** the largest integer not above a number between 0 and 2^51 *)
Definition floorReal (x : Real) : Real :=
  let t := (x + 4503599627370496 - 4503599627370496)%float in
  if (x <? t)%float then (t - 1)%float else t.

(** the smallest integer not below such a number *)
Definition ceilReal (x : Real) : Real :=
  let t := (x + 4503599627370496 - 4503599627370496)%float in
  if (t <? x)%float then (t + 1)%float else t.

(** the position of a variable in the constraint *)
Fixpoint varposOf (var : ptr) (vars : list ptr) : Z :=
  match vars with
  | [] => 0
  | v :: vars => if Nat.eqb v var then 0 else 1 + varposOf var vars
  end.

(** A bound change stores the bound, moved to the next integer inside the
    domain for an integer variable, and runs the event handler of the
    constraint. *)
Definition vsChgVarLb (st : VARSTORE) (lincons : LINCONS) (var : ptr) (newlb : Real)
    : RETCODE * (VARSTORE * LINCONS) :=
  let newlb := if vs_integral st var then ceilReal newlb else newlb in
  let st' := mkVARSTORE (upd (vs_lb st) var newlb) (vs_ub st) (vs_integral st) in
  (SCIP_OKAY,
   (st', eventExecLinear vsIsInfinity vsBestBoundType st' (varposOf var (lc_vars lincons))
           true var (vs_lb st var) newlb lincons)).

Definition vsChgVarUb (st : VARSTORE) (lincons : LINCONS) (var : ptr) (newub : Real)
    : RETCODE * (VARSTORE * LINCONS) :=
  let newub := if vs_integral st var then floorReal newub else newub in
  let st' := mkVARSTORE (vs_lb st) (upd (vs_ub st) var newub) (vs_integral st) in
  (SCIP_OKAY,
   (st', eventExecLinear vsIsInfinity vsBestBoundType st' (varposOf var (lc_vars lincons))
           false var (vs_ub st var) newub lincons)).

Definition vsTightenVarBounds :=
  linconsTightenVarBounds vsInfinity vsIsInfinity vsIsSumLT vsIsSumGT vs_lb vs_ub
    vsBestBoundType vsChgVarLb vsChgVarUb.

Definition vsTightenBounds :=
  linconsTightenBounds vsInfinity vsIsInfinity vsIsSumLT vsIsSumGT vs_lb vs_ub
    vsBestBoundType vsChgVarLb vsChgVarUb.

(** the constraint [lhs <= val * x1 <= rhs], activities not yet computed *)
Definition oneVarCons (val lhs rhs : Real) : LINCONS :=
  mkLINCONS [1%nat] [val] lhs rhs 0%float 0%float 0%float 0 0 1
    false false false true false false false true.

(** x1 in [lb, ub] *)
Definition oneVarStore (lb ub : Real) (integral : bool) : VARSTORE :=
  mkVARSTORE (fun _ => lb) (fun _ => ub) (fun _ => integral).

(** Scenario of the specification: [x1 <= 5] with x1 in [10, 20] *)
Definition cutoffState : CLSTATE VARSTORE :=
  mkCL (oneVarStore 10%float 20%float false) (oneVarCons 1%float (-1e20)%float 5%float) [].

(** [2 x1 = 5] with x1 an integer variable in [0, 10] *)
Definition parityState : CLSTATE VARSTORE :=
  mkCL (oneVarStore 0%float 10%float true) (oneVarCons 2%float 5%float 5%float) [].

(** the same constraint sides crossed, [8 <= x1 <= 5], x1 continuous in [0, 10] *)
Definition crossedState : CLSTATE VARSTORE :=
  mkCL (oneVarStore 0%float 10%float false) (oneVarCons 1%float 8%float 5%float) [].

(** Scenario of the specification: coefficient 1.0, rhs = 5, bounds
    [10, 20]. The residual activities are 0, the candidate 5 is below the
    lower bound 10: the routine reports the cutoff at its first test and
    requests no bound change; so does the loop over the variables in its
    first round. *)
Lemma linconsTightenVarBounds_positive_coefficient_witness :
  let r := vsTightenVarBounds 1%nat 1%float 0 SCIP_DIDNOTFIND cutoffState in
  fst r = Ok (0, SCIP_CUTOFF) /\
  cl_calls (snd r) = [] /\
  cl_scip (snd r) = cl_scip cutoffState.
Proof.
  set (s0 := snd (linconsGetActivityResiduals vsInfinity vsIsInfinity vs_lb vs_ub
                    vsBestBoundType 1%nat 1%float cutoffState)).
  destruct (linconsTightenVarBounds_positive_coefficient VARSTORE vsInfinity vsIsInfinity
              vsIsSumLT vsIsSumGT vs_lb vs_ub vsBestBoundType vsChgVarLb vsChgVarUb
              1%nat 1%float 0 SCIP_DIDNOTFIND cutoffState s0 0%float 0%float)
    as (calls & Hcalls & _ & Hcut & _); try reflexivity.
  destruct Hcut as (E & Hnil); try reflexivity.
  cbv zeta. unfold vsTightenVarBounds. rewrite E. rewrite Hnil in Hcalls.
  repeat split.
Defined.

Example scenario_infeasible_tightening :
  match vsTightenBounds 1 0 SCIP_DIDNOTFIND cutoffState with
  | Some (r, s') =>
      r = Ok (0, SCIP_CUTOFF) /\ cl_calls s' = [] /\ cl_scip s' = cl_scip cutoffState
  | None => False
  end.
Proof. vm_compute. repeat split. Qed.

(** [2 x1 = 5], x1 integer in [0, 10]: the candidate 2.5 for the upper
    bound is requested and stored as 2; the candidate 2.5 for the lower
    bound is then above the upper bound, and the routine reports the
    cutoff with the upper bound of x1 changed from 10 to 2 *)
Lemma cutoff_after_upper_bound_change :
  let r := vsTightenVarBounds 1%nat 2%float 0 SCIP_DIDNOTFIND parityState in
  vs_lb (cl_scip parityState) 1%nat = 0%float /\
  vs_ub (cl_scip parityState) 1%nat = 10%float /\
  fst r = Ok (1, SCIP_CUTOFF) /\
  cl_calls (snd r) = [CallChgVarUb 1%nat 2.5%float] /\
  vs_lb (cl_scip (snd r)) 1%nat = 0%float /\
  vs_ub (cl_scip (snd r)) 1%nat = 2%float.
Proof. cbv zeta. repeat split. Qed.

(** without integrality the same happens when the sides of the constraint
    cross: the upper bound moves from 10 to 5 before the lower candidate
    8 brings the cutoff *)
Example scenario_crossed_sides :
  let r := vsTightenVarBounds 1%nat 1%float 0 SCIP_DIDNOTFIND crossedState in
  fst r = Ok (1, SCIP_CUTOFF) /\
  cl_calls (snd r) = [CallChgVarUb 1%nat 5%float] /\
  vs_ub (cl_scip (snd r)) 1%nat = 5%float.
Proof. cbv zeta. repeat split. Qed.

(** ** Searching and deleting coefficients *)

(** sort.c is not part of the sources. The runs below work on vectors
    whose sorted flag is set, for which SCIPcolSort and SCIProwSort are
    not entered; the sort is instantiated by a routine that leaves the
    arrays in their order. *)
Definition keepOrder (p : list ptr) (d : list float) (i : list Z) (len : Z)
    (cmp : ptr -> ptr -> Z) : list ptr * list float * list Z := (p, d, i).

(** rows 1, 2, 3, 4 with the indices 10, 20, 30, 25 and columns 5, 6, 7
    with the indices 10, 20, 30; column 5 holds the rows 1, 2, 3 and row
    1 holds the columns 5, 6, 7, all entries unlinked *)
Definition searchMem : MEM :=
  nilMem
  |> putRow 1%nat (nilRow |> set_row_index 10
                          |> set_row_cols [5%nat; 6%nat; 7%nat]
                          |> set_row_vals [1%float; 2%float; 3%float]
                          |> set_row_linkpos [-1; -1; -1]
                          |> set_row_len 3 |> set_row_nunlinked 3)
  |> putRow 2%nat (nilRow |> set_row_index 20)
  |> putRow 3%nat (nilRow |> set_row_index 30)
  |> putRow 4%nat (nilRow |> set_row_index 25)
  |> putCol 5%nat (nilCol |> set_col_index 10
                          |> set_col_rows [1%nat; 2%nat; 3%nat]
                          |> set_col_vals [1%float; 4%float; 5%float]
                          |> set_col_linkpos [-1; -1; -1]
                          |> set_col_len 3 |> set_col_nunlinked 3)
  |> putCol 6%nat (nilCol |> set_col_index 20)
  |> putCol 7%nat (nilCol |> set_col_index 30).

Ltac small_cases :=
  repeat match goal with
         | H : _ <= ?i < _ |- _ =>
             assert (i = 0 \/ i = 1 \/ i = 2) as [-> | [-> | ->]] by lia; clear H
         end.

(** row 2 stands at position 1 of column 5 *)
Lemma colSearchCoeff_spec_witness :
  colSearchCoeff keepOrder 4 5%nat 2%nat searchMem = Some (1, searchMem).
Proof.
  destruct (colSearchCoeff_spec keepOrder 4 5%nat 2%nat searchMem)
    as (pos & E & _ & Hc); [reflexivity|vm_compute; discriminate|cbn; lia|].
  rewrite E. f_equal. f_equal. apply Hc.
  - intros i j Hi Hij Hj.
    assert (Hi' : 0 <= i < 3) by (change (j < 3) in Hj; lia).
    assert (Hj' : 0 <= j < 3) by (change (j < 3) in Hj; lia).
    small_cases; try lia; vm_compute; reflexivity.
  - vm_compute. split; [discriminate|reflexivity].
  - reflexivity.
Defined.

(** column 7 stands at position 2 of row 1 *)
Lemma rowSearchCoeff_spec_witness :
  rowSearchCoeff keepOrder 4 1%nat 7%nat searchMem = Some (2, searchMem).
Proof.
  destruct (rowSearchCoeff_spec keepOrder 4 1%nat 7%nat searchMem)
    as (pos & E & _ & Hc); [reflexivity|vm_compute; discriminate|cbn; lia|].
  rewrite E. f_equal. f_equal. apply Hc.
  - intros i j Hi Hij Hj.
    assert (Hi' : 0 <= i < 3) by (change (j < 3) in Hj; lia).
    assert (Hj' : 0 <= j < 3) by (change (j < 3) in Hj; lia).
    small_cases; try lia; vm_compute; reflexivity.
  - vm_compute. split; [discriminate|reflexivity].
  - reflexivity.
Defined.

(** row 4 (index 25) has no entry in column 5 *)
Lemma SCIPcolDelCoeff_missing_witness :
  SCIPcolDelCoeff INVALID keepOrder 4 stdSet 5%nat 4%nat searchMem
  = Some (Err SCIP_INVALIDDATA, searchMem).
Proof.
  apply (SCIPcolDelCoeff_missing INVALID keepOrder 4 stdSet 5%nat 4%nat searchMem);
    [reflexivity|vm_compute; discriminate|cbn; lia|].
  intros p Hp.
  assert (Hp' : 0 <= p < 3) by (change (0 <= p < 3) in Hp; lia).
  small_cases; vm_compute; discriminate.
Defined.

(** row 1 and column 5 of [linkedMem], the row locked *)
Definition lockedLinkedMem : MEM := modRow 1%nat (set_row_nlocks 1) linkedMem.

(** the deletion fails, the row keeps its entry, column 5 has lost it *)
Lemma SCIProwDelCoeff_locked_witness :
  match SCIProwDelCoeff INVALID keepOrder 2 stdSet 1%nat 5%nat lockedLinkedMem with
  | Some (r, m') =>
      r = Err SCIP_INVALIDDATA /\
      row_len (m_rows m' 1%nat) = 1 /\
      col_len (m_cols lockedLinkedMem 5%nat) = 1 /\ col_len (m_cols m' 5%nat) = 0
  | None => False
  end.
Proof.
  destruct (SCIProwDelCoeff_locked INVALID keepOrder 2 stdSet 1%nat 5%nat lockedLinkedMem 0)
    as (E & _ & _ & Hl & Hc);
    [reflexivity|vm_compute; discriminate|cbn; lia| |vm_compute; split; [discriminate|reflexivity]
    |reflexivity|reflexivity|].
  - intros i j Hi Hij Hj. change (j < 1) in Hj. lia.
  - rewrite E. split; [reflexivity|]. split; [exact Hl|]. split; [reflexivity|].
    rewrite Hc; [reflexivity|vm_compute; discriminate].
Defined.

(** the index range of row 1 of [searchMem] is [10, 30], and the row is
    sorted *)
Lemma rowCalcNorms_index_range_witness :
  let r' := m_rows (rowCalcNorms stdSet 1%nat searchMem) 1%nat in
  row_validminmaxidx r' = true /\ row_minidx r' = 10 /\ row_maxidx r' = 30 /\
  row_sorted r' = true.
Proof.
  destruct (rowCalcNorms_index_range stdSet 1%nat searchMem) as (V & _).
  - intros p Hp.
    assert (Hp' : 0 <= p < 3) by (change (0 <= p < 3) in Hp; lia).
    small_cases; vm_compute; split; discriminate.
  - cbv zeta. split; [exact V|]. repeat split.
Defined.

(** ** Adding to the LP and shrinking it *)

(** row 1 of [linkedMem] is in use once; it is added to the empty LP and
    removed again *)
Lemma SCIPlpAddRow_ShrinkRows_witness :
  let m1 := snd (SCIPlpAddRow INVALID stdSet 1%nat linkedMem) in
  let r := SCIPlpShrinkRows INVALID stdSet 0 m1 in
  row_nuses (m_rows m1 1%nat) = 2 /\ row_lppos (m_rows m1 1%nat) = 0 /\
  fst r = Ok tt /\
  row_nuses (m_rows (snd r) 1%nat) = 1 /\ row_lppos (m_rows (snd r) 1%nat) = -1 /\
  lp_nrows (m_lp (snd r)) = 0.
Proof.
  destruct (SCIPlpAddRow_ShrinkRows INVALID stdSet 1%nat linkedMem)
    as (H1 & H2 & _ & _ & H5 & H6 & H7 & H8 & _); [vm_compute; discriminate|reflexivity|].
  cbv zeta. repeat split; assumption.
Defined.

Lemma SCIPlpAddCol_ShrinkCols_witness :
  let m1 := snd (SCIPlpAddCol INVALID stdSet 5%nat linkedMem) in
  let r := SCIPlpShrinkCols INVALID 0 m1 in
  col_lppos (m_cols m1 5%nat) = 0 /\ lp_ncols (m_lp m1) = 1 /\
  fst r = Ok tt /\
  col_lppos (m_cols (snd r) 5%nat) = -1 /\ lp_ncols (m_lp (snd r)) = 0.
Proof.
  destruct (SCIPlpAddCol_ShrinkCols INVALID stdSet 5%nat linkedMem)
    as (H1 & _ & H3 & H4 & H5 & H6 & _); [vm_compute; discriminate|].
  cbv zeta. repeat split; assumption.
Defined.


(** ** Activity bounds from scratch *)

(** row 1 with the entries 2 x1 - x2, x1 in [-inf, 5], x2 in [0, +inf],
    activity bounds not yet computed *)
Definition unboundedRowMem : MEM :=
  nilMem
  |> putVar 1%nat (mkVAR 0%float (-1e20)%float 5%float)
  |> putVar 2%nat (mkVAR 0%float 0%float 1e20%float)
  |> putCol 1%nat (nilCol |> set_col_var 1%nat)
  |> putCol 2%nat (nilCol |> set_col_var 2%nat)
  |> putRow 1%nat (nilRow |> set_row_cols [1%nat; 2%nat]
                          |> set_row_vals [2%float; (-1)%float]
                          |> set_row_linkpos [-1; -1]
                          |> set_row_len 2 |> set_row_nunlinked 2).

(** rowCalcActivityBounds counts two infinite contributions to the
    minimal activity and none to the maximal one; then x1 >= 0, x2 <= 10
    and x2 >= -inf arrive through the update routines *)
Lemma activity_counters_exact_witness :
  let evs := [ChgLb 0 0%float; ChgUb 1 10%float; ChgLb 1 (-1e20)%float] in
  let m1 := snd (rowCalcActivityBounds INVALID stdSet 1%nat unboundedRowMem) in
  let s' := fold_left (applyBdchg stdSet) evs (m_rows m1 1%nat, rowDoms m1 1%nat) in
  row_validactivitybds (m_rows m1 1%nat) = true /\
  row_minactivityinf (m_rows m1 1%nat) = 2 /\ row_maxactivityinf (m_rows m1 1%nat) = 0 /\
  row_minactivityinf (fst s') = 0 /\ row_maxactivityinf (fst s') = 1 /\
  minInfCount stdSet (fst s') (snd s') = 0 /\ maxInfCount stdSet (fst s') (snd s') = 1.
Proof.
  cbv zeta.
  destruct (activity_counters_exact INVALID stdSet unboundedRowMem 1%nat
              [ChgLb 0 0%float; ChgUb 1 10%float; ChgLb 1 (-1e20)%float])
    as (_ & Hv & _ & H1 & H2 & _);
    [reflexivity|reflexivity|vm_compute; discriminate|cbn; lia
    |repeat (apply Forall_cons; [vm_compute; (split; [discriminate|reflexivity])|]);
     apply Forall_nil|].
  split; [exact Hv|].
  do 4 (split; [vm_compute; reflexivity|]).
  split; [rewrite <- H1|rewrite <- H2]; vm_compute; reflexivity.
Defined.

(** ** Flushing and solving *)

(** the flush of [flushMem] *)
Lemma lpFlush_post_witness :
  let r := lpFlush INVALID stdSet flushMem in
  fst r = Ok tt /\
  lp_flushed (m_lp (snd r)) = true /\
  lp_nlpicols (m_lp (snd r)) = 1 /\ lp_nlpirows (m_lp (snd r)) = 2 /\
  lp_nchgcols (m_lp (snd r)) = 0 /\ lp_nchgrows (m_lp (snd r)) = 0.
Proof.
  assert (Hok : fst (lpFlush INVALID stdSet flushMem) = Ok tt) by reflexivity.
  destruct (lpFlush_post INVALID stdSet flushMem Hok) as (H1 & _ & _ & H4 & _).
  destruct (H4 eq_refl) as (A & B & C & D).
  cbv zeta. repeat split; assumption.
Defined.

(** the primal simplex on [flushMem], with a solver that reports an
    optimal solution *)
Lemma SCIPlpSolvePrimal_ok_witness :
  let r := SCIPlpSolvePrimal INVALID stdSet flushMem in
  fst r = Ok tt /\
  lp_flushed (m_lp (snd r)) = true /\ lp_solved (m_lp (snd r)) = true /\
  lp_lpsolstat (m_lp (snd r)) = SCIP_LPSOLSTAT_OPTIMAL.
Proof.
  assert (Hok : fst (SCIPlpSolvePrimal INVALID stdSet flushMem) = Ok tt) by reflexivity.
  destruct (SCIPlpSolvePrimal_ok INVALID stdSet flushMem Hok) as (H1 & H2 & _).
  cbv zeta. split; [exact Hok|]. split; [exact H1|]. split; [exact H2|]. reflexivity.
Defined.

(** ** Linking into a locked row *)

(** column 5 has one entry, not yet linked, in the locked row 1 *)
Definition lockedEntryMem : MEM :=
  lockedRowMem
  |> putCol 5%nat (nilCol |> set_col_rows [1%nat] |> set_col_vals [3%float]
                          |> set_col_linkpos [-1] |> set_col_len 1
                          |> set_col_nunlinked 1).

Lemma colLink_locked_row_witness :
  colLink INVALID stdSet 5%nat lockedEntryMem = (Err SCIP_INVALIDDATA, lockedEntryMem).
Proof.
  apply (colLink_locked_row INVALID stdSet 5%nat lockedEntryMem 0);
    [reflexivity|vm_compute; split; [discriminate|reflexivity]| |reflexivity|reflexivity].
  intros i Hi. lia.
Defined.

(** ** Two bound changes of a column in the solver *)

(** column 6 of [flushMem] is in the solver: its lower and then its
    upper bound change *)
Lemma SCIPcolBoundChanged_chgcols_witness :
  let r1 := SCIPcolBoundChanged INVALID stdSet 6%nat SCIP_BOUNDTYPE_LOWER 0%float 1%float
              flushMem in
  let r2 := SCIPcolBoundChanged INVALID stdSet 6%nat SCIP_BOUNDTYPE_UPPER 9%float 8%float
              (snd r1) in
  lp_nchgcols (m_lp flushMem) = 0 /\
  lp_nchgcols (m_lp (snd r1)) = 1 /\
  lp_chgcols (m_lp (snd r1)) = [6%nat] /\
  lp_nchgcols (m_lp (snd r2)) = 1 /\
  lp_chgcols (m_lp (snd r2)) = [6%nat].
Proof.
  destruct (SCIPcolBoundChanged_chgcols INVALID stdSet 6%nat SCIP_BOUNDTYPE_LOWER
              SCIP_BOUNDTYPE_UPPER 0%float 1%float 9%float 8%float flushMem)
    as (_ & _ & H3 & _ & H5 & H6 & _);
    [vm_compute; discriminate|reflexivity|reflexivity|vm_compute; discriminate|].
  cbv zeta. split; [reflexivity|]. split; [exact H3|]. split; [reflexivity|].
  split; [rewrite H5; exact H3|rewrite H6; reflexivity].
Defined.

(** ** The counters of the bound tightening and of the activities *)

(** [2 x1 = 5], x1 integer in [0, 10]: the loop requests one change of
    the upper bound, counts it, and reports the cutoff *)
Lemma linconsTightenBounds_counts_witness :
  match
    linconsTightenBounds vsInfinity vsIsInfinity vsIsSumLT vsIsSumGT vs_lb vs_ub
      vsBestBoundType vsChgVarLb vsChgVarUb 2 0 SCIP_DIDNOTFIND parityState
  with
  | Some (Ok (n, res), s') =>
      n = 1 /\ res = SCIP_CUTOFF /\
      exists calls,
        cl_calls s' = cl_calls parityState ++ calls /\ n = 0 + Z.of_nat (length calls)
  | _ => False
  end.
Proof.
  destruct (linconsTightenBounds vsInfinity vsIsInfinity vsIsSumLT vsIsSumGT vs_lb vs_ub
              vsBestBoundType vsChgVarLb vsChgVarUb 2 0 SCIP_DIDNOTFIND parityState)
    as [[[[n res]|rc] s']|] eqn:E.
  - pose proof (linconsTightenBounds_counts VARSTORE vsInfinity vsIsInfinity vsIsSumLT
                  vsIsSumGT vs_lb vs_ub vsBestBoundType vsChgVarLb vsChgVarUb
                  2 0 n SCIP_DIDNOTFIND res parityState s' E) as (calls & A1 & A2 & _).
    apply (f_equal (option_map fst)) in E. vm_compute in E.
    injection E as En Er. split; [now symmetry|]. split; [now symmetry|].
    exists calls. split; [exact A1|exact A2].
  - apply (f_equal (option_map fst)) in E. vm_compute in E. discriminate E.
  - vm_compute in E. discriminate E.
Defined.

(** the constraint [0 <= 2 x1 - x2 <= 10] on the variables 1 and 2 *)
Definition twoVarCons : LINCONS :=
  mkLINCONS [1%nat; 2%nat] [2%float; (-1)%float] 0%float 10%float 0%float 0%float 0%float
    0 0 2 false false false true false true false true.

(** x1 in [-inf, 5], x2 in [0, +inf] *)
Definition unboundedStore : VARSTORE :=
  mkVARSTORE (fun v => if Nat.eqb v 1 then (-1e20)%float else 0%float)
    (fun v => if Nat.eqb v 1 then 5%float else 1e20%float) (fun _ => false).

Lemma linconsCalcActivities_exact_witness :
  let lc' := linconsCalcActivities vsIsInfinity vs_lb vs_ub vsBestBoundType unboundedStore
               twoVarCons in
  lc_validactivities lc' = true /\
  lc_minactivityinf lc' = 2 /\ lc_maxactivityinf lc' = 0 /\
  linCountersExact (vsIsInfinity unboundedStore) lc'
    (linDoms (vs_lb unboundedStore) (vs_ub unboundedStore) twoVarCons).
Proof.
  destruct (linconsCalcActivities_exact VARSTORE vsIsInfinity vs_lb vs_ub vsBestBoundType
              unboundedStore twoVarCons)
    as (H1 & _ & _ & _ & _ & H6);
    [reflexivity|reflexivity|vm_compute; discriminate|cbn; lia|].
  cbv zeta. split; [exact H1|]. split; [reflexivity|]. split; [reflexivity|exact H6].
Defined.

(** after the activities are computed, the lower bound of x1 moves from
    -inf to 0: one infinite contribution to the minimal activity is left *)
Lemma eventExecLinear_exact_witness :
  let lc := linconsCalcActivities vsIsInfinity vs_lb vs_ub vsBestBoundType unboundedStore
              twoVarCons in
  let doms := [((-1e20)%float, 5%float); (0%float, 1e20%float)] in
  let lc' := eventExecLinear vsIsInfinity vsBestBoundType unboundedStore 0 true 1%nat
               (-1e20)%float 0%float lc in
  lc_minactivityinf lc' = 1 /\ lc_maxactivityinf lc' = 0 /\
  lc_propagated lc' = false /\
  linCountersExact (vsIsInfinity unboundedStore) lc'
    [(0%float, 5%float); (0%float, 1e20%float)].
Proof.
  intros lc doms lc'.
  destruct (eventExecLinear_exact VARSTORE vsIsInfinity vsBestBoundType unboundedStore
              0 true 1%nat 0%float lc doms)
    as (_ & H2 & _ & H4 & _);
    [reflexivity|repeat split; vm_compute; try discriminate; lia
    |split; reflexivity|vm_compute; split; [discriminate|reflexivity]|].
  split; [reflexivity|]. split; [reflexivity|]. split; [exact H2|exact H4].
Defined.


(** ** The objective limit *)

(** the primal simplex on [objlimMem], whose solver reports the objective
    limit and nothing else: LP error, nothing solved *)
Lemma SCIPlpSolvePrimal_objlimit_witness :
  let r := SCIPlpSolvePrimal INVALID stdSet objlimMem in
  fst r = Err SCIP_LPERROR /\
  lp_lpsolstat (m_lp (snd r)) = SCIP_LPSOLSTAT_ERROR /\
  lp_solved (m_lp (snd r)) = false /\
  In LpiSolvePrimal (lpi_calls (lp_lpi (m_lp (snd r)))).
Proof.
  pose proof (SCIPlpSolvePrimal_objlimit INVALID stdSet objlimMem) as H.
  cbv zeta in H.
  destruct H as (H & _); try reflexivity.
  destruct H as (H1 & H2 & _ & H4 & _); try reflexivity.
  cbv zeta. repeat split; auto.
  vm_compute. auto.
Defined.

(** a solver that reports the time limit and the objective limit for the
    same run *)
Definition timelimObjlimLpi : LPI :=
  mkLPI [] (fun _ _ => SCIP_OKAY) 1e30%float
    (fun _ => (SCIP_OKAY, (true, false)))
    (fun _ => false) (fun _ => false) (fun _ => false) (fun _ => false) (fun _ => true)
    (fun _ => true) (fun _ => (SCIP_OKAY, 0%float)) (fun _ _ => (SCIP_OKAY, 0)).

Definition timelimObjlimMem : MEM :=
  nilMem
  |> putRow 1%nat (nilRow |> set_row_lppos 0 |> set_row_rhs 4%float)
  |> putLp (nilLp |> set_lp_lpi timelimObjlimLpi |> set_lp_rows [1%nat] |> set_lp_nrows 1
                  |> set_lp_flushed false |> set_lp_solved false
                  |> set_lp_lpsolstat SCIP_LPSOLSTAT_NOTSOLVED).

(** the solver reports that the objective limit was exceeded, and the time
    limit as well: SCIPlpSolvePrimal returns SCIP_OKAY, the status is
    TIMELIMIT and the LP counts as solved *)
Lemma objlimit_behind_timelimit :
  let r := SCIPlpSolvePrimal INVALID stdSet timelimObjlimMem in
  In LpiSolvePrimal (lpi_calls (lp_lpi (m_lp (snd r)))) /\
  SCIPlpiIsObjlimExc (lp_lpi (m_lp (snd r))) = true /\
  SCIPlpiIsTimelimExc (lp_lpi (m_lp (snd r))) = true /\
  fst r = Ok tt /\
  lp_lpsolstat (m_lp (snd r)) = SCIP_LPSOLSTAT_TIMELIMIT /\
  lp_solved (m_lp (snd r)) = true.
Proof. vm_compute. repeat split. auto. Qed.

(** ** The log of a flush *)


(** ** A coefficient leaves a row in the solver *)

(** row 1 and column 2 are in the solver, the LP is flushed and solved;
    the row holds the entry 3 x2 *)
Definition residentPairMem : MEM :=
  nilMem
  |> putRow 1%nat (nilRow |> set_row_cols [2%nat] |> set_row_vals [3%float]
                          |> set_row_linkpos [-1] |> set_row_len 1 |> set_row_nunlinked 1
                          |> set_row_lppos 0 |> set_row_lpipos 0)
  |> putCol 2%nat (nilCol |> set_col_lppos 0 |> set_col_lpipos 0)
  |> putLp (nilLp |> set_lp_rows [1%nat] |> set_lp_nrows 1
                  |> set_lp_cols [2%nat] |> set_lp_ncols 1
                  |> set_lp_lpirows [1%nat] |> set_lp_nlpirows 1
                  |> set_lp_lpicols [2%nat] |> set_lp_nlpicols 1
                  |> set_lp_lpifirstchgrow 1 |> set_lp_lpifirstchgcol 1).

Lemma structural_mutation_unflushes_witness :
  lp_flushed (m_lp residentPairMem) = true /\
  lp_solved (m_lp residentPairMem) = true /\
  unflushedUnsolved (snd (rowDelCoeffPos INVALID stdSet 1%nat 0 residentPairMem)).
Proof.
  pose proof (structural_mutation_unflushes INVALID stdSet residentPairMem 1%nat 2%nat
                SCIP_BOUNDTYPE_LOWER SCIP_SIDETYPE_LEFT 0%float 0%float 0%float 0%float
                0 0 0 None None) as H.
  cbv zeta in H.
  destruct H as (_ & _ & _ & _ & _ & _ & _ & _ & H & _).
  destruct H as (H & _);
    [vm_compute; discriminate|vm_compute; discriminate|vm_compute; discriminate|].
  split; [reflexivity|]. split; [reflexivity|exact H].
Defined.
